(** * glee: symbolic expressions, symbolic arrays and execution state

    A shallow embedding of the expression constructors (expr.go), of the
    symbolic byte array (array.go) and of the parts of the execution state
    and of the executor (execution_state.go, executor.go) that allocate
    memory, record constraints and translate integer [BinOp] instructions.

    Machine integers are [Z] with the wrap-around written out: [uint64] and
    [uint] are values in [0, 2^64) (the host is a 64-bit one), and the
    conversions [uint8(x)], [int8(x)], ... are [uint8], [int8], ... below.
    A Go panic is the result [Panic msg]; the constructors call each other
    without a structural argument, so they take fuel and [OutOfFuel] is the
    third result. *)

From Stdlib Require Import ZArith List Bool Lia String.
Import ListNotations.
Local Open Scope Z_scope.

(** ** Results of code that may panic *)

Inductive result (A : Type) : Type :=
| Ok (a : A)
| Panic (msg : string)
| OutOfFuel.

Arguments Ok {A} a.
Arguments Panic {A} msg.
Arguments OutOfFuel {A}.

Definition bind {A B : Type} (c : result A) (k : A -> result B) : result B :=
  match c with
  | Ok a => k a
  | Panic msg => Panic msg
  | OutOfFuel => OutOfFuel
  end.

Notation "x <- c ;; k" := (bind c (fun x => k))
  (at level 61, c at next level, right associativity).
Notation "c ;;; k" := (bind c (fun _ => k))
  (at level 61, right associativity).

(** [assert(condition, format, ...)]: panics with the message when the
    condition is false. *)
Definition assert (condition : bool) (msg : string) : result unit :=
  if condition then Ok tt else Panic ("assert: " ++ msg).

(** ** Machine integers *)

Definition uintN (n x : Z) : Z := x mod 2 ^ n.
Definition intN (n x : Z) : Z := (x + 2 ^ (n - 1)) mod 2 ^ n - 2 ^ (n - 1).

Definition uint8 := uintN 8.
Definition uint16 := uintN 16.
Definition uint32 := uintN 32.
Definition uint64 := uintN 64.
Definition int8 := intN 8.
Definition int16 := intN 16.
Definition int32 := intN 32.
Definition int64 := intN 64.

(** [x << s] and [x >> s] at an [n]-bit type; the count [s] is unsigned and a
    count of [n] or more shifts every bit out. *)
Definition shlN (n x s : Z) : Z :=
  if s <? n then uintN n (Z.shiftl x s) else 0.
Definition shrU (n x s : Z) : Z :=
  if s <? n then Z.shiftr x s else 0.
Definition shrS (n x s : Z) : Z :=
  if s <? n then Z.shiftr x s else if x <? 0 then -1 else 0.

(** Integer division and remainder panic on a zero divisor; the signed
    quotient truncates toward zero and wraps at the type's width. *)
Definition divU (x y : Z) : result Z :=
  if y =? 0 then Panic "runtime error: integer divide by zero" else Ok (x / y).
Definition remU (x y : Z) : result Z :=
  if y =? 0 then Panic "runtime error: integer divide by zero" else Ok (x mod y).
Definition divS (n x y : Z) : result Z :=
  if y =? 0 then Panic "runtime error: integer divide by zero"
  else Ok (intN n (Z.quot x y)).
Definition remS (x y : Z) : result Z :=
  if y =? 0 then Panic "runtime error: integer divide by zero"
  else Ok (Z.rem x y).

(** ** Expressions *)

Abbreviation WidthBool := 1 (only parsing).
Abbreviation Width8 := 8 (only parsing).
Abbreviation Width16 := 16 (only parsing).
Abbreviation Width32 := 32 (only parsing).
Abbreviation Width64 := 64 (only parsing).

Inductive BinaryOp : Type :=
| ADD | SUB | MUL | UDIV | SDIV | UREM | SREM
| AND | OR | XOR | SHL | LSHR | ASHR
| EQ | NE | ULT | ULE | UGT | UGE | SLT | SLE | SGT | SGE.

(** The operators are consecutive integers between the four markers
    [arithmetic_op_begin], [arithmetic_op_end], [compare_op_begin] and
    [compare_op_end]. *)
Definition opcode (op : BinaryOp) : Z :=
  match op with
  | ADD => 1 | SUB => 2 | MUL => 3 | UDIV => 4 | SDIV => 5 | UREM => 6
  | SREM => 7 | AND => 8 | OR => 9 | XOR => 10 | SHL => 11 | LSHR => 12
  | ASHR => 13
  | EQ => 16 | NE => 17 | ULT => 18 | ULE => 19 | UGT => 20 | UGE => 21
  | SLT => 22 | SLE => 23 | SGT => 24 | SGE => 25
  end.

Definition IsArithmetic (op : BinaryOp) : bool :=
  (0 <? opcode op) && (opcode op <? 14).

Definition IsCompare (op : BinaryOp) : bool :=
  (15 <? opcode op) && (opcode op <? 26).

Definition BinaryOp_eqb (a b : BinaryOp) : bool := opcode a =? opcode b.

Record ConstantExpr : Type := mkConstant { Value : Z; Width : Z }.

(** An expression is a pointer to one of eight structs; an array is a struct
    with an id, a size in bytes and the head of its linked list of updates.
    [SelectExpr] refers to its array, so the three types are mutual. *)
Inductive Expr : Type :=
| Constant (c : ConstantExpr)
| NotOptimizedExpr (Src : Expr)
| SelectExpr (a : Array) (Index : Expr)
| ConcatExpr (MSB LSB : Expr)
| ExtractExpr (E : Expr) (Offset Width : Z)
| NotExpr (E : Expr)
| CastExpr (Src : Expr) (Width : Z) (Signed : bool)
| BinaryExpr (Op : BinaryOp) (LHS RHS : Expr)
with Array : Type :=
| mkArray (ID Size : Z) (Updates : ArrayUpdate)
with ArrayUpdate : Type :=
| NoUpdate
| Update (Index Value : Expr) (Next : ArrayUpdate).

Scheme Expr_ind3 := Induction for Expr Sort Prop
  with Array_ind3 := Induction for Array Sort Prop
  with ArrayUpdate_ind3 := Induction for ArrayUpdate Sort Prop.
Combined Scheme Expr_Array_ind from Expr_ind3, Array_ind3, ArrayUpdate_ind3.

Definition Const (value width : Z) : Expr := Constant (mkConstant value width).

Definition ArrayID (a : Array) : Z := let 'mkArray id _ _ := a in id.
Definition ArraySize (a : Array) : Z := let 'mkArray _ size _ := a in size.
Definition ArrayUpdates (a : Array) : ArrayUpdate :=
  let 'mkArray _ _ upd := a in upd.

(** [ExprWidth]: the sum of a concatenation is a [uint] sum. *)
Fixpoint ExprWidth (expr : Expr) : Z :=
  match expr with
  | Constant c => Width c
  | NotOptimizedExpr src => ExprWidth src
  | SelectExpr _ _ => Width8
  | ConcatExpr msb lsb => uint64 (ExprWidth msb + ExprWidth lsb)
  | ExtractExpr _ _ width => width
  | NotExpr e => ExprWidth e
  | CastExpr _ width _ => width
  | BinaryExpr op lhs _ => if IsCompare op then WidthBool else ExprWidth lhs
  end.

(** ** Constants *)

(** [1 << width] is a [uint64] shift. *)
Definition bitmask (width : Z) : Z := uint64 (shlN 64 1 width - 1).

Definition NewConstantExpr (value width : Z) : ConstantExpr :=
  mkConstant (Z.land value (bitmask width)) width.

Definition NewConstantExpr64 (value : Z) : ConstantExpr :=
  NewConstantExpr value 64.

Definition NewBoolConstantExpr (value : bool) : ConstantExpr :=
  if value then mkConstant 1 WidthBool else mkConstant 0 WidthBool.

Definition IsTrue (e : ConstantExpr) : bool :=
  (Width e =? WidthBool) && negb (Value e =? 0).

Definition IsFalse (e : ConstantExpr) : bool :=
  (Width e =? WidthBool) && (Value e =? 0).

Definition IsAllOnes (e : ConstantExpr) : bool :=
  Value e =? bitmask (Width e).

Definition IsConstantExpr (expr : Expr) : bool :=
  match expr with Constant _ => true | _ => false end.

Definition IsConstantTrue (expr : Expr) : bool :=
  match expr with Constant c => IsTrue c | _ => false end.

Definition IsConstantFalse (expr : Expr) : bool :=
  match expr with Constant c => IsFalse c | _ => false end.

(** *** Methods of [ConstantExpr]

    The arithmetic of a method is that of the Go type named in its
    conversion; the [switch] on the width has the four cases of the source
    and panics in its default case. *)

Definition Add (e other : ConstantExpr) : result ConstantExpr :=
  assert (Width e =? Width other) "add: width mismatch" ;;;
  Ok (NewConstantExpr (uint64 (Value e + Value other)) (Width e)).

Definition Sub (e other : ConstantExpr) : result ConstantExpr :=
  assert (Width e =? Width other) "sub: width mismatch" ;;;
  Ok (NewConstantExpr (uint64 (Value e - Value other)) (Width e)).

Definition Mul (e other : ConstantExpr) : result ConstantExpr :=
  assert (Width e =? Width other) "mul: width mismatch" ;;;
  Ok (NewConstantExpr
        (Z.land (uint64 (Value e * Value other)) (bitmask (Width e)))
        (Width e)).

Definition UDiv (e other : ConstantExpr) : result ConstantExpr :=
  assert (Width e =? Width other) "udiv: width mismatch" ;;;
  match Width e with
  | Width8 =>
      q <- divU (uint8 (Value e)) (uint8 (Value other)) ;;
      Ok (NewConstantExpr (uint64 q) (Width e))
  | Width16 =>
      q <- divU (uint16 (Value e)) (uint16 (Value other)) ;;
      Ok (NewConstantExpr (uint64 q) (Width e))
  | Width32 =>
      q <- divU (uint32 (Value e)) (uint32 (Value other)) ;;
      Ok (NewConstantExpr (uint64 q) (Width e))
  | Width64 =>
      q <- divU (uint64 (Value e)) (uint64 (Value other)) ;;
      Ok (NewConstantExpr (uint64 q) (Width e))
  | _ => Panic "udiv: non-standard width"
  end.

Definition SDiv (e other : ConstantExpr) : result ConstantExpr :=
  assert (Width e =? Width other) "sdiv: width mismatch" ;;;
  match Width e with
  | Width8 =>
      q <- divS 8 (int8 (Value e)) (int8 (Value other)) ;;
      Ok (NewConstantExpr (uint64 q) (Width e))
  | Width16 =>
      q <- divS 16 (int16 (Value e)) (int16 (Value other)) ;;
      Ok (NewConstantExpr (uint64 q) (Width e))
  | Width32 =>
      q <- divS 32 (int32 (Value e)) (int32 (Value other)) ;;
      Ok (NewConstantExpr (uint64 q) (Width e))
  | Width64 =>
      q <- divS 64 (int64 (Value e)) (int64 (Value other)) ;;
      Ok (NewConstantExpr (uint64 q) (Width e))
  | _ => Panic "sdiv: non-standard width"
  end.

Definition URem (e other : ConstantExpr) : result ConstantExpr :=
  assert (Width e =? Width other) "urem: width mismatch" ;;;
  match Width e with
  | Width8 =>
      r <- remU (uint8 (Value e)) (uint8 (Value other)) ;;
      Ok (NewConstantExpr (uint64 r) (Width e))
  | Width16 =>
      r <- remU (uint16 (Value e)) (uint16 (Value other)) ;;
      Ok (NewConstantExpr (uint64 r) (Width e))
  | Width32 =>
      r <- remU (uint32 (Value e)) (uint32 (Value other)) ;;
      Ok (NewConstantExpr (uint64 r) (Width e))
  | Width64 =>
      r <- remU (uint64 (Value e)) (uint64 (Value other)) ;;
      Ok (NewConstantExpr (uint64 r) (Width e))
  | _ => Panic "urem: non-standard width"
  end.

Definition SRem (e other : ConstantExpr) : result ConstantExpr :=
  assert (Width e =? Width other) "srem: width mismatch" ;;;
  match Width e with
  | Width8 =>
      r <- remS (int8 (Value e)) (int8 (Value other)) ;;
      Ok (NewConstantExpr (uint64 r) (Width e))
  | Width16 =>
      r <- remS (int16 (Value e)) (int16 (Value other)) ;;
      Ok (NewConstantExpr (uint64 r) (Width e))
  | Width32 =>
      r <- remS (int32 (Value e)) (int32 (Value other)) ;;
      Ok (NewConstantExpr (uint64 r) (Width e))
  | Width64 =>
      r <- remS (int64 (Value e)) (int64 (Value other)) ;;
      Ok (NewConstantExpr (uint64 r) (Width e))
  | _ => Panic "srem: non-standard width"
  end.

Definition And (e other : ConstantExpr) : result ConstantExpr :=
  assert (Width e =? Width other) "and: width mismatch" ;;;
  Ok (NewConstantExpr (Z.land (Value e) (Value other)) (Width e)).

Definition Or (e other : ConstantExpr) : result ConstantExpr :=
  assert (Width e =? Width other) "or: width mismatch" ;;;
  Ok (NewConstantExpr (Z.lor (Value e) (Value other)) (Width e)).

Definition Xor (e other : ConstantExpr) : result ConstantExpr :=
  assert (Width e =? Width other) "xor: width mismatch" ;;;
  Ok (NewConstantExpr (Z.lxor (Value e) (Value other)) (Width e)).

Definition Shl (e other : ConstantExpr) : result ConstantExpr :=
  match Width e with
  | Width8 =>
      Ok (NewConstantExpr (uint64 (shlN 8 (uint8 (Value e)) (Value other))) (Width e))
  | Width16 =>
      Ok (NewConstantExpr (uint64 (shlN 16 (uint16 (Value e)) (Value other))) (Width e))
  | Width32 =>
      Ok (NewConstantExpr (uint64 (shlN 32 (uint32 (Value e)) (Value other))) (Width e))
  | Width64 =>
      Ok (NewConstantExpr (shlN 64 (uint64 (Value e)) (Value other)) (Width e))
  | _ => Panic "shl: non-standard width"
  end.

Definition LShr (e other : ConstantExpr) : result ConstantExpr :=
  match Width e with
  | Width8 =>
      Ok (NewConstantExpr (uint64 (shrU 8 (uint8 (Value e)) (Value other))) (Width e))
  | Width16 =>
      Ok (NewConstantExpr (uint64 (shrU 16 (uint16 (Value e)) (Value other))) (Width e))
  | Width32 =>
      Ok (NewConstantExpr (uint64 (shrU 32 (uint32 (Value e)) (Value other))) (Width e))
  | Width64 =>
      Ok (NewConstantExpr (shrU 64 (uint64 (Value e)) (Value other)) (Width e))
  | _ => Panic "lshr: non-standard width"
  end.

Definition AShr (e other : ConstantExpr) : result ConstantExpr :=
  match Width e with
  | Width8 =>
      Ok (NewConstantExpr
            (uint64 (uint8 (shrS 8 (int8 (Value e)) (Value other)))) (Width e))
  | Width16 =>
      Ok (NewConstantExpr
            (uint64 (uint16 (shrS 16 (int16 (Value e)) (Value other)))) (Width e))
  | Width32 =>
      Ok (NewConstantExpr
            (uint64 (uint32 (shrS 32 (int32 (Value e)) (Value other)))) (Width e))
  | Width64 =>
      Ok (NewConstantExpr
            (uint64 (shrS 64 (int64 (Value e)) (Value other))) (Width e))
  | _ => Panic "ashr: non-standard width"
  end.

Definition Eq (e other : ConstantExpr) : result ConstantExpr :=
  assert (Width e =? Width other) "eq: width mismatch" ;;;
  if Value e =? Value other
  then Ok (NewConstantExpr 1 WidthBool)
  else Ok (NewConstantExpr 0 WidthBool).

Definition Ult (e other : ConstantExpr) : result ConstantExpr :=
  match Width e with
  | Width8 => Ok (NewBoolConstantExpr (uint8 (Value e) <? uint8 (Value other)))
  | Width16 => Ok (NewBoolConstantExpr (uint16 (Value e) <? uint16 (Value other)))
  | Width32 => Ok (NewBoolConstantExpr (uint32 (Value e) <? uint32 (Value other)))
  | Width64 => Ok (NewBoolConstantExpr (uint64 (Value e) <? uint64 (Value other)))
  | _ => Panic "ult: non-standard width"
  end.

Definition Ugt (e other : ConstantExpr) : result ConstantExpr := Ult other e.

Definition Ule (e other : ConstantExpr) : result ConstantExpr :=
  match Width e with
  | Width8 => Ok (NewBoolConstantExpr (uint8 (Value e) <=? uint8 (Value other)))
  | Width16 => Ok (NewBoolConstantExpr (uint16 (Value e) <=? uint16 (Value other)))
  | Width32 => Ok (NewBoolConstantExpr (uint32 (Value e) <=? uint32 (Value other)))
  | Width64 => Ok (NewBoolConstantExpr (uint64 (Value e) <=? uint64 (Value other)))
  | _ => Panic "ule: non-standard width"
  end.

Definition Uge (e other : ConstantExpr) : result ConstantExpr := Ule other e.

Definition Slt (e other : ConstantExpr) : result ConstantExpr :=
  match Width e with
  | Width8 => Ok (NewBoolConstantExpr (int8 (Value e) <? int8 (Value other)))
  | Width16 => Ok (NewBoolConstantExpr (int16 (Value e) <? int16 (Value other)))
  | Width32 => Ok (NewBoolConstantExpr (int32 (Value e) <? int32 (Value other)))
  | Width64 => Ok (NewBoolConstantExpr (int64 (Value e) <? int64 (Value other)))
  | _ => Panic "slt: non-standard width"
  end.

Definition Sgt (e other : ConstantExpr) : result ConstantExpr := Slt other e.

Definition Sle (e other : ConstantExpr) : result ConstantExpr :=
  match Width e with
  | Width8 => Ok (NewBoolConstantExpr (int8 (Value e) <=? int8 (Value other)))
  | Width16 => Ok (NewBoolConstantExpr (int16 (Value e) <=? int16 (Value other)))
  | Width32 => Ok (NewBoolConstantExpr (int32 (Value e) <=? int32 (Value other)))
  | Width64 => Ok (NewBoolConstantExpr (int64 (Value e) <=? int64 (Value other)))
  | _ => Panic "sle: non-standard width"
  end.

Definition Sge (e other : ConstantExpr) : result ConstantExpr := Sle other e.

Definition ZExt (e : ConstantExpr) (width : Z) : ConstantExpr :=
  if Width e =? width then e
  else if width =? WidthBool then NewBoolConstantExpr (negb (Value e =? 0))
  else NewConstantExpr (Value e) width.

(** [SExt]: the outer [switch] is on the target width and the inner one on
    the width of [e]; a pair that no case names falls out of both and
    reaches the panic at the end of the method. *)
Definition SExt (e : ConstantExpr) (width : Z) : result ConstantExpr :=
  if Width e =? width then Ok e
  else
    match width, Width e with
    | Width8, Width16 => Ok (NewConstantExpr (uint64 (int16 (int8 (Value e)))) width)
    | Width8, Width32 => Ok (NewConstantExpr (uint64 (int32 (int8 (Value e)))) width)
    | Width8, Width64 => Ok (NewConstantExpr (uint64 (int64 (int8 (Value e)))) width)
    | Width16, Width8 => Ok (NewConstantExpr (uint64 (int8 (int16 (Value e)))) width)
    | Width16, Width32 => Ok (NewConstantExpr (uint64 (int32 (int16 (Value e)))) width)
    | Width16, Width64 => Ok (NewConstantExpr (uint64 (int64 (int16 (Value e)))) width)
    | Width32, Width8 => Ok (NewConstantExpr (uint64 (int8 (int32 (Value e)))) width)
    | Width32, Width16 => Ok (NewConstantExpr (uint64 (int16 (int32 (Value e)))) width)
    | Width32, Width64 => Ok (NewConstantExpr (uint64 (int64 (int32 (Value e)))) width)
    | Width64, Width8 => Ok (NewConstantExpr (uint64 (int8 (int64 (Value e)))) width)
    | Width64, Width16 => Ok (NewConstantExpr (uint64 (int16 (int64 (Value e)))) width)
    | Width64, Width32 => Ok (NewConstantExpr (uint64 (int32 (int64 (Value e)))) width)
    | _, _ => Panic "sext: non-standard width"
    end.

(** [^e.Value] complements the 64 bits of the value. *)
Definition Not (e : ConstantExpr) : ConstantExpr :=
  NewConstantExpr (Z.land (uint64 (Z.lnot (Value e))) (bitmask (Width e))) (Width e).

(** [Extract] shifts the value as an [int64], and masks it with the width of
    [e] before [NewConstantExpr] masks it with the target width. *)
Definition Extract (e : ConstantExpr) (offset width : Z) : ConstantExpr :=
  NewConstantExpr
    (Z.land (uint64 (shrS 64 (int64 (Value e)) offset)) (bitmask (Width e)))
    width.

Definition Concat (e lsb : ConstantExpr) : ConstantExpr :=
  NewConstantExpr
    (Z.lor (shlN 64 (Value e) (Width lsb)) (Value lsb))
    (uint64 (Width e + Width lsb)).

(** ** The canonical comparison

    [CompareExpr] orders expressions by kind and then by their fields;
    the result is -1, 0 or 1.  Expressions and arrays of the embedding are
    never nil; a nil update list is [NoUpdate]. *)

Definition exprKind (expr : Expr) : Z :=
  match expr with
  | Constant _ => 1
  | NotOptimizedExpr _ => 2
  | SelectExpr _ _ => 3
  | ConcatExpr _ _ => 4
  | ExtractExpr _ _ _ => 5
  | NotExpr _ => 6
  | CastExpr _ _ _ => 7
  | BinaryExpr _ _ _ => 8
  end.

Definition compareZ (x y : Z) (next : Z) : Z :=
  if x <? y then -1 else if x >? y then 1 else next.

Definition compareConstantExpr (a b : ConstantExpr) : Z :=
  compareZ (Width a) (Width b) (compareZ (Value a) (Value b) 0).

Fixpoint CompareExpr (a b : Expr) {struct a} : Z :=
  compareZ (exprKind a) (exprKind b)
    match a, b with
    | Constant ca, Constant cb => compareConstantExpr ca cb
    | NotOptimizedExpr sa, NotOptimizedExpr sb => CompareExpr sa sb
    | SelectExpr aa ia, SelectExpr ab ib =>
        let cmp := CompareExpr ia ib in
        if negb (cmp =? 0) then cmp else CompareArray aa ab
    | ConcatExpr ma la, ConcatExpr mb lb =>
        let cmp := CompareExpr ma mb in
        if negb (cmp =? 0) then cmp else CompareExpr la lb
    | ExtractExpr ea oa wa, ExtractExpr eb ob wb =>
        compareZ oa ob (compareZ wa wb (CompareExpr ea eb))
    | NotExpr ea, NotExpr eb => CompareExpr ea eb
    | CastExpr sa wa ga, CastExpr sb wb gb =>
        if ga && negb gb then -1
        else if negb ga && gb then 1
        else compareZ wa wb (CompareExpr sa sb)
    | BinaryExpr oa la ra, BinaryExpr ob lb rb =>
        compareZ (opcode oa) (opcode ob)
          (let cmp := CompareExpr la lb in
           if negb (cmp =? 0) then cmp else CompareExpr ra rb)
    | _, _ => 0 (* the kinds are equal: not reached *)
    end
with CompareArray (a b : Array) {struct a} : Z :=
  match a, b with
  | mkArray ida sa ua, mkArray idb sb ub =>
      compareZ ida idb (compareZ sa sb (CompareArrayUpdate ua ub))
  end
with CompareArrayUpdate (a b : ArrayUpdate) {struct a} : Z :=
  match a, b with
  | NoUpdate, Update _ _ _ => -1
  | Update _ _ _, NoUpdate => 1
  | NoUpdate, NoUpdate => 0
  | Update ia va na, Update ib vb nb =>
      let cmp := CompareExpr ia ib in
      if negb (cmp =? 0) then cmp
      else
        let cmp := CompareExpr va vb in
        if negb (cmp =? 0) then cmp else CompareArrayUpdate na nb
  end.

(** [msb.Expr == lsb.Expr] in [NewConcatExpr] compares two interface values
    that hold pointers: it is the identity of the two objects.  Values of an
    inductive type have no identity; the embedding takes equality of
    structure, which identity implies, decided by the comparator. *)
Definition sameExpr (a b : Expr) : bool := CompareExpr a b =? 0.

(** [first] a rewrite that applies, [otherwise] the rest of the function. *)
Definition otherwise {A : Type} (first : option A) (rest : A) : A :=
  match first with Some r => r | None => rest end.

Definition constant (c : result ConstantExpr) : result Expr :=
  x <- c ;; Ok (Constant x).

(** ** Binary constructors

    Each [new...Expr] is the body of the source function, with the function
    it calls back, [NewBinaryExpr], as a variable of the section; the
    fixpoint after the section closes the recursion on the fuel. *)
Section BinaryConstructors.

Variable NewBinaryExpr : BinaryOp -> Expr -> Expr -> result Expr.

Definition NewIsZeroExpr (other : Expr) : result Expr :=
  NewBinaryExpr EQ other (Constant (NewConstantExpr 0 (ExprWidth other))).

Definition newAddExpr (lhs rhs : Expr) : result Expr :=
  let '(lhs, rhs) :=
    if negb (IsConstantExpr lhs) && IsConstantExpr rhs
    then (rhs, lhs) else (lhs, rhs) in
  if ExprWidth lhs =? WidthBool then NewBinaryExpr XOR lhs rhs
  else
  otherwise
    match lhs with
    | Constant cl =>
        if Value cl =? 0 then Some (Ok rhs)
        else match rhs with
             | Constant cr => Some (constant (Add cl cr))
             | _ => None
             end
    | _ => None
    end (
  otherwise
    match lhs, rhs with
    | Constant _, BinaryExpr ADD (Constant _ as rl) rr =>
        Some (k <- NewBinaryExpr ADD lhs rl ;; NewBinaryExpr ADD k rr)
    | Constant _, BinaryExpr SUB (Constant _ as rl) rr =>
        Some (k <- NewBinaryExpr ADD lhs rl ;; NewBinaryExpr SUB k rr)
    | _, _ => None
    end (
  otherwise
    match lhs with
    | BinaryExpr ADD (Constant _ as ll) lr =>
        Some (e <- NewBinaryExpr ADD lr rhs ;; NewBinaryExpr ADD ll e)
    | BinaryExpr SUB (Constant _ as ll) lr =>
        Some (e <- NewBinaryExpr SUB rhs lr ;; NewBinaryExpr ADD ll e)
    | _ => None
    end (
  otherwise
    match rhs with
    | BinaryExpr ADD (Constant _ as rl) rr =>
        Some (e <- NewBinaryExpr ADD lhs rr ;; NewBinaryExpr ADD rl e)
    | BinaryExpr SUB (Constant _ as rl) rr =>
        Some (e <- NewBinaryExpr SUB lhs rr ;; NewBinaryExpr ADD rl e)
    | _ => None
    end (
  Ok (BinaryExpr ADD lhs rhs))))).

Definition newSubExpr (lhs rhs : Expr) : result Expr :=
  if CompareExpr lhs rhs =? 0
  then Ok (Constant (NewConstantExpr 0 (ExprWidth lhs)))
  else
  otherwise
    match lhs, rhs with
    | Constant cl, Constant cr => Some (constant (Sub cl cr))
    | _, _ => None
    end (
  if ExprWidth lhs =? WidthBool then NewBinaryExpr XOR lhs rhs
  else
  otherwise
    match rhs with
    | Constant cr =>
        if negb (IsConstantExpr lhs)
        then Some (k <- constant (Sub (NewConstantExpr 0 (ExprWidth rhs)) cr) ;;
                   NewBinaryExpr ADD k lhs)
        else None
    | _ => None
    end (
  otherwise
    match lhs, rhs with
    | Constant _, BinaryExpr ADD (Constant _ as rl) rr =>
        Some (k <- NewBinaryExpr SUB lhs rl ;; NewBinaryExpr SUB k rr)
    | Constant _, BinaryExpr SUB (Constant _ as rl) rr =>
        Some (k <- NewBinaryExpr SUB lhs rl ;; NewBinaryExpr ADD k rr)
    | _, _ => None
    end (
  otherwise
    match lhs with
    | BinaryExpr ADD (Constant _ as ll) lr =>
        Some (e <- NewBinaryExpr SUB lr rhs ;; NewBinaryExpr ADD ll e)
    | BinaryExpr SUB (Constant _ as ll) lr =>
        Some (e <- NewBinaryExpr ADD lr rhs ;; NewBinaryExpr SUB ll e)
    | _ => None
    end (
  otherwise
    match rhs with
    | BinaryExpr ADD (Constant _ as rl) rr =>
        Some (e <- NewBinaryExpr SUB lhs rr ;; NewBinaryExpr SUB e rl)
    | BinaryExpr SUB (Constant _ as rl) rr =>
        Some (e <- NewBinaryExpr ADD lhs rr ;; NewBinaryExpr SUB e rl)
    | _ => None
    end (
  Ok (BinaryExpr SUB lhs rhs)))))).

Definition newMulExpr (lhs rhs : Expr) : result Expr :=
  let '(lhs, rhs) :=
    if IsConstantExpr rhs && negb (IsConstantExpr lhs)
    then (rhs, lhs) else (lhs, rhs) in
  otherwise
    match lhs, rhs with
    | Constant cl, Constant cr => Some (constant (Mul cl cr))
    | _, _ => None
    end (
  if ExprWidth lhs =? WidthBool then NewBinaryExpr AND lhs rhs
  else
  otherwise
    match lhs with
    | Constant cl =>
        if Value cl =? 1 then Some (Ok rhs)
        else if Value cl =? 0 then Some (Ok lhs)
        else None
    | _ => None
    end (
  Ok (BinaryExpr MUL lhs rhs))).

Definition newDivExpr (op : BinaryOp) (lhs rhs : Expr) : result Expr :=
  assert (BinaryOp_eqb op UDIV || BinaryOp_eqb op SDIV) "invalid div op" ;;;
  otherwise
    match lhs, rhs with
    | Constant cl, Constant cr =>
        if BinaryOp_eqb op UDIV then Some (constant (UDiv cl cr))
        else Some (constant (SDiv cl cr))
    | _, _ => None
    end (
  if ExprWidth lhs =? WidthBool then Ok lhs
  else Ok (BinaryExpr op lhs rhs)).

Definition newRemExpr (op : BinaryOp) (lhs rhs : Expr) : result Expr :=
  assert (BinaryOp_eqb op UREM || BinaryOp_eqb op SREM) "invalid rem op" ;;;
  otherwise
    match lhs, rhs with
    | Constant cl, Constant cr =>
        if BinaryOp_eqb op UREM then Some (constant (URem cl cr))
        else Some (constant (SRem cl cr))
    | _, _ => None
    end (
  if ExprWidth lhs =? WidthBool then Ok (Constant (NewConstantExpr 0 WidthBool))
  else Ok (BinaryExpr op lhs rhs)).

Definition newAndExpr (lhs rhs : Expr) : result Expr :=
  otherwise
    match lhs, rhs with
    | Constant cl, Constant cr => Some (constant (And cl cr))
    | _, _ => None
    end (
  let '(lhs, rhs) :=
    if IsConstantExpr lhs && negb (IsConstantExpr rhs)
    then (rhs, lhs) else (lhs, rhs) in
  otherwise
    match rhs with
    | Constant cr =>
        if IsAllOnes cr then Some (Ok lhs)
        else if Value cr =? 0 then Some (Ok rhs)
        else None
    | _ => None
    end (
  Ok (BinaryExpr AND lhs rhs))).

Definition newOrExpr (lhs rhs : Expr) : result Expr :=
  otherwise
    match lhs, rhs with
    | Constant cl, Constant cr => Some (constant (Or cl cr))
    | _, _ => None
    end (
  let '(lhs, rhs) :=
    if IsConstantExpr lhs && negb (IsConstantExpr rhs)
    then (rhs, lhs) else (lhs, rhs) in
  otherwise
    match rhs with
    | Constant cr =>
        if IsAllOnes cr then Some (Ok rhs)
        else if Value cr =? 0 then Some (Ok lhs)
        else None
    | _ => None
    end (
  Ok (BinaryExpr OR lhs rhs))).

Definition newXorExpr (lhs rhs : Expr) : result Expr :=
  let '(lhs, rhs) :=
    if negb (IsConstantExpr lhs) && IsConstantExpr rhs
    then (rhs, lhs) else (lhs, rhs) in
  otherwise
    match lhs with
    | Constant cl =>
        if Value cl =? 0 then Some (Ok rhs)
        else match rhs with
             | Constant cr => Some (constant (Xor cl cr))
             | _ => None
             end
    | _ => None
    end (
  Ok (BinaryExpr XOR lhs rhs)).

Definition newShlExpr (lhs rhs : Expr) : result Expr :=
  otherwise
    match lhs, rhs with
    | Constant cl, Constant cr => Some (constant (Shl cl cr))
    | _, _ => None
    end (
  if ExprWidth lhs =? WidthBool
  then z <- NewIsZeroExpr rhs ;; NewBinaryExpr AND lhs z
  else Ok (BinaryExpr SHL lhs rhs)).

Definition newLShrExpr (lhs rhs : Expr) : result Expr :=
  otherwise
    match lhs, rhs with
    | Constant cl, Constant cr => Some (constant (LShr cl cr))
    | _, _ => None
    end (
  if ExprWidth lhs =? WidthBool
  then z <- NewIsZeroExpr rhs ;; NewBinaryExpr AND lhs z
  else Ok (BinaryExpr LSHR lhs rhs)).

Definition newAShrExpr (lhs rhs : Expr) : result Expr :=
  otherwise
    match lhs, rhs with
    | Constant cl, Constant cr => Some (constant (AShr cl cr))
    | _, _ => None
    end (
  if ExprWidth lhs =? WidthBool then Ok lhs
  else Ok (BinaryExpr ASHR lhs rhs)).

Definition newEqExpr (lhs rhs : Expr) : result Expr :=
  let '(lhs, rhs) :=
    if negb (IsConstantExpr lhs) && IsConstantExpr rhs
    then (rhs, lhs) else (lhs, rhs) in
  otherwise
    match lhs with
    | Constant cl =>
        let width := ExprWidth lhs in
        match rhs with
        | Constant cr => Some (constant (Eq cl cr))
        | BinaryExpr EQ rl rr =>
            if width =? WidthBool then
              if IsTrue cl then Some (Ok rhs)
              else if IsConstantFalse lhs && IsConstantFalse rl
                   then Some (Ok rr) else None
            else None
        | BinaryExpr OR rl rr =>
            if width =? WidthBool then
              if IsTrue cl then Some (Ok rhs)
              else if ExprWidth rl =? WidthBool
                   then Some (x <- NewIsZeroExpr rl ;;
                              y <- NewIsZeroExpr rr ;;
                              NewBinaryExpr AND x y)
                   else None
            else None
        | BinaryExpr ADD rl rr =>
            if IsConstantExpr rl
            then Some (k <- NewBinaryExpr SUB lhs rl ;; NewBinaryExpr EQ k rr)
            else None
        | BinaryExpr SUB rl rr =>
            if IsConstantExpr rl
            then Some (k <- NewBinaryExpr SUB rl lhs ;; NewBinaryExpr EQ k rr)
            else None
        | CastExpr src _ signed =>
            let trunc := ZExt cl (ExprWidth src) in
            if signed then
              Some (back <- SExt trunc width ;;
                    if CompareExpr lhs (Constant back) =? 0
                    then NewBinaryExpr EQ src (Constant trunc)
                    else Ok (Constant (NewConstantExpr 0 WidthBool)))
            else
              Some (if CompareExpr lhs (Constant (ZExt trunc width)) =? 0
                    then NewBinaryExpr EQ src (Constant trunc)
                    else Ok (Constant (NewConstantExpr 0 WidthBool)))
        | _ => None
        end
    | _ => None
    end (
  if CompareExpr lhs rhs =? 0
  then Ok (Constant (NewConstantExpr 1 WidthBool))
  else Ok (BinaryExpr EQ lhs rhs)).

Definition newUltExpr (lhs rhs : Expr) : result Expr :=
  otherwise
    match lhs, rhs with
    | Constant cl, Constant cr => Some (constant (Ult cl cr))
    | _, _ => None
    end (
  if ExprWidth lhs =? WidthBool
  then z <- NewIsZeroExpr lhs ;; NewBinaryExpr AND z rhs
  else Ok (BinaryExpr ULT lhs rhs)).

Definition newUleExpr (lhs rhs : Expr) : result Expr :=
  otherwise
    match lhs, rhs with
    | Constant cl, Constant cr => Some (constant (Ule cl cr))
    | _, _ => None
    end (
  if ExprWidth lhs =? WidthBool
  then z <- NewIsZeroExpr lhs ;; NewBinaryExpr OR z rhs
  else Ok (BinaryExpr ULE lhs rhs)).

Definition newSltExpr (lhs rhs : Expr) : result Expr :=
  otherwise
    match lhs, rhs with
    | Constant cl, Constant cr => Some (constant (Slt cl cr))
    | _, _ => None
    end (
  if ExprWidth lhs =? WidthBool
  then z <- NewIsZeroExpr rhs ;; NewBinaryExpr AND lhs z
  else Ok (BinaryExpr SLT lhs rhs)).

Definition newSleExpr (lhs rhs : Expr) : result Expr :=
  otherwise
    match lhs, rhs with
    | Constant cl, Constant cr => Some (constant (Sle cl cr))
    | _, _ => None
    end (
  if ExprWidth lhs =? WidthBool
  then z <- NewIsZeroExpr rhs ;; NewBinaryExpr OR lhs z
  else Ok (BinaryExpr SLE lhs rhs)).

(** The [switch] of [NewBinaryExpr]; [NE] builds the inner equality first. *)
Definition dispatch (op : BinaryOp) (lhs rhs : Expr) : result Expr :=
  match op with
  | ADD => newAddExpr lhs rhs
  | SUB => newSubExpr lhs rhs
  | MUL => newMulExpr lhs rhs
  | UDIV | SDIV => newDivExpr op lhs rhs
  | UREM | SREM => newRemExpr op lhs rhs
  | AND => newAndExpr lhs rhs
  | OR => newOrExpr lhs rhs
  | XOR => newXorExpr lhs rhs
  | SHL => newShlExpr lhs rhs
  | LSHR => newLShrExpr lhs rhs
  | ASHR => newAShrExpr lhs rhs
  | EQ => newEqExpr lhs rhs
  | NE =>
      e <- NewBinaryExpr EQ lhs rhs ;;
      NewBinaryExpr EQ (Constant (NewConstantExpr 0 WidthBool)) e
  | ULT => newUltExpr lhs rhs
  | UGT => newUltExpr rhs lhs
  | ULE => newUleExpr lhs rhs
  | UGE => newUleExpr rhs lhs
  | SLT => newSltExpr lhs rhs
  | SGT => newSltExpr rhs lhs
  | SLE => newSleExpr lhs rhs
  | SGE => newSleExpr rhs lhs
  end.

End BinaryConstructors.

Fixpoint NewBinaryExpr (fuel : nat) (op : BinaryOp) (lhs rhs : Expr)
  : result Expr :=
  match fuel with
  | O => OutOfFuel
  | S fuel' => dispatch (NewBinaryExpr fuel') op lhs rhs
  end.

(** ** Select, concat, extract, not and cast *)

Definition NewSelectExpr (a : Array) (index : Expr) : Expr :=
  SelectExpr a index.

Definition NewNotExpr (expr : Expr) : Expr :=
  match expr with
  | Constant c => Constant (Not c)
  | _ => NotExpr expr
  end.

Definition NewNotOptimizedExpr (src : Expr) : Expr := NotOptimizedExpr src.

Section ConcatConstructor.

Variable NewExtractExpr : Expr -> Z -> Z -> result Expr.

Definition newConcatExpr (msb lsb : Expr) : result Expr :=
  otherwise
    match msb, lsb with
    | Constant cm, Constant cl => Some (Ok (Constant (Concat cm cl)))
    | _, _ => None
    end (
  otherwise
    match msb, lsb with
    | ExtractExpr me mo mw, ExtractExpr le lo lw =>
        if sameExpr me le && (uint64 (lo + lw) =? mo)
        then Some (NewExtractExpr me lo (uint64 (mw + lw)))
        else None
    | _, _ => None
    end (
  Ok (ConcatExpr msb lsb))).

End ConcatConstructor.

(** [NewExtractExpr]: the offsets and widths are [uint]s, and their sums and
    differences wrap. *)
Fixpoint NewExtractExpr (fuel : nat) (expr : Expr) (offset width : Z)
  : result Expr :=
  match fuel with
  | O => OutOfFuel
  | S fuel' =>
      let kw := ExprWidth expr in
      assert (width >? 0) "extract width cannot be zero" ;;;
      assert (uint64 (offset + width) <=? kw) "extract out of bounds" ;;;
      if width =? kw then Ok expr
      else
        match expr with
        | Constant c => Ok (Constant (Extract c offset width))
        | ConcatExpr msb lsb =>
            if offset >=? ExprWidth lsb
            then NewExtractExpr fuel' msb (uint64 (offset - ExprWidth lsb)) width
            else if uint64 (offset + width) <=? ExprWidth lsb
            then NewExtractExpr fuel' lsb offset width
            else
              hi <- NewExtractExpr fuel' msb 0
                      (uint64 (width - ExprWidth lsb + offset)) ;;
              lo <- NewExtractExpr fuel' lsb offset
                      (uint64 (ExprWidth msb - offset)) ;;
              newConcatExpr (NewExtractExpr fuel') hi lo
        | _ => Ok (ExtractExpr expr offset width)
        end
  end.

Definition NewConcatExpr (fuel : nat) (msb lsb : Expr) : result Expr :=
  newConcatExpr (NewExtractExpr fuel) msb lsb.

Definition newZExtExpr (fuel : nat) (src : Expr) (w : Z) : result Expr :=
  let sw := ExprWidth src in
  if w =? sw then Ok src
  else if w <? sw then NewExtractExpr fuel src 0 w
  else match src with
       | Constant c => Ok (Constant (ZExt c w))
       | _ => Ok (CastExpr src w false)
       end.

Definition newSExtExpr (fuel : nat) (src : Expr) (w : Z) : result Expr :=
  let sw := ExprWidth src in
  if w =? sw then Ok src
  else if w <? sw then NewExtractExpr fuel src 0 w
  else match src with
       | Constant c => constant (SExt c w)
       | _ => Ok (CastExpr src w true)
       end.

Definition NewCastExpr (fuel : nat) (src : Expr) (width : Z) (signed : bool)
  : result Expr :=
  if signed then newSExtExpr fuel src width else newZExtExpr fuel src width.

(** ** Symbolic arrays

    [Store] works on a copy of the array struct that shares the update list
    with its receiver, and [storeByte] unlinks shadowed updates from that
    list in place.  The embedding gives the list as the array that was
    written to sees it, which is all that [Select] on that array reads. *)

Definition NewArray (id size : Z) : Array := mkArray id size NoUpdate.

Definition Clone (a : Array) : Array :=
  mkArray (ArrayID a) (ArraySize a) (ArrayUpdates a).

Definition NewArrayUpdate (fuel : nat) (index value : Expr) (next : ArrayUpdate)
  : result ArrayUpdate :=
  i <- newZExtExpr fuel index Width64 ;;
  v <- newZExtExpr fuel value Width8 ;;
  Ok (Update i v next).

(** The loop of [selectByte] over the updates, newest first. *)
Fixpoint selectUpdate (fuel : nat) (a : Array) (index : Expr)
    (upd : ArrayUpdate) : result Expr :=
  match upd with
  | NoUpdate => Ok (NewSelectExpr a index)
  | Update i v next =>
      cond <- NewBinaryExpr fuel EQ index i ;;
      match cond with
      | Constant c =>
          if IsTrue c then Ok v else selectUpdate fuel a index next
      | _ => Ok (NewSelectExpr a index) (* found symbolic index, exit *)
      end
  end.

Definition selectByte (fuel : nat) (a : Array) (index : Expr) : result Expr :=
  assert (ExprWidth index =? 64) "selectByte: invalid array index width" ;;;
  selectUpdate fuel a index (ArrayUpdates a).

(** The second loop of [storeByte]: previous updates of the constant index
    [value] are unlinked, up to the first update with a symbolic index. *)
Fixpoint removeUpdates (value : Z) (upd : ArrayUpdate) : ArrayUpdate :=
  match upd with
  | NoUpdate => NoUpdate
  | Update (Constant c as i) v next =>
      if value =? Value c then removeUpdates value next
      else Update i v (removeUpdates value next)
  | Update _ _ _ => upd
  end.

(** [storeByte] assigns to the array it is called on: the second component
    is that array when the method returns or panics. *)
Definition storeByte (fuel : nat) (index value : Expr) (a : Array)
  : result unit * Array :=
  let checked :=
    assert (ExprWidth index =? 64) "storeByte: invalid array index width" ;;;
    match index with
    | Constant c =>
        assert (Value c <? ArraySize a) "storeByte: index out of bounds"
    | _ => Ok tt
    end ;;;
    NewArrayUpdate fuel index value (ArrayUpdates a) in
  match checked with
  | Ok head =>
      let updates :=
        match index, head with
        | Constant c, Update i v next => Update i v (removeUpdates (Value c) next)
        | _, _ => head
        end in
      (Ok tt, mkArray (ArrayID a) (ArraySize a) updates)
  | Panic msg => (Panic msg, a)
  | OutOfFuel => (OutOfFuel, a)
  end.

(** The value of a local array after a call that may have panicked. *)
Definition returned {A : Type} (call : result unit * A) : result A :=
  _ <- fst call ;; Ok (snd call).

(** The loop of [Select], with [k] iterations left; [acc] is [result]. *)
Fixpoint selectBytes (fuel : nat) (a : Array) (offset : Expr)
    (isLittleEndian : bool) (n : Z) (k : nat) (i : Z) (acc : option Expr)
  : result (option Expr) :=
  match k with
  | O => Ok acc
  | S k' =>
      let byteOffset := if isLittleEndian then i else uint64 (n - i - 1) in
      index <- NewBinaryExpr fuel ADD offset
                 (Constant (NewConstantExpr64 byteOffset)) ;;
      value <- selectByte fuel a index ;;
      r <- (if i =? 0 then Ok value
            else match acc with
                 | Some r => NewConcatExpr fuel value r
                 | None => Ok value (* [result] is set once [i] is not 0 *)
                 end) ;;
      selectBytes fuel a offset isLittleEndian n k' (i + 1) (Some r)
  end.

(** [Select] returns nil, here [None], when the loop does not run. *)
Definition Select (fuel : nat) (a : Array) (offset : Expr) (width : Z)
    (isLittleEndian : bool) : result (option Expr) :=
  assert (width >? 0) "select: invalid width" ;;;
  offset <- newZExtExpr fuel offset Width64 ;;
  if width =? WidthBool then
    b <- selectByte fuel a offset ;;
    e <- NewExtractExpr fuel b 0 WidthBool ;;
    Ok (Some e)
  else
    let n := width / 8 in
    selectBytes fuel a offset isLittleEndian n (Z.to_nat n) 0 None.

(** The loop of [Store], with [k] iterations left. *)
Fixpoint storeBytes (fuel : nat) (offset value : Expr) (isLittleEndian : bool)
    (n : Z) (k : nat) (i : Z) (other : Array) : result Array :=
  match k with
  | O => Ok other
  | S k' =>
      let byteOffset := if isLittleEndian then i else uint64 (n - i - 1) in
      index <- NewBinaryExpr fuel ADD offset
                 (Constant (NewConstantExpr64 (uint64 byteOffset))) ;;
      byte <- NewExtractExpr fuel value (uint64 (i * 8)) Width8 ;;
      other' <- returned (storeByte fuel index byte other) ;;
      storeBytes fuel offset value isLittleEndian n k' (i + 1) other'
  end.

Definition Store (fuel : nat) (a : Array) (offset value : Expr)
    (isLittleEndian : bool) : result Array :=
  let other := Clone a in
  offset <- newZExtExpr fuel offset Width64 ;;
  let width := ExprWidth value in
  assert (width >? 0) "store: invalid width" ;;;
  if width =? WidthBool then returned (storeByte fuel offset value other)
  else
    let n := width / 8 in
    storeBytes fuel offset value isLittleEndian n (Z.to_nat n) 0 other.

(** ** Execution state

    Of the executor the state needs the size of a pointer: [Sizes] looks it
    up for [Arch] in the table of go/types, which is not part of the
    repository; [PointerSize] is that entry, in bytes. *)

Record Executor : Type := mkExecutor {
  Arch : string;
  PointerSize : Z
}.

Definition Sizeof (pointerSize : Z) : Z := uint64 (uint64 pointerSize * 8).

Definition PointerWidth (e : Executor) : Z := Sizeof (PointerSize e).

Definition MaxAllocSize (e : Executor) : Z :=
  if PointerWidth e =? 32 then 1 * 1024 * 1024 (* 1MB *)
  else 256 * 1024 * 1024 (* 256MB *).

Definition IsLittleEndian (e : Executor) : bool :=
  if String.eqb (Arch e) "ppc64" || String.eqb (Arch e) "mips"
     || String.eqb (Arch e) "mips64"
  then false else true.

(** The heap is a sorted map from [uint64] addresses to arrays, ordered by
    [uint64Comparer]: a list of entries in increasing order of their keys.
    [heapSet] is the map's [Set], [heapLast] the entry that the iterator
    yields after [Last], and [heapGet] the map's [Get]. *)
Definition Heap : Type := list (Z * Array).

Fixpoint heapSet (key : Z) (value : Array) (h : Heap) : Heap :=
  match h with
  | [] => [(key, value)]
  | (k, v) :: rest =>
      if key <? k then (key, value) :: h
      else if key =? k then (key, value) :: rest
      else (k, v) :: heapSet key value rest
  end.

Fixpoint heapLast (h : Heap) : option (Z * Array) :=
  match h with
  | [] => None
  | [entry] => Some entry
  | _ :: rest => heapLast rest
  end.

Fixpoint heapGet (key : Z) (h : Heap) : option Array :=
  match h with
  | [] => None
  | (k, v) :: rest => if key =? k then Some v else heapGet key rest
  end.

Record ExecutionState : Type := mkState {
  executor : Executor;
  heap : Heap;
  constraints : list Expr
}.

Definition nextAddr (s : ExecutionState) : Z :=
  match heapLast (heap s) with
  | Some (k, v) => uint64 (k + ArraySize v)
  | None => PointerWidth (executor s)
  end.

(** [Alloc] returns the address and the array, and assigns the new heap. *)
Definition Alloc (width : Z) (s : ExecutionState)
  : (ConstantExpr * Array) * ExecutionState :=
  let addr := nextAddr s in
  let array := NewArray addr width in
  let s' := mkState (executor s) (heapSet addr array (heap s)) (constraints s) in
  ((NewConstantExpr addr (PointerWidth (executor s)), array), s').

(** [AddConstraint] appends to the constraints of the state it is called on:
    the second component is that state when the method returns or panics. *)
Fixpoint AddConstraint (expr : Expr) (s : ExecutionState)
  : result unit * ExecutionState :=
  match expr with
  | Constant c =>
      match assert (IsTrue c) "invalid false constraint" with
      | Ok _ =>
          (Ok tt, mkState (executor s) (heap s) (constraints s ++ [expr]))
      | Panic msg => (Panic msg, s)
      | OutOfFuel => (OutOfFuel, s)
      end
  | BinaryExpr AND lhs rhs =>
      match AddConstraint lhs s with
      | (Ok _, s') => AddConstraint rhs s'
      | failed => failed
      end
  | _ => (Ok tt, mkState (executor s) (heap s) (constraints s ++ [expr]))
  end.

(** ** Binary instructions on integers

    [token.Token] has the operators of a [BinOp] and many others, and
    [types.BasicInfo] is a set of flags, with the values of go/types. *)

Inductive Token : Type :=
| tADD | tSUB | tMUL | tQUO | tREM | tAND | tOR | tXOR | tSHL | tSHR
| tAND_NOT | tEQL | tNEQ | tLSS | tLEQ | tGTR | tGEQ | tOther.

Definition IsBoolean : Z := 1.
Definition IsInteger : Z := 2.
Definition IsUnsigned : Z := 4.
Definition IsFloat : Z := 8.
Definition IsComplex : Z := 16.
Definition IsString : Z := 32.

(** The underlying type of the first operand, as far as the [switch] of
    [executeBinOpInstr] tells types apart. *)
Inductive Underlying : Type :=
| Interface
| Basic (info : Z)
| OtherType.

(** What an instruction leaves: the expression bound to it, or an error. *)
Inductive Outcome : Type :=
| Bound (e : Expr)
| Error (msg : string).

Definition bound (e : result Expr) : result Outcome :=
  x <- e ;; Ok (Bound x).

Definition executeBinOpInstrBoolean (fuel : nat) (op : Token) (x y : Expr)
  : result Outcome :=
  match op with
  | tAND => bound (NewBinaryExpr fuel AND x y)
  | tOR => bound (NewBinaryExpr fuel OR x y)
  | _ => Ok (Error "invalid boolean binop operator")
  end.

Definition executeBinOpInstrInteger (fuel : nat) (op : Token) (x y : Expr)
    (signed : bool) : result Outcome :=
  match op with
  | tADD => bound (NewBinaryExpr fuel ADD x y)
  | tSUB => bound (NewBinaryExpr fuel SUB x y)
  | tMUL => bound (NewBinaryExpr fuel MUL x y)
  | tQUO =>
      if signed then bound (NewBinaryExpr fuel SDIV x y)
      else bound (NewBinaryExpr fuel UDIV x y)
  | tREM =>
      if signed then bound (NewBinaryExpr fuel SREM x y)
      else bound (NewBinaryExpr fuel UREM x y)
  | tAND => bound (NewBinaryExpr fuel AND x y)
  | tOR => bound (NewBinaryExpr fuel OR x y)
  | tXOR => bound (NewBinaryExpr fuel XOR x y)
  | tSHL => bound (NewBinaryExpr fuel SHL x y)
  | tSHR =>
      if signed then bound (NewBinaryExpr fuel ASHR x y)
      else bound (NewBinaryExpr fuel LSHR x y)
  | tAND_NOT => bound (NewBinaryExpr fuel XOR x y)
  | tEQL => bound (NewBinaryExpr fuel EQ x y)
  | tNEQ => bound (NewBinaryExpr fuel NE x y)
  | tLSS =>
      if signed then bound (NewBinaryExpr fuel SLT x y)
      else bound (NewBinaryExpr fuel ULT x y)
  | tLEQ =>
      if signed then bound (NewBinaryExpr fuel SLE x y)
      else bound (NewBinaryExpr fuel ULE x y)
  | tGTR =>
      if signed then bound (NewBinaryExpr fuel SGT x y)
      else bound (NewBinaryExpr fuel UGT x y)
  | tGEQ =>
      if signed then bound (NewBinaryExpr fuel SGE x y)
      else bound (NewBinaryExpr fuel UGE x y)
  | tOther => Ok (Error "invalid integer binop operator")
  end.

(** [executeBinOpInstr], for operands that evaluate to expressions; the
    handlers of interfaces and strings work on arrays and are variables. *)
Section BinOp.

Variable executeBinOpInstrInterface : result Outcome.
Variable executeBinOpInstrString : result Outcome.

Definition executeBinOpInstr (fuel : nat) (typ : Underlying) (op : Token)
    (x y : Expr) : result Outcome :=
  match typ with
  | Interface => executeBinOpInstrInterface
  | Basic info =>
      if negb (Z.land info IsBoolean =? 0)
      then executeBinOpInstrBoolean fuel op x y
      else if negb (Z.land info IsInteger =? 0)
      then executeBinOpInstrInteger fuel op x y (IsUnsigned =? 0)
      else if negb (Z.land info IsFloat =? 0)
      then Ok (Error "floating-point operations are not supported")
      else if negb (Z.land info IsComplex =? 0)
      then Ok (Error "complex number operations are not supported")
      else if negb (Z.land info IsString =? 0)
      then executeBinOpInstrString
      else Ok (Error "unexpected binop basic type")
  | OtherType => Ok (Error "unexpected binop X type")
  end.

End BinOp.

(** ** More of the expressions (expr.go) *)

Definition NewConstantExpr8 (value : Z) : ConstantExpr :=
  NewConstantExpr value 8.

Definition NewConstantExpr16 (value : Z) : ConstantExpr :=
  NewConstantExpr value 16.

Definition NewConstantExpr32 (value : Z) : ConstantExpr :=
  NewConstantExpr value 32.

(** [minBytes]: the sum is a [uint] sum. *)
Definition minBytes (bits : Z) : Z := uint64 (bits + 7) / 8.

(** ** More of the symbolic array (array.go) *)

(** The loop of [zero], with [k] iterations left. *)
Fixpoint zeroBytes (fuel : nat) (k : nat) (i : Z) (a : Array)
  : result unit * Array :=
  match k with
  | O => (Ok tt, a)
  | S k' =>
      match storeByte fuel (Constant (NewConstantExpr64 (uint64 i)))
              (Constant (NewConstantExpr 0 8)) a with
      | (Ok _, a') => zeroBytes fuel k' (i + 1) a'
      | failed => failed
      end
  end.

(** [zero] writes to the array it is called on, like [storeByte]. *)
Definition zero (fuel : nat) (a : Array) : result unit * Array :=
  match ArrayUpdates a with
  | NoUpdate => zeroBytes fuel (Z.to_nat (ArraySize a)) 0 a
  | Update _ _ _ =>
      (Panic "assert: glee.Array: cannot zero-initialize array with updates", a)
  end.

(** [bytes[i] = true]; an index outside of the slice is a run-time panic. *)
Fixpoint setTrue (i : nat) (bytes : list bool) : option (list bool) :=
  match bytes, i with
  | [], _ => None
  | _ :: rest, O => Some (true :: rest)
  | b :: rest, S i' =>
      match setTrue i' rest with
      | Some rest' => Some (b :: rest')
      | None => None
      end
  end.

(** The first loop of [IsSymbolic]: [None] when it returns true at an
    update with a symbolic index, and the marks otherwise. *)
Fixpoint markConcrete (upd : ArrayUpdate) (bytes : list bool)
  : result (option (list bool)) :=
  match upd with
  | NoUpdate => Ok (Some bytes)
  | Update (Constant index) value next =>
      match value with
      | Constant _ =>
          match setTrue (Z.to_nat (Value index)) bytes with
          | Some bytes' => markConcrete next bytes'
          | None => Panic "runtime error: index out of range"
          end
      | _ => markConcrete next bytes
      end
  | Update _ _ _ => Ok None
  end.

Definition IsSymbolic (a : Array) : result bool :=
  marks <- markConcrete (ArrayUpdates a)
             (repeat false (Z.to_nat (ArraySize a))) ;;
  match marks with
  | None => Ok true (* found symbolic index *)
  | Some bytes => Ok (existsb negb bytes)
  end.

(** The loop of [Equal], with [k] iterations left: [inl] is a return from
    inside the loop and [inr] the value of [cond] after it, nil before the
    first iteration. *)
Fixpoint equalBytes (fuel : nat) (a other : Array) (k : nat) (i : Z)
    (cond : option Expr) : result (Expr + option Expr) :=
  match k with
  | O => Ok (inr cond)
  | S k' =>
      let index := Constant (NewConstantExpr64 (uint64 i)) in
      x <- selectByte fuel a index ;;
      y <- selectByte fuel other index ;;
      expr <- newEqExpr (NewBinaryExpr fuel) x y ;;
      if IsConstantFalse expr
      then Ok (inl (Constant (NewBoolConstantExpr false)))
      else
        cond' <- (if i =? 0 then Ok expr
                  else match cond with
                       | Some c => newAndExpr c expr
                       | None => Ok expr (* [cond] is set once [i] is not 0 *)
                       end) ;;
        equalBytes fuel a other k' (i + 1) (Some cond')
  end.

(** [Equal] returns [cond], which is nil, here [None], when the loop does
    not run. *)
Definition Equal (fuel : nat) (a other : Array) : result (option Expr) :=
  if negb (ArraySize a =? ArraySize other)
  then Ok (Some (Constant (NewBoolConstantExpr false)))
  else if ArraySize a =? 0
  then Ok (Some (Constant (NewBoolConstantExpr true)))
  else
    r <- equalBytes fuel a other (Z.to_nat (ArraySize a)) 0 None ;;
    match r with
    | inl early => Ok (Some early)
    | inr cond => Ok cond
    end.

(** The loop of [NotEqual]. *)
Fixpoint notEqualBytes (fuel : nat) (a other : Array) (k : nat) (i : Z)
    (cond : option Expr) : result (Expr + option Expr) :=
  match k with
  | O => Ok (inr cond)
  | S k' =>
      let index := Constant (NewConstantExpr64 (uint64 i)) in
      x <- selectByte fuel a index ;;
      y <- selectByte fuel other index ;;
      eq <- newEqExpr (NewBinaryExpr fuel) x y ;;
      let expr := NewNotExpr eq in
      if IsConstantTrue expr
      then Ok (inl (Constant (NewBoolConstantExpr true)))
      else
        cond' <- (if i =? 0 then Ok expr
                  else match cond with
                       | Some c => newOrExpr c expr
                       | None => Ok expr
                       end) ;;
        notEqualBytes fuel a other k' (i + 1) (Some cond')
  end.

Definition NotEqual (fuel : nat) (a other : Array) : result (option Expr) :=
  if negb (ArraySize a =? ArraySize other)
  then Ok (Some (Constant (NewBoolConstantExpr true)))
  else if ArraySize a =? 0
  then Ok (Some (Constant (NewBoolConstantExpr false)))
  else
    r <- notEqualBytes fuel a other (Z.to_nat (ArraySize a)) 0 None ;;
    match r with
    | inl early => Ok (Some early)
    | inr cond => Ok cond
    end.

(** ** Evaluation of expressions (expr.go)

    [ExprEvaluator] maps the ids of arrays to their initial bytes; the map
    is a list of bindings, the newest first, and a lookup takes the first
    binding of the id. *)

Definition Bindings : Type := list (Z * list Byte.byte).

Fixpoint bytesOf (id : Z) (m : Bindings) : option (list Byte.byte) :=
  match m with
  | [] => None
  | (k, v) :: rest => if id =? k then Some v else bytesOf id rest
  end.

Module ExprEvaluator.
Record ExprEvaluator : Type := mk { m : Bindings }.
End ExprEvaluator.

Abbreviation ExprEvaluator := ExprEvaluator.ExprEvaluator.

(** The loop of [NewExprEvaluator]; [values] has the length of [arrays]. *)
Fixpoint bindArrays (arrays : list Array) (values : list (list Byte.byte))
    (m : Bindings) : result Bindings :=
  match arrays, values with
  | array :: arrays', value :: values' =>
      match bytesOf (ArrayID array) m with
      | Some _ => Panic "assert: duplicate array"
      | None => bindArrays arrays' values' ((ArrayID array, value) :: m)
      end
  | _, _ => Ok m
  end.

Definition NewExprEvaluator (arrays : list Array)
    (values : list (list Byte.byte)) : result ExprEvaluator :=
  assert (Nat.eqb (List.length arrays) (List.length values))
    "array/value count mismatch" ;;;
  m <- bindArrays arrays values [] ;;
  Ok (ExprEvaluator.mk m).

(** The errors that [Evaluate] returns: "array not bound: id=%d" and
    "select index out of bounds: %d >= %d". *)
Inductive EvaluateError : Type :=
| ArrayNotBound (id : Z)
| SelectIndexOutOfBounds (index len : Z).

(** The pair of a constant and an error that [Evaluate] returns, of which
    one is nil. *)
Definition Evaluated : Type := (ConstantExpr + EvaluateError)%type.

(** [x, err := ...; if err != nil { return nil, err }] *)
Definition propagate (c : result Evaluated)
    (k : ConstantExpr -> result Evaluated) : result Evaluated :=
  x <- c ;;
  match x with
  | inl v => k v
  | inr err => Ok (inr err)
  end.

(** The type assertion of a result to a constant, which panics on another
    type. *)
Definition asConstant (e : result Expr) : result Evaluated :=
  x <- e ;;
  match x with
  | Constant c => Ok (inl c)
  | _ => Panic "interface conversion: glee.Expr is not *glee.ConstantExpr"
  end.

(** [initial[i.Value]] after the check of [int(i.Value)] against the
    length: an index of 2^63 or more passes the check as a negative [int]
    and is out of range for the slice. *)
Definition initialByte (id : Z) (i : ConstantExpr) (m : Bindings)
  : result Evaluated :=
  match bytesOf id m with
  | None => Ok (inr (ArrayNotBound id))
  | Some initial =>
      if int64 (Value i) >=? Z.of_nat (List.length initial)
      then Ok (inr (SelectIndexOutOfBounds (Value i)
                      (Z.of_nat (List.length initial))))
      else match nth_error initial (Z.to_nat (Value i)) with
           | Some b => Ok (inl (NewConstantExpr (Z.of_N (Byte.to_N b)) 8))
           | None => Panic "runtime error: index out of range"
           end
  end.

Fixpoint Evaluate (fuel : nat) (ee : ExprEvaluator) (expr : Expr)
    {struct expr} : result Evaluated :=
  match expr with
  | BinaryExpr op lhs rhs =>
      propagate (Evaluate fuel ee lhs) (fun lhs =>
      propagate (Evaluate fuel ee rhs) (fun rhs =>
      asConstant (NewBinaryExpr fuel op (Constant lhs) (Constant rhs))))
  | CastExpr src width signed =>
      propagate (Evaluate fuel ee src) (fun src =>
      asConstant (NewCastExpr fuel (Constant src) width signed))
  | ConcatExpr msb lsb =>
      propagate (Evaluate fuel ee msb) (fun msb =>
      propagate (Evaluate fuel ee lsb) (fun lsb =>
      asConstant (NewConcatExpr fuel (Constant msb) (Constant lsb))))
  | Constant c => Ok (inl c)
  | ExtractExpr e offset width =>
      propagate (Evaluate fuel ee e) (fun exp =>
      asConstant (NewExtractExpr fuel (Constant exp) offset width))
  | NotExpr e =>
      propagate (Evaluate fuel ee e) (fun exp =>
      asConstant (Ok (NewNotExpr (Constant exp))))
  | NotOptimizedExpr src => Evaluate fuel ee src
  | SelectExpr a index =>
      propagate (Evaluate fuel ee index) (fun i => evaluateSelect fuel ee a i)
  end
with evaluateSelect (fuel : nat) (ee : ExprEvaluator) (a : Array)
    (i : ConstantExpr) {struct a} : result Evaluated :=
  match a with
  | mkArray id _ updates => evaluateUpdates fuel ee updates id i
  end
(** The loop over the updates, and the initial value after it. *)
with evaluateUpdates (fuel : nat) (ee : ExprEvaluator) (upd : ArrayUpdate)
    (id : Z) (i : ConstantExpr) {struct upd} : result Evaluated :=
  match upd with
  | NoUpdate => initialByte id i (ExprEvaluator.m ee)
  | Update index value next =>
      propagate (Evaluate fuel ee index) (fun index =>
      if negb (Value index =? Value i)
      then evaluateUpdates fuel ee next id i
      else Evaluate fuel ee value)
  end.

(** ** More of the execution state (execution_state.go) *)

Module glee.

(** The function [AddConstraint] of the package, on a list of constraints. *)
Fixpoint AddConstraint (a : list Expr) (expr : Expr) : list Expr :=
  match expr with
  | BinaryExpr AND lhs rhs => AddConstraint (AddConstraint a lhs) rhs
  | _ => a ++ [expr]
  end.

End glee.

(** The iterator of the sorted map: [Seek] moves to the first entry whose
    key is not below the key sought, the caller moves to the last entry
    with [Last] when there is none, and each [Prev] yields the entry at the
    position and steps back.  [seekOrLast key [] h] is the list of the
    entries that the calls of [Prev] yield. *)
Fixpoint seekOrLast (key : Z) (before : Heap) (h : Heap) : Heap :=
  match h with
  | [] => before
  | (k, v) :: rest =>
      if key <=? k then (k, v) :: before
      else seekOrLast key ((k, v) :: before) rest
  end.

Module State.

Definition findAllocByAddr (addr : ConstantExpr) (s : ExecutionState)
  : option Array :=
  heapGet (Value addr) (heap s).

(** The loop of [findAllocContainingAddr] over the entries that the
    iterator yields. *)
Fixpoint findBackwards (addr : ConstantExpr) (pointerWidth : Z)
    (entries : Heap) : option (ConstantExpr * Array) :=
  match entries with
  | [] => None
  | (key, value) :: rest =>
      if (Value addr >=? key) && (Value addr <? uint64 (key + ArraySize value))
      then Some (NewConstantExpr key pointerWidth, value)
      else if Value addr >? uint64 (key + ArraySize value)
      then None (* target address above allocation, exit *)
      else findBackwards addr pointerWidth rest
  end.

Definition findAllocContainingAddr (addr : ConstantExpr) (s : ExecutionState)
  : option (ConstantExpr * Array) :=
  findBackwards addr (PointerWidth (executor s))
    (seekOrLast (Value addr) [] (heap s)).

(** [i] is an [int]; [uint64(i)] wraps a negative one. *)
Definition selectIntAt (fuel : nat) (array : Array) (i : Z)
    (s : ExecutionState) : result (option Expr) :=
  let pointerWidth := PointerWidth (executor s) in
  Select fuel array
    (Constant (NewConstantExpr32
                 (uint64 (uint64 i * uint64 (pointerWidth / 8)))))
    pointerWidth (IsLittleEndian (executor s)).

Definition storeIntAt (fuel : nat) (array : Array) (i : Z) (value : Expr)
    (s : ExecutionState) : result Array :=
  let pointerWidth := uint64 (PointerWidth (executor s)) in
  Store fuel array
    (Constant (NewConstantExpr64 (uint64 (uint64 i * (pointerWidth / 8)))))
    value (IsLittleEndian (executor s)).

(** The loop of [Copy], with [k] iterations left; [newArray] is the second
    component. *)
Fixpoint copyBytes (fuel : nat) (addr base : ConstantExpr) (value : Array)
    (k : nat) (i : Z) (newArray : Array) : result Array :=
  match k with
  | O => Ok newArray
  | S k' =>
      offset <- newSubExpr (NewBinaryExpr fuel) (Constant addr) (Constant base) ;;
      index <- newAddExpr (NewBinaryExpr fuel) offset
                 (Constant (NewConstantExpr64 i)) ;;
      byte <- selectByte fuel value (Constant (NewConstantExpr64 i)) ;;
      newArray' <- returned (storeByte fuel index byte newArray) ;;
      copyBytes fuel addr base value k' (i + 1) newArray'
  end.

(** [Copy] and [Store] assign the heap of the state they are called on
    once, as their last statement: a panic leaves the state as it was. *)
Definition Copy (fuel : nat) (addr : ConstantExpr) (value : Array)
    (s : ExecutionState) : result unit * ExecutionState :=
  match findAllocContainingAddr addr s with
  | None => (Panic "assert: copy: allocation not found", s)
  | Some (base, array) =>
      match copyBytes fuel addr base value (Z.to_nat (ArraySize value)) 0
              (Clone array) with
      | Ok newArray =>
          (Ok tt, mkState (executor s)
                    (heapSet (Value base) newArray (heap s)) (constraints s))
      | Panic msg => (Panic msg, s)
      | OutOfFuel => (OutOfFuel, s)
      end
  end.

Definition Store (fuel : nat) (addr : ConstantExpr) (value : Expr)
    (s : ExecutionState) : result unit * ExecutionState :=
  match findAllocContainingAddr addr s with
  | None => (Panic "assert: store: allocation not found", s)
  | Some (base, array) =>
      match (offset <- newSubExpr (NewBinaryExpr fuel)
                         (Constant addr) (Constant base) ;;
             Store fuel array offset value (IsLittleEndian (executor s))) with
      | Ok newArray =>
          (Ok tt, mkState (executor s)
                    (heapSet (Value base) newArray (heap s)) (constraints s))
      | Panic msg => (Panic msg, s)
      | OutOfFuel => (OutOfFuel, s)
      end
  end.

End State.

(** ** Walking expressions (expr.go)

    [WalkExpr] calls [Visit] on the expression and walks its children with
    the visitor that [Visit] returns, unless that is nil.  The visitor is
    a pointer, and its state after a walk is the state that the next walk
    starts with.  The one visitor of the package returns the expression it
    is given, so that [WalkExpr] assigns to no field: the embedding is of
    the walk for visitors that observe, and gives the state of the visitor
    after the walk.  [Visit] tells with its boolean whether the visitor it
    returns is not nil. *)

Section Walk.

Variable Visitor : Type.
Variable Visit : Visitor -> Expr -> result (bool * Visitor).

Fixpoint WalkExpr (v : Visitor) (expr : Expr) {struct expr} : result Visitor :=
  visited <- Visit v expr ;;
  let '(descend, v) := visited in
  if negb descend then Ok v
  else
    match expr with
    | BinaryExpr _ lhs rhs =>
        v <- WalkExpr v lhs ;; WalkExpr v rhs
    | CastExpr src _ _ => WalkExpr v src
    | ConcatExpr msb lsb =>
        v <- WalkExpr v msb ;; WalkExpr v lsb
    | Constant _ => Ok v
    | ExtractExpr e _ _ => WalkExpr v e
    | NotExpr e => WalkExpr v e
    | NotOptimizedExpr src => WalkExpr v src
    | SelectExpr a index =>
        v <- WalkExpr v index ;; walkArray v a
    end
with walkArray (v : Visitor) (a : Array) {struct a} : result Visitor :=
  match a with
  | mkArray _ _ updates => walkUpdates v updates
  end
with walkUpdates (v : Visitor) (upd : ArrayUpdate) {struct upd}
  : result Visitor :=
  match upd with
  | NoUpdate => Ok v
  | Update index value next =>
      v <- WalkExpr v index ;;
      v <- WalkExpr v value ;;
      walkUpdates v next
  end.

End Walk.

(** The map of [arrayExprVisitor], from ids to arrays. *)
Definition ArrayMap : Type := list (Z * Array).

Fixpoint arrayOf (id : Z) (m : ArrayMap) : option Array :=
  match m with
  | [] => None
  | (k, v) :: rest => if id =? k then Some v else arrayOf id rest
  end.

Module arrayExprVisitor.

Record arrayExprVisitor : Type := mk { m : ArrayMap }.

Definition Visit (v : arrayExprVisitor) (expr : Expr)
  : result (bool * arrayExprVisitor) :=
  match expr with
  | SelectExpr a _ =>
      symbolic <- IsSymbolic a ;;
      if symbolic then
        match arrayOf (ArrayID a) (m v) with
        | None => Ok (true, mk ((ArrayID a, a) :: m v))
        | Some _ => Ok (true, v)
        end
      else Ok (true, v)
  | _ => Ok (true, v)
  end.

End arrayExprVisitor.

Abbreviation arrayExprVisitor := arrayExprVisitor.arrayExprVisitor.

Definition newArrayExprVisitor : arrayExprVisitor := arrayExprVisitor.mk [].

(** [sort.Slice] with the order of [CompareArray]: the arrays of the map
    have different ids, which the comparison tells apart, so the sorted
    slice does not depend on the order in which the map is iterated.  The
    embedding inserts each array of the map at its place. *)
Fixpoint insertArray (array : Array) (sorted : list Array) : list Array :=
  match sorted with
  | [] => [array]
  | x :: rest =>
      if CompareArray array x =? -1 then array :: sorted
      else x :: insertArray array rest
  end.

Fixpoint walkAll (v : arrayExprVisitor) (exprs : list Expr)
  : result arrayExprVisitor :=
  match exprs with
  | [] => Ok v
  | expr :: rest =>
      v <- WalkExpr arrayExprVisitor arrayExprVisitor.Visit v expr ;;
      walkAll v rest
  end.

Definition FindArrays (exprs : list Expr) : result (list Array) :=
  v <- walkAll newArrayExprVisitor exprs ;;
  Ok (fold_right insertArray [] (map snd (arrayExprVisitor.m v))).

(** ** Searchers (executor.go)

    A searcher holds pointers to execution states; the strategies do not
    look into them, and [StatePtr] is their type.  A nil pointer is
    [None].  The methods assign to the searcher they are called on, and
    return it as their last component. *)

(** The interface [Searcher]. *)
Class Searcher (StatePtr S : Type) : Type := {
  SelectState : S -> result (option StatePtr * S);
  AddState : StatePtr -> S -> result S
}.

(** [a[len(a)-1]] and [a[:len(a)-1]] of a slice that is not empty. *)
Fixpoint splitLast {A : Type} (a : list A) : option (list A * A) :=
  match a with
  | [] => None
  | x :: rest =>
      match splitLast rest with
      | None => Some ([], x)
      | Some (front, y) => Some (x :: front, y)
      end
  end.

Module DFSSearcher.

Record DFSSearcher (StatePtr : Type) : Type := mk { states : list StatePtr }.

Arguments mk {StatePtr} states.
Arguments states {StatePtr} d.

End DFSSearcher.

Abbreviation DFSSearcher := DFSSearcher.DFSSearcher.

Definition NewDFSSearcher {StatePtr : Type} : DFSSearcher StatePtr :=
  DFSSearcher.mk [].

#[export] Instance DFSSearcher_Searcher {StatePtr : Type}
  : Searcher StatePtr (DFSSearcher StatePtr) := {
  SelectState s :=
    match splitLast (DFSSearcher.states s) with
    | None => Ok (None, s)
    | Some (front, state) => Ok (Some state, DFSSearcher.mk front)
    end;
  AddState state s := Ok (DFSSearcher.mk (DFSSearcher.states s ++ [state]))
}.

Module BFSSearcher.

Record BFSSearcher (StatePtr : Type) : Type := mk { states : list StatePtr }.

Arguments mk {StatePtr} states.
Arguments states {StatePtr} b.

End BFSSearcher.

Abbreviation BFSSearcher := BFSSearcher.BFSSearcher.

Definition NewBFSSearcher {StatePtr : Type} : BFSSearcher StatePtr :=
  BFSSearcher.mk [].

#[export] Instance BFSSearcher_Searcher {StatePtr : Type}
  : Searcher StatePtr (BFSSearcher StatePtr) := {
  SelectState s :=
    match BFSSearcher.states s with
    | [] => Ok (None, s)
    | state :: rest => Ok (Some state, BFSSearcher.mk rest)
    end;
  AddState state s := Ok (BFSSearcher.mk (BFSSearcher.states s ++ [state]))
}.

(** A value of the interface: a searcher of some type that implements it. *)
Record AnySearcher (StatePtr : Type) : Type := mkSearcher {
  searcherType : Type;
  searcherMethods : Searcher StatePtr searcherType;
  searcherValue : searcherType
}.

Arguments mkSearcher {StatePtr} searcherType searcherMethods searcherValue.

Module MultiSearcher.

Record MultiSearcher (StatePtr : Type) : Type := mk {
  searchers : list (AnySearcher StatePtr);
  index : Z
}.

Arguments mk {StatePtr} searchers index.
Arguments searchers {StatePtr} m.
Arguments index {StatePtr} m.

End MultiSearcher.

Abbreviation MultiSearcher := MultiSearcher.MultiSearcher.

Definition NewMultiSearcher {StatePtr : Type}
    (searchers : list (AnySearcher StatePtr)) : MultiSearcher StatePtr :=
  MultiSearcher.mk searchers 0.

(** [s.searchers[i]] after the method called on it has assigned to it. *)
Fixpoint replaceAt {A : Type} (i : nat) (x : A) (a : list A) : list A :=
  match a, i with
  | [], _ => []
  | _ :: rest, O => x :: rest
  | y :: rest, S i' => y :: replaceAt i' x rest
  end.

(** The loop of [AddState] over the searchers. *)
Fixpoint addToAll {StatePtr : Type} (state : StatePtr)
    (a : list (AnySearcher StatePtr)) : result (list (AnySearcher StatePtr)) :=
  match a with
  | [] => Ok []
  | mkSearcher T methods s :: rest =>
      s' <- AddState state s ;;
      rest' <- addToAll state rest ;;
      Ok (mkSearcher T methods s' :: rest')
  end.

#[export] Instance MultiSearcher_Searcher {StatePtr : Type}
  : Searcher StatePtr (MultiSearcher StatePtr) := {
  SelectState s :=
    match nth_error (MultiSearcher.searchers s)
            (Z.to_nat (MultiSearcher.index s)) with
    | None => Panic "runtime error: index out of range"
    | Some (mkSearcher T methods chosen) =>
        let index :=
          if MultiSearcher.index s + 1
               >=? Z.of_nat (List.length (MultiSearcher.searchers s))
          then 0 else MultiSearcher.index s + 1 in
        selected <- SelectState chosen ;;
        let '(state, chosen) := selected in
        Ok (state,
            MultiSearcher.mk
              (replaceAt (Z.to_nat (MultiSearcher.index s))
                 (mkSearcher T methods chosen) (MultiSearcher.searchers s))
              index)
    end;
  AddState state s :=
    a <- addToAll state (MultiSearcher.searchers s) ;;
    Ok (MultiSearcher.mk a (MultiSearcher.index s))
}.

(** ** Instructions on memory and strings (executor.go, execution_state.go)

    The handlers of the instructions read the instruction and the frame of
    the state through [Eval]; the embedding gives them the bindings that
    [Eval] returns for the operands, and the sizes that [Sizeof] gives for
    the types of the instruction.  A handler returns an error or nil and
    binds a value to the instruction or sets the status of the state:
    that is its [Effect].  A handler that allocates or stores returns the
    state as well; the embedding gives no state for a handler that
    panics. *)

Inductive Binding : Type :=
| ExprBinding (e : Expr)
| ArrayBinding (a : Array)
| TupleBinding (t : Tuple)
with Tuple : Type :=
| EmptyTuple
| TupleOf (first : Binding) (rest : Tuple).

Inductive Effect : Type :=
| Binds (b : option Binding)
| Panicked (reason : string)
| Returns
| Fails (msg : string).

(** The type assertions of a binding to an array and to an expression. *)
Definition asArray (b : option Binding) : result Array :=
  match b with
  | Some (ArrayBinding a) => Ok a
  | _ => Panic "interface conversion: glee.Binding is not *glee.Array"
  end.

(** [EvalAsConstantExpr]: nil and true for a nil binding. *)
Definition EvalAsConstantExpr (binding : option Binding)
  : option ConstantExpr * bool :=
  match binding with
  | None => (None, true)
  | Some (ExprBinding (Constant c)) => (Some c, true)
  | Some _ => (None, false)
  end.

Definition MustEvalAsExpr (binding : option Binding) : result (option Expr) :=
  match binding with
  | None => Ok None
  | Some (ExprBinding e) => Ok (Some e)
  | Some _ => Panic "glee: binding must be an Expr"
  end.

(** [for i := from; i < n; i++ { body }] with [k] iterations left, for a
    body that assigns to one variable. *)
Fixpoint loop {A : Type} (k : nat) (i : Z) (body : Z -> A -> result A) (a : A)
  : result A :=
  match k with
  | O => Ok a
  | S k' => a' <- body i a ;; loop k' (i + 1) body a'
  end.

(** The heap holds pointers to arrays: a method that assigns to an array
    which [Alloc] has put on the heap assigns to the entry of the heap. *)
Definition assigned (array : Array) (s : ExecutionState) : ExecutionState :=
  mkState (executor s) (heapSet (ArrayID array) array (heap s)) (constraints s).

(** *** Constants

    [Eval] of an [ssa.Const]: [value.Value] is nil, or a constant of one of
    the kinds of go/constant.  [sizeofType] is [Sizeof] of the type that
    the case reads. *)

Inductive ConstValue : Type :=
| NilConst
| BoolConst (b : bool)
| IntConst (v64 : Z) (isExact : bool)
| StringConst (str : list Byte.byte)
| FloatConst
| ComplexConst.

Definition EvalConst (fuel : nat) (value : ConstValue) (sizeofType : Z)
    (s : ExecutionState) : result (Binding * ExecutionState) :=
  match value with
  | NilConst =>
      let size := sizeofType / 8 in
      let '((_, array), s) := Alloc size s in
      array <- returned (zero fuel array) ;;
      Ok (ArrayBinding array, assigned array s)
  | BoolConst b => Ok (ExprBinding (Constant (NewBoolConstantExpr b)), s)
  | IntConst v64 isExact =>
      assert isExact "inexact constant int" ;;;
      Ok (ExprBinding (Constant (NewConstantExpr v64 sizeofType)), s)
  | StringConst str =>
      let array := NewArray 0 (Z.of_nat (List.length str)) in
      array <- loop (List.length str) 0
                 (fun i array =>
                    returned
                      (storeByte fuel (Constant (NewConstantExpr64 (uint64 i)))
                         (Constant
                            (NewConstantExpr
                               (Z.of_N (Byte.to_N
                                  (nth (Z.to_nat i) str Byte.x00))) 8))
                         array))
                 array ;;
      Ok (ArrayBinding array, s)
  | FloatConst =>
      Panic "glee.Executor: floating point constants are not supported"
  | ComplexConst =>
      Panic "glee.Executor: complex constants are not supported"
  end.

(** *** Memory *)

Definition executeAllocInstr (fuel : nat) (isHeap : bool) (sizeofType : Z)
    (s : ExecutionState) : result (Effect * ExecutionState) :=
  if negb isHeap then Ok (Returns, s)
  else
    let size := sizeofType / 8 in
    let '((addr, array), s) := Alloc size s in
    array <- returned (zero fuel array) ;;
    Ok (Binds (Some (ExprBinding (Constant addr))), assigned array s).

(** A method called on a nil address reads [addr.Value]. *)
Definition nilAddress : string :=
  "runtime error: invalid memory address or nil pointer dereference".

Definition executeStoreInstr (fuel : nat) (addr val : option Binding)
    (s : ExecutionState) : result (Effect * ExecutionState) :=
  match EvalAsConstantExpr addr with
  | (_, false) => Ok (Fails "cannot store using symbolic addresses", s)
  | (addr, true) =>
      match val with
      | Some (ArrayBinding value) =>
          match addr with
          | None => Panic nilAddress
          | Some addr =>
              s <- returned (State.Copy fuel addr value s) ;; Ok (Returns, s)
          end
      | Some (ExprBinding value) =>
          match addr with
          | None => Panic nilAddress
          | Some addr =>
              s <- returned (State.Store fuel addr value s) ;; Ok (Returns, s)
          end
      | _ => Ok (Fails "unexpected store value", s)
      end
  end.

(** The load [*x]: [width] is [Sizeof] of the type of the instruction and
    [exprType] is [isExprType] of it. *)
Definition executeUnOpMulInstr (fuel : nat) (width : Z) (exprType : bool)
    (x : option Binding) (s : ExecutionState)
  : result (Effect * ExecutionState) :=
  match x with
  | Some (ExprBinding (Constant addr)) =>
      match State.findAllocContainingAddr addr s with
      | None => Panic "assert: UnOp(MUL): allocation not found"
      | Some (base, array) =>
          if exprType then
            offset <- newSubExpr (NewBinaryExpr fuel)
                        (Constant addr) (Constant base) ;;
            e <- Select fuel array offset width (IsLittleEndian (executor s)) ;;
            Ok (Binds (option_map ExprBinding e), s)
          else
            indexExpr <- newSubExpr (NewBinaryExpr fuel)
                           (Constant addr) (Constant base) ;;
            let pointerWidth := PointerWidth (executor s) in
            let '((_, dst), s) := Alloc (width / 8) s in
            dst <- loop (Z.to_nat (ArraySize dst)) 0
                     (fun i dst =>
                        arrayIndex <-
                          newAddExpr (NewBinaryExpr fuel) indexExpr
                            (Constant (NewConstantExpr i pointerWidth)) ;;
                        byte <- selectByte fuel array arrayIndex ;;
                        returned
                          (storeByte fuel (Constant (NewConstantExpr64 i))
                             byte dst))
                     dst ;;
            Ok (Binds (Some (ArrayBinding dst)), assigned dst s)
      end
  | _ => Panic "interface conversion: glee.Binding is not *glee.ConstantExpr"
  end.

(** The operators of an [ssa.UnOp], and the others. *)
Inductive UnaryToken : Type :=
| uNOT | uSUB | uARROW | uMUL | uXOR | uOther.

Definition executeUnOpInstr (fuel : nat) (op : UnaryToken) (width : Z)
    (exprType : bool) (x : option Binding) (s : ExecutionState)
  : result (Effect * ExecutionState) :=
  match op with
  | uNOT => Ok (Fails "glee.Executor: not operator is not supported", s)
  | uSUB => Ok (Fails "glee.Executor: negation operator is not supported", s)
  | uARROW => Ok (Fails "glee.Executor: arrow operator is not supported", s)
  | uMUL => executeUnOpMulInstr fuel width exprType x s
  | uXOR => Ok (Fails "glee.Executor: xor operator is not supported", s)
  | uOther => Ok (Fails "invalid UnOp operator", s)
  end.

(** [execInt]: a symbolic integer of the width of the type. *)
Definition execInt (fuel : nat) (width : Z) (s : ExecutionState)
  : result (Effect * ExecutionState) :=
  let '((_, array), s) := Alloc (width / 8) s in
  e <- Select fuel array (Constant (NewConstantExpr 0 32)) width
         (IsLittleEndian (executor s)) ;;
  Ok (Binds (option_map ExprBinding e), s).

(** [execString]: a symbolic string of [n] bytes; [n] is the argument. *)
Definition execString (n : option Binding) (s : ExecutionState)
  : result (Effect * ExecutionState) :=
  match n with
  | Some (ExprBinding (Constant n)) =>
      let '((_, array), s) := Alloc (Value n) s in
      Ok (Binds (Some (ArrayBinding array)), s)
  | _ => Ok (Fails "glee.String(): only constant size allowed", s)
  end.

(** *** Strings

    A string is an array of its bytes.  The handlers of the operations on
    strings do not change the heap. *)

Definition executeBinOpInstrInterface (fuel : nat) (op : Token)
    (x y : option Binding) : result Effect :=
  x <- asArray x ;;
  y <- asArray y ;;
  match op with
  | tEQL => e <- Equal fuel x y ;; Ok (Binds (option_map ExprBinding e))
  | tNEQ => e <- NotEqual fuel x y ;; Ok (Binds (option_map ExprBinding e))
  | _ => Ok (Fails "invalid boolean binop operator")
  end.

Definition executeBinOpInstrStringADD (fuel : nat) (x y : option Binding)
  : result Effect :=
  x <- asArray x ;;
  y <- asArray y ;;
  if ArraySize x =? 0 then Ok (Binds (Some (ArrayBinding y)))
  else if ArraySize y =? 0 then Ok (Binds (Some (ArrayBinding x)))
  else
    let array := NewArray 0 (uint64 (ArraySize x + ArraySize y)) in
    array <- loop (Z.to_nat (ArraySize x)) 0
               (fun i array =>
                  let index := Constant (NewConstantExpr64 (uint64 i)) in
                  byte <- selectByte fuel x index ;;
                  returned (storeByte fuel index byte array))
               array ;;
    array <- loop (Z.to_nat (ArraySize y)) 0
               (fun i array =>
                  byte <- selectByte fuel y
                            (Constant (NewConstantExpr64 (uint64 i))) ;;
                  returned
                    (storeByte fuel
                       (Constant
                          (NewConstantExpr64 (uint64 (ArraySize x + i))))
                       byte array))
               array ;;
    Ok (Binds (Some (ArrayBinding array))).

(** The four operators that [executeBinOpInstrString] passes to
    [executeBinOpInstrStringCompare]. *)
Inductive Comparison : Type := LSS | LEQ | GTR | GEQ.

(** The first loop of [executeBinOpInstrStringCompare] appends the selects
    of the bytes of both strings to two slices. *)
Definition selectAll (fuel : nat) (x y : Array) (n : Z)
  : result (list Expr * list Expr) :=
  loop (Z.to_nat n) 0
    (fun i selected =>
       let index := Constant (NewConstantExpr64 i) in
       xi <- selectByte fuel x index ;;
       yi <- selectByte fuel y index ;;
       Ok (fst selected ++ [xi], snd selected ++ [yi]))
    ([], []).

(** [a[i]] of a slice of expressions. *)
Definition at_ (a : list Expr) (i : Z) : result Expr :=
  match nth_error a (Z.to_nat i) with
  | Some e => Ok e
  | None => Panic "runtime error: index out of range"
  end.

Definition executeBinOpInstrStringCompare (fuel : nat) (op : Comparison)
    (x y : option Binding) : result Effect :=
  x <- asArray x ;;
  y <- asArray y ;;
  if (match op with LSS | GTR => true | _ => false end)
     && (ArraySize x =? 0) && (ArraySize y =? 0)
  then Ok (Binds (Some (ExprBinding (Constant (NewBoolConstantExpr false)))))
  else
    let n := if ArraySize x >? ArraySize y then ArraySize y else ArraySize x in
    selected <- selectAll fuel x y n ;;
    let '(xSelectExprs, ySelectExprs) := selected in
    cond <- loop (Z.to_nat n) 0
              (fun i cond =>
                 xi <- at_ xSelectExprs i ;;
                 yi <- at_ ySelectExprs i ;;
                 base <-
                   match op with
                   | LSS | LEQ =>
                       if (i =? uint64 (n - 1))
                          && ((ArraySize x <? ArraySize y)
                              || ((ArraySize x =? ArraySize y)
                                  && match op with LEQ => true | _ => false end))
                       then newUleExpr (NewBinaryExpr fuel) xi yi
                       else newUltExpr (NewBinaryExpr fuel) xi yi
                   | GTR | GEQ =>
                       if (i =? uint64 (n - 1))
                          && ((ArraySize x >? ArraySize y)
                              || ((ArraySize x =? ArraySize y)
                                  && match op with GEQ => true | _ => false end))
                       then newUleExpr (NewBinaryExpr fuel) yi xi
                       else newUltExpr (NewBinaryExpr fuel) yi xi
                   end ;;
                 base <- loop (Z.to_nat i) 0
                           (fun j base =>
                              xj <- at_ xSelectExprs j ;;
                              yj <- at_ ySelectExprs j ;;
                              eq <- newEqExpr (NewBinaryExpr fuel) xj yj ;;
                              newAndExpr base eq)
                           base ;;
                 if i =? 0 then Ok (Some base)
                 else match cond with
                      | Some cond => c <- newOrExpr cond base ;; Ok (Some c)
                      | None => Ok (Some base)
                      end)
              None ;;
    Ok (Binds (option_map ExprBinding cond)).

Definition executeBinOpInstrString (fuel : nat) (op : Token)
    (x y : option Binding) : result Effect :=
  match op with
  | tADD => executeBinOpInstrStringADD fuel x y
  | tEQL =>
      x <- asArray x ;;
      y <- asArray y ;;
      e <- Equal fuel x y ;; Ok (Binds (option_map ExprBinding e))
  | tNEQ =>
      x <- asArray x ;;
      y <- asArray y ;;
      e <- NotEqual fuel x y ;; Ok (Binds (option_map ExprBinding e))
  | tLSS => executeBinOpInstrStringCompare fuel LSS x y
  | tLEQ => executeBinOpInstrStringCompare fuel LEQ x y
  | tGTR => executeBinOpInstrStringCompare fuel GTR x y
  | tGEQ => executeBinOpInstrStringCompare fuel GEQ x y
  | _ => Ok (Fails "invalid string binop operator")
  end.

(** The lookup [s[i]] of a byte of a string. *)
Definition executeLookupInstrString (fuel : nat) (x index : option Binding)
  : result Effect :=
  x <- asArray x ;;
  index <- MustEvalAsExpr index ;;
  match index with
  | None => Panic "unreachable" (* [ExprWidth] of a nil expression *)
  | Some index =>
      index <- newZExtExpr fuel index 64 ;;
      byte <- selectByte fuel x index ;;
      Ok (Binds (Some (ExprBinding byte)))
  end.

(** The slice [s[lo:hi]] of a string. *)
Definition executeSliceInstrString (fuel : nat) (x lo hi : option Binding)
  : result Effect :=
  x <- asArray x ;;
  match EvalAsConstantExpr lo with
  | (_, false) =>
      Ok (Fails "glee.Executor: string slice low index must be a constant expression")
  | (lo, true) =>
      let lo := match lo with Some lo => lo | None => NewConstantExpr64 0 end in
      match EvalAsConstantExpr hi with
      | (_, false) =>
          Ok (Fails "glee.Executor: string slice high index must be a constant expression")
      | (hi, true) =>
          let hi := match hi with
                    | Some hi => hi
                    | None => NewConstantExpr64 (uint64 (ArraySize x))
                    end in
          if (Value hi >? uint64 (ArraySize x)) || (Value lo >? uint64 (ArraySize x))
          then Ok (Panicked "slice bounds out of range")
          else
            let array := NewArray 0 (uint64 (Value hi - Value lo)) in
            array <- loop (Z.to_nat (ArraySize array)) 0
                       (fun i array =>
                          byte <- selectByte fuel x
                                    (Constant
                                       (NewConstantExpr64
                                          (uint64 (uint64 i + Value lo)))) ;;
                          returned
                            (storeByte fuel
                               (Constant (NewConstantExpr64 (uint64 i)))
                               byte array))
                       array ;;
            Ok (Binds (Some (ArrayBinding array)))
      end
  end.

(** ** Definitions used by the statements *)

(** The entries of a heap are in strictly increasing order of their keys. *)
Fixpoint heapSorted (h : Heap) : Prop :=
  match h with
  | [] => True
  | (k, _) :: rest =>
      (forall k', In k' (map fst rest) -> k < k') /\ heapSorted rest
  end.

(** The conjuncts of a constraint: the leaves of its tree of top-level
    [AND]s, from left to right. *)
Fixpoint conjuncts (expr : Expr) : list Expr :=
  match expr with
  | BinaryExpr AND lhs rhs => conjuncts lhs ++ conjuncts rhs
  | _ => [expr]
  end.

Definition isAnd (expr : Expr) : bool :=
  match expr with BinaryExpr AND _ _ => true | _ => false end.

(** A constant that [AddConstraint] rejects. *)
Definition rejected (expr : Expr) : bool :=
  match expr with Constant c => negb (IsTrue c) | _ => false end.

(** The five comparison operators that the constructors build nodes of. *)
Definition primitiveOp (op : BinaryOp) : bool :=
  match op with
  | NE | UGT | UGE | SGT | SGE => false
  | _ => true
  end.

(** No binary node of the expression, of the arrays it selects from or of
    an update list has one of the other five comparison operators. *)
Fixpoint canonical (expr : Expr) : Prop :=
  match expr with
  | Constant _ => True
  | NotOptimizedExpr src => canonical src
  | SelectExpr a index => canonicalArray a /\ canonical index
  | ConcatExpr msb lsb => canonical msb /\ canonical lsb
  | ExtractExpr e _ _ => canonical e
  | NotExpr e => canonical e
  | CastExpr src _ _ => canonical src
  | BinaryExpr op lhs rhs =>
      primitiveOp op = true /\ canonical lhs /\ canonical rhs
  end
with canonicalArray (a : Array) : Prop :=
  match a with
  | mkArray _ _ upd => canonicalUpdates upd
  end
with canonicalUpdates (upd : ArrayUpdate) : Prop :=
  match upd with
  | NoUpdate => True
  | Update i v next => canonical i /\ canonical v /\ canonicalUpdates next
  end.

(** The number of updates of a list. *)
Fixpoint updateCount (upd : ArrayUpdate) : Z :=
  match upd with
  | NoUpdate => 0
  | Update _ _ next => 1 + updateCount next
  end.



(** *** The closed forms of the operations on constants

    A [w]-bit constant is a number below [2 ^ w]; the signed operations read
    it as a two's-complement number.  The arithmetic is modulo [2 ^ w]; a
    comparison gives 1 or 0 at width 1. *)

Definition signedValue (w x : Z) : Z :=
  if x <? 2 ^ (w - 1) then x else x - 2 ^ w.

Definition boolValue (b : bool) : Z := if b then 1 else 0.

Definition binaryValue (op : BinaryOp) (w a b : Z) : Z :=
  match op with
  | ADD => (a + b) mod 2 ^ w
  | SUB => (a - b) mod 2 ^ w
  | MUL => (a * b) mod 2 ^ w
  | UDIV => a / b
  | SDIV => Z.quot (signedValue w a) (signedValue w b) mod 2 ^ w
  | UREM => a mod b
  | SREM => Z.rem (signedValue w a) (signedValue w b) mod 2 ^ w
  | AND => Z.land a b
  | OR => Z.lor a b
  | XOR => Z.lxor a b
  | SHL => (a * 2 ^ b) mod 2 ^ w
  | LSHR => a / 2 ^ b
  | ASHR => (signedValue w a / 2 ^ b) mod 2 ^ w
  | EQ => boolValue (a =? b)
  | NE => boolValue (negb (a =? b))
  | ULT => boolValue (a <? b)
  | ULE => boolValue (a <=? b)
  | UGT => boolValue (b <? a)
  | UGE => boolValue (b <=? a)
  | SLT => boolValue (signedValue w a <? signedValue w b)
  | SLE => boolValue (signedValue w a <=? signedValue w b)
  | SGT => boolValue (signedValue w b <? signedValue w a)
  | SGE => boolValue (signedValue w b <=? signedValue w a)
  end.

Definition binaryWidth (op : BinaryOp) (w : Z) : Z :=
  if IsCompare op then WidthBool else w.

Definition isDivision (op : BinaryOp) : bool :=
  match op with UDIV | SDIV | UREM | SREM => true | _ => false end.

(** The operations whose method on constants has a [switch] on the width:
    division and remainder, the shifts and the ordered comparisons. *)
Definition switchesOnWidth (op : BinaryOp) : bool :=
  match op with
  | ADD | SUB | MUL | AND | OR | XOR | EQ | NE => false
  | _ => true
  end.

Definition standardWidth (w : Z) : Prop := w = 8 \/ w = 16 \/ w = 32 \/ w = 64.

(** *** Reading back what was written *)

(** An update list that starts with updates at constant indices. *)
Fixpoint prepend (entries : list (Z * Expr)) (rest : ArrayUpdate)
  : ArrayUpdate :=
  match entries with
  | [] => rest
  | (k, v) :: entries' => Update (Const k 64) v (prepend entries' rest)
  end.

(** The updates of the first [m] iterations of [Store], newest first:
    iteration [j] writes [bytes j] at index [idx j]. *)
Fixpoint written (idx : Z -> Z) (bytes : Z -> Expr) (m : nat)
  : list (Z * Expr) :=
  match m with
  | O => []
  | S m' => (idx (Z.of_nat m'), bytes (Z.of_nat m')) :: written idx bytes m'
  end.

(** The index that iteration [j] of the loops of [Select] and [Store]
    reads or writes, for [n] bytes at offset [offset]. *)
Definition byteIndex (offset : Z) (isLittleEndian : bool) (n j : Z) : Z :=
  offset + (if isLittleEndian then j else n - j - 1).

(** An expression that [NewExtractExpr] does not look into: neither a
    constant nor a concatenation. *)
Definition isAtom (expr : Expr) : bool :=
  match expr with
  | Constant _ | ConcatExpr _ _ => false
  | _ => true
  end.

(** *** Searchers *)

Section SearcherRuns.

Context {StatePtr T : Type} `{Searcher StatePtr T}.

(** [AddState] for each state of a list, in order. *)
Fixpoint addStates (states : list StatePtr) (s : T) : result T :=
  match states with
  | [] => Ok s
  | state :: rest => s' <- AddState state s ;; addStates rest s'
  end.

(** [n] calls of [SelectState]: the states they return, and the searcher
    after them. *)
Fixpoint selectStates (n : nat) (s : T)
  : result (list (option StatePtr) * T) :=
  match n with
  | O => Ok ([], s)
  | S n' =>
      first <- SelectState s ;;
      let '(state, s') := first in
      others <- selectStates n' s' ;;
      let '(states, s'') := others in
      Ok (state :: states, s'')
  end.

End SearcherRuns.

(** *** Arrays *)

(** The updates of an array after [zero]: a zero byte at each index below
    [m], the highest index first. *)
Definition zeroed (m : nat) : ArrayUpdate :=
  prepend (written (fun j => j) (fun _ => Const 0 8) m) NoUpdate.

(** The update list has an update at the constant index [i] whose value is
    a constant. *)
Fixpoint concreteAt (i : nat) (upd : ArrayUpdate) : Prop :=
  match upd with
  | NoUpdate => False
  | Update index value next =>
      (exists c v,
         index = Constant c /\ Z.to_nat (Value c) = i /\ value = Constant v) \/
      concreteAt i next
  end.

(** Every update of the list is at a constant index. *)
Fixpoint constantIndices (upd : ArrayUpdate) : Prop :=
  match upd with
  | NoUpdate => True
  | Update index _ next => IsConstantExpr index = true /\ constantIndices next
  end.

(** The array holds the bytes of the list: it has their number as its
    size, and a read of a byte at a constant index below it gives the byte
    of the list as a constant. *)
Definition holdsBytes (fuel : nat) (a : Array) (bytes : list Z) : Prop :=
  ArraySize a = Z.of_nat (List.length bytes) /\
  forall j : nat,
    (j < List.length bytes)%nat ->
    0 <= nth j bytes 0 < 256 /\
    selectByte fuel a (Const (Z.of_nat j) 64) = Ok (Const (nth j bytes 0) 8).

(** Two lists of bytes of the same length are equal. *)
Fixpoint sameBytes (xs ys : list Z) : bool :=
  match xs, ys with
  | x :: xs', y :: ys' => (x =? y) && sameBytes xs' ys'
  | _, _ => true
  end.

(** *** The heap *)

(** The allocations of the heap lie in the address space, one after the
    other: an allocation ends at or before the key of every later one. *)
Fixpoint heapDisjoint (h : Heap) : Prop :=
  match h with
  | [] => True
  | (k, v) :: rest =>
      0 <= k /\ 0 <= ArraySize v /\ k + ArraySize v < 2 ^ 64 /\
      (forall k' v', In (k', v') rest -> k + ArraySize v <= k') /\
      heapDisjoint rest
  end.

(** The allocation [(k, v)] of the heap contains the address. *)
Definition contains (h : Heap) (k : Z) (v : Array) (addr : Z) : Prop :=
  In (k, v) h /\ k <= addr < k + ArraySize v.

(** The value of a byte. *)
Definition byteValue (b : Byte.byte) : Z := Z.of_N (Byte.to_N b).

(** The entries before the position of the iterator, nearest first: their
    keys are below the address, and each ends at or before the ones
    nearer to the position begin. *)
Fixpoint behind (addr : Z) (before : Heap) : Prop :=
  match before with
  | [] => True
  | (k, v) :: rest =>
      0 <= k < addr /\ 0 <= ArraySize v /\ k + ArraySize v < 2 ^ 64 /\
      (forall k' v', In (k', v') rest -> k' + ArraySize v' <= k) /\
      behind addr rest
  end.

(** *** The comparator *)

(** The comparison of two keys, the first one deciding unless it is zero. *)
Definition lexicographic (cmp rest : Z) : Z :=
  if negb (cmp =? 0) then cmp else rest.

(** The three results of a comparison. *)
Definition ordering (c : Z) : Prop := c = -1 \/ c = 0 \/ c = 1.

(** *** Strings *)

(** The lexicographic order of two strings of bytes; [orEqual] is its
    value on equal strings. *)
Fixpoint lessBytes (orEqual : bool) (xs ys : list Z) : bool :=
  match xs, ys with
  | [], [] => orEqual
  | [], _ :: _ => true
  | _ :: _, [] => false
  | x :: xs', y :: ys' => (x <? y) || ((x =? y) && lessBytes orEqual xs' ys')
  end.

(** The comparison of two strings that an operator stands for. *)
Definition ordered (op : Comparison) (xs ys : list Z) : bool :=
  match op with
  | LSS => lessBytes false xs ys
  | LEQ => lessBytes true xs ys
  | GTR => lessBytes false ys xs
  | GEQ => lessBytes true ys xs
  end.

(** *** The arrays of an expression *)

(** The arrays of the selects of an expression, in the order in which
    [WalkExpr] visits them: the array of a select, then the arrays of its
    index and of the indices and the values of the updates of its
    array. *)
Fixpoint selects (expr : Expr) : list Array :=
  match expr with
  | BinaryExpr _ lhs rhs => selects lhs ++ selects rhs
  | CastExpr src _ _ => selects src
  | ConcatExpr msb lsb => selects msb ++ selects lsb
  | Constant _ => []
  | ExtractExpr e _ _ => selects e
  | NotExpr e => selects e
  | NotOptimizedExpr src => selects src
  | SelectExpr a index => a :: selects index ++ selectsOfArray a
  end
with selectsOfArray (a : Array) : list Array :=
  match a with
  | mkArray _ _ updates => selectsOfUpdates updates
  end
with selectsOfUpdates (upd : ArrayUpdate) : list Array :=
  match upd with
  | NoUpdate => []
  | Update index value next =>
      selects index ++ selects value ++ selectsOfUpdates next
  end.

(** The visits of [arrayExprVisitor] to the selects of a list of arrays,
    one after the other. *)
Fixpoint visitArrays (v : arrayExprVisitor) (arrays : list Array)
  : result arrayExprVisitor :=
  match arrays with
  | [] => Ok v
  | a :: rest =>
      visited <- arrayExprVisitor.Visit v (SelectExpr a (Const 0 64)) ;;
      visitArrays (snd visited) rest
  end.

(** The ids of a list of arrays increase. *)
Fixpoint increasingIDs (arrays : list Array) : Prop :=
  match arrays with
  | [] => True
  | a :: rest =>
      (forall b, In b rest -> ArrayID a < ArrayID b) /\ increasingIDs rest
  end.

(** The map of the visitor: one array for an id, each of them symbolic. *)
Definition wellKeyed (mp : ArrayMap) : Prop :=
  NoDup (map fst mp) /\
  forall id a, In (id, a) mp -> ArrayID a = id /\ IsSymbolic a = Ok true.

(** *** Symbolic integers *)

(** The bytes that the iterations [0] to [m] of [Select] read from an array
    without updates, as one expression: the byte of iteration [m] is the
    most significant one; [index] gives the index that an iteration
    reads. *)
Fixpoint selectedBytes (array : Array) (index : Z -> Z) (m : nat) : Expr :=
  match m with
  | O => SelectExpr array (Const (index 0) 64)
  | S m' =>
      ConcatExpr (SelectExpr array (Const (index (Z.of_nat m)) 64))
        (selectedBytes array index m')
  end.

(** The integer of the bytes [byte 0] to [byte m], the least significant
    one first. *)
Fixpoint integerOf (byte : Z -> Z) (m : nat) : Z :=
  match m with
  | O => byte 0
  | S m' => byte (Z.of_nat m) * 2 ^ (8 * Z.of_nat m) + integerOf byte m'
  end.

(** * Properties *)

(** ** Machine integers and constants *)

Lemma uintN_small (n x : Z) : 0 <= x < 2 ^ n -> uintN n x = x.
Proof. intros H. unfold uintN. apply Z.mod_small. exact H. Qed.

Lemma uintN_range (n x : Z) : 0 <= n -> 0 <= uintN n x < 2 ^ n.
Proof. intros Hn. unfold uintN. apply Z.mod_pos_bound. apply Z.pow_pos_nonneg; lia. Qed.

Lemma bitmask_ones (w : Z) : 0 <= w <= 64 -> bitmask w = 2 ^ w - 1.
Proof.
  intros Hw. unfold bitmask, shlN.
  destruct (Z.ltb_spec w 64) as [Hlt | Hge].
  - rewrite Z.shiftl_1_l.
    assert (Hpow : 2 ^ w < 2 ^ 64) by (apply Z.pow_lt_mono_r; lia).
    assert (Hpos : 0 < 2 ^ w) by (apply Z.pow_pos_nonneg; lia).
    rewrite (uintN_small 64 (2 ^ w)) by lia.
    apply uintN_small. lia.
  - assert (w = 64) by lia. subst w. reflexivity.
Qed.

Lemma land_bitmask (v w : Z) : 0 <= w <= 64 -> Z.land v (bitmask w) = v mod 2 ^ w.
Proof.
  intros Hw. rewrite bitmask_ones by exact Hw.
  replace (2 ^ w - 1) with (Z.ones w) by (rewrite Z.ones_equiv; lia).
  apply Z.land_ones. lia.
Qed.

Lemma NewConstantExpr_mod (v w : Z) :
  0 <= w <= 64 -> NewConstantExpr v w = mkConstant (v mod 2 ^ w) w.
Proof. intros Hw. unfold NewConstantExpr. rewrite land_bitmask by exact Hw. reflexivity. Qed.

Lemma NewConstantExpr_small (v w : Z) :
  0 <= w <= 64 -> 0 <= v < 2 ^ w -> NewConstantExpr v w = mkConstant v w.
Proof.
  intros Hw Hv. rewrite NewConstantExpr_mod by exact Hw.
  rewrite Z.mod_small by exact Hv. reflexivity.
Qed.

(** ** The heap and allocation *)

Lemma heapGet_heapSet (key : Z) (value : Array) (h : Heap) :
  heapGet key (heapSet key value h) = Some value.
Proof.
  induction h as [| [k v] rest IH]; simpl.
  - rewrite Z.eqb_refl. reflexivity.
  - destruct (Z.ltb_spec key k) as [Hlt | Hge]; simpl.
    + rewrite Z.eqb_refl. reflexivity.
    + destruct (Z.eqb_spec key k) as [Heq | Hne]; simpl.
      * rewrite Z.eqb_refl. reflexivity.
      * destruct (Z.eqb_spec key k); [contradiction | exact IH].
Qed.

Lemma heapSet_keys (key : Z) (value : Array) (h : Heap) (k' : Z) :
  In k' (map fst (heapSet key value h)) <-> k' = key \/ In k' (map fst h).
Proof.
  induction h as [| [k v] rest IH]; simpl.
  - intuition.
  - destruct (Z.ltb_spec key k) as [Hlt | Hge]; simpl.
    + intuition.
    + destruct (Z.eqb_spec key k) as [Heq | Hne]; simpl.
      * subst k. intuition.
      * rewrite IH. intuition.
Qed.

Lemma heapSet_sorted (key : Z) (value : Array) (h : Heap) :
  heapSorted h -> heapSorted (heapSet key value h).
Proof.
  induction h as [| [k v] rest IH]; simpl.
  - intros _. split; [intros k' [] | exact I].
  - intros [Hhd Hrest].
    destruct (Z.ltb_spec key k) as [Hlt | Hge]; simpl.
    + split; [| split; assumption].
      intros k' [Hk | Hk]; [lia | specialize (Hhd k' Hk); lia].
    + destruct (Z.eqb_spec key k) as [Heq | Hne]; simpl.
      * subst k. split; assumption.
      * split; [| apply IH; exact Hrest].
        intros k' Hk. apply heapSet_keys in Hk.
        destruct Hk as [Hk | Hk]; [lia | apply Hhd; exact Hk].
Qed.

Lemma heapLast_nil (h : Heap) : heapLast h = None <-> h = [].
Proof.
  induction h as [| e rest IH]; simpl.
  - tauto.
  - destruct rest as [| e' rest'].
    + split; discriminate.
    + rewrite IH. split; discriminate.
Qed.

Lemma heapLast_in (h : Heap) (k : Z) (v : Array) :
  heapLast h = Some (k, v) -> In k (map fst h).
Proof.
  induction h as [| e rest IH]; simpl.
  - discriminate.
  - destruct rest as [| e' rest'].
    + intros H. injection H as ->. left. reflexivity.
    + intros H. right. apply IH. exact H.
Qed.

Lemma heapLast_highest (h : Heap) (k : Z) (v : Array) :
  heapSorted h -> heapLast h = Some (k, v) ->
  forall k', In k' (map fst h) -> k' <= k.
Proof.
  induction h as [| [k0 v0] rest IH].
  - discriminate.
  - intros [Hhd Hrest] Hlast k' Hin.
    destruct rest as [| e' rest'].
    + simpl in Hlast. injection Hlast as -> ->.
      simpl in Hin. destruct Hin as [-> | []]. lia.
    + assert (Hl : heapLast (e' :: rest') = Some (k, v)) by exact Hlast.
      destruct Hin as [Hk | Hk].
      * simpl in Hk. subst k'.
        pose proof (Hhd k (heapLast_in _ _ _ Hl)). lia.
      * apply (IH Hrest Hl k' Hk).
Qed.

Lemma PointerWidth_bits (e : Executor) :
  0 <= PointerSize e < 2 ^ 61 -> PointerWidth e = 8 * PointerSize e.
Proof.
  intros H. unfold PointerWidth, Sizeof, uint64.
  rewrite (uintN_small 64 (PointerSize e)) by lia.
  rewrite uintN_small by lia. lia.
Qed.

(** C4, as the code has it: the limit is 1 MiB for 4-byte pointers and
    256 MiB for 8-byte pointers, and [Alloc] does not look at it; an
    allocation of any size returns an array of that size, placed in the heap
    at the next address. *)
Theorem C4_alloc_ignores_limit :
  (forall e, PointerSize e = 4 -> MaxAllocSize e = 1048576) /\
  (forall e, PointerSize e = 8 -> MaxAllocSize e = 268435456) /\
  (forall width s,
      let '((addr, array), s') := Alloc width s in
      ArraySize array = width /\
      heapGet (nextAddr s) (heap s') = Some array).
Proof.
  split; [| split].
  - intros e H. unfold MaxAllocSize, PointerWidth. rewrite H. reflexivity.
  - intros e H. unfold MaxAllocSize, PointerWidth. rewrite H. reflexivity.
  - intros width s. simpl. split; [reflexivity | apply heapGet_heapSet].
Qed.

Lemma C4_alloc_ignores_limit_witness :
  MaxAllocSize (mkExecutor "386" 4) = 1048576 /\
  MaxAllocSize (mkExecutor "amd64" 8) = 268435456.
Proof.
  split.
  - apply (proj1 C4_alloc_ignores_limit). reflexivity.
  - apply (proj1 (proj2 C4_alloc_ignores_limit)). reflexivity.
Defined.

(** C4 as stated fails: on a 64-bit target an allocation of one byte more
    than the limit is not a fatal error; the array is in the heap. *)
Lemma C4_counterexample :
  let e := mkExecutor "amd64" 8 in
  let s := mkState e [] [] in
  MaxAllocSize e < 268435457 /\
  Alloc 268435457 s =
    ((mkConstant 64 64, mkArray 64 268435457 NoUpdate),
     mkState e [(64, mkArray 64 268435457 NoUpdate)] []).
Proof. split; reflexivity. Qed.

(** C5, as the code has it: a new allocation is placed at the address
    after the highest existing one, last_addr + last_size as a [uint64], and
    the first one at the pointer width in bits, eight times the pointer
    size; the address is above every existing one when the highest existing
    allocation has a size that is not zero and the sum does not wrap; the
    id of the array is its address, under which the heap holds it, and the
    heap stays sorted. *)
Theorem C5_alloc_address (width : Z) (s : ExecutionState) :
  heapSorted (heap s) ->
  0 <= PointerSize (executor s) < 2 ^ 61 ->
  let '((addr, array), s') := Alloc width s in
  (heap s = [] -> ArrayID array = 8 * PointerSize (executor s)) /\
  (forall k v, heapLast (heap s) = Some (k, v) ->
     ArrayID array = uint64 (k + ArraySize v)) /\
  (forall k v, heapLast (heap s) = Some (k, v) ->
     0 <= k -> 0 < ArraySize v -> k + ArraySize v < 2 ^ 64 ->
     forall k', In k' (map fst (heap s)) -> k' < ArrayID array) /\
  ArrayID array = nextAddr s /\
  heapGet (ArrayID array) (heap s') = Some array /\
  addr = NewConstantExpr (ArrayID array) (PointerWidth (executor s)) /\
  heapSorted (heap s').
Proof.
  intros Hsorted Hptr. simpl.
  repeat split.
  - intros Hempty. unfold nextAddr. rewrite Hempty. simpl.
    apply PointerWidth_bits. exact Hptr.
  - intros k v Hlast. unfold nextAddr. rewrite Hlast. reflexivity.
  - intros k v Hlast Hk Hsize Hfit k' Hin.
    unfold nextAddr. rewrite Hlast.
    pose proof (heapLast_highest _ _ _ Hsorted Hlast k' Hin) as Hle.
    unfold uint64. rewrite uintN_small by lia. lia.
  - apply heapGet_heapSet.
  - apply heapSet_sorted. exact Hsorted.
Qed.

Lemma C5_alloc_address_witness :
  let s := mkState (mkExecutor "amd64" 8) [(64, mkArray 64 16 NoUpdate)] [] in
  let '((addr, array), s') := Alloc 24 s in
  (heap s = [] -> ArrayID array = 8 * PointerSize (executor s)) /\
  (forall k v, heapLast (heap s) = Some (k, v) ->
     ArrayID array = uint64 (k + ArraySize v)) /\
  (forall k v, heapLast (heap s) = Some (k, v) ->
     0 <= k -> 0 < ArraySize v -> k + ArraySize v < 2 ^ 64 ->
     forall k', In k' (map fst (heap s)) -> k' < ArrayID array) /\
  ArrayID array = nextAddr s /\
  heapGet (ArrayID array) (heap s') = Some array /\
  addr = NewConstantExpr (ArrayID array) (PointerWidth (executor s)) /\
  heapSorted (heap s').
Proof.
  apply (C5_alloc_address 24
           (mkState (mkExecutor "amd64" 8) [(64, mkArray 64 16 NoUpdate)] [])).
  - simpl. split; [intros k' [] | exact I].
  - simpl. lia.
Defined.

(** C5 as stated fails twice on a 64-bit target: the first allocation is at
    address 64, the pointer width in bits, and not at 8; and an allocation
    that follows one of size zero gets the same address, and takes its
    place in the heap. *)
Lemma C5_counterexample :
  let s := mkState (mkExecutor "amd64" 8) [] [] in
  let '((addr1, array1), s1) := Alloc 0 s in
  let '((addr2, array2), s2) := Alloc 24 s1 in
  ArrayID array1 = 64 /\ ArrayID array1 <> PointerSize (executor s) /\
  ArrayID array2 = ArrayID array1 /\
  heap s2 = [(64, mkArray 64 24 NoUpdate)].
Proof. simpl. repeat split. discriminate. Qed.

(** ** Constraints *)

Lemma AddConstraint_leaf (expr : Expr) (s : ExecutionState) :
  isAnd expr = false -> rejected expr = false ->
  AddConstraint expr s =
    (Ok tt, mkState (executor s) (heap s) (constraints s ++ [expr])).
Proof.
  intros Hand Hrej.
  destruct expr as [c | | | | | | | op l r]; simpl in *; try reflexivity.
  - apply negb_false_iff in Hrej. rewrite Hrej. reflexivity.
  - destruct op; try reflexivity. discriminate.
Qed.

Lemma AddConstraint_and (lhs rhs : Expr) (s : ExecutionState) :
  AddConstraint (BinaryExpr AND lhs rhs) s =
    match AddConstraint lhs s with
    | (Ok _, s') => AddConstraint rhs s'
    | failed => failed
    end.
Proof. reflexivity. Qed.

Ltac leaf_added :=
  match goal with
  | |- context [AddConstraint ?e _] =>
      exists [e]; simpl; repeat split; auto
  end.

(** The constraints that a call leaves are the old ones followed by
    conjuncts of the expression, whatever the call's result. *)
Lemma AddConstraint_extends (expr : Expr) :
  forall s, exists added,
    constraints (snd (AddConstraint expr s)) = constraints s ++ added /\
    Forall (fun c => isAnd c = false) added /\
    (fst (AddConstraint expr s) = Ok tt -> added = conjuncts expr).
Proof.
  induction expr as [c | | | | | | | op l IHl r IHr]; intros s;
    try (leaf_added; fail).
  - simpl. destruct (IsTrue c); simpl.
    + exists [Constant c]. repeat split; auto.
    + exists []. rewrite app_nil_r. repeat split; [constructor | discriminate].
  - destruct op; try (leaf_added; fail).
    rewrite AddConstraint_and.
    destruct (IHl s) as [addl [Hl [Hfl Hokl]]].
    destruct (AddConstraint l s) as [rl sl] eqn:El. simpl in Hl, Hokl.
    destruct rl as [[] | msg |].
    + destruct (IHr sl) as [addr [Hr [Hfr Hokr]]].
      exists (addl ++ addr). split; [| split].
      * rewrite Hr, Hl, app_assoc. reflexivity.
      * apply Forall_app. split; assumption.
      * intros Hok. rewrite (Hokl eq_refl), (Hokr Hok). reflexivity.
    + exists addl. simpl. repeat split; [exact Hl | exact Hfl | discriminate].
    + exists addl. simpl. repeat split; [exact Hl | exact Hfl | discriminate].
Qed.

(** A call returns when no conjunct is a constant other than true. *)
Lemma AddConstraint_returns (expr : Expr) :
  forall s, Forall (fun c => rejected c = false) (conjuncts expr) ->
            fst (AddConstraint expr s) = Ok tt.
Proof.
  induction expr as [c | | | | | | | op l IHl r IHr]; intros s Hall;
    try reflexivity.
  - simpl in *. inversion Hall as [| ? ? Hc _]; subst. simpl in Hc.
    apply negb_false_iff in Hc. rewrite Hc. reflexivity.
  - destruct op; try reflexivity.
    rewrite AddConstraint_and. simpl in Hall.
    apply Forall_app in Hall. destruct Hall as [Hl Hr].
    specialize (IHl s Hl).
    destruct (AddConstraint l s) as [rl sl]. simpl in IHl. subst rl.
    apply IHr. exact Hr.
Qed.

(** C8: adding a constant false panics and leaves the state as it was; a
    top-level AND adds its left operand and then its right one, a call that
    returns has appended the conjuncts of the expression in their order,
    and it returns when none of them is a constant other than true; a
    boolean expression that is neither a constant false nor an AND is
    appended; the old constraints stay in front, in their order, and what
    is appended is never an AND. *)
Theorem C8_add_constraint :
  (forall c s, IsFalse c = true ->
     AddConstraint (Constant c) s = (Panic "assert: invalid false constraint", s)) /\
  (forall lhs rhs s,
     AddConstraint (BinaryExpr AND lhs rhs) s =
       match AddConstraint lhs s with
       | (Ok _, s') => AddConstraint rhs s'
       | failed => failed
       end) /\
  (forall expr s,
     Forall (fun c => rejected c = false) (conjuncts expr) ->
     fst (AddConstraint expr s) = Ok tt /\
     constraints (snd (AddConstraint expr s)) = constraints s ++ conjuncts expr) /\
  (forall expr s,
     ExprWidth expr = WidthBool -> IsConstantFalse expr = false ->
     isAnd expr = false ->
     AddConstraint expr s =
       (Ok tt, mkState (executor s) (heap s) (constraints s ++ [expr]))) /\
  (forall expr s, exists added,
     constraints (snd (AddConstraint expr s)) = constraints s ++ added /\
     Forall (fun c => isAnd c = false) added).
Proof.
  split; [| split; [| split; [| split]]].
  - intros c s Hc. unfold IsFalse in Hc. apply andb_true_iff in Hc.
    destruct Hc as [Hw Hv]. simpl. unfold IsTrue. rewrite Hw, Hv. reflexivity.
  - intros. apply AddConstraint_and.
  - intros expr s Hall.
    pose proof (AddConstraint_returns expr s Hall) as Hok.
    destruct (AddConstraint_extends expr s) as [added [Hadd [_ Hconj]]].
    split; [exact Hok |]. rewrite Hadd, (Hconj Hok). reflexivity.
  - intros expr s Hw Hfalse Hand. apply AddConstraint_leaf; [exact Hand |].
    destruct expr as [c | | | | | | |]; try reflexivity.
    simpl in *. unfold IsFalse, IsTrue in *. rewrite Hw in *. simpl in *.
    rewrite Hfalse. reflexivity.
  - intros expr s. destruct (AddConstraint_extends expr s) as [added [H1 [H2 _]]].
    exists added. split; assumption.
Qed.

Lemma C8_add_constraint_witness :
  let x := SelectExpr (NewArray 0 1) (Const 0 64) in
  let guard := BinaryExpr EQ (Const 7 8) x in
  let s := mkState (mkExecutor "amd64" 8) [] [guard] in
  AddConstraint (Const 0 1) s = (Panic "assert: invalid false constraint", s) /\
  constraints (snd (AddConstraint
                      (BinaryExpr AND (BinaryExpr ULT x (Const 9 8)) (Const 1 1)) s))
    = [guard; BinaryExpr ULT x (Const 9 8); Const 1 1] /\
  AddConstraint (Const 1 1) s =
    (Ok tt, mkState (executor s) (heap s) [guard; Const 1 1]).
Proof.
  intros x guard s.
  destruct C8_add_constraint as [Hfalse [_ [Hsplit [Hleaf _]]]].
  split; [| split].
  - apply Hfalse. reflexivity.
  - apply (Hsplit (BinaryExpr AND (BinaryExpr ULT x (Const 9 8)) (Const 1 1)) s).
    simpl. repeat constructor.
  - apply (Hleaf (Const 1 1) s); reflexivity.
Defined.

(** ** Integer instructions *)

(** C1, at the operand types of signed integers: [types.IsUnsigned == 0]
    compares a constant with zero and is false for every operand type, so
    the instruction of a signed operand binds the unsigned expression for
    each of the seven operators, as that of an unsigned operand does. *)
Theorem C1_signed_operand_binds_unsigned
    (whenInterface whenString : result Outcome) (fuel : nat) (x y : Expr) :
  let run := executeBinOpInstr whenInterface whenString fuel (Basic IsInteger) in
  run tQUO x y = bound (NewBinaryExpr fuel UDIV x y) /\
  run tREM x y = bound (NewBinaryExpr fuel UREM x y) /\
  run tSHR x y = bound (NewBinaryExpr fuel LSHR x y) /\
  run tLSS x y = bound (NewBinaryExpr fuel ULT x y) /\
  run tLEQ x y = bound (NewBinaryExpr fuel ULE x y) /\
  run tGTR x y = bound (NewBinaryExpr fuel UGT x y) /\
  run tGEQ x y = bound (NewBinaryExpr fuel UGE x y) /\
  forall op,
    run op x y =
    executeBinOpInstr whenInterface whenString fuel
      (Basic (Z.lor IsInteger IsUnsigned)) op x y.
Proof. simpl. repeat split. Qed.

(** ** Canonical comparisons *)

Lemma NewBinaryExpr_reverse (fuel : nat) (a b : Expr) :
  NewBinaryExpr fuel UGT a b = NewBinaryExpr fuel ULT b a /\
  NewBinaryExpr fuel UGE a b = NewBinaryExpr fuel ULE b a /\
  NewBinaryExpr fuel SGT a b = NewBinaryExpr fuel SLT b a /\
  NewBinaryExpr fuel SGE a b = NewBinaryExpr fuel SLE b a.
Proof. destruct fuel; repeat split. Qed.

Lemma NewBinaryExpr_NE (fuel : nat) (a b : Expr) :
  NewBinaryExpr (S fuel) NE a b =
    (e <- NewBinaryExpr fuel EQ a b ;;
     NewBinaryExpr fuel EQ (Constant (NewConstantExpr 0 WidthBool)) e).
Proof. reflexivity. Qed.

Lemma constant_Ok (c : result ConstantExpr) (r : Expr) :
  constant c = Ok r -> exists x, c = Ok x /\ r = Constant x.
Proof.
  unfold constant. destruct c as [x | |]; simpl; try discriminate.
  intros H. injection H as <-. exists x. split; reflexivity.
Qed.

Ltac no_match x :=
  lazymatch x with
  | context [match _ with _ => _ end] => fail
  | context [bind _ _] => fail
  | _ => idtac
  end.

Ltac break_in H :=
  match type of H with
  | context [match ?x with _ => _ end] =>
      no_match x; first [ is_var x; destruct x | destruct x eqn:? ]
  | context [bind ?c _] => no_match c; destruct c eqn:?
  end; simpl in H; try discriminate H.

Ltac ok_inversion :=
  repeat match goal with
  | H : Ok _ = Ok _ |- _ => injection H as H; try subst
  | H : constant _ = Ok _ |- _ =>
      apply constant_Ok in H; destruct H as [? [_ ?]]; try subst
  end.

Section DispatchCanonical.

Variable rec : BinaryOp -> Expr -> Expr -> result Expr.
Hypothesis rec_canonical :
  forall op a b r, canonical a -> canonical b -> rec op a b = Ok r ->
                   canonical r.

Ltac canonical_parts :=
  repeat match goal with
  | H : canonical _ |- _ => progress simpl in H
  | H : _ /\ _ |- _ => destruct H
  end.

Ltac canonical_goal :=
  solve [simpl; repeat split; first [assumption | reflexivity]].

Ltac by_rec :=
  canonical_parts;
  repeat match goal with
  | E : rec _ _ _ = Ok _ |- _ =>
      apply rec_canonical in E; [ | canonical_goal | canonical_goal ]
  end;
  canonical_goal.

Lemma dispatch_canonical (op : BinaryOp) (a b r : Expr) :
  canonical a -> canonical b -> dispatch rec op a b = Ok r -> canonical r.
Proof.
  intros Ha Hb H.
  destruct op; simpl in H;
    unfold newAddExpr, newSubExpr, newMulExpr, newDivExpr, newRemExpr,
      newAndExpr, newOrExpr, newXorExpr, newShlExpr, newLShrExpr,
      newAShrExpr, newEqExpr, newUltExpr, newUleExpr, newSltExpr,
      newSleExpr, otherwise, NewIsZeroExpr in H;
    destruct a, b; simpl in H;
    repeat break_in H; ok_inversion; by_rec.
Qed.

End DispatchCanonical.

Lemma NewBinaryExpr_canonical (fuel : nat) :
  forall op a b r,
    canonical a -> canonical b -> NewBinaryExpr fuel op a b = Ok r ->
    canonical r.
Proof.
  induction fuel as [| fuel IH]; intros op a b r Ha Hb H.
  - discriminate H.
  - simpl in H. exact (dispatch_canonical _ IH op a b r Ha Hb H).
Qed.

(** ** More fuel keeps a result *)

Section DispatchFuel.

Variables rec rec' : BinaryOp -> Expr -> Expr -> result Expr.
Hypothesis rec_kept :
  forall op a b, rec op a b <> OutOfFuel -> rec' op a b = rec op a b.

Ltac rec_calls :=
  repeat match goal with
  | |- context [rec ?o ?x ?y] =>
      let E := fresh "E" in
      destruct (rec o x y) eqn:E;
        [ rewrite (rec_kept o x y) by (rewrite E; discriminate);
          rewrite ?E; cbn [bind] in *
        | rewrite (rec_kept o x y) by (rewrite E; discriminate);
          rewrite ?E; cbn [bind] in *
        | cbn [bind] in * ]
  end.

Lemma dispatch_kept (op : BinaryOp) (a b : Expr) :
  dispatch rec op a b <> OutOfFuel ->
  dispatch rec' op a b = dispatch rec op a b.
Proof.
  destruct op; cbn [dispatch];
    unfold newAddExpr, newSubExpr, newMulExpr, newDivExpr, newRemExpr,
      newAndExpr, newOrExpr, newXorExpr, newShlExpr, newLShrExpr,
      newAShrExpr, newEqExpr, newUltExpr, newUleExpr, newSltExpr,
      newSleExpr, otherwise, NewIsZeroExpr;
    destruct a, b; cbn [IsConstantExpr negb andb ExprWidth];
    repeat match goal with
    | |- context [match ?x with _ => _ end] =>
        no_match x;
        lazymatch x with
        | context [rec] => fail
        | _ => destruct x eqn:?
        end
    | |- context [bind ?c _] =>
        lazymatch c with
        | context [rec] => fail
        | context [rec'] => fail
        | _ => destruct c eqn:?; cbn [bind]
        end
    end;
    intros H; try reflexivity; rec_calls;
    first [ reflexivity | exfalso; apply H; reflexivity ].
Qed.

End DispatchFuel.

Lemma NewBinaryExpr_more_fuel (fuel : nat) :
  forall op a b,
    NewBinaryExpr fuel op a b <> OutOfFuel ->
    NewBinaryExpr (S fuel) op a b = NewBinaryExpr fuel op a b.
Proof.
  induction fuel as [| fuel IH]; intros op a b H.
  - exfalso. apply H. reflexivity.
  - change (dispatch (NewBinaryExpr (S fuel)) op a b =
            dispatch (NewBinaryExpr fuel) op a b).
    apply dispatch_kept; [exact IH | exact H].
Qed.

Lemma NewBinaryExpr_NE_same_fuel (fuel : nat) (a b r : Expr) :
  NewBinaryExpr fuel NE a b = Ok r ->
  exists e,
    NewBinaryExpr fuel EQ a b = Ok e /\
    NewBinaryExpr fuel EQ (Constant (NewBoolConstantExpr false)) e = Ok r.
Proof.
  destruct fuel as [| fuel]; [discriminate |].
  rewrite NewBinaryExpr_NE.
  destruct (NewBinaryExpr fuel EQ a b) as [e | |] eqn:E; cbn [bind];
    try discriminate.
  intros H. exists e. split.
  - rewrite NewBinaryExpr_more_fuel; rewrite E; [reflexivity | discriminate].
  - change (NewBoolConstantExpr false) with (NewConstantExpr 0 1).
    rewrite NewBinaryExpr_more_fuel; rewrite H; [reflexivity | discriminate].
Qed.

(** C7: with the operands swapped, UGT is built as ULT, UGE as ULE, SGT as
    SLT and SGE as SLE; NE is built as the equality of the constant false
    with the equality of the operands, which is also what these two
    constructions return with the fuel of the NE; and when no binary node
    of the operands has one of the operators UGT, UGE, SGT, SGE and NE,
    none of the result has. *)
Theorem C7_compare_canonical_form :
  (forall fuel a b,
     NewBinaryExpr fuel UGT a b = NewBinaryExpr fuel ULT b a /\
     NewBinaryExpr fuel UGE a b = NewBinaryExpr fuel ULE b a /\
     NewBinaryExpr fuel SGT a b = NewBinaryExpr fuel SLT b a /\
     NewBinaryExpr fuel SGE a b = NewBinaryExpr fuel SLE b a) /\
  (forall fuel a b,
     NewBinaryExpr (S fuel) NE a b =
       (e <- NewBinaryExpr fuel EQ a b ;;
        NewBinaryExpr fuel EQ (Constant (NewBoolConstantExpr false)) e)) /\
  (forall fuel a b r,
     NewBinaryExpr fuel NE a b = Ok r ->
     exists e,
       NewBinaryExpr fuel EQ a b = Ok e /\
       NewBinaryExpr fuel EQ (Constant (NewBoolConstantExpr false)) e = Ok r) /\
  (forall fuel op a b r,
     canonical a -> canonical b -> NewBinaryExpr fuel op a b = Ok r ->
     canonical r /\
     forall op' lhs rhs,
       r = BinaryExpr op' lhs rhs -> IsCompare op' = true ->
       op' = ULT \/ op' = ULE \/ op' = SLT \/ op' = SLE \/ op' = EQ).
Proof.
  split; [| split; [| split]].
  - apply NewBinaryExpr_reverse.
  - intros. apply NewBinaryExpr_NE.
  - apply NewBinaryExpr_NE_same_fuel.
  - intros fuel op a b r Ha Hb H.
    pose proof (NewBinaryExpr_canonical fuel op a b r Ha Hb H) as Hr.
    split; [exact Hr |].
    intros op' lhs rhs -> Hcmp. simpl in Hr. destruct Hr as [Hop _].
    destruct op'; try discriminate; auto.
Qed.

Lemma C7_compare_canonical_form_witness :
  let x := SelectExpr (NewArray 0 2) (Const 0 64) in
  let y := SelectExpr (NewArray 0 2) (Const 1 64) in
  NewBinaryExpr 2 UGT x y = Ok (BinaryExpr ULT y x) /\
  canonical (BinaryExpr ULT y x) /\
  forall op' lhs rhs,
    BinaryExpr ULT y x = BinaryExpr op' lhs rhs -> IsCompare op' = true ->
    op' = ULT \/ op' = ULE \/ op' = SLT \/ op' = SLE \/ op' = EQ.
Proof.
  intros x y. split; [reflexivity |].
  apply (proj2 (proj2 (proj2 C7_compare_canonical_form)) 2%nat UGT x y).
  - simpl. tauto.
  - simpl. tauto.
  - reflexivity.
Defined.

(** ** Arrays: single bytes *)

Lemma newZExtExpr_same (fuel : nat) (e : Expr) (w : Z) :
  ExprWidth e = w -> newZExtExpr fuel e w = Ok e.
Proof. intros H. unfold newZExtExpr. rewrite H, Z.eqb_refl. reflexivity. Qed.

Lemma NewBinaryExpr_EQ_constants (fuel : nat) (x y w : Z) :
  NewBinaryExpr (S fuel) EQ (Const x w) (Const y w) =
    Ok (Constant (NewBoolConstantExpr (x =? y))).
Proof.
  simpl. unfold newEqExpr, otherwise, constant, Eq. simpl.
  rewrite Z.eqb_refl. simpl. destruct (x =? y); reflexivity.
Qed.

Lemma storeByte_constant (fuel : nat) (k : Z) (value : Expr) (a : Array) :
  0 <= k < ArraySize a -> ExprWidth value = 8 ->
  storeByte fuel (Const k 64) value a =
    (Ok tt, mkArray (ArrayID a) (ArraySize a)
              (Update (Const k 64) value (removeUpdates k (ArrayUpdates a)))).
Proof.
  intros Hk Hv. unfold storeByte, NewArrayUpdate. simpl.
  destruct (Z.ltb_spec k (ArraySize a)) as [_ | Hge]; [| lia]. simpl.
  rewrite (newZExtExpr_same fuel value 8 Hv). reflexivity.
Qed.

Lemma storeByte_symbolic (fuel : nat) (index value v : Expr) (a : Array) :
  IsConstantExpr index = false -> ExprWidth index = 64 ->
  newZExtExpr fuel value Width8 = Ok v ->
  storeByte fuel index value a =
    (Ok tt, mkArray (ArrayID a) (ArraySize a)
              (Update index v (ArrayUpdates a))).
Proof.
  intros Hsym Hw Hv. unfold storeByte, NewArrayUpdate.
  rewrite Hw. simpl.
  rewrite (newZExtExpr_same fuel index 64 Hw). simpl. rewrite Hv. simpl.
  destruct index; try reflexivity. discriminate Hsym.
Qed.

Lemma removeUpdates_symbolic (k : Z) (index value : Expr) (next : ArrayUpdate) :
  IsConstantExpr index = false ->
  removeUpdates k (Update index value next) = Update index value next.
Proof. intros H. destruct index; try reflexivity. discriminate H. Qed.

Lemma selectByte_head (fuel : nat) (id size k : Z) (value : Expr)
    (next : ArrayUpdate) :
  selectByte (S fuel) (mkArray id size (Update (Const k 64) value next))
    (Const k 64) = Ok value.
Proof.
  unfold selectByte. simpl ExprWidth. simpl assert. cbn [bind ArrayUpdates selectUpdate].
  rewrite NewBinaryExpr_EQ_constants, Z.eqb_refl. reflexivity.
Qed.

(** C2, as the code has it: after a write at a constant index, a write at a
    symbolic index and a second write at the constant index, the update list
    starts with the three entries, newest first; a read of one byte at the
    constant index then returns the value of the newest write. *)
Theorem C2_symbolic_index_barrier
    (fuel : nat) (a : Array) (k : Z) (sym v1 v2 v3 : Expr) :
  0 <= k < ArraySize a ->
  IsConstantExpr sym = false -> ExprWidth sym = 64 ->
  ExprWidth v1 = 8 -> ExprWidth v2 = 8 -> ExprWidth v3 = 8 ->
  exists a1 a2 a3,
    storeByte fuel (Const k 64) v1 a = (Ok tt, a1) /\
    storeByte fuel sym v2 a1 = (Ok tt, a2) /\
    storeByte fuel (Const k 64) v3 a2 = (Ok tt, a3) /\
    ArrayUpdates a3 =
      Update (Const k 64) v3
        (Update sym v2
           (Update (Const k 64) v1 (removeUpdates k (ArrayUpdates a)))) /\
    selectByte (S fuel) a3 (Const k 64) = Ok v3.
Proof.
  intros Hk Hsym Hw H1 H2 H3.
  eexists. eexists. eexists.
  split; [apply storeByte_constant; assumption |].
  split; [apply storeByte_symbolic;
          [exact Hsym | exact Hw | apply newZExtExpr_same; exact H2] |].
  split; [apply storeByte_constant; [exact Hk | exact H3] |].
  cbn [ArrayUpdates ArrayID ArraySize].
  rewrite (removeUpdates_symbolic k sym) by exact Hsym.
  split; [reflexivity | apply selectByte_head].
Qed.

Lemma C2_symbolic_index_barrier_witness :
  let a := NewArray 0 2 in
  let sym := CastExpr (SelectExpr (NewArray 0 1) (Const 0 64)) 64 false in
  exists a1 a2 a3,
    storeByte 0 (Const 0 64) (Const 0 8) a = (Ok tt, a1) /\
    storeByte 0 sym (Const 1 8) a1 = (Ok tt, a2) /\
    storeByte 0 (Const 0 64) (Const 2 8) a2 = (Ok tt, a3) /\
    ArrayUpdates a3 =
      Update (Const 0 64) (Const 2 8)
        (Update sym (Const 1 8)
           (Update (Const 0 64) (Const 0 8)
              (removeUpdates 0 (ArrayUpdates a)))) /\
    selectByte 1 a3 (Const 0 64) = Ok (Const 2 8).
Proof.
  intros a sym.
  apply (C2_symbolic_index_barrier 0 a 0 sym (Const 0 8) (Const 1 8) (Const 2 8));
    try reflexivity.
  simpl. lia.
Defined.

(** C2 as stated fails on the arrays of the repository's own test of the
    barrier: after the three writes of [Store] the read at index 0 returns
    the constant 2 of the newest write, which is not a [SelectExpr]. *)
Lemma C2_counterexample :
  let a := NewArray 0 2 in
  let b := NewArray 0 1 in
  exists sym a3,
    Select 2 b (Const 0 64) 8 false = Ok (Some sym) /\
    (a1 <- Store 2 a (Const 0 64) (Const 0 8) false ;;
     a2 <- Store 2 a1 sym (Const 1 8) false ;;
     Store 2 a2 (Const 0 64) (Const 2 8) false) = Ok a3 /\
    ArrayUpdates a3 =
      Update (Const 0 64) (Const 2 8)
        (Update (CastExpr sym 64 false) (Const 1 8)
           (Update (Const 0 64) (Const 0 8) NoUpdate)) /\
    selectByte 2 a3 (Const 0 64) = Ok (Const 2 8) /\
    forall array index, selectByte 2 a3 (Const 0 64) <> Ok (SelectExpr array index).
Proof.
  intros a b. eexists. eexists.
  split; [reflexivity |].
  split; [reflexivity |].
  split; [reflexivity |].
  split; [reflexivity |].
  intros array index H. discriminate H.
Qed.

(** ** Arrays: bounds *)

Lemma storeByte_size (fuel : nat) (index value : Expr) (a a' : Array) :
  storeByte fuel index value a = (Ok tt, a') -> ArraySize a' = ArraySize a.
Proof.
  unfold storeByte.
  destruct (_ ;;; _ ;;; NewArrayUpdate fuel index value (ArrayUpdates a));
    intros H; try discriminate H.
  injection H as <-. reflexivity.
Qed.



Lemma newZExtExpr_constant_index (fuel : nat) (c : ConstantExpr) :
  0 <= Value c < 2 ^ 64 -> Width c <= 64 ->
  newZExtExpr fuel (Constant c) Width64 = Ok (Const (Value c) 64).
Proof.
  intros Hv Hw. unfold newZExtExpr. cbn [ExprWidth].
  destruct (Z.eqb_spec 64 (Width c)) as [Heq | Hne].
  - destruct c as [v w]. cbn [Width Value] in *. subst w. reflexivity.
  - destruct (Z.ltb_spec 64 (Width c)) as [Hlt | _]; [lia |].
    unfold ZExt. destruct (Z.eqb_spec (Width c) 64) as [Heq | _]; [lia |].
    replace (64 =? 1) with false by reflexivity.
    rewrite NewConstantExpr_small by lia. reflexivity.
Qed.




(** ** Arrays: the width of a read and of a write *)










Lemma Clone_same (a : Array) : Clone a = a.
Proof. destruct a. reflexivity. Qed.



(** ** Constant folding: arithmetic *)

Lemma pow2_pos (w : Z) : 0 <= w -> 0 < 2 ^ w.
Proof. intros. apply Z.pow_pos_nonneg; lia. Qed.

Lemma pow2_double (w : Z) : 0 < w -> 2 ^ w = 2 * 2 ^ (w - 1).
Proof.
  intros Hw. replace w with (Z.succ (w - 1)) at 1 by lia.
  rewrite Z.pow_succ_r by lia. reflexivity.
Qed.

Lemma mod_mod_pow2 (x w k : Z) :
  0 <= w <= k -> (x mod 2 ^ k) mod 2 ^ w = x mod 2 ^ w.
Proof.
  intros H. apply Z.mod_mod_divide.
  exists (2 ^ (k - w)). rewrite <- Z.pow_add_r by lia. f_equal. lia.
Qed.

Lemma NewConstantExpr_uint64 (x w : Z) :
  0 <= w <= 64 -> NewConstantExpr (uint64 x) w = mkConstant (x mod 2 ^ w) w.
Proof.
  intros Hw. rewrite NewConstantExpr_mod by exact Hw.
  unfold uint64, uintN. rewrite mod_mod_pow2 by lia. reflexivity.
Qed.

Lemma intN_signedValue (w a : Z) :
  0 < w -> 0 <= a < 2 ^ w -> intN w a = signedValue w a.
Proof.
  intros Hw Ha. unfold intN, signedValue.
  pose proof (pow2_double w Hw) as Hd.
  pose proof (pow2_pos (w - 1) ltac:(lia)) as Hp.
  destruct (Z.ltb_spec a (2 ^ (w - 1))) as [Hlt | Hge].
  - rewrite Z.mod_small by lia. lia.
  - replace (a + 2 ^ (w - 1)) with (a - 2 ^ (w - 1) + 1 * 2 ^ w) by lia.
    rewrite Z.mod_add by lia. rewrite Z.mod_small by lia. lia.
Qed.

Lemma intN_mod (w x : Z) : 0 < w -> intN w x mod 2 ^ w = x mod 2 ^ w.
Proof.
  intros Hw. unfold intN.
  pose proof (pow2_pos w ltac:(lia)) as Hp.
  rewrite Zminus_mod, Z.mod_mod by lia.
  rewrite <- Zminus_mod. f_equal. lia.
Qed.

Lemma signedValue_range (w a : Z) :
  0 < w -> 0 <= a < 2 ^ w ->
  - 2 ^ (w - 1) <= signedValue w a < 2 ^ (w - 1).
Proof.
  intros Hw Ha. unfold signedValue.
  pose proof (pow2_double w Hw).
  destruct (Z.ltb_spec a (2 ^ (w - 1))); lia.
Qed.

Lemma signedValue_mod (w a : Z) :
  0 < w -> 0 <= a < 2 ^ w -> signedValue w a mod 2 ^ w = a.
Proof.
  intros Hw Ha. rewrite <- intN_signedValue by assumption.
  rewrite intN_mod by exact Hw. apply Z.mod_small. exact Ha.
Qed.

(** An [n]-bit conversion of a narrower signed value keeps it. *)
Lemma intN_small (n x : Z) :
  0 < n -> - 2 ^ (n - 1) <= x < 2 ^ (n - 1) -> intN n x = x.
Proof.
  intros Hn Hx. unfold intN. pose proof (pow2_double n Hn).
  rewrite Z.mod_small by lia. lia.
Qed.

Lemma testbit_mod_congr (x y k n : Z) :
  x mod 2 ^ k = y mod 2 ^ k -> 0 <= n < k -> Z.testbit x n = Z.testbit y n.
Proof.
  intros H Hn.
  rewrite <- (Z.mod_pow2_bits_low x k n) by lia.
  rewrite <- (Z.mod_pow2_bits_low y k n) by lia.
  rewrite H. reflexivity.
Qed.

Lemma bitwise_mod (f : Z -> Z -> Z) (g : bool -> bool -> bool) (a b w : Z) :
  (forall x y n, 0 <= n -> Z.testbit (f x y) n = g (Z.testbit x n) (Z.testbit y n)) ->
  g false false = false ->
  0 <= w -> 0 <= a < 2 ^ w -> 0 <= b < 2 ^ w ->
  f a b mod 2 ^ w = f a b.
Proof.
  intros Hf Hg Hw Ha Hb. apply Z.bits_inj'. intros n Hn.
  destruct (Z.lt_ge_cases n w) as [Hlt | Hge].
  - apply Z.mod_pow2_bits_low. lia.
  - rewrite Z.mod_pow2_bits_high by lia.
    rewrite Hf by exact Hn.
    assert (Hhigh : forall x, 0 <= x < 2 ^ w -> Z.testbit x n = false).
    { intros x Hx. rewrite <- (Z.mod_small x (2 ^ w)) by exact Hx.
      apply Z.mod_pow2_bits_high. lia. }
    rewrite (Hhigh a Ha), (Hhigh b Hb). symmetry. exact Hg.
Qed.

Lemma land_mod (a b w : Z) :
  0 <= w -> 0 <= a < 2 ^ w -> 0 <= b < 2 ^ w -> Z.land a b mod 2 ^ w = Z.land a b.
Proof.
  intros. apply (bitwise_mod Z.land andb); auto.
  intros. apply Z.land_spec.
Qed.

Lemma lor_mod (a b w : Z) :
  0 <= w -> 0 <= a < 2 ^ w -> 0 <= b < 2 ^ w -> Z.lor a b mod 2 ^ w = Z.lor a b.
Proof.
  intros. apply (bitwise_mod Z.lor orb); auto.
  intros. apply Z.lor_spec.
Qed.

Lemma lxor_mod (a b w : Z) :
  0 <= w -> 0 <= a < 2 ^ w -> 0 <= b < 2 ^ w -> Z.lxor a b mod 2 ^ w = Z.lxor a b.
Proof.
  intros. apply (bitwise_mod Z.lxor xorb); auto.
  intros. apply Z.lxor_spec.
Qed.

Lemma shl_closed (w a b : Z) :
  0 < w -> 0 <= a < 2 ^ w -> 0 <= b ->
  shlN w (uintN w a) b mod 2 ^ w = (a * 2 ^ b) mod 2 ^ w.
Proof.
  intros Hw Ha Hb. unfold shlN. rewrite (uintN_small w a) by exact Ha.
  pose proof (pow2_pos w ltac:(lia)) as Hp.
  destruct (Z.ltb_spec b w) as [Hlt | Hge].
  - unfold uintN. rewrite Z.mod_mod by lia.
    rewrite Z.shiftl_mul_pow2 by exact Hb. reflexivity.
  - replace b with (b - w + w) by lia. rewrite Z.pow_add_r by lia.
    rewrite Z.mul_assoc, Z.mod_mul by lia. reflexivity.
Qed.

Lemma lshr_closed (w a b : Z) :
  0 < w -> 0 <= a < 2 ^ w -> 0 <= b ->
  shrU w (uintN w a) b mod 2 ^ w = a / 2 ^ b.
Proof.
  intros Hw Ha Hb. unfold shrU. rewrite (uintN_small w a) by exact Ha.
  pose proof (pow2_pos b Hb) as Hp.
  assert (Hq : 0 <= a / 2 ^ b < 2 ^ w).
  { split; [apply Z.div_pos; lia |].
    apply Z.le_lt_trans with a; [| lia].
    apply Z.div_le_upper_bound; [lia |]. nia. }
  destruct (Z.ltb_spec b w) as [Hlt | Hge].
  - rewrite Z.shiftr_div_pow2 by exact Hb. apply Z.mod_small. exact Hq.
  - rewrite Z.mod_0_l by lia. symmetry. apply Z.div_small.
    assert (2 ^ w <= 2 ^ b) by (apply Z.pow_le_mono_r; lia). lia.
Qed.

Lemma ashr_closed (w a b : Z) :
  0 < w -> 0 <= a < 2 ^ w -> 0 <= b ->
  shrS w (intN w a) b mod 2 ^ w = (signedValue w a / 2 ^ b) mod 2 ^ w.
Proof.
  intros Hw Ha Hb. rewrite intN_signedValue by assumption.
  pose proof (signedValue_range w a Hw Ha) as Hr.
  unfold shrS. f_equal.
  destruct (Z.ltb_spec b w) as [Hlt | Hge].
  - apply Z.shiftr_div_pow2. exact Hb.
  - assert (Hpow : 2 ^ (w - 1) <= 2 ^ b) by (apply Z.pow_le_mono_r; lia).
    pose proof (pow2_pos b Hb) as Hp.
    destruct (Z.ltb_spec (signedValue w a) 0) as [Hneg | Hpos].
    + apply Z.div_unique with (r := signedValue w a + 2 ^ b); lia.
    + symmetry. apply Z.div_small. lia.
Qed.

(** ** Constant folding: the methods at the four widths of their switch *)

Lemma standardWidth_range (w : Z) : standardWidth w -> 0 < w <= 64.
Proof. intros [-> | [-> | [-> | ->]]]; lia. Qed.

Ltac each_width H :=
  destruct H as [-> | [-> | [-> | ->]]].

Ltac open_switch :=
  cbn [Width Value]; rewrite ?Z.eqb_refl; cbn [assert bind]; cbv beta iota;
  unfold uint8, uint16, uint32, uint64, int8, int16, int32, int64.

Lemma div_small_result (a b w : Z) :
  0 <= a < 2 ^ w -> 0 < b -> 0 <= a / b < 2 ^ w.
Proof.
  intros Ha Hb. split; [apply Z.div_pos; lia |].
  apply Z.le_lt_trans with a; [| lia].
  apply Z.div_le_upper_bound; [lia | nia].
Qed.

Lemma udiv_value (w a b : Z) :
  0 < w <= 64 -> 0 <= a < 2 ^ w -> 0 <= b < 2 ^ w -> b <> 0 ->
  (q <- divU (uintN w a) (uintN w b) ;; Ok (NewConstantExpr (uintN 64 q) w))
  = Ok (mkConstant (a / b) w).
Proof.
  intros Hw Ha Hb Hnz. rewrite !uintN_small by assumption. unfold divU.
  destruct (Z.eqb_spec b 0) as [| _]; [contradiction |]. cbn [bind].
  fold uint64. rewrite NewConstantExpr_uint64 by lia.
  rewrite Z.mod_small by (apply div_small_result; lia). reflexivity.
Qed.

Lemma urem_value (w a b : Z) :
  0 < w <= 64 -> 0 <= a < 2 ^ w -> 0 <= b < 2 ^ w -> b <> 0 ->
  (r <- remU (uintN w a) (uintN w b) ;; Ok (NewConstantExpr (uintN 64 r) w))
  = Ok (mkConstant (a mod b) w).
Proof.
  intros Hw Ha Hb Hnz. rewrite !uintN_small by assumption. unfold remU.
  destruct (Z.eqb_spec b 0) as [| _]; [contradiction |]. cbn [bind].
  fold uint64. rewrite NewConstantExpr_uint64 by lia.
  pose proof (Z.mod_pos_bound a b ltac:(lia)).
  rewrite Z.mod_small by lia. reflexivity.
Qed.

Lemma signedValue_zero (w b : Z) :
  0 < w -> 0 <= b < 2 ^ w -> b <> 0 -> signedValue w b <> 0.
Proof.
  intros Hw Hb Hnz. unfold signedValue.
  destruct (Z.ltb_spec b (2 ^ (w - 1))); lia.
Qed.

Lemma sdiv_value (w a b : Z) :
  0 < w <= 64 -> 0 <= a < 2 ^ w -> 0 <= b < 2 ^ w -> b <> 0 ->
  (q <- divS w (intN w a) (intN w b) ;; Ok (NewConstantExpr (uintN 64 q) w))
  = Ok (mkConstant (Z.quot (signedValue w a) (signedValue w b) mod 2 ^ w) w).
Proof.
  intros Hw Ha Hb Hnz. rewrite !intN_signedValue by (assumption || lia).
  unfold divS.
  destruct (Z.eqb_spec (signedValue w b) 0) as [H0 | _];
    [exfalso; revert H0; apply signedValue_zero; (assumption || lia) |].
  cbn [bind]. fold uint64. rewrite NewConstantExpr_uint64 by lia.
  rewrite intN_mod by lia. reflexivity.
Qed.

Lemma srem_value (w a b : Z) :
  0 < w <= 64 -> 0 <= a < 2 ^ w -> 0 <= b < 2 ^ w -> b <> 0 ->
  (r <- remS (intN w a) (intN w b) ;; Ok (NewConstantExpr (uintN 64 r) w))
  = Ok (mkConstant (Z.rem (signedValue w a) (signedValue w b) mod 2 ^ w) w).
Proof.
  intros Hw Ha Hb Hnz. rewrite !intN_signedValue by (assumption || lia).
  unfold remS.
  destruct (Z.eqb_spec (signedValue w b) 0) as [H0 | _];
    [exfalso; revert H0; apply signedValue_zero; (assumption || lia) |].
  cbn [bind]. fold uint64. rewrite NewConstantExpr_uint64 by lia. reflexivity.
Qed.

Section Methods.

Variables w a b : Z.
Hypothesis Hstd : standardWidth w.
Hypothesis Ha : 0 <= a < 2 ^ w.
Hypothesis Hb : 0 <= b < 2 ^ w.

Let x := mkConstant a w.
Let y := mkConstant b w.

Lemma UDiv_closed : b <> 0 -> UDiv x y = Ok (mkConstant (a / b) w).
Proof.
  intros Hnz. subst x y. unfold UDiv. revert Ha Hb.
  each_width Hstd; intros Ha' Hb'; open_switch; apply udiv_value; lia.
Qed.

Lemma URem_closed : b <> 0 -> URem x y = Ok (mkConstant (a mod b) w).
Proof.
  intros Hnz. subst x y. unfold URem. revert Ha Hb.
  each_width Hstd; intros Ha' Hb'; open_switch; apply urem_value; lia.
Qed.

Lemma SDiv_closed :
  b <> 0 ->
  SDiv x y =
    Ok (mkConstant (Z.quot (signedValue w a) (signedValue w b) mod 2 ^ w) w).
Proof.
  intros Hnz. subst x y. unfold SDiv. revert Ha Hb.
  each_width Hstd; intros Ha' Hb'; open_switch; apply sdiv_value; lia.
Qed.

Lemma SRem_closed :
  b <> 0 ->
  SRem x y =
    Ok (mkConstant (Z.rem (signedValue w a) (signedValue w b) mod 2 ^ w) w).
Proof.
  intros Hnz. subst x y. unfold SRem. revert Ha Hb.
  each_width Hstd; intros Ha' Hb'; open_switch; apply srem_value; lia.
Qed.

Lemma Shl_closed : Shl x y = Ok (mkConstant ((a * 2 ^ b) mod 2 ^ w) w).
Proof.
  subst x y. unfold Shl. revert Ha Hb.
  each_width Hstd; intros Ha' Hb'; open_switch;
    rewrite ?(NewConstantExpr_uint64 _ _), ?(NewConstantExpr_mod _ 64) by lia;
    rewrite shl_closed by lia; reflexivity.
Qed.

Lemma LShr_closed : LShr x y = Ok (mkConstant (a / 2 ^ b) w).
Proof.
  subst x y. unfold LShr. revert Ha Hb.
  each_width Hstd; intros Ha' Hb'; open_switch;
    rewrite ?(NewConstantExpr_uint64 _ _), ?(NewConstantExpr_mod _ 64) by lia;
    rewrite lshr_closed by lia; reflexivity.
Qed.

Lemma AShr_closed :
  AShr x y = Ok (mkConstant ((signedValue w a / 2 ^ b) mod 2 ^ w) w).
Proof.
  subst x y. unfold AShr. revert Ha Hb.
  each_width Hstd; intros Ha' Hb'; open_switch;
    rewrite NewConstantExpr_uint64 by lia;
    unfold uintN; rewrite ?Z.mod_mod by lia;
    rewrite ashr_closed by lia; reflexivity.
Qed.

Lemma Ult_closed : Ult x y = Ok (mkConstant (boolValue (a <? b)) 1).
Proof.
  subst x y. unfold Ult. revert Ha Hb.
  each_width Hstd; intros Ha' Hb'; open_switch;
    rewrite !uintN_small by assumption; destruct (a <? b); reflexivity.
Qed.

Lemma Ule_closed : Ule x y = Ok (mkConstant (boolValue (a <=? b)) 1).
Proof.
  subst x y. unfold Ule. revert Ha Hb.
  each_width Hstd; intros Ha' Hb'; open_switch;
    rewrite !uintN_small by assumption; destruct (a <=? b); reflexivity.
Qed.

Lemma Slt_closed :
  Slt x y = Ok (mkConstant (boolValue (signedValue w a <? signedValue w b)) 1).
Proof.
  subst x y. unfold Slt. revert Ha Hb.
  each_width Hstd; intros Ha' Hb'; open_switch;
    rewrite !intN_signedValue by (assumption || lia);
    destruct (_ <? _); reflexivity.
Qed.

Lemma Sle_closed :
  Sle x y = Ok (mkConstant (boolValue (signedValue w a <=? signedValue w b)) 1).
Proof.
  subst x y. unfold Sle. revert Ha Hb.
  each_width Hstd; intros Ha' Hb'; open_switch;
    rewrite !intN_signedValue by (assumption || lia);
    destruct (_ <=? _); reflexivity.
Qed.

End Methods.

(** ** Constant folding: the constructors *)

Lemma compareZ_same (x next : Z) : compareZ x x next = next.
Proof.
  unfold compareZ. rewrite Z.ltb_irrefl.
  destruct (Z.gtb_spec x x); [lia | reflexivity].
Qed.

Lemma CompareExpr_constants (a b w : Z) :
  (CompareExpr (Const a w) (Const b w) =? 0) = (a =? b).
Proof.
  unfold Const. cbn [CompareExpr exprKind]. unfold compareConstantExpr.
  cbn [Width Value]. rewrite !compareZ_same. unfold compareZ.
  destruct (Z.ltb_spec a b); [destruct (Z.eqb_spec a b); [lia | reflexivity] |].
  destruct (Z.gtb_spec a b); destruct (Z.eqb_spec a b); (lia || reflexivity).
Qed.

Lemma standardWidth_not_bool (w : Z) : standardWidth w -> (w =? 1) = false.
Proof. intros [-> | [-> | [-> | ->]]]; reflexivity. Qed.

(** What the constructors do with two constants. *)
Section TwoConstants.

Variable rec : BinaryOp -> Expr -> Expr -> result Expr.
Variables cl cr : ConstantExpr.

Let lhs := Constant cl.
Let rhs := Constant cr.

Lemma newAddExpr_constants :
  newAddExpr rec lhs rhs =
    if Width cl =? WidthBool then rec XOR lhs rhs
    else if Value cl =? 0 then Ok rhs else constant (Add cl cr).
Proof.
  subst lhs rhs. unfold newAddExpr, otherwise. cbn [IsConstantExpr negb andb ExprWidth].
  destruct (Width cl =? 1); [reflexivity |].
  destruct (Value cl =? 0); reflexivity.
Qed.

Lemma newSubExpr_constants :
  newSubExpr rec lhs rhs =
    if CompareExpr lhs rhs =? 0
    then Ok (Constant (NewConstantExpr 0 (Width cl)))
    else constant (Sub cl cr).
Proof.
  subst lhs rhs. unfold newSubExpr, otherwise.
  destruct (CompareExpr _ _ =? 0); reflexivity.
Qed.

Lemma newXorExpr_constants :
  newXorExpr lhs rhs =
    if Value cl =? 0 then Ok rhs else constant (Xor cl cr).
Proof.
  subst lhs rhs. unfold newXorExpr, otherwise. cbn [IsConstantExpr negb andb].
  destruct (Value cl =? 0); reflexivity.
Qed.

Lemma newMulExpr_constants : newMulExpr rec lhs rhs = constant (Mul cl cr).
Proof. reflexivity. Qed.

Lemma newDivExpr_constants :
  newDivExpr UDIV lhs rhs = constant (UDiv cl cr) /\
  newDivExpr SDIV lhs rhs = constant (SDiv cl cr).
Proof. split; reflexivity. Qed.

Lemma newRemExpr_constants :
  newRemExpr UREM lhs rhs = constant (URem cl cr) /\
  newRemExpr SREM lhs rhs = constant (SRem cl cr).
Proof. split; reflexivity. Qed.

Lemma newAndExpr_constants : newAndExpr lhs rhs = constant (And cl cr).
Proof. reflexivity. Qed.

Lemma newOrExpr_constants : newOrExpr lhs rhs = constant (Or cl cr).
Proof. reflexivity. Qed.

Lemma newShlExpr_constants : newShlExpr rec lhs rhs = constant (Shl cl cr).
Proof. reflexivity. Qed.

Lemma newLShrExpr_constants : newLShrExpr rec lhs rhs = constant (LShr cl cr).
Proof. reflexivity. Qed.

Lemma newAShrExpr_constants : newAShrExpr lhs rhs = constant (AShr cl cr).
Proof. reflexivity. Qed.

Lemma newEqExpr_constants : newEqExpr rec lhs rhs = constant (Eq cl cr).
Proof. reflexivity. Qed.

Lemma newUltExpr_constants : newUltExpr rec lhs rhs = constant (Ult cl cr).
Proof. reflexivity. Qed.

Lemma newUleExpr_constants : newUleExpr rec lhs rhs = constant (Ule cl cr).
Proof. reflexivity. Qed.

Lemma newSltExpr_constants : newSltExpr rec lhs rhs = constant (Slt cl cr).
Proof. reflexivity. Qed.

Lemma newSleExpr_constants : newSleExpr rec lhs rhs = constant (Sle cl cr).
Proof. reflexivity. Qed.

End TwoConstants.

(** The methods without a switch, at any width up to 64. *)
Section PlainMethods.

Variables w a b : Z.
Hypothesis Hw : 0 <= w <= 64.
Hypothesis Ha : 0 <= a < 2 ^ w.
Hypothesis Hb : 0 <= b < 2 ^ w.

Let x := mkConstant a w.
Let y := mkConstant b w.

Lemma Add_closed : Add x y = Ok (mkConstant ((a + b) mod 2 ^ w) w).
Proof.
  subst x y. unfold Add. cbn [Width Value]. rewrite Z.eqb_refl.
  cbn [assert bind]. rewrite NewConstantExpr_uint64 by exact Hw. reflexivity.
Qed.

Lemma Sub_closed : Sub x y = Ok (mkConstant ((a - b) mod 2 ^ w) w).
Proof.
  subst x y. unfold Sub. cbn [Width Value]. rewrite Z.eqb_refl.
  cbn [assert bind]. rewrite NewConstantExpr_uint64 by exact Hw. reflexivity.
Qed.

Lemma Mul_closed : Mul x y = Ok (mkConstant ((a * b) mod 2 ^ w) w).
Proof.
  subst x y. unfold Mul. cbn [Width Value]. rewrite Z.eqb_refl.
  cbn [assert bind]. rewrite land_bitmask by exact Hw.
  rewrite NewConstantExpr_mod by exact Hw.
  pose proof (pow2_pos w ltac:(lia)).
  rewrite Z.mod_mod by lia. unfold uint64, uintN.
  rewrite mod_mod_pow2 by lia. reflexivity.
Qed.

Lemma And_closed : And x y = Ok (mkConstant (Z.land a b) w).
Proof.
  subst x y. unfold And. cbn [Width Value]. rewrite Z.eqb_refl.
  cbn [assert bind]. rewrite NewConstantExpr_mod by exact Hw.
  rewrite land_mod by (assumption || lia). reflexivity.
Qed.

Lemma Or_closed : Or x y = Ok (mkConstant (Z.lor a b) w).
Proof.
  subst x y. unfold Or. cbn [Width Value]. rewrite Z.eqb_refl.
  cbn [assert bind]. rewrite NewConstantExpr_mod by exact Hw.
  rewrite lor_mod by (assumption || lia). reflexivity.
Qed.

Lemma Xor_closed : Xor x y = Ok (mkConstant (Z.lxor a b) w).
Proof.
  subst x y. unfold Xor. cbn [Width Value]. rewrite Z.eqb_refl.
  cbn [assert bind]. rewrite NewConstantExpr_mod by exact Hw.
  rewrite lxor_mod by (assumption || lia). reflexivity.
Qed.

Lemma Eq_closed : Eq x y = Ok (mkConstant (boolValue (a =? b)) 1).
Proof.
  subst x y. unfold Eq. cbn [Width Value]. rewrite Z.eqb_refl.
  cbn [assert bind]. destruct (a =? b); reflexivity.
Qed.

End PlainMethods.

Lemma Eq_bool (e : Z) :
  Eq (NewConstantExpr 0 WidthBool) (mkConstant e 1) =
    Ok (mkConstant (boolValue (0 =? e)) 1).
Proof. unfold Eq. cbn. destruct e; reflexivity. Qed.

(** Every binary constructor folds two constants of one of the four widths
    to the constant of the closed form. *)
Lemma fold_binary (fuel : nat) (op : BinaryOp) (w a b : Z) :
  standardWidth w -> 0 <= a < 2 ^ w -> 0 <= b < 2 ^ w ->
  (isDivision op = true -> b <> 0) ->
  NewBinaryExpr (S (S fuel)) op (Const a w) (Const b w) =
    Ok (Const (binaryValue op w a b) (binaryWidth op w)).
Proof.
  intros Hstd Ha Hb Hnz.
  pose proof (standardWidth_range w Hstd) as Hw.
  assert (Hw' : 0 <= w <= 64) by lia.
  pose proof (standardWidth_not_bool w Hstd) as Hnb.
  unfold Const.
  destruct op; cbn [NewBinaryExpr dispatch binaryValue binaryWidth IsCompare
                      opcode Z.ltb Z.compare Pos.compare Pos.compare_cont andb
                      isDivision] in *.
  - (* ADD *)
    rewrite newAddExpr_constants. cbn [Width Value]. rewrite Hnb.
    destruct (Z.eqb_spec a 0) as [-> | _].
    + rewrite Z.add_0_l, Z.mod_small by exact Hb. reflexivity.
    + rewrite Add_closed by assumption. reflexivity.
  - (* SUB *)
    rewrite newSubExpr_constants. fold (Const a w) (Const b w).
    rewrite CompareExpr_constants. cbn [Width].
    destruct (Z.eqb_spec a b) as [-> | _].
    + rewrite Z.sub_diag, Z.mod_0_l by (pose proof (pow2_pos w); lia).
      rewrite NewConstantExpr_small by (pose proof (pow2_pos w); lia).
      reflexivity.
    + rewrite Sub_closed by assumption. reflexivity.
  - rewrite newMulExpr_constants, Mul_closed by assumption. reflexivity.
  - rewrite (proj1 (newDivExpr_constants _ _)), UDiv_closed by auto. reflexivity.
  - rewrite (proj2 (newDivExpr_constants _ _)), SDiv_closed by auto. reflexivity.
  - rewrite (proj1 (newRemExpr_constants _ _)), URem_closed by auto. reflexivity.
  - rewrite (proj2 (newRemExpr_constants _ _)), SRem_closed by auto. reflexivity.
  - rewrite newAndExpr_constants, And_closed by assumption. reflexivity.
  - rewrite newOrExpr_constants, Or_closed by assumption. reflexivity.
  - (* XOR *)
    rewrite newXorExpr_constants. cbn [Value].
    destruct (Z.eqb_spec a 0) as [-> | _].
    + rewrite Z.lxor_0_l. reflexivity.
    + rewrite Xor_closed by assumption. reflexivity.
  - rewrite newShlExpr_constants, Shl_closed by assumption. reflexivity.
  - rewrite newLShrExpr_constants, LShr_closed by assumption. reflexivity.
  - rewrite newAShrExpr_constants, AShr_closed by assumption. reflexivity.
  - rewrite newEqExpr_constants, (Eq_closed w) by assumption. reflexivity.
  - (* NE *)
    cbn [NewBinaryExpr dispatch].
    rewrite newEqExpr_constants, (Eq_closed w) by assumption.
    cbn [constant bind]. rewrite newEqExpr_constants, Eq_bool.
    destruct (a =? b); reflexivity.
  - rewrite newUltExpr_constants, Ult_closed by assumption. reflexivity.
  - rewrite newUleExpr_constants, Ule_closed by assumption. reflexivity.
  - rewrite newUltExpr_constants, Ult_closed by assumption. reflexivity.
  - rewrite newUleExpr_constants, Ule_closed by assumption. reflexivity.
  - rewrite newSltExpr_constants, Slt_closed by assumption. reflexivity.
  - rewrite newSleExpr_constants, Sle_closed by assumption. reflexivity.
  - rewrite newSltExpr_constants, Slt_closed by assumption. reflexivity.
  - rewrite newSleExpr_constants, Sle_closed by assumption. reflexivity.
Qed.

(** At width 1 the constructors without a switch fold as well. *)
Lemma fold_binary_bool (fuel : nat) (op : BinaryOp) (a b : Z) :
  switchesOnWidth op = false -> 0 <= a < 2 -> 0 <= b < 2 ->
  NewBinaryExpr (S (S fuel)) op (Const a 1) (Const b 1) =
    Ok (Const (binaryValue op 1 a b) (binaryWidth op 1)).
Proof.
  intros Hop Ha Hb.
  assert (Ha' : a = 0 \/ a = 1) by lia.
  assert (Hb' : b = 0 \/ b = 1) by lia.
  destruct Ha' as [-> | ->], Hb' as [-> | ->];
    destruct op; try discriminate Hop; reflexivity.
Qed.

(** The default case of a switch on the width. *)
Ltac default_case w H :=
  cbn [Width Value]; rewrite ?Z.eqb_refl; cbn [assert bind];
  destruct w as [| p | p]; try reflexivity;
  repeat (destruct p as [p | p |]; try reflexivity;
          try (exfalso; apply H; unfold standardWidth; lia)).

Lemma switch_default (w a b : Z) :
  ~ standardWidth w ->
  let x := mkConstant a w in
  let y := mkConstant b w in
  UDiv x y = Panic "udiv: non-standard width" /\
  SDiv x y = Panic "sdiv: non-standard width" /\
  URem x y = Panic "urem: non-standard width" /\
  SRem x y = Panic "srem: non-standard width" /\
  Shl x y = Panic "shl: non-standard width" /\
  LShr x y = Panic "lshr: non-standard width" /\
  AShr x y = Panic "ashr: non-standard width" /\
  Ult x y = Panic "ult: non-standard width" /\
  Ule x y = Panic "ule: non-standard width" /\
  Slt x y = Panic "slt: non-standard width" /\
  Sle x y = Panic "sle: non-standard width".
Proof.
  intros H x y. subst x y.
  unfold UDiv, SDiv, URem, SRem, Shl, LShr, AShr, Ult, Ule, Slt, Sle.
  repeat split; default_case w H.
Qed.

(** Two constants of any other width, width 1 among them, make the
    constructors with a switch panic. *)
Lemma fold_binary_nonstandard (fuel : nat) (op : BinaryOp) (w a b : Z) :
  ~ standardWidth w -> switchesOnWidth op = true ->
  exists msg,
    NewBinaryExpr (S fuel) op (Const a w) (Const b w) = Panic msg.
Proof.
  intros Hw Hop.
  destruct (switch_default w a b Hw)
    as [H1 [H2 [H3 [H4 [H5 [H6 [H7 [H8 [H9 [H10 H11]]]]]]]]]].
  destruct (switch_default w b a Hw)
    as [_ [_ [_ [_ [_ [_ [_ [G8 [G9 [G10 G11]]]]]]]]]].
  unfold Const. destruct op; try discriminate Hop; cbn [NewBinaryExpr dispatch].
  - rewrite (proj1 (newDivExpr_constants _ _)), H1. eexists; reflexivity.
  - rewrite (proj2 (newDivExpr_constants _ _)), H2. eexists; reflexivity.
  - rewrite (proj1 (newRemExpr_constants _ _)), H3. eexists; reflexivity.
  - rewrite (proj2 (newRemExpr_constants _ _)), H4. eexists; reflexivity.
  - rewrite newShlExpr_constants, H5. eexists; reflexivity.
  - rewrite newLShrExpr_constants, H6. eexists; reflexivity.
  - rewrite newAShrExpr_constants, H7. eexists; reflexivity.
  - rewrite newUltExpr_constants, H8. eexists; reflexivity.
  - rewrite newUleExpr_constants, H9. eexists; reflexivity.
  - rewrite newUltExpr_constants, G8. eexists; reflexivity.
  - rewrite newUleExpr_constants, G9. eexists; reflexivity.
  - rewrite newSltExpr_constants, H10. eexists; reflexivity.
  - rewrite newSleExpr_constants, H11. eexists; reflexivity.
  - rewrite newSltExpr_constants, G10. eexists; reflexivity.
  - rewrite newSleExpr_constants, G11. eexists; reflexivity.
Qed.

(** The complement. *)
Lemma fold_not (w a : Z) :
  0 <= w <= 64 -> 0 <= a < 2 ^ w ->
  NewNotExpr (Const a w) = Const (2 ^ w - 1 - a) w.
Proof.
  intros Hw Ha. unfold Const. cbn [NewNotExpr]. unfold Not. cbn [Width Value].
  rewrite land_bitmask by exact Hw. rewrite NewConstantExpr_mod by exact Hw.
  pose proof (pow2_pos w ltac:(lia)) as Hp.
  rewrite Z.mod_mod by lia. unfold uint64, uintN.
  rewrite mod_mod_pow2 by lia.
  replace (Z.lnot a) with (2 ^ w - 1 - a + (-1) * 2 ^ w)
    by (unfold Z.lnot; lia).
  rewrite Z.mod_add by lia. rewrite Z.mod_small by lia. reflexivity.
Qed.

(** Extraction of bits. *)
Lemma shiftr_low_bits (x y offset width : Z) :
  x mod 2 ^ 64 = y mod 2 ^ 64 -> 0 <= offset -> 0 <= width ->
  offset + width <= 64 ->
  Z.shiftr x offset mod 2 ^ width = Z.shiftr y offset mod 2 ^ width.
Proof.
  intros Hxy Ho Hw Hfit. apply Z.bits_inj'. intros n Hn.
  destruct (Z.lt_ge_cases n width) as [Hlt | Hge].
  - rewrite !Z.mod_pow2_bits_low by lia.
    rewrite !Z.shiftr_spec by exact Hn.
    apply (testbit_mod_congr x y 64); [exact Hxy | lia].
  - rewrite !Z.mod_pow2_bits_high by lia. reflexivity.
Qed.

Lemma Extract_closed (w a offset width : Z) :
  0 <= w <= 64 -> 0 <= a < 2 ^ w -> 0 <= offset -> 0 < width ->
  offset + width <= w ->
  Extract (mkConstant a w) offset width =
    mkConstant ((a / 2 ^ offset) mod 2 ^ width) width.
Proof.
  intros Hw Ha Ho Hwidth Hfit. unfold Extract. cbn [Width Value].
  rewrite land_bitmask by exact Hw.
  rewrite NewConstantExpr_mod by lia.
  rewrite mod_mod_pow2 by lia. unfold uint64, uintN.
  rewrite mod_mod_pow2 by lia. unfold shrS.
  destruct (Z.ltb_spec offset 64) as [_ | Hge]; [| lia].
  rewrite <- (Z.shiftr_div_pow2 a offset) by exact Ho.
  rewrite (shiftr_low_bits (int64 a) a offset width); try lia.
  - reflexivity.
  - unfold int64. apply intN_mod. lia.
Qed.

Lemma fold_extract (fuel : nat) (w a offset width : Z) :
  0 <= w <= 64 -> 0 <= a < 2 ^ w -> 0 <= offset -> 0 < width ->
  offset + width <= w ->
  NewExtractExpr (S fuel) (Const a w) offset width =
    Ok (Const ((a / 2 ^ offset) mod 2 ^ width) width).
Proof.
  intros Hw Ha Ho Hwidth Hfit. unfold Const. cbn [NewExtractExpr ExprWidth Width].
  destruct (Z.gtb_spec width 0) as [_ | Hle]; [| lia]. cbn [assert bind].
  unfold uint64. rewrite uintN_small
    by (change (2 ^ 64) with 18446744073709551616; lia).
  destruct (Z.leb_spec (offset + width) w) as [_ | Hgt]; [| lia].
  cbn [assert bind].
  destruct (Z.eqb_spec width w) as [Heq | Hne].
  - subst width. assert (offset = 0) by lia. subst offset.
    rewrite Z.pow_0_r, Z.div_1_r, Z.mod_small by exact Ha. reflexivity.
  - rewrite Extract_closed by assumption. reflexivity.
Qed.

(** Casts. *)
Lemma fold_zext (fuel : nat) (w a w' : Z) :
  0 < w <= 64 -> 0 <= a < 2 ^ w -> 0 < w' <= 64 ->
  newZExtExpr (S fuel) (Const a w) w' = Ok (Const (a mod 2 ^ w') w').
Proof.
  intros Hw Ha Hw'. unfold newZExtExpr.
  change (ExprWidth (Const a w)) with w.
  destruct (Z.eqb_spec w' w) as [-> | Hne].
  - rewrite Z.mod_small by exact Ha. reflexivity.
  - destruct (Z.ltb_spec w' w) as [Hlt | Hge].
    + rewrite fold_extract by lia.
      rewrite Z.pow_0_r, Z.div_1_r. reflexivity.
    + unfold Const, ZExt. cbn [Width Value].
      destruct (Z.eqb_spec w w') as [Heq | _]; [lia |].
      destruct (Z.eqb_spec w' 1) as [H1 | _]; [lia |].
      rewrite NewConstantExpr_mod by lia. reflexivity.
Qed.

Lemma sext_value (w w' a : Z) :
  0 < w < w' -> w' <= 64 -> 0 <= a < 2 ^ w ->
  NewConstantExpr (uintN 64 (intN w (intN w' a))) w' =
    mkConstant (signedValue w a mod 2 ^ w') w'.
Proof.
  intros Hw Hw' Ha.
  assert (Hpow : 2 ^ w <= 2 ^ (w' - 1)) by (apply Z.pow_le_mono_r; lia).
  pose proof (pow2_pos (w' - 1) ltac:(lia)).
  rewrite (intN_small w' a) by lia.
  rewrite intN_signedValue by (assumption || lia).
  fold uint64. rewrite NewConstantExpr_uint64 by lia. reflexivity.
Qed.

Lemma SExt_closed (w w' a : Z) :
  standardWidth w -> standardWidth w' -> w < w' -> 0 <= a < 2 ^ w ->
  SExt (mkConstant a w) w' = Ok (mkConstant (signedValue w a mod 2 ^ w') w').
Proof.
  intros Hw Hw' Hlt Ha. unfold SExt. cbn [Width Value].
  destruct (Z.eqb_spec w w') as [Heq | _]; [lia |].
  revert Ha Hlt.
  each_width Hw; each_width Hw'; intros Ha Hlt; try lia;
    cbv beta iota; unfold int8, int16, int32, int64, uint64;
    rewrite sext_value by lia; reflexivity.
Qed.

Lemma SExt_bool (a w' : Z) :
  w' <> 1 -> SExt (mkConstant a 1) w' = Panic "sext: non-standard width".
Proof.
  intros Hw'. unfold SExt. cbn [Width Value].
  destruct (Z.eqb_spec 1 w') as [Heq | _]; [lia |].
  destruct w' as [| p | p]; try reflexivity.
  repeat (destruct p as [p | p |]; try reflexivity).
Qed.

Lemma fold_sext (fuel : nat) (w a w' : Z) :
  0 <= a < 2 ^ w ->
  (0 < w' <= w -> w <= 64 ->
   newSExtExpr (S fuel) (Const a w) w' = Ok (Const (a mod 2 ^ w') w')) /\
  (standardWidth w -> standardWidth w' -> w < w' ->
   newSExtExpr (S fuel) (Const a w) w' =
     Ok (Const (signedValue w a mod 2 ^ w') w')) /\
  (w = 1 -> 1 < w' ->
   newSExtExpr (S fuel) (Const a w) w' = Panic "sext: non-standard width").
Proof.
  intros Ha. unfold newSExtExpr.
  change (ExprWidth (Const a w)) with w. split; [| split].
  - intros Hw' Hw.
    destruct (Z.eqb_spec w' w) as [-> | Hne].
    + rewrite Z.mod_small by exact Ha. reflexivity.
    + destruct (Z.ltb_spec w' w) as [Hlt | Hge]; [| lia].
      rewrite fold_extract by lia.
      rewrite Z.pow_0_r, Z.div_1_r. reflexivity.
  - intros Hw Hw' Hlt.
    destruct (Z.eqb_spec w' w) as [Heq | _]; [lia |].
    destruct (Z.ltb_spec w' w) as [Hlt' | _]; [lia |].
    unfold Const. rewrite SExt_closed by assumption. reflexivity.
  - intros -> Hw'.
    destruct (Z.eqb_spec w' 1) as [Heq | _]; [lia |].
    destruct (Z.ltb_spec w' 1) as [Hlt' | _]; [lia |].
    unfold Const. rewrite SExt_bool by lia. reflexivity.
Qed.

(** C3, as the code has it.  Two constants of width 8, 16, 32 or 64 fold
    under every binary constructor to the constant of the closed form at
    that width (division and remainder for a divisor that is not zero), and
    two constants of width 1 under ADD, SUB, MUL, AND, OR, XOR, EQ and NE.
    The complement, the unsigned cast, the truncating signed cast and the
    extract of a constant fold at every width up to 64, and the sign
    extension between the four widths.  Division, remainder, the shifts and
    the ordered comparisons panic on constants of every other width, width 1
    included, and so does the sign extension of a constant of width 1. *)
Theorem C3_constant_folding :
  (forall fuel op w a b,
     standardWidth w -> 0 <= a < 2 ^ w -> 0 <= b < 2 ^ w ->
     (isDivision op = true -> b <> 0) ->
     NewBinaryExpr (S (S fuel)) op (Const a w) (Const b w) =
       Ok (Const (binaryValue op w a b) (binaryWidth op w))) /\
  (forall fuel op a b,
     switchesOnWidth op = false -> 0 <= a < 2 -> 0 <= b < 2 ->
     NewBinaryExpr (S (S fuel)) op (Const a 1) (Const b 1) =
       Ok (Const (binaryValue op 1 a b) (binaryWidth op 1))) /\
  (forall fuel op w a b,
     ~ standardWidth w -> switchesOnWidth op = true ->
     exists msg, NewBinaryExpr (S fuel) op (Const a w) (Const b w) = Panic msg) /\
  (forall w a,
     0 <= w <= 64 -> 0 <= a < 2 ^ w ->
     NewNotExpr (Const a w) = Const (2 ^ w - 1 - a) w) /\
  (forall fuel w a w',
     0 < w <= 64 -> 0 <= a < 2 ^ w -> 0 < w' <= 64 ->
     NewCastExpr (S fuel) (Const a w) w' false = Ok (Const (a mod 2 ^ w') w')) /\
  (forall fuel w a w',
     0 <= a < 2 ^ w ->
     (0 < w' <= w -> w <= 64 ->
      NewCastExpr (S fuel) (Const a w) w' true = Ok (Const (a mod 2 ^ w') w')) /\
     (standardWidth w -> standardWidth w' -> w < w' ->
      NewCastExpr (S fuel) (Const a w) w' true =
        Ok (Const (signedValue w a mod 2 ^ w') w')) /\
     (w = 1 -> 1 < w' ->
      NewCastExpr (S fuel) (Const a w) w' true =
        Panic "sext: non-standard width")) /\
  (forall fuel w a offset width,
     0 <= w <= 64 -> 0 <= a < 2 ^ w -> 0 <= offset -> 0 < width ->
     offset + width <= w ->
     NewExtractExpr (S fuel) (Const a w) offset width =
       Ok (Const ((a / 2 ^ offset) mod 2 ^ width) width)).
Proof.
  split; [exact fold_binary |].
  split; [exact fold_binary_bool |].
  split; [exact fold_binary_nonstandard |].
  split; [exact fold_not |].
  split; [exact fold_zext |].
  split; [exact fold_sext |].
  exact fold_extract.
Qed.

Lemma C3_constant_folding_witness :
  NewBinaryExpr 2 SDIV (Const 236 8) (Const 7 8) = Ok (Const 254 8) /\
  NewBinaryExpr 2 ADD (Const 1 1) (Const 1 1) = Ok (Const 0 1) /\
  (exists msg, NewBinaryExpr 2 ASHR (Const 5 24) (Const 1 24) = Panic msg) /\
  NewNotExpr (Const 5 8) = Const 250 8 /\
  NewCastExpr 1 (Const 200 8) 32 false = Ok (Const 200 32) /\
  NewCastExpr 1 (Const 200 8) 32 true = Ok (Const 4294967240 32) /\
  NewExtractExpr 1 (Const 65408 16) 8 8 = Ok (Const 255 8).
Proof.
  destruct C3_constant_folding
    as [Hbin [Hbool [Hnon [Hnot [Hzext [Hsext Hextract]]]]]].
  split; [| split; [| split; [| split; [| split; [| split]]]]].
  - apply (Hbin 0%nat SDIV 8 236 7).
    + unfold standardWidth. lia.
    + simpl. lia.
    + simpl. lia.
    + intros _. lia.
  - apply (Hbool 0%nat ADD 1 1); [reflexivity | lia | lia].
  - apply (Hnon 1%nat ASHR 24 5 1); [unfold standardWidth; lia | reflexivity].
  - apply (Hnot 8 5); simpl; lia.
  - apply (Hzext 0%nat 8 200 32); simpl; lia.
  - apply (proj1 (proj2 (Hsext 0%nat 8 200 32 ltac:(simpl; lia))));
      unfold standardWidth; lia.
  - apply (Hextract 0%nat 16 65408 8 8); simpl; lia.
Defined.

(** C3 as stated fails at width 1, which it takes for an accepted width:
    a shift, an ordered comparison and a division of two constants of
    width 1 panic, and so does a sign extension of one. *)
Lemma C3_counterexample :
  NewBinaryExpr 2 SHL (Const 1 1) (Const 0 1) = Panic "shl: non-standard width" /\
  NewBinaryExpr 2 ULT (Const 0 1) (Const 1 1) = Panic "ult: non-standard width" /\
  NewBinaryExpr 2 SDIV (Const 1 1) (Const 1 1) = Panic "sdiv: non-standard width" /\
  NewCastExpr 2 (Const 1 1) 8 true = Panic "sext: non-standard width".
Proof. repeat split. Qed.

(** ** Arrays: reading back what was written *)

Lemma compareZ_zero (x y next : Z) :
  compareZ x y next = 0 <-> x = y /\ next = 0.
Proof.
  unfold compareZ.
  destruct (Z.ltb_spec x y); [split; [discriminate | lia] |].
  destruct (Z.gtb_spec x y); [split; [discriminate | lia] |].
  split; [intros ->; split; [lia | reflexivity] | tauto].
Qed.

Lemma CompareExpr_refl :
  (forall e, CompareExpr e e = 0) /\
  (forall a, CompareArray a a = 0) /\
  (forall u, CompareArrayUpdate u u = 0).
Proof.
  apply Expr_Array_ind; intros; cbn [CompareExpr CompareArray CompareArrayUpdate];
    rewrite ?compareZ_same; unfold compareConstantExpr;
    rewrite ?compareZ_same; try reflexivity; try assumption.
  - rewrite H0. exact H.
  - rewrite H. exact H0.
  - destruct Signed; cbn [andb negb]; exact H.
  - rewrite H. exact H0.
  - rewrite H, H0. exact H1.
Qed.

Lemma sameExpr_refl (e : Expr) : sameExpr e e = true.
Proof. unfold sameExpr. rewrite (proj1 CompareExpr_refl). reflexivity. Qed.

Lemma removeUpdates_prepend (k : Z) (entries : list (Z * Expr))
    (rest : ArrayUpdate) :
  ~ In k (map fst entries) ->
  removeUpdates k (prepend entries rest) = prepend entries (removeUpdates k rest).
Proof.
  induction entries as [| [k' v'] entries IH]; intros Hk; [reflexivity |].
  cbn [prepend]. unfold Const at 1. cbn [removeUpdates Value].
  destruct (Z.eqb_spec k k') as [-> | _].
  - exfalso. apply Hk. left. reflexivity.
  - rewrite IH; [reflexivity |]. intros Hin. apply Hk. right. exact Hin.
Qed.

Lemma storeByte_prepend (fuel : nat) (id size k : Z) (byte : Expr)
    (entries : list (Z * Expr)) (rest : ArrayUpdate) :
  0 <= k < size -> ExprWidth byte = 8 -> ~ In k (map fst entries) ->
  storeByte fuel (Const k 64) byte (mkArray id size (prepend entries rest)) =
    (Ok tt,
     mkArray id size (prepend ((k, byte) :: entries) (removeUpdates k rest))).
Proof.
  intros Hk Hw Hnew. rewrite storeByte_constant by assumption.
  cbn [ArrayID ArraySize ArrayUpdates prepend].
  rewrite removeUpdates_prepend by exact Hnew. reflexivity.
Qed.

Lemma index_of_byte (fuel : nat) (offset byteOffset : Z) :
  0 <= offset -> 0 <= byteOffset -> offset + byteOffset < 2 ^ 64 ->
  NewBinaryExpr (S fuel) ADD (Const offset 64)
    (Constant (NewConstantExpr64 byteOffset)) =
    Ok (Const (offset + byteOffset) 64).
Proof.
  intros Ho Hb Hfit. unfold NewConstantExpr64.
  rewrite NewConstantExpr_small by lia.
  cbn [NewBinaryExpr dispatch]. unfold Const.
  rewrite newAddExpr_constants. cbn [Width Value].
  replace (64 =? 1) with false by reflexivity.
  destruct (Z.eqb_spec offset 0) as [-> | _]; [reflexivity |].
  rewrite (Add_closed 64) by lia. cbn [constant bind].
  rewrite Z.mod_small by lia. reflexivity.
Qed.

Section RoundTrip.

Variables (fuel : nat) (offset n : Z) (isLittleEndian : bool) (value : Expr).
Variables bytes part : Z -> Expr.

Hypothesis offset_nonneg : 0 <= offset.
Hypothesis fits : offset + n < 2 ^ 64.
Hypothesis bytes_extracted :
  forall j, 0 <= j < n ->
    NewExtractExpr (S fuel) value (uint64 (j * 8)) Width8 = Ok (bytes j).
Hypothesis bytes_width : forall j, 0 <= j < n -> ExprWidth (bytes j) = 8.
Hypothesis part_first : part 0 = bytes 0.
Hypothesis part_next :
  forall j, 0 <= j -> j + 1 < n ->
    NewConcatExpr (S fuel) (bytes (j + 1)) (part j) = Ok (part (j + 1)).

Let idx := byteIndex offset isLittleEndian n.

Lemma idx_range (j : Z) : 0 <= j < n -> offset <= idx j < offset + n.
Proof. intros Hj. subst idx. unfold byteIndex. destruct isLittleEndian; lia. Qed.

Lemma idx_injective (j j' : Z) : idx j = idx j' -> j = j'.
Proof. subst idx. unfold byteIndex. destruct isLittleEndian; lia. Qed.

Lemma byteOffset_small (j : Z) :
  0 <= j < n ->
  (if isLittleEndian then j else uint64 (n - j - 1)) =
  (if isLittleEndian then j else n - j - 1).
Proof.
  intros Hj. destruct isLittleEndian; [reflexivity |].
  unfold uint64. apply uintN_small. lia.
Qed.

Lemma index_of_iteration (j : Z) :
  0 <= j < n ->
  NewBinaryExpr (S fuel) ADD (Const offset 64)
    (Constant
       (NewConstantExpr64 (if isLittleEndian then j else uint64 (n - j - 1))))
  = Ok (Const (idx j) 64).
Proof.
  intros Hj. rewrite byteOffset_small by exact Hj.
  rewrite index_of_byte; [reflexivity | exact offset_nonneg | |];
    destruct isLittleEndian; lia.
Qed.

Lemma written_keys (m : nat) (k : Z) :
  In k (map fst (written idx bytes m)) ->
  exists j, 0 <= j < Z.of_nat m /\ k = idx j.
Proof.
  induction m as [| m IH]; cbn [written map fst In]; [intros [] |].
  intros [Hk | Hk].
  - exists (Z.of_nat m). split; [lia | symmetry; exact Hk].
  - destruct (IH Hk) as [j [Hj Hkj]]. exists j. split; [lia | exact Hkj].
Qed.

Lemma storeBytes_written (id size : Z) :
  offset + n <= size ->
  forall (k m : nat) (rest : ArrayUpdate),
    Z.of_nat m + Z.of_nat k = n ->
    exists rest',
      storeBytes (S fuel) (Const offset 64) value isLittleEndian n k
        (Z.of_nat m) (mkArray id size (prepend (written idx bytes m) rest))
      = Ok (mkArray id size (prepend (written idx bytes (m + k)) rest')).
Proof.
  intros Hsize. induction k as [| k IH]; intros m rest Hmk.
  - exists rest. rewrite Nat.add_0_r. reflexivity.
  - assert (Hm : 0 <= Z.of_nat m < n) by lia.
    cbn [storeBytes].
    replace (uint64 (if isLittleEndian then Z.of_nat m
                     else uint64 (n - Z.of_nat m - 1)))
      with (if isLittleEndian then Z.of_nat m else uint64 (n - Z.of_nat m - 1)).
    2:{ rewrite byteOffset_small by exact Hm. unfold uint64.
        rewrite uintN_small; [reflexivity |]. destruct isLittleEndian; lia. }
    rewrite index_of_iteration by exact Hm. cbn [bind].
    rewrite bytes_extracted by exact Hm. cbn [bind].
    rewrite storeByte_prepend.
    + cbn [returned fst snd bind].
      destruct (IH (S m) (removeUpdates (idx (Z.of_nat m)) rest)) as [rest' Hrest];
        [lia |].
      exists rest'.
      replace (Z.of_nat m + 1) with (Z.of_nat (S m)) by lia.
      replace (m + S k)%nat with (S m + k)%nat by lia.
      exact Hrest.
    + pose proof (idx_range _ Hm). lia.
    + apply bytes_width. exact Hm.
    + intros Hin. apply written_keys in Hin. destruct Hin as [j [Hj Heq]].
      apply idx_injective in Heq. lia.
Qed.

Lemma selectUpdate_written (a : Array) (rest : ArrayUpdate) (j : Z) :
  forall m : nat,
    0 <= j < Z.of_nat m ->
    selectUpdate (S fuel) a (Const (idx j) 64)
      (prepend (written idx bytes m) rest) = Ok (bytes j).
Proof.
  induction m as [| m IH]; intros Hj; [lia |].
  cbn [written prepend selectUpdate].
  rewrite NewBinaryExpr_EQ_constants. cbn [bind].
  destruct (Z.eqb_spec (idx j) (idx (Z.of_nat m))) as [Heq | Hne].
  - apply idx_injective in Heq. subst j. reflexivity.
  - cbn [NewBoolConstantExpr IsTrue Width Value Z.eqb andb negb].
    apply IH. assert (j <> Z.of_nat m) by (intros ->; apply Hne; reflexivity).
    lia.
Qed.

Lemma selectBytes_written (id size : Z) (rest : ArrayUpdate) :
  let a := mkArray id size (prepend (written idx bytes (Z.to_nat n)) rest) in
  forall (k m : nat) (acc : option Expr),
    Z.of_nat m + Z.of_nat k = n ->
    acc = (if (m =? 0)%nat then None else Some (part (Z.of_nat m - 1))) ->
    selectBytes (S fuel) a (Const offset 64) isLittleEndian n k (Z.of_nat m) acc
    = Ok (if (m + k =? 0)%nat then None else Some (part (n - 1))).
Proof.
  intros a. induction k as [| k IH]; intros m acc Hmk Hacc.
  - cbn [selectBytes]. rewrite Nat.add_0_r. rewrite Hacc.
    replace (Z.of_nat m - 1) with (n - 1) by lia. reflexivity.
  - assert (Hm : 0 <= Z.of_nat m < n) by lia.
    cbn [selectBytes].
    rewrite index_of_iteration by exact Hm. cbn [bind].
    unfold selectByte. cbn [ExprWidth Const Width assert bind Z.eqb Pos.eqb].
    subst a. cbn [ArrayUpdates].
    rewrite selectUpdate_written by lia. cbn [bind].
    assert (Hstep :
      (if Z.of_nat m =? 0 then Ok (bytes (Z.of_nat m))
       else match acc with
            | Some r => NewConcatExpr (S fuel) (bytes (Z.of_nat m)) r
            | None => Ok (bytes (Z.of_nat m))
            end) = Ok (part (Z.of_nat m))).
    { destruct m as [| m'].
      - cbn [Z.of_nat Z.eqb]. rewrite part_first. reflexivity.
      - destruct (Z.eqb_spec (Z.of_nat (S m')) 0) as [H0 | _]; [lia |].
        rewrite Hacc. cbn [Nat.eqb].
        replace (Z.of_nat (S m')) with (Z.of_nat (S m') - 1 + 1) at 1 3 by lia.
        apply part_next; lia. }
    rewrite Hstep. cbn [bind].
    replace (Z.of_nat m + 1) with (Z.of_nat (S m)) by lia.
    replace (m + S k)%nat with (S m + k)%nat by lia.
    apply IH; [lia |].
    cbn [Nat.eqb]. f_equal. f_equal. lia.
Qed.

(** [Store] of the value and then [Select] of its [8 * n] bits. *)
Lemma store_then_select (a : Array) :
  0 < n -> offset + n <= ArraySize a ->
  ExprWidth value = 8 * n ->
  exists a',
    Store (S fuel) a (Const offset 64) value isLittleEndian = Ok a' /\
    Select (S fuel) a' (Const offset 64) (8 * n) isLittleEndian
    = Ok (Some (part (n - 1))).
Proof.
  intros Hn Hsize Hwidth. destruct a as [id size upd].
  cbn [ArraySize] in Hsize.
  destruct (storeBytes_written id size Hsize (Z.to_nat n) 0 upd) as [rest Hst];
    [lia |].
  exists (mkArray id size (prepend (written idx bytes (Z.to_nat n)) rest)).
  assert (Hdiv : 8 * n / 8 = n) by (rewrite Z.mul_comm; apply Z.div_mul; lia).
  split.
  - unfold Store. rewrite newZExtExpr_same by reflexivity. cbn [bind].
    rewrite Hwidth.
    destruct (Z.gtb_spec (8 * n) 0) as [_ | Hle]; [| lia]. cbn [assert bind].
    destruct (Z.eqb_spec (8 * n) 1) as [H1 | _]; [lia |].
    rewrite Hdiv. exact Hst.
  - unfold Select.
    destruct (Z.gtb_spec (8 * n) 0) as [_ | Hle]; [| lia]. cbn [assert bind].
    rewrite newZExtExpr_same by reflexivity. cbn [bind].
    destruct (Z.eqb_spec (8 * n) 1) as [H1 | _]; [lia |].
    rewrite Hdiv.
    pose proof (selectBytes_written id size rest (Z.to_nat n) 0 None) as Hsel.
    cbv zeta in Hsel. change (Z.of_nat 0) with 0 in Hsel.
    rewrite Hsel; [| lia | reflexivity].
    destruct (Z.to_nat n) eqn:En; [lia | reflexivity].
Qed.

End RoundTrip.

(** The bytes of a constant, and the constant of the low bytes. *)
Lemma concat_value (x s : Z) :
  0 <= s -> s + 8 <= 64 ->
  NewConstantExpr (Z.lor (shlN 64 ((x / 2 ^ s) mod 2 ^ 8) s) (x mod 2 ^ s))
    (s + 8) = mkConstant (x mod 2 ^ (s + 8)) (s + 8).
Proof.
  intros Hs Hfit. rewrite NewConstantExpr_mod by lia. f_equal.
  unfold shlN. destruct (Z.ltb_spec s 64) as [_ | Hge]; [| lia].
  apply Z.bits_inj'. intros k Hk.
  destruct (Z.lt_ge_cases k (s + 8)) as [Hlt | Hge].
  - rewrite !Z.mod_pow2_bits_low by lia. rewrite Z.lor_spec.
    unfold uintN. rewrite Z.mod_pow2_bits_low by lia.
    destruct (Z.lt_ge_cases k s) as [Hlow | Hhigh].
    + rewrite Z.shiftl_spec_low by exact Hlow.
      rewrite Z.mod_pow2_bits_low by lia. reflexivity.
    + rewrite Z.shiftl_spec by exact Hk.
      rewrite Z.mod_pow2_bits_low by lia.
      rewrite Z.mod_pow2_bits_high by lia.
      rewrite <- Z.shiftr_div_pow2 by exact Hs.
      rewrite Z.shiftr_spec by lia.
      rewrite orb_false_r. f_equal. lia.
  - rewrite !Z.mod_pow2_bits_high by lia. reflexivity.
Qed.

Lemma constant_round_trip (fuel : nat) (a : Array) (offset x n : Z)
    (isLittleEndian : bool) :
  0 <= offset -> 1 <= n <= 8 -> 0 <= x < 2 ^ (8 * n) ->
  offset + n <= ArraySize a -> ArraySize a < 2 ^ 64 ->
  exists a',
    Store (S fuel) a (Const offset 64) (Const x (8 * n)) isLittleEndian = Ok a' /\
    Select (S fuel) a' (Const offset 64) (8 * n) isLittleEndian
    = Ok (Some (Const x (8 * n))).
Proof.
  intros Ho Hn Hx Hsize Hmax.
  pose (bytes := fun j => Const ((x / 2 ^ (j * 8)) mod 2 ^ 8) 8).
  pose (part := fun j => Const (x mod 2 ^ (8 * (j + 1))) (8 * (j + 1))).
  destruct (store_then_select fuel offset n isLittleEndian (Const x (8 * n))
              bytes part) with (a := a) as [a' [Hstore Hselect]];
    try assumption; try lia; try reflexivity.
  - intros j Hj. unfold uint64. rewrite uintN_small
      by (change (2 ^ 64) with 18446744073709551616; lia).
    apply fold_extract; lia.
  - subst bytes part. cbv beta.
    replace (8 * (0 + 1)) with 8 by lia.
    rewrite Z.mul_0_l, Z.pow_0_r, Z.div_1_r. reflexivity.
  - intros j Hj Hjn. subst bytes part. cbv beta.
    unfold NewConcatExpr, newConcatExpr, otherwise, Const, Concat.
    cbn [Width Value]. unfold uint64 at 1.
    rewrite uintN_small by (change (2 ^ 64) with 18446744073709551616; lia).
    replace ((j + 1) * 8) with (8 * (j + 1)) by lia.
    replace (8 + 8 * (j + 1)) with (8 * (j + 1) + 8) by lia.
    rewrite concat_value by lia.
    replace (8 * (j + 1 + 1)) with (8 * (j + 1) + 8) by lia. reflexivity.
  - exists a'. split; [exact Hstore |]. rewrite Hselect. subst part. cbv beta.
    replace (n - 1 + 1) with n by lia.
    rewrite Z.mod_small by exact Hx. reflexivity.
Qed.

Lemma atom_round_trip (fuel : nat) (a : Array) (offset n : Z) (v : Expr)
    (isLittleEndian : bool) :
  0 <= offset -> 1 <= n -> isAtom v = true ->
  ExprWidth v = 8 * n -> 8 * n < 2 ^ 64 ->
  offset + n <= ArraySize a -> ArraySize a < 2 ^ 64 ->
  exists a',
    Store (S fuel) a (Const offset 64) v isLittleEndian = Ok a' /\
    Select (S fuel) a' (Const offset 64) (8 * n) isLittleEndian = Ok (Some v).
Proof.
  intros Ho Hn Hatom Hwidth Hwmax Hsize Hmax.
  change (2 ^ 64) with 18446744073709551616 in Hmax, Hwmax.
  pose (bytes := fun j => if n =? 1 then v else ExtractExpr v (j * 8) 8).
  pose (part := fun j => if j + 1 =? n then v else ExtractExpr v 0 (8 * (j + 1))).
  assert (Hextract : forall o w,
             0 <= o -> 0 < w -> o + w <= 8 * n ->
             NewExtractExpr (S fuel) v o w =
               Ok (if w =? 8 * n then v else ExtractExpr v o w)).
  { intros o w Hopos Hw Hfit. cbn [NewExtractExpr]. rewrite Hwidth.
    destruct (Z.gtb_spec w 0) as [_ | Hle]; [| lia]. cbn [assert bind].
    unfold uint64. rewrite uintN_small
      by (change (2 ^ 64) with 18446744073709551616; lia).
    destruct (Z.leb_spec (o + w) (8 * n)) as [_ | Hgt]; [| lia].
    cbn [assert bind].
    destruct (w =? 8 * n); [reflexivity |].
    destruct v; try reflexivity; discriminate Hatom. }
  destruct (store_then_select fuel offset n isLittleEndian v bytes part)
    with (a := a) as [a' [Hstore Hselect]];
    try assumption; try lia.
  - intros j Hj. unfold uint64. rewrite uintN_small
      by (change (2 ^ 64) with 18446744073709551616; lia).
    rewrite Hextract by lia. subst bytes. cbv beta.
    destruct (Z.eqb_spec n 1) as [-> | Hne].
    + reflexivity.
    + destruct (Z.eqb_spec 8 (8 * n)) as [H8 | _]; [lia | reflexivity].
  - intros j Hj. subst bytes. cbv beta.
    destruct (Z.eqb_spec n 1) as [-> | _]; [exact Hwidth | reflexivity].
  - subst bytes part. cbv beta. rewrite Z.mul_0_l.
    replace (0 + 1 =? n) with (n =? 1) by (rewrite Z.eqb_sym; reflexivity).
    reflexivity.
  - intros j Hj Hjn. subst bytes part. cbv beta.
    destruct (Z.eqb_spec n 1) as [H1 | _]; [lia |].
    destruct (Z.eqb_spec (j + 1) n) as [Heq | _]; [lia |].
    unfold NewConcatExpr, newConcatExpr, otherwise.
    rewrite sameExpr_refl. unfold uint64.
    rewrite !uintN_small
      by (change (2 ^ 64) with 18446744073709551616; lia).
    replace (0 + 8 * (j + 1) =? (j + 1) * 8) with true
      by (symmetry; apply Z.eqb_eq; lia).
    cbn [andb]. rewrite Hextract by lia.
    replace (8 * (j + 1 + 1)) with (8 + 8 * (j + 1)) by lia.
    destruct (Z.eqb_spec (8 + 8 * (j + 1)) (8 * n)) as [Heq | Hneq];
      destruct (Z.eqb_spec (j + 1 + 1) n) as [Heq' | Hneq'];
      try lia; reflexivity.
  - exists a'. split; [exact Hstore |]. rewrite Hselect. subst part. cbv beta.
    replace (n - 1 + 1) with n by lia. rewrite Z.eqb_refl. reflexivity.
Qed.

Lemma storeByte_constant_zext (fuel : nat) (k : Z) (value byte : Expr)
    (a : Array) :
  0 <= k < ArraySize a -> newZExtExpr fuel value Width8 = Ok byte ->
  storeByte fuel (Const k 64) value a =
    (Ok tt, mkArray (ArrayID a) (ArraySize a)
              (Update (Const k 64) byte (removeUpdates k (ArrayUpdates a)))).
Proof.
  intros Hk Hv. unfold storeByte, NewArrayUpdate.
  cbn [ExprWidth Const Width Value].
  replace (64 =? 64) with true by reflexivity. cbn [assert bind].
  destruct (Z.ltb_spec k (ArraySize a)) as [_ | Hge]; [| lia].
  cbn [assert bind].
  rewrite (newZExtExpr_same fuel (Const k 64) 64) by reflexivity.
  cbn [bind]. rewrite Hv. reflexivity.
Qed.

(** A value of one bit is written as the byte that [newZExtExpr] makes of
    it and read back as the lowest bit of that byte. *)
Lemma bool_round_trip (fuel : nat) (a : Array) (offset : Z) (value byte : Expr)
    (isLittleEndian : bool) :
  0 <= offset < ArraySize a -> ExprWidth value = 1 ->
  newZExtExpr (S fuel) value Width8 = Ok byte ->
  exists a',
    Store (S fuel) a (Const offset 64) value isLittleEndian = Ok a' /\
    Select (S fuel) a' (Const offset 64) 1 isLittleEndian =
      (e <- NewExtractExpr (S fuel) byte 0 WidthBool ;; Ok (Some e)).
Proof.
  intros Ho Hw Hbyte. destruct a as [id size upd]. cbn [ArraySize] in Ho.
  exists (mkArray id size
            (Update (Const offset 64) byte (removeUpdates offset upd))).
  split.
  - unfold Store. rewrite newZExtExpr_same by reflexivity. cbn [bind].
    rewrite Hw. cbn [Z.gtb Z.compare assert bind Z.eqb Pos.eqb].
    rewrite (storeByte_constant_zext (S fuel) offset value byte);
      [reflexivity | exact Ho | exact Hbyte].
  - unfold Select. cbn [Z.gtb Z.compare assert bind].
    rewrite newZExtExpr_same by reflexivity. cbn [bind Z.eqb Pos.eqb].
    rewrite selectByte_head. reflexivity.
Qed.

Lemma Store_offset (fuel : nat) (a : Array) (offset offset' value : Expr)
    (isLittleEndian : bool) :
  newZExtExpr fuel offset Width64 = Ok offset' -> ExprWidth offset' = 64 ->
  Store fuel a offset value isLittleEndian =
  Store fuel a offset' value isLittleEndian.
Proof.
  intros H Hw. unfold Store. rewrite H.
  rewrite (newZExtExpr_same fuel offset' 64 Hw). reflexivity.
Qed.

Lemma Select_offset (fuel : nat) (a : Array) (offset offset' : Expr) (width : Z)
    (isLittleEndian : bool) :
  newZExtExpr fuel offset Width64 = Ok offset' -> ExprWidth offset' = 64 ->
  Select fuel a offset width isLittleEndian =
  Select fuel a offset' width isLittleEndian.
Proof.
  intros H Hw. unfold Select. rewrite H.
  rewrite (newZExtExpr_same fuel offset' 64 Hw). reflexivity.
Qed.




(** ** Arrays: stores out of bounds *)




(** ** The comparator is a total order *)

Lemma compareZ_opp (x y next : Z) :
  compareZ y x (- next) = - compareZ x y next.
Proof.
  unfold compareZ.
  destruct (Z.ltb_spec x y), (Z.gtb_spec x y), (Z.ltb_spec y x),
    (Z.gtb_spec y x); try lia; reflexivity.
Qed.

Lemma compareZ_ordering (x y next : Z) :
  ordering next -> ordering (compareZ x y next).
Proof.
  unfold compareZ, ordering. intros H.
  destruct (x <? y); [lia |]. destruct (x >? y); [lia | exact H].
Qed.

Lemma lexicographic_zero (cmp rest : Z) :
  lexicographic cmp rest = 0 <-> cmp = 0 /\ rest = 0.
Proof.
  unfold lexicographic. destruct (Z.eqb_spec cmp 0); cbn [negb]; lia.
Qed.

Lemma lexicographic_opp (cmp rest : Z) :
  lexicographic (- cmp) (- rest) = - lexicographic cmp rest.
Proof.
  unfold lexicographic.
  destruct (Z.eqb_spec cmp 0), (Z.eqb_spec (- cmp) 0); cbn [negb]; lia.
Qed.

Lemma lexicographic_ordering (cmp rest : Z) :
  ordering cmp -> ordering rest -> ordering (lexicographic cmp rest).
Proof.
  unfold lexicographic. intros Hc Hr.
  destruct (negb (cmp =? 0)); assumption.
Qed.

Lemma opcode_injective (a b : BinaryOp) : opcode a = opcode b -> a = b.
Proof. destruct a, b; cbn [opcode]; intros H; (reflexivity || discriminate H). Qed.

Ltac fold_lexicographic :=
  repeat match goal with
         | |- context [if negb (?c =? 0) then ?c else ?r] =>
             change (if negb (c =? 0) then c else r) with (lexicographic c r)
         | H : context [if negb (?c =? 0) then ?c else ?r] |- _ =>
             change (if negb (c =? 0) then c else r) with (lexicographic c r) in H
         end.

Lemma CompareExpr_zero :
  (forall a b, CompareExpr a b = 0 -> a = b) /\
  (forall a b, CompareArray a b = 0 -> a = b) /\
  (forall a b, CompareArrayUpdate a b = 0 -> a = b).
Proof.
  apply Expr_Array_ind; intros;
    match goal with
    | H : CompareExpr _ ?b = 0 |- _ => destruct b
    | H : CompareArray _ ?b = 0 |- _ => destruct b
    | H : CompareArrayUpdate _ ?b = 0 |- _ => destruct b
    end;
    cbn [CompareExpr CompareArray CompareArrayUpdate exprKind] in *;
    try discriminate;
    fold_lexicographic;
    repeat match goal with
           | H : compareZ _ _ _ = 0 |- _ =>
               apply compareZ_zero in H; destruct H as [? H]
           | H : lexicographic _ _ = 0 |- _ =>
               apply lexicographic_zero in H; destruct H as [? H]
           end;
    try reflexivity.
  - destruct c, c0. unfold compareConstantExpr in *. simpl in *.
    repeat match goal with
           | H : compareZ _ _ _ = 0 |- _ =>
               apply compareZ_zero in H; destruct H as [? H]
           end.
    subst. reflexivity.
  - f_equal. auto.
  - f_equal; auto.
  - f_equal; auto.
  - subst. f_equal. auto.
  - f_equal. auto.
  - destruct Signed, Signed0; cbn [andb negb] in *; try discriminate;
      apply compareZ_zero in H0; destruct H0 as [-> H0]; f_equal; auto.
  - f_equal; auto using opcode_injective.
  - subst. f_equal. auto.
  - f_equal; auto.
Qed.

Lemma CompareExpr_opp :
  (forall a b, CompareExpr b a = - CompareExpr a b) /\
  (forall a b, CompareArray b a = - CompareArray a b) /\
  (forall a b, CompareArrayUpdate b a = - CompareArrayUpdate a b).
Proof.
  apply Expr_Array_ind; intros;
    match goal with
    | |- CompareExpr ?b _ = _ => destruct b
    | |- CompareArray ?b _ = _ => destruct b
    | |- CompareArrayUpdate ?b _ = _ => destruct b
    end;
    cbn [CompareExpr CompareArray CompareArrayUpdate exprKind];
    try reflexivity;
    fold_lexicographic;
    unfold compareConstantExpr;
    repeat match goal with
           | H : forall b, _ = - _ |- _ => rewrite H; clear H
           end;
    rewrite ?lexicographic_opp, <- ?compareZ_opp, ?lexicographic_opp,
      <- ?compareZ_opp;
    try reflexivity.
  - destruct Signed, Signed0; cbn [andb negb]; try reflexivity;
      rewrite <- compareZ_opp; reflexivity.
Qed.

Lemma CompareExpr_ordering :
  (forall a b, ordering (CompareExpr a b)) /\
  (forall a b, ordering (CompareArray a b)) /\
  (forall a b, ordering (CompareArrayUpdate a b)).
Proof.
  assert (Hm : ordering (-1)) by (unfold ordering; lia).
  assert (Hz : ordering 0) by (unfold ordering; lia).
  assert (Hp : ordering 1) by (unfold ordering; lia).
  apply Expr_Array_ind; intros;
    match goal with
    | |- ordering (CompareExpr _ ?b) => destruct b
    | |- ordering (CompareArray _ ?b) => destruct b
    | |- ordering (CompareArrayUpdate _ ?b) => destruct b
    end;
    cbn [CompareExpr CompareArray CompareArrayUpdate exprKind];
    try assumption;
    fold_lexicographic;
    unfold compareConstantExpr;
    repeat (apply compareZ_ordering || apply lexicographic_ordering);
    auto.
  - destruct Signed, Signed0; cbn [andb negb]; try assumption;
      apply compareZ_ordering; auto.
Qed.

Lemma compareZ_less (x y next : Z) :
  compareZ x y next = -1 <-> x < y \/ (x = y /\ next = -1).
Proof.
  unfold compareZ.
  destruct (Z.ltb_spec x y); [split; [lia | reflexivity] |].
  destruct (Z.gtb_spec x y); [split; [discriminate | lia] |].
  split; [intros ->; right; split; [lia | reflexivity] | intros [? | [_ ->]]; [lia | reflexivity]].
Qed.

Lemma lexicographic_less (cmp rest : Z) :
  lexicographic cmp rest = -1 <-> cmp = -1 \/ (cmp = 0 /\ rest = -1).
Proof.
  unfold lexicographic. destruct (Z.eqb_spec cmp 0); cbn [negb]; lia.
Qed.

Ltac less_cases :=
  repeat match goal with
         | H : compareZ _ _ _ = -1 |- _ => apply compareZ_less in H
         | H : lexicographic _ _ = -1 |- _ => apply lexicographic_less in H
         | H : _ \/ _ |- _ => destruct H
         | H : _ /\ _ |- _ => destruct H
         | H : CompareExpr _ _ = 0 |- _ =>
             apply (proj1 CompareExpr_zero) in H; subst
         | H : CompareArray _ _ = 0 |- _ =>
             apply (proj1 (proj2 CompareExpr_zero)) in H; subst
         | H : CompareArrayUpdate _ _ = 0 |- _ =>
             apply (proj2 (proj2 CompareExpr_zero)) in H; subst
         end.

Ltac less_goal :=
  repeat match goal with
         | |- compareZ _ _ _ = -1 => apply compareZ_less
         | |- lexicographic _ _ = -1 => apply lexicographic_less
         end;
  first
    [ lia
    | solve [eauto]
    | left; lia
    | left; solve [eauto]
    | right; split;
      [ first [ lia | apply (proj1 CompareExpr_refl)
              | apply (proj1 (proj2 CompareExpr_refl))
              | apply (proj2 (proj2 CompareExpr_refl)) ]
      | less_goal ] ].

Lemma CompareExpr_transitive :
  (forall a b c,
     CompareExpr a b = -1 -> CompareExpr b c = -1 -> CompareExpr a c = -1) /\
  (forall a b c,
     CompareArray a b = -1 -> CompareArray b c = -1 -> CompareArray a c = -1) /\
  (forall a b c,
     CompareArrayUpdate a b = -1 -> CompareArrayUpdate b c = -1 ->
     CompareArrayUpdate a c = -1).
Proof.
  apply Expr_Array_ind; intros;
    match goal with
    | H : CompareExpr _ ?b = -1, H' : CompareExpr ?b ?c = -1 |- _ =>
        destruct b; cbn [CompareExpr exprKind] in H; try discriminate H;
        destruct c; cbn [CompareExpr exprKind] in H';
        try discriminate H'; cbn [CompareExpr exprKind]
    | H : CompareArray _ ?b = -1, H' : CompareArray ?b ?c = -1 |- _ =>
        destruct b, c; cbn [CompareArray] in *
    | H : CompareArrayUpdate _ ?b = -1, H' : CompareArrayUpdate ?b ?c = -1 |- _ =>
        destruct b; cbn [CompareArrayUpdate] in H; try discriminate H;
        destruct c; cbn [CompareArrayUpdate] in H';
        try discriminate H'; cbn [CompareArrayUpdate]
    end;
    try reflexivity;
    unfold compareConstantExpr in *;
    fold_lexicographic.
  all: try (destruct Signed, Signed0, Signed1; cbn [andb negb] in *;
            try discriminate; try reflexivity).
  all: less_cases; less_goal.
Qed.

(** X1: [CompareExpr] returns 0 for two expressions exactly when they have
    the same structure: the same kind of node, the same fields, and
    operands, arrays and update lists of the same structure; likewise
    [CompareArray] and [CompareArrayUpdate]. *)
Theorem X1_compare_zero_is_equality :
  (forall a b : Expr, CompareExpr a b = 0 <-> a = b) /\
  (forall a b : Array, CompareArray a b = 0 <-> a = b) /\
  (forall a b : ArrayUpdate, CompareArrayUpdate a b = 0 <-> a = b).
Proof.
  split; [| split]; intros a b; split.
  - apply (proj1 CompareExpr_zero).
  - intros ->. apply (proj1 CompareExpr_refl).
  - apply (proj1 (proj2 CompareExpr_zero)).
  - intros ->. apply (proj1 (proj2 CompareExpr_refl)).
  - apply (proj2 (proj2 CompareExpr_zero)).
  - intros ->. apply (proj2 (proj2 CompareExpr_refl)).
Qed.

(** X2: [CompareExpr] is a total order, and so are [CompareArray] and
    [CompareArrayUpdate]: the result is -1, 0 or 1, swapping the arguments
    negates it, and "less" (a result of -1) is transitive. *)
Theorem X2_compare_total_order :
  (forall a b : Expr,
     (CompareExpr a b = -1 \/ CompareExpr a b = 0 \/ CompareExpr a b = 1) /\
     CompareExpr b a = - CompareExpr a b) /\
  (forall a b : Array,
     (CompareArray a b = -1 \/ CompareArray a b = 0 \/ CompareArray a b = 1) /\
     CompareArray b a = - CompareArray a b) /\
  (forall a b : ArrayUpdate,
     (CompareArrayUpdate a b = -1 \/ CompareArrayUpdate a b = 0 \/
      CompareArrayUpdate a b = 1) /\
     CompareArrayUpdate b a = - CompareArrayUpdate a b) /\
  (forall a b c : Expr,
     CompareExpr a b = -1 -> CompareExpr b c = -1 -> CompareExpr a c = -1) /\
  (forall a b c : Array,
     CompareArray a b = -1 -> CompareArray b c = -1 -> CompareArray a c = -1) /\
  (forall a b c : ArrayUpdate,
     CompareArrayUpdate a b = -1 -> CompareArrayUpdate b c = -1 ->
     CompareArrayUpdate a c = -1).
Proof.
  destruct CompareExpr_opp as [Ho1 [Ho2 Ho3]].
  destruct CompareExpr_ordering as [Hr1 [Hr2 Hr3]].
  destruct CompareExpr_transitive as [Ht1 [Ht2 Ht3]].
  repeat split; auto; try apply Hr1; try apply Hr2; try apply Hr3.
Qed.

Lemma X2_compare_total_order_witness :
  let x := SelectExpr (NewArray 0 2) (Const 0 64) in
  let a := Const 7 8 in
  let b := x in
  let c := BinaryExpr ADD (Const 1 8) x in
  CompareExpr a b = -1 /\ CompareExpr b c = -1 /\ CompareExpr a c = -1.
Proof.
  intros x a b c.
  assert (Hab : CompareExpr a b = -1) by reflexivity.
  assert (Hbc : CompareExpr b c = -1) by reflexivity.
  split; [exact Hab | split; [exact Hbc |]].
  exact (proj1 (proj2 (proj2 (proj2 X2_compare_total_order))) a b c Hab Hbc).
Defined.

Lemma X1_compare_zero_is_equality_witness :
  let x := SelectExpr (NewArray 0 2) (Const 0 64) in
  CompareExpr (BinaryExpr ADD (Const 1 8) x) (BinaryExpr ADD (Const 1 8) x) = 0.
Proof.
  intros x.
  apply (proj1 X1_compare_zero_is_equality (BinaryExpr ADD (Const 1 8) x)).
  reflexivity.
Defined.

(** ** The function AddConstraint *)

Lemma glee_AddConstraint_conjuncts (expr : Expr) :
  forall cs, glee.AddConstraint cs expr = cs ++ conjuncts expr.
Proof.
  induction expr; intros cs; try reflexivity.
  destruct Op; try reflexivity.
  cbn [glee.AddConstraint conjuncts].
  rewrite IHexpr1, IHexpr2, app_assoc. reflexivity.
Qed.

(** X3: the function [AddConstraint] of the package appends the conjuncts
    of the expression, the leaves of its tree of top-level ANDs from left
    to right, to the list, a constant false among them; the method of the
    state leaves the same list when it returns. *)
Theorem X3_AddConstraint_function :
  (forall a expr, glee.AddConstraint a expr = a ++ conjuncts expr) /\
  (forall a c, glee.AddConstraint a (Constant c) = a ++ [Constant c]) /\
  (forall expr s,
     fst (AddConstraint expr s) = Ok tt ->
     constraints (snd (AddConstraint expr s))
     = glee.AddConstraint (constraints s) expr).
Proof.
  split; [| split].
  - intros a expr. apply glee_AddConstraint_conjuncts.
  - reflexivity.
  - intros expr s Hok. rewrite glee_AddConstraint_conjuncts.
    destruct (AddConstraint_extends expr s) as [added [Hc [_ Hadded]]].
    rewrite Hc, (Hadded Hok). reflexivity.
Qed.

Lemma X3_AddConstraint_function_witness :
  let x := SelectExpr (NewArray 0 1) (Const 0 64) in
  let s := mkState (mkExecutor "amd64" 8) [] [Const 1 1] in
  let expr := BinaryExpr AND (BinaryExpr ULT x (Const 9 8))
                (BinaryExpr AND (Const 1 1) (BinaryExpr EQ (Const 7 8) x)) in
  constraints (snd (AddConstraint expr s))
  = glee.AddConstraint (constraints s) expr.
Proof.
  apply (proj2 (proj2 X3_AddConstraint_function)). reflexivity.
Defined.

(** ** Searchers *)

Lemma splitLast_app {A : Type} (a : list A) (x : A) :
  splitLast (a ++ [x]) = Some (a, x).
Proof.
  induction a as [| y a IH]; [reflexivity |].
  cbn [app splitLast]. rewrite IH. reflexivity.
Qed.

Lemma DFS_selectStates {StatePtr : Type} (states : list StatePtr) :
  forall front : list StatePtr,
    selectStates (List.length states) (DFSSearcher.mk (front ++ states))
    = Ok (map Some (rev states), DFSSearcher.mk front).
Proof.
  induction states as [| x states IH] using rev_ind; intros front.
  - rewrite app_nil_r. reflexivity.
  - rewrite length_app, Nat.add_comm. cbn [List.length Nat.add selectStates].
    cbn [SelectState DFSSearcher_Searcher DFSSearcher.states].
    rewrite app_assoc, splitLast_app. cbn [bind].
    rewrite IH. cbn [bind]. rewrite rev_app_distr. reflexivity.
Qed.

Lemma DFS_addStates {StatePtr : Type} (states : list StatePtr) :
  forall s : DFSSearcher StatePtr,
    addStates states s = Ok (DFSSearcher.mk (DFSSearcher.states s ++ states)).
Proof.
  induction states as [| x states IH]; intros [front].
  - cbn. rewrite app_nil_r. reflexivity.
  - cbn [addStates AddState DFSSearcher_Searcher bind DFSSearcher.states].
    rewrite IH. cbn [DFSSearcher.states]. rewrite <- app_assoc. reflexivity.
Qed.

Lemma BFS_selectStates {StatePtr : Type} (states : list StatePtr) :
  forall rest : list StatePtr,
    selectStates (List.length states) (BFSSearcher.mk (states ++ rest))
    = Ok (map Some states, BFSSearcher.mk rest).
Proof.
  induction states as [| x states IH]; intros rest; [reflexivity |].
  cbn [List.length selectStates app SelectState BFSSearcher_Searcher
         BFSSearcher.states bind].
  rewrite IH. reflexivity.
Qed.

Lemma BFS_addStates {StatePtr : Type} (states : list StatePtr) :
  forall s : BFSSearcher StatePtr,
    addStates states s = Ok (BFSSearcher.mk (BFSSearcher.states s ++ states)).
Proof.
  induction states as [| x states IH]; intros [front].
  - cbn. rewrite app_nil_r. reflexivity.
  - cbn [addStates AddState BFSSearcher_Searcher bind BFSSearcher.states].
    rewrite IH. cbn [BFSSearcher.states]. rewrite <- app_assoc. reflexivity.
Qed.

(** X4: the depth-first searcher is a stack and the breadth-first searcher
    a queue.  After states are added to a searcher, as many calls of
    [SelectState] return them, the depth-first searcher the newest first
    and the searcher as it was before, the breadth-first searcher the
    oldest states it holds first; a searcher without states returns nil. *)
Theorem X4_searcher_order (StatePtr : Type) (states : list StatePtr) :
  (forall s : DFSSearcher StatePtr,
     (s' <- addStates states s ;; selectStates (List.length states) s')
     = Ok (map Some (rev states), s)) /\
  (forall s : BFSSearcher StatePtr,
     (s' <- addStates states s ;;
      selectStates (List.length (BFSSearcher.states s) + List.length states) s')
     = Ok (map Some (BFSSearcher.states s ++ states), NewBFSSearcher)) /\
  SelectState (NewDFSSearcher (StatePtr := StatePtr))
  = Ok (None, NewDFSSearcher) /\
  SelectState (NewBFSSearcher (StatePtr := StatePtr))
  = Ok (None, NewBFSSearcher).
Proof.
  split; [| split; [| split]]; try reflexivity.
  - intros [front]. rewrite DFS_addStates. cbn [bind DFSSearcher.states].
    apply DFS_selectStates.
  - intros [front]. rewrite BFS_addStates. cbn [bind BFSSearcher.states].
    rewrite <- length_app.
    rewrite <- (app_nil_r (front ++ states)) at 2.
    apply BFS_selectStates.
Qed.

Lemma replaceAt_length {A : Type} (x : A) (a : list A) :
  forall i, List.length (replaceAt i x a) = List.length a.
Proof.
  induction a as [| y a IH]; intros [| i]; cbn [replaceAt List.length];
    try reflexivity.
  rewrite IH. reflexivity.
Qed.

Lemma addToAll_length {StatePtr : Type} (state : StatePtr)
    (a : list (AnySearcher StatePtr)) :
  forall a', addToAll state a = Ok a' -> List.length a' = List.length a.
Proof.
  induction a as [| [T methods s] a IH]; intros a' Hadd; cbn [addToAll] in Hadd.
  - injection Hadd as <-. reflexivity.
  - destruct (AddState state s) as [s' | |]; cbn [bind] in Hadd;
      try discriminate Hadd.
    destruct (addToAll state a) as [rest | |]; cbn [bind] in Hadd;
      try discriminate Hadd.
    injection Hadd as <-. cbn [List.length]. rewrite (IH rest eq_refl).
    reflexivity.
Qed.

Lemma single_selectStates {StatePtr T : Type} (methods : Searcher StatePtr T)
    (n : nat) :
  forall x : T,
    selectStates n (MultiSearcher.mk [mkSearcher T methods x] 0)
    = (r <- selectStates n x ;;
       Ok (fst r, MultiSearcher.mk [mkSearcher T methods (snd r)] 0)).
Proof.
  induction n as [| n IH]; intros x; [reflexivity |].
  cbn [selectStates].
  cbn [SelectState MultiSearcher_Searcher MultiSearcher.searchers
         MultiSearcher.index Z.to_nat nth_error List.length].
  destruct (SelectState x) as [[state x'] | |]; cbn [bind]; try reflexivity.
  cbn [replaceAt]. change (0 + 1 >=? Z.of_nat 1) with true. cbv iota.
  rewrite IH.
  destruct (selectStates n x') as [[states x''] | |]; reflexivity.
Qed.

(** X5: the multi-searcher polls its searchers round-robin.  A call of
    [SelectState] that returns leaves the number of searchers as it was
    and moves the index on by one, back to 0 after the last searcher; a
    multi-searcher without searchers panics; [AddState] leaves the index
    and the number of searchers as they were; and a multi-searcher of one
    searcher returns the states that this searcher returns. *)
Theorem X5_multi_searcher (StatePtr : Type) :
  SelectState (NewMultiSearcher (StatePtr := StatePtr) [])
  = Panic "runtime error: index out of range" /\
  (forall (s s' : MultiSearcher StatePtr) state,
     0 <= MultiSearcher.index s
       < Z.of_nat (List.length (MultiSearcher.searchers s)) ->
     SelectState s = Ok (state, s') ->
     MultiSearcher.index s'
     = (MultiSearcher.index s + 1)
         mod Z.of_nat (List.length (MultiSearcher.searchers s)) /\
     List.length (MultiSearcher.searchers s')
     = List.length (MultiSearcher.searchers s)) /\
  (forall (s s' : MultiSearcher StatePtr) state,
     AddState state s = Ok s' ->
     MultiSearcher.index s' = MultiSearcher.index s /\
     List.length (MultiSearcher.searchers s')
     = List.length (MultiSearcher.searchers s)) /\
  (forall (T : Type) (methods : Searcher StatePtr T) (x : T) (n : nat),
     selectStates n (NewMultiSearcher [mkSearcher T methods x])
     = (r <- selectStates n x ;;
        Ok (fst r, NewMultiSearcher [mkSearcher T methods (snd r)]))).
Proof.
  split; [reflexivity | split; [| split]].
  - intros [a i] s' state Hi Hsel.
    cbn [SelectState MultiSearcher_Searcher MultiSearcher.searchers
           MultiSearcher.index] in *.
    destruct (nth_error a (Z.to_nat i)) as [[T methods chosen] |];
      [| discriminate Hsel].
    destruct (SelectState chosen) as [[st chosen'] | |]; cbn [bind] in Hsel;
      try discriminate Hsel.
    injection Hsel as _ <-.
    cbn [MultiSearcher.searchers MultiSearcher.index].
    rewrite replaceAt_length. split; [| reflexivity].
    destruct (Z.geb_spec (i + 1) (Z.of_nat (List.length a))).
    + replace (i + 1) with (Z.of_nat (List.length a)) by lia.
      rewrite Z.mod_same by lia. reflexivity.
    + rewrite Z.mod_small by lia. reflexivity.
  - intros [a i] s' state Hadd.
    cbn [AddState MultiSearcher_Searcher MultiSearcher.searchers
           MultiSearcher.index] in *.
    destruct (addToAll state a) as [a' | |] eqn:Ha; cbn [bind] in Hadd;
      try discriminate Hadd.
    injection Hadd as <-.
    cbn [MultiSearcher.searchers MultiSearcher.index].
    split; [reflexivity | apply (addToAll_length state a a' Ha)].
  - intros T methods x n. apply single_selectStates.
Qed.

Lemma X5_multi_searcher_witness :
  let dfs := mkSearcher _ DFSSearcher_Searcher (DFSSearcher.mk [1; 2]%nat) in
  let s : MultiSearcher nat :=
    MultiSearcher.mk
      [dfs; mkSearcher _ BFSSearcher_Searcher (BFSSearcher.mk [3; 4]%nat)] 1 in
  let s' : MultiSearcher nat :=
    MultiSearcher.mk
      [dfs; mkSearcher _ BFSSearcher_Searcher (BFSSearcher.mk [4]%nat)] 0 in
  SelectState s = Ok (Some 3%nat, s') /\
  (MultiSearcher.index s' = (1 + 1) mod 2 /\
   List.length (MultiSearcher.searchers s') = 2%nat) /\
  (forall s'' : MultiSearcher nat,
     AddState 5%nat s = Ok s'' ->
     MultiSearcher.index s'' = 1 /\
     List.length (MultiSearcher.searchers s'') = 2%nat).
Proof.
  intros dfs s s'. split; [reflexivity |]. split.
  - apply (proj1 (proj2 (X5_multi_searcher nat)) s s' (Some 3%nat));
      [cbn; lia | reflexivity].
  - intros s'' Hadd.
    apply (proj1 (proj2 (proj2 (X5_multi_searcher nat))) _ _ _ Hadd).
Defined.

(** ** Arrays: zero, IsSymbolic, Equal and NotEqual *)

Lemma written_identity_keys (bytes : Z -> Expr) (m : nat) (k : Z) :
  In k (map fst (written (fun j => j) bytes m)) -> 0 <= k < Z.of_nat m.
Proof.
  induction m as [| m IH]; cbn [written map fst In]; [intros [] |].
  intros [Hk | Hk]; [lia | specialize (IH Hk); lia].
Qed.

Lemma zeroBytes_zeroed (fuel : nat) (id size : Z) (k : nat) :
  forall m : nat,
    Z.of_nat m + Z.of_nat k <= size -> size < 2 ^ 64 ->
    zeroBytes fuel k (Z.of_nat m) (mkArray id size (zeroed m))
    = (Ok tt, mkArray id size (zeroed (m + k))).
Proof.
  induction k as [| k IH]; intros m Hmk Hsize.
  - rewrite Nat.add_0_r. reflexivity.
  - cbn [zeroBytes]. unfold NewConstantExpr64, uint64.
    rewrite uintN_small by lia.
    rewrite NewConstantExpr_small by lia.
    rewrite (NewConstantExpr_small 0 8) by lia.
    change (Constant (mkConstant (Z.of_nat m) 64)) with (Const (Z.of_nat m) 64).
    change (Constant (mkConstant 0 8)) with (Const 0 8).
    unfold zeroed at 1.
    rewrite storeByte_prepend;
      [| lia | reflexivity
       | intros Hin; apply written_identity_keys in Hin; lia].
    cbn [removeUpdates].
    replace (Z.of_nat m + 1) with (Z.of_nat (S m)) by lia.
    replace (m + S k)%nat with (S m + k)%nat by lia.
    apply (IH (S m)); lia.
Qed.

Lemma selectUpdate_zeroed (fuel : nat) (a : Array) (j : Z) :
  forall m : nat,
    0 <= j < Z.of_nat m ->
    selectUpdate (S fuel) a (Const j 64) (zeroed m) = Ok (Const 0 8).
Proof.
  unfold zeroed.
  induction m as [| m IH]; intros Hj; [lia |].
  cbn [written prepend selectUpdate].
  rewrite NewBinaryExpr_EQ_constants. cbn [bind].
  destruct (Z.eqb_spec j (Z.of_nat m)) as [Heq | Hne]; [reflexivity |].
  cbn [NewBoolConstantExpr IsTrue Width Value Z.eqb andb negb].
  apply IH. lia.
Qed.

Lemma updateCount_zeroed (m : nat) : updateCount (zeroed m) = Z.of_nat m.
Proof.
  unfold zeroed. induction m as [| m IH]; [reflexivity |].
  cbn [written prepend updateCount]. rewrite IH. lia.
Qed.

Lemma setTrue_spec (bytes : list bool) :
  forall i : nat,
    match setTrue i bytes with
    | Some bytes' =>
        (i < List.length bytes)%nat /\
        List.length bytes' = List.length bytes /\
        forall j, nth j bytes' false = true <->
                  j = i \/ nth j bytes false = true
    | None => (List.length bytes <= i)%nat
    end.
Proof.
  induction bytes as [| b bytes IH]; intros [| i]; cbn [setTrue List.length];
    try lia.
  - split; [lia | split; [reflexivity |]].
    intros [| j]; cbn [nth]; [tauto |].
    split; [tauto | intros [H | H]; [discriminate H | exact H]].
  - specialize (IH i). destruct (setTrue i bytes) as [bytes' |]; [| lia].
    destruct IH as [Hi [Hlen Hnth]].
    split; [lia | split; [cbn [List.length]; lia |]].
    intros [| j]; cbn [nth].
    + split; [tauto | intros [H | H]; [discriminate H | exact H]].
    + rewrite Hnth. split; (intros [H | H]; [left; lia | right; exact H]).
Qed.

Lemma markConcrete_marks (upd : ArrayUpdate) :
  forall bytes bytes',
    markConcrete upd bytes = Ok (Some bytes') ->
    constantIndices upd /\
    List.length bytes' = List.length bytes /\
    (forall i, concreteAt i upd -> (i < List.length bytes)%nat) /\
    forall i, nth i bytes' false = true <->
              nth i bytes false = true \/ concreteAt i upd.
Proof.
  induction upd as [| index value next IH]; intros bytes bytes' Hmark.
  - cbn [markConcrete] in Hmark. injection Hmark as <-.
    cbn [constantIndices concreteAt].
    split; [exact I |]. split; [reflexivity |].
    split; [intros i [] | intros i; tauto].
  - cbn [markConcrete] in Hmark.
    destruct index as [c | | | | | | |]; try discriminate Hmark.
    cbn [constantIndices concreteAt IsConstantExpr].
    assert (Hother :
      (forall v, value <> Constant v) ->
      markConcrete next bytes = Ok (Some bytes') ->
      (true = true /\ constantIndices next) /\
      List.length bytes' = List.length bytes /\
      (forall i,
         (exists c0 v, Constant c = Constant c0 /\ Z.to_nat (Value c0) = i /\
                       value = Constant v) \/ concreteAt i next ->
         (i < List.length bytes)%nat) /\
      forall i, nth i bytes' false = true <->
                nth i bytes false = true \/
                ((exists c0 v, Constant c = Constant c0 /\
                               Z.to_nat (Value c0) = i /\ value = Constant v)
                 \/ concreteAt i next)).
    { intros Hv Hnext. destruct (IH _ _ Hnext) as [Hc [Hlen [Hin Hnth]]].
      split; [split; [reflexivity | exact Hc] |].
      split; [exact Hlen |]. split.
      - intros i [[c0 [v [_ [_ Heq]]]] | Hi]; [destruct (Hv v Heq) | auto].
      - intros i. rewrite Hnth.
        split; [tauto |].
        intros [H | [[c0 [v [_ [_ Heq]]]] | H]];
          [tauto | destruct (Hv v Heq) | tauto]. }
    destruct value as [v | | | | | | |];
      try (apply Hother; [intros v0; discriminate | exact Hmark]).
    clear Hother.
    pose proof (setTrue_spec bytes (Z.to_nat (Value c))) as Hset.
    destruct (setTrue (Z.to_nat (Value c)) bytes) as [marked |];
      [| discriminate Hmark].
    destruct Hset as [Hi [Hlen Hnth]].
    destruct (IH _ _ Hmark) as [Hc [Hlen' [Hin Hnth']]].
    split; [split; [reflexivity | exact Hc] |].
    split; [lia |]. split.
    + intros i [[c0 [v0 [Hc0 [Hv0 _]]]] | Hcon].
      * injection Hc0 as <-. lia.
      * specialize (Hin i Hcon). lia.
    + intros i. rewrite Hnth', Hnth.
      split.
      * intros [[-> | H] | H]; [| tauto | tauto].
        right. left. exists c, v. repeat split.
      * intros [H | [[c0 [v0 [Hc0 [Hv0 _]]]] | H]]; [tauto | | tauto].
        injection Hc0 as <-. left. left. symmetry. exact Hv0.
Qed.

Lemma markConcrete_returns (upd : ArrayUpdate) :
  forall bytes,
    constantIndices upd ->
    (forall i, concreteAt i upd -> (i < List.length bytes)%nat) ->
    exists bytes', markConcrete upd bytes = Ok (Some bytes').
Proof.
  induction upd as [| index value next IH]; intros bytes Hc Hin.
  - exists bytes. reflexivity.
  - cbn [constantIndices] in Hc. destruct Hc as [Hindex Hc].
    destruct index as [c | | | | | | |]; try discriminate Hindex.
    cbn [markConcrete].
    assert (Hnext : forall i, concreteAt i next -> (i < List.length bytes)%nat).
    { intros i Hi. apply Hin. right. exact Hi. }
    destruct value as [v | | | | | | |]; try (apply IH; assumption).
    pose proof (setTrue_spec bytes (Z.to_nat (Value c))) as Hset.
    destruct (setTrue (Z.to_nat (Value c)) bytes) as [marked |].
    + destruct Hset as [_ [Hlen _]]. apply IH; [exact Hc |].
      intros i Hi. rewrite Hlen. apply Hnext. exact Hi.
    + assert (Z.to_nat (Value c) < List.length bytes)%nat; [| lia].
      apply Hin. left. exists c, v. repeat split.
Qed.

Lemma existsb_negb_false (bytes : list bool) :
  existsb negb bytes = false <->
  forall i, (i < List.length bytes)%nat -> nth i bytes false = true.
Proof.
  induction bytes as [| b bytes IH]; cbn [existsb List.length].
  - split; [intros _ i Hi; lia | reflexivity].
  - rewrite orb_false_iff, IH. split.
    + intros [Hb Hrest] [| i] Hi; cbn [nth].
      * destruct b; [reflexivity | discriminate Hb].
      * apply Hrest. lia.
    + intros Hall. split.
      * specialize (Hall 0%nat ltac:(lia)). cbn [nth] in Hall. rewrite Hall.
        reflexivity.
      * intros i Hi. apply (Hall (S i)). lia.
Qed.

Lemma nth_repeat_false (n i : nat) : nth i (repeat false n) false = false.
Proof.
  revert i. induction n as [| n IH]; intros [| i]; cbn [repeat nth];
    auto.
Qed.

Lemma IsSymbolic_false (a : Array) :
  IsSymbolic a = Ok false <->
  constantIndices (ArrayUpdates a) /\
  forall i : nat,
    concreteAt i (ArrayUpdates a) <-> (i < Z.to_nat (ArraySize a))%nat.
Proof.
  unfold IsSymbolic. split.
  - destruct (markConcrete (ArrayUpdates a) (repeat false (Z.to_nat (ArraySize a))))
      as [[bytes |] | |] eqn:Hmark; cbn [bind]; try discriminate.
    intros Hall. injection Hall as Hall.
    destruct (markConcrete_marks _ _ _ Hmark) as [Hc [Hlen [Hin Hnth]]].
    rewrite repeat_length in Hlen, Hin.
    split; [exact Hc |]. intros i. split; [apply Hin |].
    intros Hi. rewrite existsb_negb_false in Hall.
    specialize (Hall i ltac:(lia)). apply Hnth in Hall.
    rewrite nth_repeat_false in Hall.
    destruct Hall as [H | H]; [discriminate H | exact H].
  - intros [Hc Hall].
    destruct (markConcrete_returns (ArrayUpdates a)
                (repeat false (Z.to_nat (ArraySize a))) Hc) as [bytes Hmark].
    { intros i Hi. rewrite repeat_length. apply Hall. exact Hi. }
    rewrite Hmark. cbn [bind]. f_equal.
    destruct (markConcrete_marks _ _ _ Hmark) as [_ [Hlen [_ Hnth]]].
    rewrite repeat_length in Hlen.
    apply existsb_negb_false. intros i Hi. apply Hnth. right.
    apply Hall. lia.
Qed.

Lemma newEqExpr_same (rec : BinaryOp -> Expr -> Expr -> result Expr) (x : Expr) :
  newEqExpr rec x x = Ok (Const 1 1).
Proof.
  unfold newEqExpr.
  destruct x; cbn [IsConstantExpr negb andb otherwise];
    try (rewrite (proj1 CompareExpr_refl); reflexivity).
  unfold Eq. rewrite !Z.eqb_refl. reflexivity.
Qed.

Lemma index_constant (i : Z) :
  0 <= i < 2 ^ 64 -> Constant (NewConstantExpr64 (uint64 i)) = Const i 64.
Proof.
  intros Hi. unfold NewConstantExpr64, uint64. rewrite uintN_small by lia.
  rewrite NewConstantExpr_small by lia. reflexivity.
Qed.

Lemma equalBytes_same (fuel : nat) (a : Array) (k : nat) :
  forall i : Z,
    0 <= i -> i + Z.of_nat k < 2 ^ 64 ->
    (forall j, i <= j < i + Z.of_nat k ->
               exists x, selectByte fuel a (Const j 64) = Ok x) ->
    forall cond,
      (cond = if i =? 0 then None else Some (Const 1 1)) ->
      equalBytes fuel a a k i cond
      = Ok (inr (if i + Z.of_nat k =? 0 then None else Some (Const 1 1))).
Proof.
  induction k as [| k IH]; intros i Hi Hfit Hsel cond Hcond.
  - cbn [equalBytes]. rewrite Z.add_0_r, Hcond. reflexivity.
  - cbn [equalBytes]. rewrite index_constant by lia.
    destruct (Hsel i ltac:(lia)) as [x Hx]. rewrite Hx. cbn [bind].
    rewrite newEqExpr_same. cbn [bind].
    change (IsConstantFalse (Const 1 1)) with false. cbv iota.
    assert (Hstep :
      (if i =? 0 then Ok (Const 1 1)
       else match cond with
            | Some c => newAndExpr c (Const 1 1)
            | None => Ok (Const 1 1)
            end) = Ok (Const 1 1)).
    { rewrite Hcond. destruct (i =? 0); reflexivity. }
    rewrite Hstep. cbn [bind].
    rewrite (IH (i + 1)); try lia.
    + replace (i + 1 + Z.of_nat k) with (i + Z.of_nat (S k)) by lia.
      reflexivity.
    + intros j Hj. apply Hsel. lia.
    + destruct (Z.eqb_spec (i + 1) 0); [lia | reflexivity].
Qed.

Lemma notEqualBytes_same (fuel : nat) (a : Array) (k : nat) :
  forall i : Z,
    0 <= i -> i + Z.of_nat k < 2 ^ 64 ->
    (forall j, i <= j < i + Z.of_nat k ->
               exists x, selectByte fuel a (Const j 64) = Ok x) ->
    forall cond,
      (cond = if i =? 0 then None else Some (Const 0 1)) ->
      notEqualBytes fuel a a k i cond
      = Ok (inr (if i + Z.of_nat k =? 0 then None else Some (Const 0 1))).
Proof.
  induction k as [| k IH]; intros i Hi Hfit Hsel cond Hcond.
  - cbn [notEqualBytes]. rewrite Z.add_0_r, Hcond. reflexivity.
  - cbn [notEqualBytes]. rewrite index_constant by lia.
    destruct (Hsel i ltac:(lia)) as [x Hx]. rewrite Hx. cbn [bind].
    rewrite newEqExpr_same. cbn [bind].
    change (NewNotExpr (Const 1 1)) with (Const 0 1).
    change (IsConstantTrue (Const 0 1)) with false. cbv iota.
    assert (Hstep :
      (if i =? 0 then Ok (Const 0 1)
       else match cond with
            | Some c => newOrExpr c (Const 0 1)
            | None => Ok (Const 0 1)
            end) = Ok (Const 0 1)).
    { rewrite Hcond. destruct (i =? 0); reflexivity. }
    rewrite Hstep. cbn [bind].
    rewrite (IH (i + 1)); try lia.
    + replace (i + 1 + Z.of_nat k) with (i + Z.of_nat (S k)) by lia.
      reflexivity.
    + intros j Hj. apply Hsel. lia.
    + destruct (Z.eqb_spec (i + 1) 0); [lia | reflexivity].
Qed.

Lemma skipn_nth (xs : list Z) :
  forall i : nat,
    (i < List.length xs)%nat -> skipn i xs = nth i xs 0 :: skipn (S i) xs.
Proof.
  induction xs as [| x xs IH]; intros [| i] Hi; cbn [List.length] in Hi;
    try lia; [reflexivity |].
  cbn [skipn nth]. apply IH. lia.
Qed.

Lemma newEqExpr_bytes (rec : BinaryOp -> Expr -> Expr -> result Expr)
    (x y : Z) :
  newEqExpr rec (Const x 8) (Const y 8)
  = Ok (Constant (NewBoolConstantExpr (x =? y))).
Proof.
  unfold newEqExpr, Const. cbn [IsConstantExpr negb andb otherwise].
  unfold Eq. cbn [Width Value]. destruct (x =? y); reflexivity.
Qed.

Section ConcreteArrays.

Variables (fuel : nat) (a b : Array) (xs ys : list Z).

Hypothesis holds_a : holdsBytes fuel a xs.
Hypothesis holds_b : holdsBytes fuel b ys.
Hypothesis same_length : List.length xs = List.length ys.
Hypothesis fits : Z.of_nat (List.length xs) < 2 ^ 64.

Lemma equalBytes_concrete (k : nat) :
  forall i : nat,
    (i + k = List.length xs)%nat ->
    forall cond,
      (cond = if (i =? 0)%nat then None else Some (Const 1 1)) ->
      equalBytes fuel a b k (Z.of_nat i) cond
      = Ok (if sameBytes (skipn i xs) (skipn i ys)
            then inr (if (i + k =? 0)%nat then None else Some (Const 1 1))
            else inl (Const 0 1)).
Proof.
  induction k as [| k IH]; intros i Hik cond Hcond.
  - cbn [equalBytes]. rewrite Nat.add_0_r in *.
    rewrite !skipn_all2 by lia. cbn [sameBytes]. rewrite Hcond. reflexivity.
  - cbn [equalBytes]. rewrite index_constant by lia.
    destruct holds_a as [_ Ha]. destruct holds_b as [_ Hb].
    rewrite (proj2 (Ha i ltac:(lia))), (proj2 (Hb i ltac:(lia))).
    cbn [bind]. rewrite newEqExpr_bytes. cbn [bind].
    rewrite (skipn_nth xs i), (skipn_nth ys i) by lia. cbn [sameBytes].
    destruct (Z.eqb_spec (nth i xs 0) (nth i ys 0)) as [Heq | Hne];
      cbn [NewBoolConstantExpr andb]; [| reflexivity].
    change (IsConstantFalse (Constant (mkConstant 1 1))) with false. cbv iota.
    assert (Hstep :
      (if Z.of_nat i =? 0 then Ok (Constant (mkConstant 1 1))
       else match cond with
            | Some c => newAndExpr c (Constant (mkConstant 1 1))
            | None => Ok (Constant (mkConstant 1 1))
            end) = Ok (Const 1 1)).
    { rewrite Hcond. destruct i; reflexivity. }
    rewrite Hstep. cbn [bind].
    replace (Z.of_nat i + 1) with (Z.of_nat (S i)) by lia.
    rewrite (IH (S i)); [| lia | reflexivity].
    replace (S i + k)%nat with (i + S k)%nat by lia. reflexivity.
Qed.

Lemma notEqualBytes_concrete (k : nat) :
  forall i : nat,
    (i + k = List.length xs)%nat ->
    forall cond,
      (cond = if (i =? 0)%nat then None else Some (Const 0 1)) ->
      notEqualBytes fuel a b k (Z.of_nat i) cond
      = Ok (if sameBytes (skipn i xs) (skipn i ys)
            then inr (if (i + k =? 0)%nat then None else Some (Const 0 1))
            else inl (Const 1 1)).
Proof.
  induction k as [| k IH]; intros i Hik cond Hcond.
  - cbn [notEqualBytes]. rewrite Nat.add_0_r in *.
    rewrite !skipn_all2 by lia. cbn [sameBytes]. rewrite Hcond. reflexivity.
  - cbn [notEqualBytes]. rewrite index_constant by lia.
    destruct holds_a as [_ Ha]. destruct holds_b as [_ Hb].
    rewrite (proj2 (Ha i ltac:(lia))), (proj2 (Hb i ltac:(lia))).
    cbn [bind]. rewrite newEqExpr_bytes. cbn [bind].
    rewrite (skipn_nth xs i), (skipn_nth ys i) by lia. cbn [sameBytes].
    destruct (Z.eqb_spec (nth i xs 0) (nth i ys 0)) as [Heq | Hne];
      cbn [NewBoolConstantExpr andb]; [| reflexivity].
    change (NewNotExpr (Constant (mkConstant 1 1))) with (Const 0 1).
    change (IsConstantTrue (Const 0 1)) with false. cbv iota.
    assert (Hstep :
      (if Z.of_nat i =? 0 then Ok (Const 0 1)
       else match cond with
            | Some c => newOrExpr c (Const 0 1)
            | None => Ok (Const 0 1)
            end) = Ok (Const 0 1)).
    { rewrite Hcond. destruct i; reflexivity. }
    rewrite Hstep. cbn [bind].
    replace (Z.of_nat i + 1) with (Z.of_nat (S i)) by lia.
    rewrite (IH (S i)); [| lia | reflexivity].
    replace (S i + k)%nat with (i + S k)%nat by lia. reflexivity.
Qed.

Lemma Equal_concrete :
  Equal fuel a b = Ok (Some (Constant (NewBoolConstantExpr (sameBytes xs ys)))) /\
  NotEqual fuel a b
  = Ok (Some (Constant (NewBoolConstantExpr (negb (sameBytes xs ys))))).
Proof.
  destruct holds_a as [Ha _]. destruct holds_b as [Hb _].
  unfold Equal, NotEqual. rewrite Ha, Hb, same_length, Z.eqb_refl.
  cbn [negb]. rewrite <- same_length.
  destruct (Nat.eq_dec (List.length xs) 0) as [Hz | Hnz].
  - assert (Hx : xs = []) by (apply length_zero_iff_nil; exact Hz).
    assert (Hy : ys = []) by (apply length_zero_iff_nil; lia).
    rewrite Hz, Hx, Hy. split; reflexivity.
  - destruct (Z.eqb_spec (Z.of_nat (List.length xs)) 0) as [| _]; [lia |].
    rewrite Nat2Z.id. change 0 with (Z.of_nat 0).
    rewrite (equalBytes_concrete (List.length xs) 0%nat eq_refl None eq_refl).
    rewrite (notEqualBytes_concrete (List.length xs) 0%nat eq_refl None eq_refl).
    cbn [skipn Nat.add bind].
    destruct (Nat.eqb_spec (List.length xs) 0) as [| _]; [lia |].
    destruct (sameBytes xs ys); split; reflexivity.
Qed.

End ConcreteArrays.

Lemma sameBytes_equal (xs : list Z) :
  forall ys, List.length xs = List.length ys ->
             (sameBytes xs ys = true <-> xs = ys).
Proof.
  induction xs as [| x xs IH]; intros [| y ys] Hlen; cbn [List.length] in Hlen;
    try discriminate Hlen; cbn [sameBytes].
  - split; reflexivity.
  - rewrite andb_true_iff, Z.eqb_eq, (IH ys) by lia.
    split; [intros [-> ->]; reflexivity | intros H; injection H; auto].
Qed.

Lemma constantIndices_zeroed (m : nat) : constantIndices (zeroed m).
Proof.
  unfold zeroed. induction m as [| m IH]; [exact I |].
  cbn [written prepend constantIndices]. split; [reflexivity | exact IH].
Qed.

Lemma concreteAt_zeroed (m i : nat) : concreteAt i (zeroed m) <-> (i < m)%nat.
Proof.
  unfold zeroed. induction m as [| m IH]; cbn [written prepend concreteAt].
  - split; [intros [] | lia].
  - rewrite IH. split.
    + intros [[c [v [Hc [Hi _]]]] | H]; [| lia].
      injection Hc as <-. cbn [Value] in Hi. lia.
    + intros Hi. destruct (Nat.eq_dec i m) as [-> | Hne]; [left | right; lia].
      exists (mkConstant (Z.of_nat m) 64), (mkConstant 0 8).
      cbn [Value]. rewrite Nat2Z.id. repeat split.
Qed.

(** X6: [zero] on an array without updates, of a size below 2^64, returns
    and leaves one update for each byte: the array keeps its id and size,
    a read of any byte at a constant index within it gives the 8-bit
    constant 0, and the array is not symbolic.  On an array that has an
    update [zero] panics and leaves the array as it was. *)
Theorem X6_zero_initialises (fuel : nat) (id size : Z) :
  0 <= size < 2 ^ 64 ->
  (exists a',
     zero fuel (NewArray id size) = (Ok tt, a') /\
     ArrayID a' = id /\ ArraySize a' = size /\
     updateCount (ArrayUpdates a') = size /\
     (forall j, 0 <= j < size ->
                selectByte (S fuel) a' (Const j 64) = Ok (Const 0 8)) /\
     IsSymbolic a' = Ok false) /\
  (forall index value next,
     let a := mkArray id size (Update index value next) in
     zero fuel a
     = (Panic "assert: glee.Array: cannot zero-initialize array with updates",
        a)).
Proof.
  intros Hsize. split; [| reflexivity].
  exists (mkArray id size (zeroed (Z.to_nat size))).
  split; [| split; [reflexivity | split; [reflexivity | split; [| split]]]].
  - unfold zero, NewArray. cbn [ArrayUpdates ArraySize].
    change 0 with (Z.of_nat 0).
    change NoUpdate with (zeroed 0).
    rewrite zeroBytes_zeroed by lia. reflexivity.
  - cbn [ArrayUpdates]. rewrite updateCount_zeroed. lia.
  - intros j Hj. unfold selectByte.
    cbn [ExprWidth Const Width assert bind Z.eqb Pos.eqb ArrayUpdates].
    apply (selectUpdate_zeroed fuel _ j). lia.
  - apply IsSymbolic_false. cbn [ArrayUpdates ArraySize].
    split; [apply constantIndices_zeroed | apply concreteAt_zeroed].
Qed.

Lemma X6_zero_initialises_witness :
  exists a',
    zero 0 (NewArray 64 3) = (Ok tt, a') /\
    ArrayID a' = 64 /\ ArraySize a' = 3 /\
    updateCount (ArrayUpdates a') = 3 /\
    (forall j, 0 <= j < 3 -> selectByte 1 a' (Const j 64) = Ok (Const 0 8)) /\
    IsSymbolic a' = Ok false.
Proof.
  apply (proj1 (X6_zero_initialises 0 64 3 ltac:(lia))).
Defined.



(** X8: [Equal] returns the constant false and [NotEqual] the constant
    true for arrays of different sizes, and true and false for two arrays
    of size 0.  For an array of a size between 1 and 2^64 - 1 whose bytes
    can be read, [Equal] of the array and itself is the constant true and
    [NotEqual] the constant false.  For two arrays of the same size that
    hold bytes, [Equal] is the constant that tells whether the two lists
    of bytes are equal, and [NotEqual] its negation. *)
Theorem X8_Equal_NotEqual (fuel : nat) :
  (forall a b,
     ArraySize a <> ArraySize b ->
     Equal fuel a b = Ok (Some (Const 0 1)) /\
     NotEqual fuel a b = Ok (Some (Const 1 1))) /\
  (forall a b,
     ArraySize a = 0 -> ArraySize b = 0 ->
     Equal fuel a b = Ok (Some (Const 1 1)) /\
     NotEqual fuel a b = Ok (Some (Const 0 1))) /\
  (forall a,
     0 < ArraySize a < 2 ^ 64 ->
     (forall j, 0 <= j < ArraySize a ->
                exists x, selectByte fuel a (Const j 64) = Ok x) ->
     Equal fuel a a = Ok (Some (Const 1 1)) /\
     NotEqual fuel a a = Ok (Some (Const 0 1))) /\
  (forall a b xs ys,
     holdsBytes fuel a xs -> holdsBytes fuel b ys ->
     List.length xs = List.length ys -> Z.of_nat (List.length xs) < 2 ^ 64 ->
     (sameBytes xs ys = true <-> xs = ys) /\
     Equal fuel a b
     = Ok (Some (Constant (NewBoolConstantExpr (sameBytes xs ys)))) /\
     NotEqual fuel a b
     = Ok (Some (Constant (NewBoolConstantExpr (negb (sameBytes xs ys)))))).
Proof.
  split; [| split; [| split]].
  - intros a b Hne. unfold Equal, NotEqual.
    destruct (Z.eqb_spec (ArraySize a) (ArraySize b)) as [Heq | _];
      [destruct (Hne Heq) | split; reflexivity].
  - intros a b Ha Hb. unfold Equal, NotEqual. rewrite Ha, Hb.
    split; reflexivity.
  - intros a Hsize Hsel. unfold Equal, NotEqual.
    rewrite Z.eqb_refl. cbn [negb].
    destruct (Z.eqb_spec (ArraySize a) 0) as [| _]; [lia |].
    rewrite (equalBytes_same fuel a _ 0), (notEqualBytes_same fuel a _ 0);
      try reflexivity; try lia;
      try (intros j Hj; apply Hsel; lia).
    cbn [bind].
    destruct (Z.eqb_spec (0 + Z.of_nat (Z.to_nat (ArraySize a))) 0); [lia |].
    split; reflexivity.
  - intros a b xs ys Ha Hb Hlen Hfit.
    split; [apply sameBytes_equal; exact Hlen |].
    apply (Equal_concrete fuel a b xs ys Ha Hb Hlen Hfit).
Qed.

Lemma X8_Equal_NotEqual_witness :
  let x := SelectExpr (NewArray 0 1) (Const 0 64) in
  let a := mkArray 64 2
             (Update (Const 1 64) (Const 7 8)
                (Update (Const 0 64) (Const 9 8) NoUpdate)) in
  let b := mkArray 96 2
             (Update (Const 0 64) (Const 9 8)
                (Update (Const 1 64) (Const 8 8) NoUpdate)) in
  let s := mkArray 128 2 (Update (CastExpr x 64 false) (Const 7 8) NoUpdate) in
  (Equal 2 a (NewArray 0 3) = Ok (Some (Const 0 1)) /\
   NotEqual 2 a (NewArray 0 3) = Ok (Some (Const 1 1))) /\
  (Equal 2 (NewArray 0 0) (NewArray 1 0) = Ok (Some (Const 1 1)) /\
   NotEqual 2 (NewArray 0 0) (NewArray 1 0) = Ok (Some (Const 0 1))) /\
  (Equal 2 s s = Ok (Some (Const 1 1)) /\
   NotEqual 2 s s = Ok (Some (Const 0 1))) /\
  (Equal 2 a b = Ok (Some (Const 0 1)) /\
   NotEqual 2 a b = Ok (Some (Const 1 1))).
Proof.
  intros x a b s.
  destruct (X8_Equal_NotEqual 2) as [Hsize [Hempty [Hsame Hbytes]]].
  split; [| split; [| split]].
  - apply Hsize. cbn. lia.
  - apply Hempty; reflexivity.
  - apply Hsame; [cbn; lia |].
    intros j Hj. subst s. cbn [ArraySize] in Hj.
    assert (Hcases : j = 0 \/ j = 1) by lia.
    destruct Hcases as [-> | ->]; eexists; reflexivity.
  - apply (Hbytes a b [9; 7] [9; 8]); try reflexivity.
    + split; [reflexivity |].
      intros [| [| j]] Hj; cbn [List.length] in Hj; try lia;
        (split; [cbn; lia | reflexivity]).
    + split; [reflexivity |].
      intros [| [| j]] Hj; cbn [List.length] in Hj; try lia;
        (split; [cbn; lia | reflexivity]).
Defined.

(** ** The evaluator *)

Lemma bindArrays_bound (arrays : list Array) :
  forall (values : list (list Byte.byte)) (m m' : Bindings),
    bindArrays arrays values m = Ok m' ->
    forall id v, bytesOf id m = Some v -> bytesOf id m' = Some v.
Proof.
  induction arrays as [| a arrays IH]; intros [| value values] m m' Hbind;
    cbn [bindArrays] in Hbind; try (injection Hbind as <-; auto).
  destruct (bytesOf (ArrayID a) m) eqn:Ha; [discriminate Hbind |].
  intros id v Hid. apply (IH _ _ _ Hbind). cbn [bytesOf].
  destruct (Z.eqb_spec id (ArrayID a)) as [-> | _]; [congruence | exact Hid].
Qed.

Lemma bindArrays_values (arrays : list Array) :
  forall (values : list (list Byte.byte)) (m m' : Bindings),
    bindArrays arrays values m = Ok m' ->
    forall i a v,
      nth_error arrays i = Some a -> nth_error values i = Some v ->
      bytesOf (ArrayID a) m' = Some v.
Proof.
  induction arrays as [| a0 arrays IH]; intros [| value values] m m' Hbind i a v;
    cbn [bindArrays] in Hbind; destruct i; cbn [nth_error];
    try discriminate.
  - intros Ha Hv. injection Ha as <-. injection Hv as <-.
    destruct (bytesOf (ArrayID a0) m); [discriminate Hbind |].
    apply (bindArrays_bound _ _ _ _ Hbind). cbn [bytesOf].
    rewrite Z.eqb_refl. reflexivity.
  - destruct (bytesOf (ArrayID a0) m); [discriminate Hbind |].
    apply (IH _ _ _ Hbind).
Qed.

Lemma bindArrays_returns (arrays : list Array) :
  forall (values : list (list Byte.byte)) (m : Bindings),
    NoDup (map ArrayID arrays) ->
    (forall a, In a arrays -> bytesOf (ArrayID a) m = None) ->
    exists m', bindArrays arrays values m = Ok m'.
Proof.
  induction arrays as [| a arrays IH]; intros values m Hnodup Hfresh.
  - exists m. destruct values; reflexivity.
  - destruct values as [| value values]; [exists m; reflexivity |].
    cbn [bindArrays]. rewrite (Hfresh a (or_introl eq_refl)).
    cbn [map] in Hnodup. inversion Hnodup as [| ? ? Hnotin Hrest]; subst.
    apply IH; [exact Hrest |].
    intros a' Ha'. cbn [bytesOf].
    destruct (Z.eqb_spec (ArrayID a') (ArrayID a)) as [Heq | _].
    + destruct Hnotin. rewrite <- Heq. apply in_map. exact Ha'.
    + apply Hfresh. right. exact Ha'.
Qed.

Lemma bindArrays_duplicate (arrays : list Array) :
  forall (values : list (list Byte.byte)) (m : Bindings),
    List.length arrays = List.length values ->
    ((exists a, In a arrays /\ bytesOf (ArrayID a) m <> None) \/
     ~ NoDup (map ArrayID arrays)) ->
    bindArrays arrays values m = Panic "assert: duplicate array".
Proof.
  induction arrays as [| a arrays IH]; intros [| value values] m Hlen Hdup;
    cbn [List.length] in Hlen; try discriminate Hlen.
  - destruct Hdup as [[a [[] _]] | Hdup]. destruct Hdup. constructor.
  - cbn [bindArrays].
    destruct (bytesOf (ArrayID a) m) eqn:Ha; [reflexivity |].
    apply IH; [lia |].
    destruct Hdup as [[a' [[<- | Hin] Hbound]] | Hdup].
    + destruct (Hbound Ha).
    + left. exists a'. split; [exact Hin |]. cbn [bytesOf].
      destruct (ArrayID a' =? ArrayID a); [discriminate | exact Hbound].
    + destruct (in_dec Z.eq_dec (ArrayID a) (map ArrayID arrays)) as [Hin | Hnotin].
      * left. apply in_map_iff in Hin. destruct Hin as [a' [Heq Hin]].
        exists a'. split; [exact Hin |]. cbn [bytesOf].
        rewrite Heq, Z.eqb_refl. discriminate.
      * right. intros Hnodup. apply Hdup. cbn [map].
        constructor; assumption.
Qed.

(** X9: [NewExprEvaluator] binds each array to the value at its position:
    for arrays of different ids and as many values, a lookup of the id of
    the array at a position gives the value at that position.  It panics
    when the numbers of arrays and values differ, and when two of the
    arrays have the same id. *)
Theorem X9_NewExprEvaluator (arrays : list Array)
    (values : list (list Byte.byte)) :
  (List.length arrays <> List.length values ->
   NewExprEvaluator arrays values
   = Panic "assert: array/value count mismatch") /\
  (List.length arrays = List.length values ->
   ~ NoDup (map ArrayID arrays) ->
   NewExprEvaluator arrays values = Panic "assert: duplicate array") /\
  (List.length arrays = List.length values ->
   NoDup (map ArrayID arrays) ->
   exists ee,
     NewExprEvaluator arrays values = Ok ee /\
     forall i a v,
       nth_error arrays i = Some a -> nth_error values i = Some v ->
       bytesOf (ArrayID a) (ExprEvaluator.m ee) = Some v).
Proof.
  unfold NewExprEvaluator. split; [| split].
  - intros Hne. destruct (Nat.eqb_spec (List.length arrays) (List.length values));
      [contradiction | reflexivity].
  - intros Hlen Hdup. rewrite Hlen, Nat.eqb_refl. cbn [assert bind].
    rewrite bindArrays_duplicate; [reflexivity | exact Hlen | right; exact Hdup].
  - intros Hlen Hnodup. rewrite Hlen, Nat.eqb_refl. cbn [assert bind].
    destruct (bindArrays_returns arrays values [] Hnodup) as [m' Hm'];
      [reflexivity |].
    rewrite Hm'. cbn [bind]. eexists. split; [reflexivity |].
    cbn [ExprEvaluator.m]. apply (bindArrays_values _ _ _ _ Hm').
Qed.

Lemma X9_NewExprEvaluator_witness :
  let a := NewArray 64 2 in
  let b := mkArray 96 1 (Update (Const 0 64) (Const 9 8) NoUpdate) in
  let b' := NewArray 96 1 in
  NewExprEvaluator [a; b] [[Byte.x01]; [Byte.x02]; [Byte.x03]]
  = Panic "assert: array/value count mismatch" /\
  NewExprEvaluator [b; a; b'] [[Byte.x01]; [Byte.x02]; [Byte.x03]]
  = Panic "assert: duplicate array" /\
  exists ee,
    NewExprEvaluator [a; b] [[Byte.x01; Byte.x02]; [Byte.x03]] = Ok ee /\
    bytesOf (ArrayID b) (ExprEvaluator.m ee) = Some [Byte.x03].
Proof.
  intros a b b'. split; [| split].
  - apply (proj1 (X9_NewExprEvaluator _ _)). cbn. lia.
  - apply (proj1 (proj2 (X9_NewExprEvaluator _ _))); [reflexivity |].
    cbn. intros Hnodup. inversion Hnodup as [| ? ? Hnotin _].
    apply Hnotin. right. left. reflexivity.
  - destruct (proj2 (proj2 (X9_NewExprEvaluator [a; b]
                               [[Byte.x01; Byte.x02]; [Byte.x03]]))
                eq_refl) as [ee [Hee Hbound]].
    + cbn. constructor; [intros [H | []]; discriminate H |].
      constructor; [intros [] | constructor].
    + exists ee. split; [exact Hee |].
      apply (Hbound 1%nat b); reflexivity.
Defined.

Lemma int64_small (x : Z) : 0 <= x < 2 ^ 63 -> int64 x = x.
Proof.
  intros Hx. unfold int64, intN. change (64 - 1) with 63.
  change (2 ^ 64) with (2 * 2 ^ 63). rewrite Z.mod_small; lia.
Qed.

Lemma int64_large (x : Z) : 2 ^ 63 <= x < 2 ^ 64 -> int64 x = x - 2 ^ 64.
Proof.
  intros Hx. unfold int64, intN. change (64 - 1) with 63.
  replace (x + 2 ^ 63) with (x - 2 ^ 63 + 1 * 2 ^ 64)
    by (change (2 ^ 64) with (2 * 2 ^ 63); lia).
  rewrite Z.mod_add by (apply Z.pow_nonzero; lia).
  rewrite Z.mod_small; change (2 ^ 64) with (2 * 2 ^ 63) in *; lia.
Qed.

(** X10: the evaluation of a select at a constant index from an array
    without updates reads the bytes bound to the id of the array, whatever
    the size of the array: it is the byte at the index as an 8-bit
    constant when the index is below the number of bytes, the error that
    the index is out of bounds when the index is at or above it and below
    2^63, the error that the array is not bound when the id has no bytes,
    and a run-time panic for an index of 2^63 or more. *)
Theorem X10_evaluate_initial (fuel : nat) (ee : ExprEvaluator) (id size : Z)
    (c : ConstantExpr) :
  let e := SelectExpr (NewArray id size) (Constant c) in
  (bytesOf id (ExprEvaluator.m ee) = None ->
   Evaluate fuel ee e = Ok (inr (ArrayNotBound id))) /\
  (forall initial,
     bytesOf id (ExprEvaluator.m ee) = Some initial ->
     (forall b,
        0 <= Value c < 2 ^ 64 ->
        nth_error initial (Z.to_nat (Value c)) = Some b ->
        Evaluate fuel ee e = Ok (inl (mkConstant (Z.of_N (Byte.to_N b)) 8))) /\
     (Z.of_nat (List.length initial) <= Value c < 2 ^ 63 ->
      Evaluate fuel ee e
      = Ok (inr (SelectIndexOutOfBounds (Value c)
                   (Z.of_nat (List.length initial))))) /\
     (2 ^ 63 <= Value c < 2 ^ 64 ->
      Z.of_nat (List.length initial) < 2 ^ 63 ->
      Evaluate fuel ee e = Panic "runtime error: index out of range")).
Proof.
  cbn zeta. unfold NewArray.
  cbn [Evaluate propagate bind evaluateSelect evaluateUpdates].
  unfold initialByte. split.
  - intros ->. reflexivity.
  - intros initial ->. split; [| split].
    + intros b Hc Hb.
      assert (Hlt : (Z.to_nat (Value c) < List.length initial)%nat).
      { apply nth_error_Some. rewrite Hb. discriminate. }
      assert (Hge : (int64 (Value c) >=? Z.of_nat (List.length initial)) = false).
      { destruct (Z.ltb_spec (Value c) (2 ^ 63)).
        - rewrite int64_small by lia.
          destruct (Z.geb_spec (Value c) (Z.of_nat (List.length initial)));
            [lia | reflexivity].
        - rewrite int64_large by lia.
          destruct (Z.geb_spec (Value c - 2 ^ 64)
                      (Z.of_nat (List.length initial)));
            [lia | reflexivity]. }
      rewrite Hge, Hb. f_equal. f_equal.
      apply NewConstantExpr_small; [lia |].
      destruct b; cbn; lia.
    + intros Hc. rewrite int64_small by lia.
      destruct (Z.geb_spec (Value c) (Z.of_nat (List.length initial)));
        [reflexivity | lia].
    + intros Hc Hlen. rewrite int64_large by lia.
      destruct (Z.geb_spec (Value c - 2 ^ 64) (Z.of_nat (List.length initial)));
        [lia |].
      destruct (nth_error initial (Z.to_nat (Value c))) eqn:Hb; [| reflexivity].
      assert (Hlt : (Z.to_nat (Value c) < List.length initial)%nat).
      { apply nth_error_Some. rewrite Hb. discriminate. }
      lia.
Qed.

Lemma X10_evaluate_initial_witness :
  let ee := ExprEvaluator.mk [(64, [Byte.x2a; Byte.x07])] in
  Evaluate 0 ee (SelectExpr (NewArray 65 2) (Const 0 64))
  = Ok (inr (ArrayNotBound 65)) /\
  Evaluate 0 ee (SelectExpr (NewArray 64 1) (Const 1 64))
  = Ok (inl (mkConstant 7 8)) /\
  Evaluate 0 ee (SelectExpr (NewArray 64 8) (Const 2 64))
  = Ok (inr (SelectIndexOutOfBounds 2 2)) /\
  Evaluate 0 ee (SelectExpr (NewArray 64 8) (Const (2 ^ 63) 64))
  = Panic "runtime error: index out of range".
Proof.
  intros ee. split; [| split; [| split]].
  - apply (proj1 (X10_evaluate_initial 0 ee 65 2 (mkConstant 0 64))).
    reflexivity.
  - apply (proj1 (proj2 (X10_evaluate_initial 0 ee 64 1 (mkConstant 1 64))
                    [Byte.x2a; Byte.x07] eq_refl) Byte.x07);
      [cbn; lia | reflexivity].
  - apply (proj1 (proj2 (proj2 (X10_evaluate_initial 0 ee 64 8 (mkConstant 2 64))
                           [Byte.x2a; Byte.x07] eq_refl))).
    cbn. lia.
  - apply (proj2 (proj2 (proj2 (X10_evaluate_initial 0 ee 64 8
                                  (mkConstant (2 ^ 63) 64))
                           [Byte.x2a; Byte.x07] eq_refl)));
      cbn; lia.
Defined.

Lemma selectUpdate_evaluates (fuel fuel' : nat) (ee : ExprEvaluator)
    (a : Array) (c : ConstantExpr) :
  forall (upd : ArrayUpdate) (r : Expr),
    constantIndices upd ->
    selectUpdate (S fuel) a (Constant c) upd = Ok r ->
    evaluateUpdates fuel' ee (ArrayUpdates a) (ArrayID a) c
    = evaluateUpdates fuel' ee upd (ArrayID a) c ->
    Evaluate fuel' ee r = evaluateUpdates fuel' ee upd (ArrayID a) c.
Proof.
  induction upd as [| index value next IH]; intros r Hconst Hsel Hskipped.
  - cbn [selectUpdate] in Hsel. injection Hsel as <-.
    unfold NewSelectExpr. cbn [Evaluate propagate bind].
    destruct a as [id size updates]. cbn [evaluateSelect].
    exact Hskipped.
  - cbn [constantIndices] in Hconst. destruct Hconst as [Hindex Hconst].
    destruct index as [ci | | | | | | |]; try discriminate Hindex.
    cbn [selectUpdate NewBinaryExpr dispatch] in Hsel.
    unfold newEqExpr in Hsel.
    cbn [IsConstantExpr negb andb otherwise] in Hsel.
    unfold Eq in Hsel.
    destruct (Width c =? Width ci); cbn [assert bind constant] in Hsel;
      [| discriminate Hsel].
    cbn [evaluateUpdates Evaluate propagate bind] in *.
    rewrite (Z.eqb_sym (Value ci) (Value c)) in *.
    destruct (Value c =? Value ci); cbn [bind negb] in *.
    + change (IsTrue (NewConstantExpr 1 1)) with true in Hsel. cbv iota in Hsel.
      injection Hsel as <-. reflexivity.
    + change (IsTrue (NewConstantExpr 0 1)) with false in Hsel. cbv iota in Hsel.
      apply IH; assumption.
Qed.

(** X11: a read of a byte at a constant index from an array whose updates
    all have constant indices returns an expression that evaluates as the
    select expression of that read does: the value of the newest update at
    the index, found by [selectByte] in the list of updates, or a select
    from the array, evaluates to what the evaluator finds for the index,
    be it a constant, an error or a panic. *)
Theorem X11_selectByte_evaluates (fuel fuel' : nat) (ee : ExprEvaluator)
    (a : Array) (c : ConstantExpr) (r : Expr) :
  constantIndices (ArrayUpdates a) ->
  selectByte (S fuel) a (Constant c) = Ok r ->
  Evaluate fuel' ee r = Evaluate fuel' ee (SelectExpr a (Constant c)).
Proof.
  intros Hconst Hsel. unfold selectByte in Hsel.
  destruct (ExprWidth (Constant c) =? 64); cbn [assert bind] in Hsel;
    [| discriminate Hsel].
  rewrite (selectUpdate_evaluates fuel fuel' ee a c _ r Hconst Hsel eq_refl).
  cbn [Evaluate propagate bind]. destruct a. reflexivity.
Qed.

Lemma X11_selectByte_evaluates_witness :
  let x := SelectExpr (NewArray 64 2) (Const 1 64) in
  let a := mkArray 96 4
             (Update (Const 1 64) (BinaryExpr ADD (Const 1 8) x)
                (Update (Const 0 64) (Const 9 8) NoUpdate)) in
  let ee := ExprEvaluator.mk [(64, [Byte.x2a; Byte.x07])] in
  selectByte 1 a (Const 1 64) = Ok (BinaryExpr ADD (Const 1 8) x) /\
  Evaluate 1 ee (BinaryExpr ADD (Const 1 8) x)
  = Evaluate 1 ee (SelectExpr a (Const 1 64)) /\
  Evaluate 1 ee (SelectExpr a (Const 1 64)) = Ok (inl (mkConstant 8 8)).
Proof.
  intros x a ee.
  assert (Hsel : selectByte 1 a (Const 1 64) = Ok (BinaryExpr ADD (Const 1 8) x))
    by reflexivity.
  split; [exact Hsel | split; [| reflexivity]].
  apply (X11_selectByte_evaluates 0 1 ee a (mkConstant 1 64) _
           ltac:(cbn; tauto) Hsel).
Defined.

(** X12: a 1-bit value that is not a constant, stored at a constant offset
    within an array and selected there again, comes back as an extract of
    its zero-extension to a byte, which evaluates to the constant that the
    value evaluates to. *)
Theorem X12_bool_round_trip_evaluates (fuel fuel' : nat) (ee : ExprEvaluator)
    (a : Array) (offset : Z) (value : Expr) (b : ConstantExpr)
    (isLittleEndian : bool) :
  0 <= offset < ArraySize a ->
  ExprWidth value = 1 -> IsConstantExpr value = false ->
  Width b = 1 -> 0 <= Value b < 2 ->
  Evaluate (S fuel') ee value = Ok (inl b) ->
  exists a' r,
    Store (S fuel) a (Const offset 64) value isLittleEndian = Ok a' /\
    Select (S fuel) a' (Const offset 64) 1 isLittleEndian = Ok (Some r) /\
    Evaluate (S fuel') ee r = Ok (inl b).
Proof.
  intros Hoffset Hwidth Hsym Hb Hvalue Heval.
  assert (Hbyte : newZExtExpr (S fuel) value Width8 = Ok (CastExpr value 8 false)).
  { unfold newZExtExpr. rewrite Hwidth.
    destruct value; try reflexivity. discriminate Hsym. }
  destruct (bool_round_trip fuel a offset value _ isLittleEndian
              Hoffset Hwidth Hbyte) as [a' [Hstore Hselect]].
  exists a', (ExtractExpr (CastExpr value 8 false) 0 1).
  split; [exact Hstore | split; [exact Hselect |]].
  cbn [Evaluate]. rewrite Heval. cbn [propagate bind].
  destruct b as [vb wb]. cbn [Width Value] in *. subst wb.
  assert (Hcases : vb = 0 \/ vb = 1) by lia.
  destruct Hcases as [-> | ->]; reflexivity.
Qed.

Lemma X12_bool_round_trip_evaluates_witness :
  let x := SelectExpr (NewArray 64 2) (Const 1 64) in
  let value := BinaryExpr ULT x (Const 9 8) in
  let ee := ExprEvaluator.mk [(64, [Byte.x2a; Byte.x07])] in
  exists a' r,
    Store 1 (NewArray 96 4) (Const 2 64) value true = Ok a' /\
    Select 1 a' (Const 2 64) 1 true = Ok (Some r) /\
    Evaluate 1 ee r = Ok (inl (mkConstant 1 1)).
Proof.
  intros x value ee.
  apply (X12_bool_round_trip_evaluates 0 0 ee (NewArray 96 4) 2 value
           (mkConstant 1 1) true);
    try reflexivity; cbn; lia.
Defined.

(** ** The heap: finding the allocation of an address *)

Lemma findBackwards_behind (addr : ConstantExpr) (pw : Z) (before : Heap)
    (k : Z) (v : Array) :
  behind (Value addr) before ->
  In (k, v) before -> k <= Value addr < k + ArraySize v ->
  State.findBackwards addr pw before = Some (NewConstantExpr k pw, v).
Proof.
  destruct before as [| [k0 v0] rest]; [intros _ [] |].
  cbn [behind]. intros [Hk0 [Hs0 [Hfit [Hprev _]]]] Hin Hk.
  cbn [State.findBackwards].
  destruct Hin as [Heq | Hin].
  - injection Heq as -> ->. unfold uint64. rewrite uintN_small by lia.
    destruct (Z.geb_spec (Value addr) k); [| lia].
    destruct (Z.ltb_spec (Value addr) (k + ArraySize v)); [| lia].
    reflexivity.
  - specialize (Hprev k v Hin). lia.
Qed.

Lemma findBackwards_in (addr : ConstantExpr) (pw : Z) (entries : Heap)
    (base : ConstantExpr) (v : Array) :
  State.findBackwards addr pw entries = Some (base, v) ->
  exists k,
    In (k, v) entries /\ base = NewConstantExpr k pw /\
    k <= Value addr < uint64 (k + ArraySize v).
Proof.
  induction entries as [| [k0 v0] rest IH]; cbn [State.findBackwards];
    [discriminate |].
  destruct (Z.geb_spec (Value addr) k0) as [Hge | Hlt]; cbn [andb].
  - destruct (Z.ltb_spec (Value addr) (uint64 (k0 + ArraySize v0))).
    + intros Hfound. injection Hfound as <- <-.
      exists k0. split; [left; reflexivity | split; [reflexivity | lia]].
    + destruct (Value addr >? uint64 (k0 + ArraySize v0)); [discriminate |].
      intros Hfound. destruct (IH Hfound) as [k [Hin Hk]].
      exists k. split; [right; exact Hin | exact Hk].
  - destruct (Value addr >? uint64 (k0 + ArraySize v0)); [discriminate |].
    intros Hfound. destruct (IH Hfound) as [k [Hin Hk]].
    exists k. split; [right; exact Hin | exact Hk].
Qed.

Lemma seekOrLast_in (key : Z) (h : Heap) :
  forall before entry,
    In entry (seekOrLast key before h) -> In entry before \/ In entry h.
Proof.
  induction h as [| [k v] rest IH]; intros before entry; cbn [seekOrLast].
  - tauto.
  - destruct (key <=? k).
    + intros [<- | Hin]; [right; left; reflexivity | left; exact Hin].
    + intros Hin. destruct (IH _ _ Hin) as [[<- | H] | H];
        [right; left; reflexivity | left; exact H | right; right; exact H].
Qed.

Lemma seekOrLast_finds (addr : ConstantExpr) (pw : Z) (h : Heap) :
  forall before k v,
    heapSorted h -> heapDisjoint h -> behind (Value addr) before ->
    (forall k0 v0 k' v', In (k0, v0) before -> In (k', v') h ->
                         k0 + ArraySize v0 <= k') ->
    In (k, v) before \/ In (k, v) h ->
    k <= Value addr < k + ArraySize v ->
    State.findBackwards addr pw (seekOrLast (Value addr) before h)
    = Some (NewConstantExpr k pw, v).
Proof.
  induction h as [| [k1 v1] rest IH];
    intros before k v Hsorted Hdisjoint Hbehind Hcross Hin Hk;
    cbn [seekOrLast].
  - destruct Hin as [Hin | []].
    apply findBackwards_behind; assumption.
  - cbn [heapSorted heapDisjoint] in Hsorted, Hdisjoint.
    destruct Hsorted as [Hkeys Hsorted].
    destruct Hdisjoint as [Hk1 [Hs1 [Hfit [Hnext Hdisjoint]]]].
    assert (Hlater : forall k' v', In (k', v') rest -> k1 < k').
    { intros k' v' Hin'. apply Hkeys.
      change k' with (fst (k', v')). apply in_map. exact Hin'. }
    destruct (Z.leb_spec (Value addr) k1) as [Hle | Hgt].
    + (* the position of the iterator is this entry *)
      cbn [State.findBackwards]. unfold uint64. rewrite uintN_small by lia.
      destruct Hin as [Hin | [Heq | Hin]].
      * (* the allocation is behind the position *)
        destruct (Z.geb_spec (Value addr) k1) as [Hge | Hlt]; cbn [andb].
        -- specialize (Hcross k v k1 v1 Hin (or_introl eq_refl)). lia.
        -- destruct (Z.gtb_spec (Value addr) (k1 + ArraySize v1)); [lia |].
           apply findBackwards_behind; assumption.
      * injection Heq as -> ->.
        destruct (Z.geb_spec (Value addr) k); [| lia].
        destruct (Z.ltb_spec (Value addr) (k + ArraySize v)); [| lia].
        reflexivity.
      * specialize (Hlater k v Hin). lia.
    + apply IH; try assumption.
      * cbn [behind]. split; [lia |]. split; [lia |]. split; [lia |].
        split; [| exact Hbehind].
        intros k' v' Hin'. apply (Hcross k' v' k1 v1 Hin').
        left. reflexivity.
      * intros k0 v0 k' v' [Heq | Hin0] Hin'.
        -- injection Heq as <- <-. apply (Hnext k' v' Hin').
        -- pose proof (Hcross k0 v0 k1 v1 Hin0 (or_introl eq_refl)).
           specialize (Hlater k' v' Hin'). lia.
      * destruct Hin as [Hin | [Heq | Hin]];
          [left; right; exact Hin | left; left; exact Heq | right; exact Hin].
Qed.

Lemma heapDisjoint_in (h : Heap) (k : Z) (v : Array) :
  heapDisjoint h -> In (k, v) h ->
  0 <= k /\ 0 <= ArraySize v /\ k + ArraySize v < 2 ^ 64.
Proof.
  induction h as [| [k0 v0] rest IH]; [intros _ [] |].
  cbn [heapDisjoint]. intros [Hk [Hs [Hfit [_ Hrest]]]] [Heq | Hin].
  - injection Heq as <- <-. auto.
  - apply IH; assumption.
Qed.

Lemma findAllocContainingAddr_finds (addr : ConstantExpr)
    (s : ExecutionState) (k : Z) (v : Array) :
  heapSorted (heap s) -> heapDisjoint (heap s) ->
  contains (heap s) k v (Value addr) ->
  State.findAllocContainingAddr addr s
  = Some (NewConstantExpr k (PointerWidth (executor s)), v).
Proof.
  intros Hsorted Hdisjoint [Hin Hk]. unfold State.findAllocContainingAddr.
  apply seekOrLast_finds; try assumption.
  - exact I.
  - intros k0 v0 k' v' [].
  - right. exact Hin.
Qed.

Lemma findAllocContainingAddr_found (addr : ConstantExpr)
    (s : ExecutionState) (base : ConstantExpr) (v : Array) :
  heapDisjoint (heap s) ->
  State.findAllocContainingAddr addr s = Some (base, v) ->
  exists k,
    contains (heap s) k v (Value addr) /\
    base = NewConstantExpr k (PointerWidth (executor s)).
Proof.
  intros Hdisjoint Hsome. unfold State.findAllocContainingAddr in Hsome.
  destruct (findBackwards_in _ _ _ _ _ Hsome) as [k [Hin [Hbase Hk]]].
  apply seekOrLast_in in Hin. destruct Hin as [[] | Hin].
  exists k. split; [| exact Hbase]. split; [exact Hin |].
  destruct (heapDisjoint_in _ _ _ Hdisjoint Hin) as [H0 [H1 H2]].
  unfold uint64 in Hk. rewrite uintN_small in Hk by lia. exact Hk.
Qed.

Lemma heapGet_in (key : Z) (h : Heap) (v : Array) :
  heapGet key h = Some v -> In (key, v) h.
Proof.
  induction h as [| [k0 v0] rest IH]; cbn [heapGet]; [discriminate |].
  destruct (Z.eqb_spec key k0) as [<- | _].
  - intros Hget. injection Hget as <-. left. reflexivity.
  - intros Hget. right. apply IH. exact Hget.
Qed.

(** X13: [findAllocContainingAddr] finds the allocation of an address.
    In a heap whose allocations lie one after the other in the address
    space it returns the allocation that contains the address, with its
    key as a constant of pointer width for the base, and nil when no
    allocation contains the address. *)
Theorem X13_findAllocContainingAddr (addr : ConstantExpr) (s : ExecutionState) :
  heapSorted (heap s) -> heapDisjoint (heap s) ->
  (forall base v,
     State.findAllocContainingAddr addr s = Some (base, v) <->
     exists k,
       contains (heap s) k v (Value addr) /\
       base = NewConstantExpr k (PointerWidth (executor s))) /\
  (State.findAllocContainingAddr addr s = None <->
   forall k v, ~ contains (heap s) k v (Value addr)).
Proof.
  intros Hsorted Hdisjoint. split.
  - intros base v. split;
      [apply findAllocContainingAddr_found; exact Hdisjoint |].
    intros [k [Hcontains ->]].
    apply findAllocContainingAddr_finds; assumption.
  - split.
    + intros Hnone k v Hcontains.
      rewrite (findAllocContainingAddr_finds addr s k v Hsorted Hdisjoint
                 Hcontains) in Hnone.
      discriminate Hnone.
    + intros Hnot.
      destruct (State.findAllocContainingAddr addr s) as [[base v] |] eqn:Hsome;
        [| reflexivity].
      destruct (findAllocContainingAddr_found addr s base v Hdisjoint Hsome)
        as [k [Hcontains _]].
      destruct (Hnot k v Hcontains).
Qed.

Lemma X13_findAllocContainingAddr_witness :
  let a := mkArray 64 16 NoUpdate in
  let b := mkArray 80 0 NoUpdate in
  let c := mkArray 96 8 NoUpdate in
  let s := mkState (mkExecutor "amd64" 8) [(64, a); (80, b); (96, c)] [] in
  State.findAllocContainingAddr (mkConstant 79 64) s
  = Some (mkConstant 64 64, a) /\
  State.findAllocContainingAddr (mkConstant 80 64) s = None /\
  State.findAllocContainingAddr (mkConstant 200 64) s = None.
Proof.
  intros a b c s.
  assert (Hsorted : heapSorted (heap s)).
  { cbn. repeat split; intros k' H;
      repeat (destruct H as [<- | H]; [lia |]); destruct H. }
  assert (Hdisjoint : heapDisjoint (heap s)).
  { cbn. repeat split; try lia; intros k' v' H;
      repeat (destruct H as [H | H]; [injection H as <- <-; cbn; lia |]);
      destruct H. }
  split; [| split].
  - apply (proj1 (X13_findAllocContainingAddr (mkConstant 79 64) s
                    Hsorted Hdisjoint)).
    exists 64. split; [| reflexivity].
    split; [left; reflexivity | cbn; lia].
  - apply (proj2 (X13_findAllocContainingAddr (mkConstant 80 64) s
                    Hsorted Hdisjoint)).
    intros k v [Hin Hk]. cbn in Hin, Hk.
    repeat (destruct Hin as [Hin | Hin];
            [injection Hin as <- <-; cbn in Hk; lia |]).
    destruct Hin.
  - apply (proj2 (X13_findAllocContainingAddr (mkConstant 200 64) s
                    Hsorted Hdisjoint)).
    intros k v [Hin Hk]. cbn in Hin, Hk.
    repeat (destruct Hin as [Hin | Hin];
            [injection Hin as <- <-; cbn in Hk; lia |]).
    destruct Hin.
Defined.

(** ** The heap: allocation keeps the allocations apart *)

Lemma heapLast_ends (h : Heap) :
  heapSorted h -> heapDisjoint h ->
  forall kl vl, heapLast h = Some (kl, vl) ->
    In (kl, vl) h /\
    forall k v, In (k, v) h -> k + ArraySize v <= kl + ArraySize vl.
Proof.
  induction h as [| [k0 v0] rest IH]; intros Hsorted Hdisjoint kl vl Hlast;
    [discriminate Hlast |].
  cbn [heapSorted heapDisjoint] in Hsorted, Hdisjoint.
  destruct Hsorted as [_ Hsorted].
  destruct Hdisjoint as [Hk0 [Hs0 [Hfit [Hnext Hdisjoint]]]].
  destruct rest as [| entry rest'].
  - cbn [heapLast] in Hlast. injection Hlast as <- <-.
    split; [left; reflexivity |].
    intros k v [Heq | []]. injection Heq as <- <-. lia.
  - change (heapLast ((k0, v0) :: entry :: rest'))
      with (heapLast (entry :: rest')) in Hlast.
    destruct (IH Hsorted Hdisjoint kl vl Hlast) as [Hin Hends].
    split; [right; exact Hin |].
    intros k v [Heq | Hin'].
    + injection Heq as <- <-.
      pose proof (Hnext kl vl Hin).
      destruct (heapDisjoint_in _ _ _ Hdisjoint Hin) as [_ [Hsl _]]. lia.
    + apply Hends. exact Hin'.
Qed.

Lemma heapSet_at_end (key : Z) (value : Array) (h : Heap) :
  heapSorted h -> heapDisjoint h ->
  (forall k v, In (k, v) h -> k + ArraySize v <= key) ->
  0 <= key -> 0 <= ArraySize value -> key + ArraySize value < 2 ^ 64 ->
  heapDisjoint (heapSet key value h) /\
  (forall k v, In (k, v) (heapSet key value h) ->
               (k, v) = (key, value) \/ (In (k, v) h /\ k < key)).
Proof.
  intros Hsorted Hdisjoint Hends Hkey Hsize Hfit.
  induction h as [| [k0 v0] rest IH].
  - cbn [heapSet heapDisjoint]. split.
    + repeat split; try lia. intros k' v' [].
    + intros k v [Heq | []]. left. symmetry. exact Heq.
  - cbn [heapSorted heapDisjoint] in Hsorted, Hdisjoint.
    destruct Hsorted as [Hkeys Hsorted].
    destruct Hdisjoint as [Hk0 [Hs0 [Hfit0 [Hnext Hdisjoint]]]].
    pose proof (Hends k0 v0 (or_introl eq_refl)) as Hend0.
    cbn [heapSet].
    destruct (Z.ltb_spec key k0) as [| _]; [lia |].
    destruct (Z.eqb_spec key k0) as [Heq | Hne].
    + (* the last allocation has size 0 and is replaced *)
      subst k0.
      assert (Hrest : rest = []).
      { destruct rest as [| [k1 v1] rest']; [reflexivity |].
        pose proof (Hends k1 v1 (or_intror (or_introl eq_refl))).
        pose proof (Hnext k1 v1 (or_introl eq_refl)).
        assert (key < k1).
        { apply Hkeys. left. reflexivity. }
        destruct (heapDisjoint_in _ _ _ Hdisjoint (or_introl eq_refl))
          as [_ [Hs1 _]].
        lia. }
      subst rest. cbn [heapDisjoint]. split.
      * repeat split; try lia. intros k' v' [].
      * intros k v [Heq | []]. left. symmetry. exact Heq.
    + destruct IH as [IHd IHin]; try assumption.
      { intros k v Hin. apply Hends. right. exact Hin. }
      cbn [heapDisjoint]. split.
      * repeat split; try assumption.
        intros k' v' Hin. destruct (IHin k' v' Hin) as [Heq | [Hin' _]].
        -- injection Heq as -> ->. exact Hend0.
        -- apply (Hnext k' v' Hin').
      * intros k v [Heq | Hin].
        -- injection Heq as <- <-. right. split; [left; reflexivity | lia].
        -- destruct (IHin k v Hin) as [Heq | [Hin' Hlt]];
             [left; exact Heq | right; split; [right; exact Hin' | exact Hlt]].
Qed.

(** X14: [Alloc] keeps the allocations of the heap apart.  In a heap whose
    allocations lie one after the other in the address space, an
    allocation that fits below 2^64 is placed at the end of the last
    allocation: the heap is again sorted with its allocations one after
    the other, every other allocation of the new heap is an allocation of
    the old one and ends at or before the new address, and every address
    of the new array is found in the new array. *)
Theorem X14_alloc_disjoint (width : Z) (s : ExecutionState) :
  heapSorted (heap s) -> heapDisjoint (heap s) ->
  0 <= PointerSize (executor s) < 2 ^ 61 ->
  0 <= width -> nextAddr s + width < 2 ^ 64 ->
  let '((addr, array), s') := Alloc width s in
  heapSorted (heap s') /\ heapDisjoint (heap s') /\
  (forall k v, In (k, v) (heap s') ->
               (k, v) = (nextAddr s, array) \/
               (In (k, v) (heap s) /\ k + ArraySize v <= nextAddr s)) /\
  (forall j, 0 <= j < width ->
     State.findAllocContainingAddr
       (mkConstant (nextAddr s + j) (PointerWidth (executor s))) s'
     = Some (addr, array)).
Proof.
  intros Hsorted Hdisjoint Hpointer Hwidth Hfit.
  unfold Alloc.
  assert (Hends : forall k v, In (k, v) (heap s) ->
                              k + ArraySize v <= nextAddr s).
  { intros k v Hin. unfold nextAddr.
    destruct (heapLast (heap s)) as [[kl vl] |] eqn:Hlast.
    - destruct (heapLast_ends _ Hsorted Hdisjoint kl vl Hlast) as [Hinl Hends].
      destruct (heapDisjoint_in _ _ _ Hdisjoint Hinl) as [H0 [H1 H2]].
      unfold uint64. rewrite uintN_small by lia. apply Hends. exact Hin.
    - apply heapLast_nil in Hlast. rewrite Hlast in Hin. destruct Hin. }
  assert (Hnonneg : 0 <= nextAddr s).
  { unfold nextAddr.
    destruct (heapLast (heap s)) as [[kl vl] |] eqn:Hlast.
    - unfold uint64. apply uintN_range. lia.
    - rewrite PointerWidth_bits by exact Hpointer. lia. }
  destruct (heapSet_at_end (nextAddr s) (NewArray (nextAddr s) width) (heap s)
              Hsorted Hdisjoint Hends Hnonneg Hwidth Hfit)
    as [Hdisjoint' Hin'].
  assert (Hsorted' : heapSorted
                       (heapSet (nextAddr s) (NewArray (nextAddr s) width) (heap s)))
    by (apply heapSet_sorted; exact Hsorted).
  cbn [heap executor].
  split; [exact Hsorted' | split; [exact Hdisjoint' | split]].
  - intros k v Hin. destruct (Hin' k v Hin) as [Heq | [Hold _]];
      [left; exact Heq | right; split; [exact Hold | apply Hends; exact Hold]].
  - intros j Hj.
    set (s' := mkState (executor s)
                 (heapSet (nextAddr s) (NewArray (nextAddr s) width) (heap s))
                 (constraints s)).
    apply (findAllocContainingAddr_finds
             (mkConstant (nextAddr s + j) (PointerWidth (executor s)))
             s' (nextAddr s) (NewArray (nextAddr s) width) Hsorted' Hdisjoint').
    split; [| cbn [Value ArraySize NewArray]; lia].
    apply heapGet_in. apply heapGet_heapSet.
Qed.

Lemma X14_alloc_disjoint_witness :
  let a := mkArray 64 16 NoUpdate in
  let b := mkArray 80 0 NoUpdate in
  let s := mkState (mkExecutor "amd64" 8) [(64, a); (80, b)] [] in
  let '((addr, array), s') := Alloc 24 s in
  heap s' = [(64, a); (80, array)] /\
  heapSorted (heap s') /\ heapDisjoint (heap s') /\
  State.findAllocContainingAddr (mkConstant (80 + 23) 64) s'
  = Some (addr, array).
Proof.
  intros a b s.
  assert (Hsorted : heapSorted (heap s)).
  { cbn. repeat split; intros k' H;
      repeat (destruct H as [<- | H]; [lia |]); destruct H. }
  assert (Hdisjoint : heapDisjoint (heap s)).
  { cbn. repeat split; try lia; intros k' v' H;
      repeat (destruct H as [H | H]; [injection H as <- <-; cbn; lia |]);
      destruct H. }
  pose proof (X14_alloc_disjoint 24 s Hsorted Hdisjoint
                ltac:(cbn; lia) ltac:(lia) ltac:(cbn; lia)) as H.
  cbv beta iota zeta delta [Alloc] in H |- *.
  destruct H as [Hs [Hd [_ Hfind]]].
  split; [reflexivity | split; [exact Hs | split; [exact Hd |]]].
  apply (Hfind 23). lia.
Defined.

(** ** Loops that write bytes at consecutive constant indices *)

Section ByteLoops.

Variables (fuel : nat) (offset n : Z) (bytes : Z -> Expr).
Variable body : Z -> Array -> result Array.

Hypothesis offset_nonneg : 0 <= offset.
Hypothesis body_stores :
  forall j array,
    0 <= j < n ->
    body j array
    = returned (storeByte fuel (Const (offset + j) 64) (bytes j) array).
Hypothesis bytes_width : forall j, 0 <= j < n -> ExprWidth (bytes j) = 8.

Let at_offset := fun j : Z => offset + j.

Lemma written_at_offset_keys (m : nat) (k : Z) :
  In k (map fst (written at_offset bytes m)) ->
  offset <= k < offset + Z.of_nat m.
Proof.
  induction m as [| m IH]; cbn [written map fst In]; [intros [] |].
  subst at_offset. cbn beta. intros [Hk | Hk]; [lia | specialize (IH Hk); lia].
Qed.

Lemma loop_written (id size : Z) :
  offset + n <= size ->
  forall (k m : nat) (rest : ArrayUpdate),
    Z.of_nat m + Z.of_nat k <= n ->
    exists rest',
      loop k (Z.of_nat m) body
        (mkArray id size (prepend (written at_offset bytes m) rest))
      = Ok (mkArray id size (prepend (written at_offset bytes (m + k)) rest'))
      /\ ((forall j, 0 <= j < n -> removeUpdates (offset + j) rest = rest) ->
          rest' = rest).
Proof.
  intros Hsize. induction k as [| k IH]; intros m rest Hmk.
  - exists rest. rewrite Nat.add_0_r. split; [reflexivity | auto].
  - cbn [loop]. rewrite body_stores by lia.
    rewrite storeByte_prepend;
      [| lia | apply bytes_width; lia
       | intros Hin; apply written_at_offset_keys in Hin; lia].
    cbn [returned fst snd bind].
    destruct (IH (S m) (removeUpdates (offset + Z.of_nat m) rest)) as [rest' [Hloop Hkept]];
      [lia |].
    exists rest'.
    replace (Z.of_nat m + 1) with (Z.of_nat (S m)) by lia.
    replace (m + S k)%nat with (S m + k)%nat by lia.
    split; [exact Hloop |].
    intros Hrest. rewrite (Hrest (Z.of_nat m)) in Hkept by lia.
    apply Hkept. exact Hrest.
Qed.

Lemma selectUpdate_at_offset (a : Array) (rest : ArrayUpdate) (j : Z) :
  forall m : nat,
    0 <= j < Z.of_nat m ->
    selectUpdate (S fuel) a (Const (offset + j) 64)
      (prepend (written at_offset bytes m) rest) = Ok (bytes j).
Proof.
  induction m as [| m IH]; intros Hj; [lia |].
  cbn [written prepend selectUpdate]. subst at_offset. cbn beta.
  rewrite NewBinaryExpr_EQ_constants. cbn [bind].
  destruct (Z.eqb_spec (offset + j) (offset + Z.of_nat m)) as [Heq | Hne].
  - replace (Z.of_nat m) with j by lia. reflexivity.
  - cbn [NewBoolConstantExpr IsTrue Width Value Z.eqb andb negb].
    apply IH. lia.
Qed.

End ByteLoops.

Lemma loop_stored (fuel fuel' : nat) (offset n : Z) (bytes : Z -> Expr)
    (body : Z -> Array -> result Array) (id size : Z) (rest : ArrayUpdate) :
  0 <= offset -> 0 <= n -> offset + n <= size ->
  (forall j array,
     0 <= j < n ->
     body j array
     = returned (storeByte fuel (Const (offset + j) 64) (bytes j) array)) ->
  (forall j, 0 <= j < n -> ExprWidth (bytes j) = 8) ->
  exists a',
    loop (Z.to_nat n) 0 body (mkArray id size rest) = Ok a' /\
    ArrayID a' = id /\ ArraySize a' = size /\
    ((forall j, 0 <= j < n -> removeUpdates (offset + j) rest = rest) ->
     a' = mkArray id size
            (prepend (written (fun j => offset + j) bytes (Z.to_nat n)) rest)) /\
    forall j, 0 <= j < n ->
      selectByte (S fuel') a' (Const (offset + j) 64) = Ok (bytes j).
Proof.
  intros Hoffset Hn Hsize Hbody Hwidth.
  destruct (loop_written fuel offset n bytes body Hoffset Hbody Hwidth id size
              Hsize (Z.to_nat n) 0%nat rest ltac:(lia)) as [rest' [Hloop Hkept]].
  cbn [written prepend Nat.add Z.of_nat] in Hloop.
  eexists. split; [exact Hloop |].
  split; [reflexivity | split; [reflexivity | split]].
  - intros Hrest. rewrite (Hkept Hrest). reflexivity.
  - intros j Hj. unfold selectByte.
    cbn [ExprWidth Const Width assert bind Z.eqb Pos.eqb ArrayUpdates].
    apply (selectUpdate_at_offset fuel' offset bytes). lia.
Qed.

Lemma selectUpdate_skip (fuel : nat) (a : Array) (k : Z)
    (entries : list (Z * Expr)) (rest : ArrayUpdate) :
  ~ In k (map fst entries) ->
  selectUpdate (S fuel) a (Const k 64) (prepend entries rest)
  = selectUpdate (S fuel) a (Const k 64) rest.
Proof.
  induction entries as [| [k0 v0] entries IH]; intros Hnotin; [reflexivity |].
  cbn [prepend selectUpdate]. rewrite NewBinaryExpr_EQ_constants. cbn [bind].
  cbn [map fst In] in Hnotin.
  destruct (Z.eqb_spec k k0) as [Heq | Hne]; [destruct Hnotin; left; lia |].
  cbn [NewBoolConstantExpr IsTrue Width Value Z.eqb andb negb].
  apply IH. intros Hin. apply Hnotin. right. exact Hin.
Qed.

Lemma written_keys_range (offset : Z) (bytes : Z -> Expr) (m : nat) (k : Z) :
  In k (map fst (written (fun j => offset + j) bytes m)) ->
  offset <= k < offset + Z.of_nat m.
Proof.
  induction m as [| m IH]; cbn [written map fst In]; [intros [] |].
  intros [Hk | Hk]; [lia | specialize (IH Hk); lia].
Qed.

(** ** Strings *)

Lemma byteValue_range (b : Byte.byte) : 0 <= byteValue b < 256.
Proof. destruct b; cbn; lia. Qed.

Lemma nth_byteValue (str : list Byte.byte) (j : nat) :
  nth j (map byteValue str) 0 = byteValue (nth j str Byte.x00).
Proof. apply (map_nth byteValue str Byte.x00 j). Qed.

Lemma EvalConst_string (fuel fuel' : nat) (str : list Byte.byte)
    (sizeofType : Z) (s : ExecutionState) :
  Z.of_nat (List.length str) < 2 ^ 64 ->
  exists a,
    EvalConst fuel' (StringConst str) sizeofType s = Ok (ArrayBinding a, s) /\
    ArrayID a = 0 /\
    holdsBytes (S fuel) a (map byteValue str).
Proof.
  intros Hlen. cbn [EvalConst]. unfold NewArray.
  destruct (loop_stored fuel' fuel 0 (Z.of_nat (List.length str))
              (fun j => Const (byteValue (nth (Z.to_nat j) str Byte.x00)) 8)
              (fun i array =>
                 returned
                   (storeByte fuel' (Constant (NewConstantExpr64 (uint64 i)))
                      (Constant
                         (NewConstantExpr
                            (Z.of_N (Byte.to_N (nth (Z.to_nat i) str Byte.x00)))
                            8))
                      array))
              0 (Z.of_nat (List.length str)) NoUpdate)
    as [a [Hloop [Hid [Hsize [_ Hsel]]]]]; try lia.
  - intros j array Hj. cbn beta. rewrite index_constant by lia.
    rewrite NewConstantExpr_small;
      [reflexivity | lia | apply byteValue_range].
  - reflexivity.
  - rewrite Nat2Z.id in Hloop. rewrite Hloop. cbn [bind].
    exists a. split; [reflexivity | split; [exact Hid |]].
    split; [rewrite length_map; exact Hsize |].
    intros j Hj. rewrite length_map in Hj. rewrite nth_byteValue.
    split; [apply byteValue_range |].
    specialize (Hsel (Z.of_nat j) ltac:(lia)).
    cbn beta in Hsel. rewrite Nat2Z.id in Hsel. exact Hsel.
Qed.

Lemma removeUpdates_written (k offset : Z) (bytes : Z -> Expr) (m : nat) :
  ~ (offset <= k < offset + Z.of_nat m) ->
  removeUpdates k (prepend (written (fun j => offset + j) bytes m) NoUpdate)
  = prepend (written (fun j => offset + j) bytes m) NoUpdate.
Proof.
  intros Hk. rewrite removeUpdates_prepend; [reflexivity |].
  intros Hin. apply written_keys_range in Hin. lia.
Qed.

Section Concatenation.

Variables (fuel : nat) (x y : Array) (xs ys : list Z).

Hypothesis holds_x : holdsBytes (S fuel) x xs.
Hypothesis holds_y : holdsBytes (S fuel) y ys.
Hypothesis fits : Z.of_nat (List.length xs) + Z.of_nat (List.length ys) < 2 ^ 64.

Let lx := Z.of_nat (List.length xs).
Let ly := Z.of_nat (List.length ys).
Let xbytes := fun j : Z => Const (nth (Z.to_nat j) xs 0) 8.
Let ybytes := fun j : Z => Const (nth (Z.to_nat j) ys 0) 8.

Lemma concatenation_holds :
  xs <> [] -> ys <> [] ->
  exists a,
    executeBinOpInstrStringADD (S fuel)
      (Some (ArrayBinding x)) (Some (ArrayBinding y))
    = Ok (Binds (Some (ArrayBinding a))) /\
    ArrayID a = 0 /\ holdsBytes (S fuel) a (xs ++ ys).
Proof.
  intros Hxs Hys.
  destruct holds_x as [Hsx Hx]. destruct holds_y as [Hsy Hy].
  assert (Hlx : 0 < lx) by (subst lx; destruct xs; [contradiction | cbn; lia]).
  assert (Hly : 0 < ly) by (subst ly; destruct ys; [contradiction | cbn; lia]).
  unfold executeBinOpInstrStringADD. cbn [asArray bind].
  fold lx in Hsx. fold ly in Hsy. rewrite Hsx, Hsy.
  destruct (Z.eqb_spec lx 0) as [| _]; [lia |].
  destruct (Z.eqb_spec ly 0) as [| _]; [lia |].
  unfold NewArray. change (uint64 (lx + ly)) with (uintN 64 (lx + ly)).
  rewrite (uintN_small 64 (lx + ly)) by (subst lx ly; lia).
  cbv zeta.
  destruct (loop_stored (S fuel) fuel 0 lx xbytes
              (fun i array =>
                 byte <- selectByte (S fuel) x
                           (Constant (NewConstantExpr64 (uint64 i))) ;;
                 returned
                   (storeByte (S fuel)
                      (Constant (NewConstantExpr64 (uint64 i))) byte array))
              0 (lx + ly) NoUpdate)
    as [a1 [Hloop1 [_ [_ [Ha1 _]]]]]; try lia.
  { intros j array Hj. rewrite index_constant by (subst lx; lia).
    subst lx xbytes. cbn beta.
    destruct (Hx (Z.to_nat j) ltac:(lia)) as [_ Hsel].
    rewrite Z2Nat.id in Hsel by lia. rewrite Hsel. reflexivity. }
  { reflexivity. }
  rewrite Hloop1. cbn [bind]. rewrite Ha1 by reflexivity.
  destruct (loop_stored (S fuel) fuel lx ly ybytes
              (fun i array =>
                 byte <- selectByte (S fuel) y
                           (Constant (NewConstantExpr64 (uint64 i))) ;;
                 returned
                   (storeByte (S fuel)
                      (Constant (NewConstantExpr64 (uint64 (lx + i))))
                      byte array))
              0 (lx + ly)
              (prepend (written (fun j => 0 + j) xbytes (Z.to_nat lx)) NoUpdate))
    as [a2 [Hloop2 [Hid [Hsize [Ha2 Hsel2]]]]]; try lia.
  { intros j array Hj. rewrite !index_constant by (subst lx ly; lia).
    subst ly ybytes. cbn beta.
    destruct (Hy (Z.to_nat j) ltac:(lia)) as [_ Hsel].
    rewrite Z2Nat.id in Hsel by lia. rewrite Hsel. reflexivity. }
  { reflexivity. }
  rewrite Hloop2. cbn [bind].
  exists a2. split; [reflexivity | split; [exact Hid |]].
  split.
  - rewrite length_app, Hsize. subst lx ly. lia.
  - intros j Hj. rewrite length_app in Hj.
    destruct (Nat.lt_ge_cases j (List.length xs)) as [Hlt | Hge].
    + rewrite app_nth1 by exact Hlt.
      split; [apply (Hx j Hlt) |].
      rewrite Ha2.
      2:{ intros i Hi. apply removeUpdates_written. subst lx. lia. }
      unfold selectByte.
      cbn [ExprWidth Const Width assert bind Z.eqb Pos.eqb ArrayUpdates].
      rewrite selectUpdate_skip.
      2:{ intros Hin. apply written_keys_range in Hin. subst lx. lia. }
      pose proof (selectUpdate_at_offset fuel 0 xbytes
                    (mkArray 0 (lx + ly)
                       (prepend (written (fun j0 => lx + j0) ybytes (Z.to_nat ly))
                          (prepend (written (fun j0 => 0 + j0) xbytes (Z.to_nat lx))
                             NoUpdate)))
                    NoUpdate (Z.of_nat j) (Z.to_nat lx)) as Hsel.
      cbn [Z.add] in Hsel. subst xbytes. cbn beta in Hsel.
      rewrite Nat2Z.id in Hsel. apply Hsel. subst lx. lia.
    + rewrite app_nth2 by exact Hge.
      split; [apply (Hy (j - List.length xs)%nat); lia |].
      specialize (Hsel2 (Z.of_nat j - lx) ltac:(subst lx ly; lia)).
      replace (lx + (Z.of_nat j - lx)) with (Z.of_nat j) in Hsel2 by lia.
      subst ybytes lx. cbn beta in Hsel2.
      replace (Z.to_nat (Z.of_nat j - Z.of_nat (List.length xs)))
        with (j - List.length xs)%nat in Hsel2 by lia.
      exact Hsel2.
Qed.

End Concatenation.

Lemma nth_slice (xs : list Z) (lo n j : nat) :
  (j < n)%nat -> (lo + n <= List.length xs)%nat ->
  nth j (firstn n (skipn lo xs)) 0 = nth (lo + j) xs 0.
Proof.
  intros Hj Hlen.
  rewrite <- (firstn_skipn lo xs) at 2.
  rewrite app_nth2 by (rewrite length_firstn; lia).
  rewrite length_firstn, Nat.min_l by lia.
  replace (lo + j - lo)%nat with j by lia.
  clear Hlen. revert j Hj. generalize (skipn lo xs) as l.
  induction n as [| n IH]; intros l j Hj; [lia |].
  destruct l as [| z l]; [destruct j; reflexivity |].
  destruct j as [| j]; [reflexivity |].
  cbn [firstn nth]. apply IH. lia.
Qed.

Lemma slice_holds (fuel : nat) (x : Array) (xs : list Z) (lo hi : ConstantExpr) :
  holdsBytes (S fuel) x xs -> Z.of_nat (List.length xs) < 2 ^ 64 ->
  0 <= Value lo <= Value hi -> Value hi <= Z.of_nat (List.length xs) ->
  exists a,
    executeSliceInstrString (S fuel) (Some (ArrayBinding x))
      (Some (ExprBinding (Constant lo))) (Some (ExprBinding (Constant hi)))
    = Ok (Binds (Some (ArrayBinding a))) /\
    ArrayID a = 0 /\
    holdsBytes (S fuel) a
      (firstn (Z.to_nat (Value hi - Value lo)) (skipn (Z.to_nat (Value lo)) xs)).
Proof.
  intros [Hsx Hx] Hfit Hlo Hhi.
  unfold executeSliceInstrString.
  cbn [asArray bind EvalAsConstantExpr]. rewrite Hsx.
  unfold uint64 at 1 2. rewrite !uintN_small by lia.
  destruct (Z.gtb_spec (Value hi) (Z.of_nat (List.length xs))) as [| _]; [lia |].
  destruct (Z.gtb_spec (Value lo) (Z.of_nat (List.length xs))) as [| _]; [lia |].
  cbn [orb]. unfold NewArray.
  change (uint64 (Value hi - Value lo)) with (uintN 64 (Value hi - Value lo)).
  rewrite (uintN_small 64 (Value hi - Value lo)) by lia.
  cbv zeta. cbn [ArraySize].
  set (n := Value hi - Value lo).
  destruct (loop_stored (S fuel) fuel 0 n
              (fun j => Const (nth (Z.to_nat (Value lo + j)) xs 0) 8)
              (fun i array =>
                 byte <- selectByte (S fuel) x
                           (Constant
                              (NewConstantExpr64 (uint64 (uint64 i + Value lo)))) ;;
                 returned
                   (storeByte (S fuel)
                      (Constant (NewConstantExpr64 (uint64 i))) byte array))
              0 n NoUpdate)
    as [a [Hloop [Hid [Hsize [_ Hsel]]]]]; try lia.
  { intros j array Hj. subst n.
    unfold uint64 at 2. rewrite (uintN_small 64 j) by lia.
    rewrite !index_constant by lia.
    destruct (Hx (Z.to_nat (Value lo + j)) ltac:(lia)) as [_ Hread].
    rewrite Z2Nat.id in Hread by lia.
    replace (j + Value lo) with (Value lo + j) by lia.
    rewrite Hread. reflexivity. }
  { reflexivity. }
  rewrite Hloop. cbn [bind].
  exists a. split; [reflexivity | split; [exact Hid |]].
  assert (Hlen : List.length (firstn (Z.to_nat n) (skipn (Z.to_nat (Value lo)) xs))
                 = Z.to_nat n).
  { rewrite length_firstn, length_skipn. subst n. lia. }
  split; [rewrite Hlen, Hsize; lia |].
  intros j Hj. rewrite Hlen in Hj.
  rewrite nth_slice by (subst n; lia).
  split; [apply (Hx (Z.to_nat (Value lo) + j)%nat); subst n; lia |].
  specialize (Hsel (Z.of_nat j) ltac:(lia)). cbn [Z.add] in Hsel.
  cbn beta in Hsel.
  replace (Z.to_nat (Value lo + Z.of_nat j))
    with (Z.to_nat (Value lo) + j)%nat in Hsel by lia.
  exact Hsel.
Qed.

(** X15: the operations on strings keep the bytes.  The array that
    [Eval] builds for a string constant holds the bytes of the string;
    the concatenation of two strings that are not empty is a new array
    with id 0 that holds the bytes of the first followed by those of the
    second, and the concatenation with an empty string is the other
    array itself; the slice [s[lo:hi]] with constant bounds within the
    string holds the bytes from [lo] up to [hi], and a bound above the
    length marks the state as panicked; the lookup of a constant index
    within the string binds the byte at the index, as an 8-bit
    constant. *)
Theorem X15_string_operations (fuel : nat) :
  (forall fuel' str sizeofType s,
     Z.of_nat (List.length str) < 2 ^ 64 ->
     exists a,
       EvalConst fuel' (StringConst str) sizeofType s = Ok (ArrayBinding a, s) /\
       ArrayID a = 0 /\ holdsBytes (S fuel) a (map byteValue str)) /\
  (forall x y xs ys,
     holdsBytes (S fuel) x xs -> holdsBytes (S fuel) y ys ->
     Z.of_nat (List.length xs) + Z.of_nat (List.length ys) < 2 ^ 64 ->
     xs <> [] -> ys <> [] ->
     exists a,
       executeBinOpInstrStringADD (S fuel)
         (Some (ArrayBinding x)) (Some (ArrayBinding y))
       = Ok (Binds (Some (ArrayBinding a))) /\
       ArrayID a = 0 /\ holdsBytes (S fuel) a (xs ++ ys)) /\
  (forall x y,
     (ArraySize x = 0 ->
      executeBinOpInstrStringADD (S fuel)
        (Some (ArrayBinding x)) (Some (ArrayBinding y))
      = Ok (Binds (Some (ArrayBinding y)))) /\
     (ArraySize x <> 0 -> ArraySize y = 0 ->
      executeBinOpInstrStringADD (S fuel)
        (Some (ArrayBinding x)) (Some (ArrayBinding y))
      = Ok (Binds (Some (ArrayBinding x))))) /\
  (forall x xs lo hi,
     holdsBytes (S fuel) x xs -> Z.of_nat (List.length xs) < 2 ^ 64 ->
     (0 <= Value lo <= Value hi -> Value hi <= Z.of_nat (List.length xs) ->
      exists a,
        executeSliceInstrString (S fuel) (Some (ArrayBinding x))
          (Some (ExprBinding (Constant lo))) (Some (ExprBinding (Constant hi)))
        = Ok (Binds (Some (ArrayBinding a))) /\
        ArrayID a = 0 /\
        holdsBytes (S fuel) a
          (firstn (Z.to_nat (Value hi - Value lo))
             (skipn (Z.to_nat (Value lo)) xs))) /\
     (Z.of_nat (List.length xs) < Value hi \/
      Z.of_nat (List.length xs) < Value lo ->
      executeSliceInstrString (S fuel) (Some (ArrayBinding x))
        (Some (ExprBinding (Constant lo))) (Some (ExprBinding (Constant hi)))
      = Ok (Panicked "slice bounds out of range"))) /\
  (forall x xs (index : ConstantExpr),
     holdsBytes (S fuel) x xs ->
     0 <= Value index < Z.of_nat (List.length xs) ->
     Value index < 2 ^ 64 -> Width index <= 64 ->
     executeLookupInstrString (S fuel) (Some (ArrayBinding x))
       (Some (ExprBinding (Constant index)))
     = Ok (Binds (Some (ExprBinding
                          (Const (nth (Z.to_nat (Value index)) xs 0) 8))))).
Proof.
  split; [| split; [| split; [| split]]].
  - intros fuel' str sizeofType s. apply EvalConst_string.
  - intros x y xs ys Hx Hy Hfit. apply concatenation_holds; assumption.
  - intros x y. unfold executeBinOpInstrStringADD. cbn [asArray bind]. split.
    + intros ->. reflexivity.
    + intros Hx ->. destruct (Z.eqb_spec (ArraySize x) 0); [contradiction |].
      reflexivity.
  - intros x xs lo hi Hx Hfit. split.
    + apply slice_holds; assumption.
    + intros Hout. destruct Hx as [Hsx _].
      unfold executeSliceInstrString.
      cbn [asArray bind EvalAsConstantExpr]. rewrite Hsx.
      unfold uint64. rewrite !uintN_small by lia.
      destruct Hout as [Hout | Hout].
      * destruct (Z.gtb_spec (Value hi) (Z.of_nat (List.length xs)));
          [reflexivity | lia].
      * destruct (Z.gtb_spec (Value lo) (Z.of_nat (List.length xs)));
          [| lia].
        rewrite orb_true_r. reflexivity.
  - intros x xs index [Hsx Hx] Hindex Hfit Hwidth.
    unfold executeLookupInstrString. cbn [asArray MustEvalAsExpr bind].
    rewrite newZExtExpr_constant_index by lia. cbn [bind].
    destruct (Hx (Z.to_nat (Value index)) ltac:(lia)) as [_ Hsel].
    rewrite Z2Nat.id in Hsel by lia. rewrite Hsel. reflexivity.
Qed.

Ltac holds_bytes :=
  split; [reflexivity |];
  let j := fresh "j" in
  let Hj := fresh "Hj" in
  intros j Hj; cbn [List.length] in Hj;
  repeat (destruct j as [| j]; [split; [cbn; lia | reflexivity] |]);
  lia.

Lemma X15_string_operations_witness :
  let s := mkState (mkExecutor "amd64" 8) [] [] in
  let x := mkArray 0 2
             (Update (Const 1 64) (Const 98 8)
                (Update (Const 0 64) (Const 97 8) NoUpdate)) in
  let y := mkArray 0 1 (Update (Const 0 64) (Const 99 8) NoUpdate) in
  (exists a,
     EvalConst 0 (StringConst [Byte.x61; Byte.x62]) 0 s = Ok (ArrayBinding a, s) /\
     ArrayID a = 0 /\ holdsBytes 1 a [97; 98]) /\
  (exists a,
     executeBinOpInstrStringADD 1 (Some (ArrayBinding x)) (Some (ArrayBinding y))
     = Ok (Binds (Some (ArrayBinding a))) /\
     ArrayID a = 0 /\ holdsBytes 1 a [97; 98; 99]) /\
  (exists a,
     executeSliceInstrString 1 (Some (ArrayBinding x))
       (Some (ExprBinding (Const 1 64))) (Some (ExprBinding (Const 2 64)))
     = Ok (Binds (Some (ArrayBinding a))) /\
     ArrayID a = 0 /\ holdsBytes 1 a [98]) /\
  executeSliceInstrString 1 (Some (ArrayBinding x))
    (Some (ExprBinding (Const 1 64))) (Some (ExprBinding (Const 3 64)))
  = Ok (Panicked "slice bounds out of range") /\
  executeLookupInstrString 1 (Some (ArrayBinding x))
    (Some (ExprBinding (Const 1 32)))
  = Ok (Binds (Some (ExprBinding (Const 98 8)))).
Proof.
  intros s x y.
  assert (Hx : holdsBytes 1 x [97; 98]) by holds_bytes.
  assert (Hy : holdsBytes 1 y [99]) by holds_bytes.
  destruct (X15_string_operations 0) as [Hconst [Hadd [_ [Hslice Hlookup]]]].
  split; [| split; [| split; [| split]]].
  - apply (Hconst 0%nat [Byte.x61; Byte.x62] 0 s). cbn. lia.
  - apply (Hadd x y [97; 98] [99] Hx Hy); [cbn; lia | discriminate | discriminate].
  - apply (proj1 (Hslice x [97; 98] (mkConstant 1 64) (mkConstant 2 64) Hx
                    ltac:(cbn; lia))); cbn; lia.
  - apply (proj2 (Hslice x [97; 98] (mkConstant 1 64) (mkConstant 3 64) Hx
                    ltac:(cbn; lia))). cbn. lia.
  - apply (Hlookup x [97; 98] (mkConstant 1 32) Hx); cbn; lia.
Defined.

(** ** Memory: a store and a load through the heap of the state *)

Lemma storeBytes_size (fuel : nat) (offset value : Expr) (isLittleEndian : bool)
    (n : Z) :
  forall (k : nat) (i : Z) (other a' : Array),
    storeBytes fuel offset value isLittleEndian n k i other = Ok a' ->
    ArraySize a' = ArraySize other.
Proof.
  induction k as [| k IH]; intros i other a' H; simpl in H.
  - injection H as <-. reflexivity.
  - destruct (NewBinaryExpr fuel ADD offset _) as [index | |];
      try discriminate H.
    cbn [bind] in H.
    destruct (NewExtractExpr fuel value _ _) as [byte | |]; try discriminate H.
    cbn [bind] in H.
    destruct (storeByte fuel index byte other) as [r other'] eqn:Hs.
    unfold returned in H. cbn [fst snd bind] in H.
    destruct r as [[] | |]; try discriminate H. cbn [bind] in H.
    rewrite (IH _ _ _ H). apply (storeByte_size _ _ _ _ _ Hs).
Qed.

Lemma Store_size (fuel : nat) (a a' : Array) (offset value : Expr)
    (isLittleEndian : bool) :
  Store fuel a offset value isLittleEndian = Ok a' -> ArraySize a' = ArraySize a.
Proof.
  unfold Store. rewrite Clone_same.
  destruct (newZExtExpr fuel offset Width64) as [offset' | |];
    try discriminate. cbn [bind].
  destruct (ExprWidth value >? 0); try discriminate. cbn [assert bind].
  destruct (ExprWidth value =? WidthBool).
  - destruct (storeByte fuel offset' value a) as [r other'] eqn:Hs.
    unfold returned. cbn [fst snd bind].
    destruct r as [[] | |]; try discriminate. cbn [bind].
    intros H. injection H as <-. apply (storeByte_size _ _ _ _ _ Hs).
  - apply storeBytes_size.
Qed.

(** Replacing an allocation by an array of the same size. *)
Lemma heapSet_replace (key : Z) (value old : Array) (h : Heap) :
  heapSorted h -> heapDisjoint h -> In (key, old) h ->
  ArraySize value = ArraySize old ->
  heapDisjoint (heapSet key value h) /\
  In (key, value) (heapSet key value h) /\
  (forall k v, In (k, v) (heapSet key value h) ->
               (k, v) = (key, value) \/ (In (k, v) h /\ k <> key)) /\
  (forall k v, In (k, v) h -> k <> key -> In (k, v) (heapSet key value h)).
Proof.
  intros Hsorted Hdisjoint Hin Hsize.
  induction h as [| [k0 v0] rest IH]; [destruct Hin |].
  destruct Hsorted as [Hhd Hsorted].
  destruct Hdisjoint as [Hk0 [Hv0 [Hend [Hnext Hdisjoint]]]].
  assert (Hrest : forall k v, In (k, v) rest -> k0 < k).
  { intros k v H. apply Hhd. apply (in_map fst) in H. exact H. }
  cbn [heapSet].
  destruct (Z.ltb_spec key k0) as [Hlt | Hge].
  - destruct Hin as [Heq | Hin]; [injection Heq as Heq _; lia |].
    specialize (Hrest _ _ Hin). lia.
  - destruct (Z.eqb_spec key k0) as [Heq | Hne].
    + subst k0.
      assert (old = v0) as ->.
      { destruct Hin as [Heq | Hin]; [injection Heq as <-; reflexivity |].
        specialize (Hrest _ _ Hin). lia. }
      split; [| split; [| split]].
      * cbn [heapDisjoint]. rewrite Hsize. repeat split; assumption.
      * left. reflexivity.
      * intros k v [H | H]; [left; symmetry; exact H |].
        right. split; [right; exact H |]. specialize (Hrest _ _ H). lia.
      * intros k v [H | H] Hk; [injection H as H _; lia | right; exact H].
    + assert (Hin' : In (key, old) rest)
        by (destruct Hin as [Heq | Hin]; [injection Heq as Heq _; lia | exact Hin]).
      destruct (IH Hsorted Hdisjoint Hin') as [IH1 [IH2 [IH3 IH4]]].
      split; [| split; [| split]].
      * cbn [heapDisjoint]. repeat split; try assumption.
        intros k' v' H. destruct (IH3 _ _ H) as [Heq | [H' _]].
        -- injection Heq as -> _. apply (Hnext _ _ Hin').
        -- apply (Hnext _ _ H').
      * right. exact IH2.
      * intros k v [H | H].
        -- right. injection H as <- <-. split; [left; reflexivity | lia].
        -- destruct (IH3 _ _ H) as [Heq | [H' Hk]]; [left; exact Heq |].
           right. split; [right; exact H' | exact Hk].
      * intros k v [H | H] Hk; [left; exact H | right; apply IH4; assumption].
Qed.

Section StoreLoad.

Variables (fuel : nat) (s : ExecutionState) (addr : ConstantExpr).
Variables (k : Z) (v : Array).

Let pw := PointerWidth (executor s).
Let isLittleEndian := IsLittleEndian (executor s).

Hypothesis sorted : heapSorted (heap s).
Hypothesis disjoint : heapDisjoint (heap s).
Hypothesis pointer : 0 < pw <= 64.
Hypothesis address : Width addr = pw /\ Value addr < 2 ^ pw.
Hypothesis allocated : contains (heap s) k v (Value addr).

Lemma offset_of_address (rec : BinaryOp -> Expr -> Expr -> result Expr) :
  newSubExpr rec (Constant addr) (Constant (NewConstantExpr k pw))
  = Ok (Const (Value addr - k) pw).
Proof.
  destruct allocated as [Hin Hrange].
  destruct (heapDisjoint_in _ _ _ disjoint Hin) as [Hk _].
  destruct address as [Hw Hv].
  rewrite NewConstantExpr_small by lia.
  rewrite newSubExpr_constants.
  destruct addr as [a w]. cbn [Width Value] in *. subst w.
  change (Constant (mkConstant a pw)) with (Const a pw).
  change (Constant (mkConstant k pw)) with (Const k pw).
  rewrite CompareExpr_constants.
  destruct (Z.eqb_spec a k) as [-> | Hne].
  - rewrite NewConstantExpr_small by lia. rewrite Z.sub_diag. reflexivity.
  - rewrite Sub_closed by lia. unfold constant. cbn [bind].
    rewrite Z.mod_small by lia. reflexivity.
Qed.

Lemma zext_of_offset :
  newZExtExpr (S fuel) (Const (Value addr - k) pw) Width64
  = Ok (Const (Value addr - k) 64).
Proof.
  destruct allocated as [Hin Hrange].
  destruct (heapDisjoint_in _ _ _ disjoint Hin) as [Hk [Hv Hend]].
  apply (newZExtExpr_constant_index (S fuel) (mkConstant (Value addr - k) pw));
    cbn [Value Width]; lia.
Qed.

Lemma store_then_load (value : Expr) (width : Z) (a' : Array) :
  Store (S fuel) v (Const (Value addr - k) 64) value isLittleEndian = Ok a' ->
  Select (S fuel) a' (Const (Value addr - k) 64) width isLittleEndian
  = Ok (Some value) ->
  let s' := mkState (executor s) (heapSet k a' (heap s)) (constraints s) in
  executeStoreInstr (S fuel) (Some (ExprBinding (Constant addr)))
    (Some (ExprBinding value)) s = Ok (Returns, s') /\
  heapSorted (heap s') /\ heapDisjoint (heap s') /\
  (forall k0 v0, k0 <> k -> In (k0, v0) (heap s') <-> In (k0, v0) (heap s)) /\
  executeUnOpMulInstr (S fuel) width true (Some (ExprBinding (Constant addr))) s'
  = Ok (Binds (Some (ExprBinding value)), s').
Proof.
  intros Hstore Hselect s'.
  pose proof (Store_size _ _ _ _ _ _ Hstore) as Hsize.
  destruct allocated as [Hin Hrange].
  destruct (heapSet_replace k a' v (heap s) sorted disjoint Hin Hsize)
    as [Hdisjoint' [Hin' [Hfrom Hto]]].
  assert (Hsorted' : heapSorted (heap s'))
    by (apply heapSet_sorted; exact sorted).
  assert (Hbase : NewConstantExpr k pw = mkConstant k pw).
  { destruct (heapDisjoint_in _ _ _ disjoint Hin) as [Hk _].
    apply NewConstantExpr_small; lia. }
  split; [| split; [exact Hsorted' | split; [exact Hdisjoint' | split]]].
  - unfold executeStoreInstr. cbn [EvalAsConstantExpr].
    unfold State.Store.
    rewrite (findAllocContainingAddr_finds addr s k v sorted disjoint allocated).
    fold pw. rewrite offset_of_address. cbn [bind].
    rewrite (Store_offset (S fuel) v _ _ value _ zext_of_offset eq_refl).
    fold isLittleEndian. rewrite Hstore.
    rewrite Hbase. reflexivity.
  - intros k0 v0 Hk0. split.
    + intros H. destruct (Hfrom _ _ H) as [Heq | [H' _]]; [| exact H'].
      injection Heq as Heq _. contradiction.
    + intros H. apply Hto; assumption.
  - unfold executeUnOpMulInstr.
    rewrite (findAllocContainingAddr_finds addr s' k a' Hsorted' Hdisjoint').
    + cbn [executor s']. fold pw. rewrite offset_of_address. cbn [bind].
      rewrite (Select_offset (S fuel) a' _ _ width _ zext_of_offset eq_refl).
      fold isLittleEndian. rewrite Hselect. reflexivity.
    + split; [exact Hin' | rewrite Hsize; exact Hrange].
Qed.

End StoreLoad.

(** X16: in a state whose allocations are disjoint, a store instruction of
    a constant of 1 to 8 bytes, or of a value of whole bytes that is
    neither a constant nor a concatenation, to a constant address inside
    an allocation in which the value fits replaces that allocation by an
    array of the same size and leaves the others, the executor and the
    constraints as they were; a load of the same width from the address
    then binds the value that was stored.  At an address that no
    allocation contains the store, of an expression or of an array, and
    the load panic. *)
Theorem X16_store_then_load (fuel : nat) (s : ExecutionState)
    (addr : ConstantExpr) :
  heapSorted (heap s) -> heapDisjoint (heap s) ->
  0 < PointerWidth (executor s) <= 64 ->
  Width addr = PointerWidth (executor s) ->
  Value addr < 2 ^ PointerWidth (executor s) ->
  let address := Some (ExprBinding (Constant addr)) in
  let roundTrip (k : Z) (v : Array) (value : Expr) (n : Z) :=
    exists s',
      executeStoreInstr (S fuel) address (Some (ExprBinding value)) s
      = Ok (Returns, s') /\
      executeUnOpMulInstr (S fuel) (8 * n) true address s'
      = Ok (Binds (Some (ExprBinding value)), s') /\
      executor s' = executor s /\ constraints s' = constraints s /\
      heapSorted (heap s') /\ heapDisjoint (heap s') /\
      (exists v', In (k, v') (heap s') /\ ArraySize v' = ArraySize v) /\
      (forall k0 v0, k0 <> k -> In (k0, v0) (heap s') <-> In (k0, v0) (heap s)) in
  (forall k v x n,
     contains (heap s) k v (Value addr) -> Value addr + n <= k + ArraySize v ->
     1 <= n <= 8 -> 0 <= x < 2 ^ (8 * n) ->
     roundTrip k v (Const x (8 * n)) n) /\
  (forall k v value n,
     contains (heap s) k v (Value addr) -> Value addr + n <= k + ArraySize v ->
     isAtom value = true -> 1 <= n -> ExprWidth value = 8 * n ->
     8 * n < 2 ^ 64 ->
     roundTrip k v value n) /\
  ((forall k v, ~ contains (heap s) k v (Value addr)) ->
   forall value array width exprType,
     executeStoreInstr (S fuel) address (Some (ExprBinding value)) s
     = Panic "assert: store: allocation not found" /\
     executeStoreInstr (S fuel) address (Some (ArrayBinding array)) s
     = Panic "assert: copy: allocation not found" /\
     executeUnOpMulInstr (S fuel) width exprType address s
     = Panic "assert: UnOp(MUL): allocation not found").
Proof.
  intros Hsorted Hdisjoint Hpw Hw Hv address roundTrip.
  assert (Hround : forall k v value n a',
             contains (heap s) k v (Value addr) ->
             Store (S fuel) v (Const (Value addr - k) 64) value
               (IsLittleEndian (executor s)) = Ok a' ->
             Select (S fuel) a' (Const (Value addr - k) 64) (8 * n)
               (IsLittleEndian (executor s)) = Ok (Some value) ->
             roundTrip k v value n).
  { intros k v value n a' Hc Hstore Hselect.
    destruct (store_then_load fuel s addr k v Hsorted Hdisjoint Hpw
                (conj Hw Hv) Hc value (8 * n) a' Hstore Hselect)
      as [H1 [H2 [H3 [H4 H5]]]].
    eexists. split; [exact H1 |]. split; [exact H5 |].
    split; [reflexivity |]. split; [reflexivity |].
    split; [exact H2 |]. split; [exact H3 |]. split; [| exact H4].
    exists a'. split; [| apply (Store_size _ _ _ _ _ _ Hstore)].
    destruct Hc as [Hin _].
    exact (proj1 (proj2 (heapSet_replace k a' v (heap s) Hsorted Hdisjoint
                           Hin (Store_size _ _ _ _ _ _ Hstore)))). }
  split; [| split].
  - intros k v x n Hc Hfit Hn Hx.
    destruct (heapDisjoint_in _ _ _ Hdisjoint (proj1 Hc)) as [Hk [Hsz Hend]].
    destruct (constant_round_trip fuel v (Value addr - k) x n
                (IsLittleEndian (executor s))) as [a' [H1 H2]];
      try (destruct Hc; lia).
    apply (Hround k v _ n a' Hc H1 H2).
  - intros k v value n Hc Hfit Hatom Hn Hwidth Hmax.
    destruct (heapDisjoint_in _ _ _ Hdisjoint (proj1 Hc)) as [Hk [Hsz Hend]].
    destruct (atom_round_trip fuel v (Value addr - k) n value
                (IsLittleEndian (executor s))) as [a' [H1 H2]];
      try assumption; try (destruct Hc; lia).
    apply (Hround k v _ n a' Hc H1 H2).
  - intros Hnone value array width exprType.
    assert (Hfind : State.findAllocContainingAddr addr s = None).
    { destruct (State.findAllocContainingAddr addr s) as [[base v] |] eqn:Hf;
        [| reflexivity].
      destruct (findAllocContainingAddr_found addr s base v Hdisjoint Hf)
        as [k [Hc _]].
      destruct (Hnone k v Hc). }
    subst address. unfold executeStoreInstr, executeUnOpMulInstr.
    cbn [EvalAsConstantExpr]. unfold State.Store, State.Copy.
    rewrite Hfind. repeat split.
Qed.

Lemma X16_store_then_load_witness :
  let v := mkArray 64 16 NoUpdate in
  let s := mkState (mkExecutor "amd64" 8) [(64, v)] [] in
  let x := SelectExpr (NewArray 0 2) (Const 0 64) in
  let value := CastExpr x 32 true in
  (exists s',
     executeStoreInstr 1 (Some (ExprBinding (Const 70 64)))
       (Some (ExprBinding (Const 258 16))) s = Ok (Returns, s') /\
     executeUnOpMulInstr 1 16 true (Some (ExprBinding (Const 70 64))) s'
     = Ok (Binds (Some (ExprBinding (Const 258 16))), s')) /\
  (exists s',
     executeStoreInstr 1 (Some (ExprBinding (Const 70 64)))
       (Some (ExprBinding value)) s = Ok (Returns, s') /\
     executeUnOpMulInstr 1 32 true (Some (ExprBinding (Const 70 64))) s'
     = Ok (Binds (Some (ExprBinding value)), s')) /\
  executeStoreInstr 1 (Some (ExprBinding (Const 80 64)))
    (Some (ExprBinding (Const 258 16))) s
  = Panic "assert: store: allocation not found".
Proof.
  intros v s x value.
  assert (Hsorted : heapSorted (heap s))
    by (cbn; split; [intros k' [] | exact I]).
  assert (Hdisjoint : heapDisjoint (heap s))
    by (cbn; repeat split; try lia; intros k' v' []).
  assert (Hpw : 0 < PointerWidth (executor s) <= 64) by (cbn; lia).
  assert (Hc : contains (heap s) 64 v 70)
    by (split; [left; reflexivity | cbn; lia]).
  destruct (X16_store_then_load 0 s (mkConstant 70 64) Hsorted Hdisjoint Hpw
              eq_refl ltac:(cbn; lia)) as [Hconst [Hatom _]].
  destruct (X16_store_then_load 0 s (mkConstant 80 64) Hsorted Hdisjoint Hpw
              eq_refl ltac:(cbn; lia)) as [_ [_ Hnone]].
  split; [| split].
  - destruct (Hconst 64 v 258 2 Hc ltac:(cbn; lia) ltac:(lia) ltac:(cbn; lia))
      as [s' [H1 [H2 _]]].
    exists s'. split; [exact H1 | exact H2].
  - destruct (Hatom 64 v value 4 Hc ltac:(cbn; lia) eq_refl ltac:(lia) eq_refl
                ltac:(cbn; lia)) as [s' [H1 [H2 _]]].
    exists s'. split; [exact H1 | exact H2].
  - apply (Hnone ltac:(intros k0 v0 [[H | []] Hr]; injection H as <- <-;
                       cbn in Hr; lia)
             (Const 258 16) v 16 true).
Defined.

(** ** The comparison of strings *)

(** A loop keeps an invariant that each iteration keeps. *)
Lemma loop_invariant {A : Type} (body : Z -> A -> result A)
    (P : nat -> A -> Prop) :
  forall (k i : nat) (a : A),
    P i a ->
    (forall j a, (i <= j < i + k)%nat -> P j a ->
                 exists a', body (Z.of_nat j) a = Ok a' /\ P (S j) a') ->
    exists a', loop k (Z.of_nat i) body a = Ok a' /\ P (i + k)%nat a'.
Proof.
  induction k as [| k IH]; intros i a Ha Hstep.
  - exists a. rewrite Nat.add_0_r. split; [reflexivity | exact Ha].
  - destruct (Hstep i a ltac:(lia) Ha) as [a1 [Hbody Ha1]].
    cbn [loop]. rewrite Hbody. cbn [bind].
    replace (Z.of_nat i + 1) with (Z.of_nat (S i)) by lia.
    destruct (IH (S i) a1 Ha1) as [a' [Hloop Ha']].
    + intros j a0 Hj. apply Hstep. lia.
    + exists a'. split; [exact Hloop |].
      replace (i + S k)%nat with (S i + k)%nat by lia. exact Ha'.
Qed.

Lemma firstn_snoc (l : list Z) :
  forall j : nat, (j < List.length l)%nat ->
    firstn (S j) l = firstn j l ++ [nth j l 0].
Proof.
  induction l as [| x l IH]; intros j Hj; [cbn in Hj; lia |].
  destruct j as [| j]; [reflexivity |].
  cbn [firstn nth app]. cbn [List.length] in Hj.
  change (firstn (S j) l) with (firstn (S j) l).
  rewrite <- IH by lia. reflexivity.
Qed.

Lemma nth_error_selected (l : list Z) (n j : nat) :
  (j < n)%nat -> (n <= List.length l)%nat ->
  at_ (map (fun b => Const b 8) (firstn n l)) (Z.of_nat j)
  = Ok (Const (nth j l 0) 8).
Proof.
  intros Hj Hn. unfold at_. rewrite Nat2Z.id.
  assert (Hlen : (j < List.length (firstn n l))%nat)
    by (rewrite length_firstn; lia).
  rewrite (map_nth_error _ _ _ (nth_error_nth' _ 0 Hlen)).
  f_equal. f_equal. revert j n Hj Hn Hlen.
  induction l as [| x l IH]; intros j n Hj Hn Hlen; [cbn in Hn; lia |].
  destruct n as [| n]; [lia |]. destruct j as [| j]; [reflexivity |].
  cbn [firstn nth]. cbn [List.length] in Hn.
  apply IH; try lia. rewrite length_firstn. lia.
Qed.

Lemma NewBoolConstantExpr_value (b : bool) :
  Constant (NewBoolConstantExpr b) = Const (boolValue b) 1.
Proof. destruct b; reflexivity. Qed.

Section ByteConstants.

Variable rec : BinaryOp -> Expr -> Expr -> result Expr.
Variables a b : Z.
Hypothesis Ha : 0 <= a < 256.
Hypothesis Hb : 0 <= b < 256.

Lemma newUltExpr_bytes :
  newUltExpr rec (Const a 8) (Const b 8) = Ok (Const (boolValue (a <? b)) 1).
Proof.
  unfold Const. rewrite newUltExpr_constants. unfold Ult. cbn [Width Value].
  unfold uint8. rewrite !uintN_small by lia. unfold constant. cbn [bind].
  apply f_equal. apply NewBoolConstantExpr_value.
Qed.

Lemma newUleExpr_bytes :
  newUleExpr rec (Const a 8) (Const b 8) = Ok (Const (boolValue (a <=? b)) 1).
Proof.
  unfold Const. rewrite newUleExpr_constants. unfold Ule. cbn [Width Value].
  unfold uint8. rewrite !uintN_small by lia. unfold constant. cbn [bind].
  apply f_equal. apply NewBoolConstantExpr_value.
Qed.

Lemma newEqExpr_of_bytes :
  newEqExpr rec (Const a 8) (Const b 8) = Ok (Const (boolValue (a =? b)) 1).
Proof.
  unfold Const. rewrite newEqExpr_constants. unfold Eq. cbn [Width Value].
  cbn [Z.eqb Pos.eqb assert bind]. unfold constant.
  destruct (a =? b); reflexivity.
Qed.

End ByteConstants.

Lemma newAndExpr_bools (p q : bool) :
  newAndExpr (Const (boolValue p) 1) (Const (boolValue q) 1)
  = Ok (Const (boolValue (p && q)) 1).
Proof. destruct p, q; reflexivity. Qed.

Lemma newOrExpr_bools (p q : bool) :
  newOrExpr (Const (boolValue p) 1) (Const (boolValue q) 1)
  = Ok (Const (boolValue (p || q)) 1).
Proof. destruct p, q; reflexivity. Qed.

Lemma existsb_same_in {A : Type} (f g : A -> bool) (l : list A) :
  (forall i, In i l -> f i = g i) -> existsb f l = existsb g l.
Proof.
  induction l as [| i l IH]; intros H; [reflexivity |].
  cbn [existsb]. rewrite (H i (or_introl eq_refl)).
  rewrite IH; [reflexivity |]. intros j Hj. apply H. right. exact Hj.
Qed.

Lemma existsb_shift (f : nat -> bool) (k : nat) :
  existsb f (seq 1 k) = existsb (fun i => f (S i)) (seq 0 k).
Proof.
  rewrite <- seq_shift. induction (seq 0 k) as [| i l IH]; [reflexivity |].
  cbn [map existsb]. rewrite IH. reflexivity.
Qed.

Lemma forallb_shift (f : nat -> bool) (k : nat) :
  forallb f (seq 1 k) = forallb (fun i => f (S i)) (seq 0 k).
Proof.
  rewrite <- seq_shift. induction (seq 0 k) as [| i l IH]; [reflexivity |].
  cbn [map forallb]. rewrite IH. reflexivity.
Qed.

Lemma existsb_and (c : bool) (f : nat -> bool) (l : list nat) :
  existsb (fun i => c && f i) l = c && existsb f l.
Proof.
  induction l as [| i l IH]; [destruct c; reflexivity |].
  cbn [existsb]. rewrite IH. destruct c; reflexivity.
Qed.

Section StringComparison.

(** The bytes before [i] of the two strings are the same. *)
Let prefixEqual (xs ys : list Z) (i : nat) : bool :=
  forallb (fun j => nth j xs 0 =? nth j ys 0) (seq 0 i).

(** The disjunct of the condition for the byte [i]: it is below the byte
    of the other string, or at the last byte of the shorter string not
    above it, and the bytes before it are the same. *)
Let disjunct (orEqual : bool) (xs ys : list Z) (i : nat) : bool :=
  (if (i =? Nat.min (List.length xs) (List.length ys) - 1)%nat
      && ((List.length xs <? List.length ys)%nat
          || ((List.length xs =? List.length ys)%nat && orEqual))
   then nth i xs 0 <=? nth i ys 0
   else nth i xs 0 <? nth i ys 0)
  && prefixEqual xs ys i.

Lemma prefixEqual_cons (x y : Z) (xs ys : list Z) (i : nat) :
  prefixEqual (x :: xs) (y :: ys) (S i) = (x =? y) && prefixEqual xs ys i.
Proof.
  unfold prefixEqual. cbn [seq forallb nth]. rewrite forallb_shift.
  reflexivity.
Qed.

Lemma prefixEqual_symmetric (xs ys : list Z) (i : nat) :
  prefixEqual xs ys i = prefixEqual ys xs i.
Proof.
  unfold prefixEqual. induction (seq 0 i) as [| j l IH]; [reflexivity |].
  cbn [forallb]. rewrite IH, Z.eqb_sym. reflexivity.
Qed.

Lemma prefixEqual_next (xs ys : list Z) (i : nat) :
  prefixEqual xs ys (S i)
  = prefixEqual xs ys i && (nth i xs 0 =? nth i ys 0).
Proof.
  unfold prefixEqual. rewrite seq_S, forallb_app. cbn [forallb Nat.add].
  rewrite andb_true_r. reflexivity.
Qed.

Lemma leb_ltb_eqb (x y : Z) (c : bool) :
  (if c then x <=? y else x <? y) = (x <? y) || ((x =? y) && c).
Proof.
  destruct c; destruct (Z.leb_spec x y); destruct (Z.ltb_spec x y);
    destruct (Z.eqb_spec x y); try reflexivity; lia.
Qed.

Lemma disjuncts_lessBytes (orEqual : bool) :
  forall xs ys,
    xs <> [] -> ys <> [] ->
    existsb (disjunct orEqual xs ys)
      (seq 0 (Nat.min (List.length xs) (List.length ys)))
    = lessBytes orEqual xs ys.
Proof.
  induction xs as [| x xs IH]; intros ys Hxs Hys; [contradiction |].
  destruct ys as [| y ys]; [contradiction |].
  cbn [List.length Nat.min seq existsb lessBytes].
  rewrite existsb_shift.
  set (n' := Nat.min (List.length xs) (List.length ys)).
  assert (Hhead : disjunct orEqual (x :: xs) (y :: ys) 0
                  = (x <? y)
                    || ((x =? y)
                        && ((n' =? 0)%nat
                            && ((List.length xs <? List.length ys)%nat
                                || ((List.length xs =? List.length ys)%nat
                                    && orEqual))))).
  { unfold disjunct, prefixEqual. cbn [List.length Nat.min seq forallb nth].
    fold n'. rewrite andb_true_r.
    replace (S n' - 1)%nat with n' by lia.
    change (S (List.length xs) <? S (List.length ys))%nat
      with (List.length xs <? List.length ys)%nat.
    change (S (List.length xs) =? S (List.length ys))%nat
      with (List.length xs =? List.length ys)%nat.
    rewrite leb_ltb_eqb. rewrite (Nat.eqb_sym 0 n'). reflexivity. }
  rewrite Hhead.
  rewrite (existsb_same_in _ (fun i => (x =? y) && disjunct orEqual xs ys i)).
  - rewrite existsb_and.
    destruct xs as [| x' xs]; [| destruct ys as [| y' ys]].
    + subst n'. cbn [List.length Nat.min seq existsb].
      destruct ys; cbn; destruct (x <? y), (x =? y), orEqual; reflexivity.
    + subst n'. cbn [List.length Nat.min seq existsb].
      cbn. destruct (x <? y), (x =? y); reflexivity.
    + replace (n' =? 0)%nat with false by (subst n'; reflexivity).
      subst n'. rewrite (IH (y' :: ys)) by discriminate.
      cbn [andb]. rewrite andb_false_r, orb_false_r.
      destruct (x <? y), (x =? y); reflexivity.
  - intros i Hi. apply in_seq in Hi.
    unfold disjunct. rewrite prefixEqual_cons.
    cbn [List.length Nat.min nth]. fold n'.
    change (S (List.length xs) <? S (List.length ys))%nat
      with (List.length xs <? List.length ys)%nat.
    change (S (List.length xs) =? S (List.length ys))%nat
      with (List.length xs =? List.length ys)%nat.
    replace (S i =? S n' - 1)%nat with (i =? n' - 1)%nat.
    + rewrite andb_assoc, (andb_comm _ (x =? y)), <- andb_assoc. reflexivity.
    + destruct (Nat.eqb_spec i (n' - 1)); destruct (Nat.eqb_spec (S i) (S n' - 1));
        try reflexivity; lia.
Qed.

Section ConcreteStrings.

Variables (fuel : nat) (x y : Array) (xs ys : list Z).

Hypothesis holdsX : holdsBytes fuel x xs.
Hypothesis holdsY : holdsBytes fuel y ys.
Hypothesis lengthX : Z.of_nat (List.length xs) < 2 ^ 64.
Hypothesis lengthY : Z.of_nat (List.length ys) < 2 ^ 64.

Let n := Nat.min (List.length xs) (List.length ys).
Let xSelectExprs := map (fun b => Const b 8) (firstn n xs).
Let ySelectExprs := map (fun b => Const b 8) (firstn n ys).

Lemma lower_size :
  (if ArraySize x >? ArraySize y then ArraySize y else ArraySize x)
  = Z.of_nat n.
Proof.
  destruct holdsX as [-> _], holdsY as [-> _]. subst n.
  destruct (Z.gtb_spec (Z.of_nat (List.length xs)) (Z.of_nat (List.length ys)));
    lia.
Qed.

Lemma selectAll_selected :
  selectAll fuel x y (Z.of_nat n) = Ok (xSelectExprs, ySelectExprs).
Proof.
  unfold selectAll. rewrite Nat2Z.id.
  match goal with
  | |- loop ?k _ ?body ?a = _ =>
      destruct (loop_invariant body
                  (fun j selected =>
                     selected = (map (fun b => Const b 8) (firstn j xs),
                                 map (fun b => Const b 8) (firstn j ys)))
                  k 0%nat a eq_refl) as [a' [Hloop Ha']]
  end.
  - intros j selected Hj ->. cbv beta.
    assert (Hjx : (j < List.length xs)%nat) by (subst n; lia).
    assert (Hjy : (j < List.length ys)%nat) by (subst n; lia).
    unfold NewConstantExpr64. rewrite NewConstantExpr_small by lia.
    change (Constant (mkConstant (Z.of_nat j) 64)) with (Const (Z.of_nat j) 64).
    rewrite (proj2 (proj2 holdsX j Hjx)), (proj2 (proj2 holdsY j Hjy)).
    cbn [bind fst snd]. eexists. split; [reflexivity |].
    rewrite (firstn_snoc xs j Hjx), (firstn_snoc ys j Hjy), !map_app.
    reflexivity.
  - change (Z.of_nat 0) with 0 in Hloop. rewrite Hloop, Ha'. reflexivity.
Qed.

(** The conjunction with the equalities of the bytes before [i]. *)
Lemma previous_bytes_equal (c : bool) (i : nat) :
  (i <= n)%nat ->
  loop (Z.to_nat (Z.of_nat i)) 0
    (fun j base =>
       xj <- at_ xSelectExprs j ;;
       yj <- at_ ySelectExprs j ;;
       eq <- newEqExpr (NewBinaryExpr fuel) xj yj ;;
       newAndExpr base eq)
    (Const (boolValue c) 1)
  = Ok (Const (boolValue (c && prefixEqual xs ys i)) 1).
Proof.
  intros Hi. rewrite Nat2Z.id.
  match goal with
  | |- loop ?k _ ?body ?a = _ =>
      destruct (loop_invariant body
                  (fun j base =>
                     base = Const (boolValue (c && prefixEqual xs ys j)) 1)
                  k 0%nat a) as [a' [Hloop Ha']]
  end.
  - cbn. rewrite andb_true_r. reflexivity.
  - intros j base Hj ->. cbv beta.
    assert (Hjx : (j < List.length xs)%nat) by (subst n; lia).
    assert (Hjy : (j < List.length ys)%nat) by (subst n; lia).
    subst xSelectExprs ySelectExprs.
    rewrite !nth_error_selected by (subst n; lia). cbn [bind].
    rewrite newEqExpr_of_bytes
      by (apply (proj2 holdsX j Hjx) || apply (proj2 holdsY j Hjy)).
    cbn [bind]. rewrite newAndExpr_bools. eexists. split; [reflexivity |].
    rewrite prefixEqual_next, andb_assoc. reflexivity.
  - change (Z.of_nat 0) with 0 in Hloop. rewrite Hloop, Ha'. reflexivity.
Qed.

(** The disjunct that the code builds for the byte [i]. *)
Let built (op : Comparison) (i : nat) : bool :=
  match op with
  | LSS => disjunct false xs ys i
  | LEQ => disjunct true xs ys i
  | GTR => disjunct false ys xs i
  | GEQ => disjunct true ys xs i
  end.

Lemma condition_built (op : Comparison) :
  (0 < n)%nat ->
  executeBinOpInstrStringCompare fuel op (Some (ArrayBinding x))
    (Some (ArrayBinding y))
  = Ok (Binds (Some (ExprBinding
                       (Const (boolValue (existsb (built op) (seq 0 n))) 1)))).
Proof.
  intros Hn. unfold executeBinOpInstrStringCompare. cbn [asArray bind].
  assert (Hsx : ArraySize x = Z.of_nat (List.length xs)) by apply holdsX.
  assert (Hsy : ArraySize y = Z.of_nat (List.length ys)) by apply holdsY.
  replace (ArraySize x =? 0) with false
    by (rewrite Hsx; symmetry; apply Z.eqb_neq; subst n; lia).
  rewrite andb_false_r. cbn [andb].
  rewrite lower_size, selectAll_selected. cbn [bind]. rewrite Nat2Z.id.
  match goal with
  | |- context [loop ?k _ ?body ?a] =>
      destruct (loop_invariant body
                  (fun i cond =>
                     cond = if (i =? 0)%nat then None
                            else Some (Const (boolValue
                                                (existsb (built op) (seq 0 i)))
                                         1))
                  k 0%nat a eq_refl) as [a' [Hloop Ha']]
  end.
  - intros i cond Hi ->. cbv beta.
    assert (Hix : (i < List.length xs)%nat) by (subst n; lia).
    assert (Hiy : (i < List.length ys)%nat) by (subst n; lia).
    pose proof (proj1 (proj2 holdsX i Hix)) as Hbx.
    pose proof (proj1 (proj2 holdsY i Hiy)) as Hby.
    assert (Hxi : at_ xSelectExprs (Z.of_nat i) = Ok (Const (nth i xs 0) 8))
      by (apply nth_error_selected; subst n; lia).
    assert (Hyi : at_ ySelectExprs (Z.of_nat i) = Ok (Const (nth i ys 0) 8))
      by (apply nth_error_selected; subst n; lia).
    rewrite Hxi, Hyi. cbn [bind].
    unfold uint64. rewrite (uintN_small 64 (Z.of_nat n - 1)) by (subst n; lia).
    assert (Hbase : forall base : bool,
               (base' <- loop (Z.to_nat (Z.of_nat i)) 0
                           (fun j base =>
                              xj <- at_ xSelectExprs j ;;
                              yj <- at_ ySelectExprs j ;;
                              eq <- newEqExpr (NewBinaryExpr fuel) xj yj ;;
                              newAndExpr base eq)
                           (Const (boolValue base) 1) ;;
                if Z.of_nat i =? 0 then Ok (Some base')
                else match (if (i =? 0)%nat then None
                            else Some (Const (boolValue
                                                (existsb (built op) (seq 0 i)))
                                         1)) with
                     | Some cond => c <- newOrExpr cond base' ;; Ok (Some c)
                     | None => Ok (Some base')
                     end)
               = Ok (Some (Const (boolValue
                                    (existsb (built op) (seq 0 i)
                                     || (base && prefixEqual xs ys i))) 1))).
    { intros base. rewrite previous_bytes_equal by lia. cbn [bind].
      destruct i as [| i]; [reflexivity |].
      replace (Z.of_nat (S i) =? 0) with false by (symmetry; apply Z.eqb_neq; lia).
      cbn [Nat.eqb]. rewrite newOrExpr_bools. reflexivity. }
    assert (Hlast : (Z.of_nat i =? Z.of_nat n - 1) = (i =? n - 1)%nat).
    { destruct (Z.eqb_spec (Z.of_nat i) (Z.of_nat n - 1));
        destruct (Nat.eqb_spec i (n - 1)); try reflexivity; lia. }
    assert (Hlt : (ArraySize x <? ArraySize y)
                  = (List.length xs <? List.length ys)%nat).
    { rewrite Hsx, Hsy.
      destruct (Z.ltb_spec (Z.of_nat (List.length xs)) (Z.of_nat (List.length ys)));
        destruct (Nat.ltb_spec (List.length xs) (List.length ys));
        try reflexivity; lia. }
    assert (Hgt : (ArraySize x >? ArraySize y)
                  = (List.length ys <? List.length xs)%nat).
    { rewrite Hsx, Hsy.
      destruct (Z.gtb_spec (Z.of_nat (List.length xs)) (Z.of_nat (List.length ys)));
        destruct (Nat.ltb_spec (List.length ys) (List.length xs));
        try reflexivity; lia. }
    assert (Heq : (ArraySize x =? ArraySize y)
                  = (List.length xs =? List.length ys)%nat).
    { rewrite Hsx, Hsy.
      destruct (Z.eqb_spec (Z.of_nat (List.length xs)) (Z.of_nat (List.length ys)));
        destruct (Nat.eqb_spec (List.length xs) (List.length ys));
        try reflexivity; lia. }
    rewrite Hlast, Hlt, Hgt, Heq.
    destruct op;
      match goal with
      | |- context [if ?c then newUleExpr _ _ _ else newUltExpr _ _ _] =>
          destruct c eqn:Hc
      end;
      rewrite ?newUleExpr_bytes, ?newUltExpr_bytes by assumption;
      cbn [bind]; rewrite Hbase;
      (eexists; split; [reflexivity |]);
      replace (S i =? 0)%nat with false by reflexivity;
      rewrite seq_S, existsb_app; cbn [existsb Nat.add]; rewrite orb_false_r;
      do 4 f_equal;
      unfold built, disjunct;
      rewrite ?(Nat.min_comm (List.length ys) (List.length xs));
      fold n;
      rewrite ?(Nat.eqb_sym (List.length ys) (List.length xs));
      rewrite ?(prefixEqual_symmetric ys xs);
      rewrite Hc; reflexivity.
  - change (Z.of_nat 0) with 0 in Hloop. rewrite Hloop, Ha'.
    cbn [bind Nat.add].
    replace (n =? 0)%nat with false by (symmetry; apply Nat.eqb_neq; lia).
    reflexivity.
Qed.

Lemma compare_concrete (op : Comparison) :
  xs <> [] -> ys <> [] ->
  executeBinOpInstrStringCompare fuel op (Some (ArrayBinding x))
    (Some (ArrayBinding y))
  = Ok (Binds (Some (ExprBinding
                       (Constant (NewBoolConstantExpr (ordered op xs ys)))))).
Proof.
  intros Hxs Hys. rewrite condition_built.
  - rewrite NewBoolConstantExpr_value. do 6 f_equal.
    destruct op; unfold built, ordered, n;
      rewrite ?(Nat.min_comm (List.length xs) (List.length ys));
      try (apply disjuncts_lessBytes; assumption);
      rewrite (Nat.min_comm (List.length ys) (List.length xs));
      apply disjuncts_lessBytes; assumption.
  - subst n. destruct xs; [contradiction |]. destruct ys; [contradiction |].
    cbn. lia.
Qed.

End ConcreteStrings.

End StringComparison.

Lemma compare_empty (fuel : nat) (op : Comparison) (x y : Array) :
  0 <= ArraySize x -> 0 <= ArraySize y ->
  ArraySize x = 0 \/ ArraySize y = 0 ->
  executeBinOpInstrStringCompare fuel op (Some (ArrayBinding x))
    (Some (ArrayBinding y))
  = Ok (Binds
          (if (match op with LSS | GTR => true | _ => false end)
              && (ArraySize x =? 0) && (ArraySize y =? 0)
           then Some (ExprBinding (Constant (NewBoolConstantExpr false)))
           else None)).
Proof.
  intros Hx Hy Hzero. unfold executeBinOpInstrStringCompare.
  cbn [asArray bind].
  destruct (_ && (ArraySize x =? 0) && (ArraySize y =? 0)); [reflexivity |].
  replace (if ArraySize x >? ArraySize y then ArraySize y else ArraySize x)
    with 0 by (destruct (Z.gtb_spec (ArraySize x) (ArraySize y)); lia).
  reflexivity.
Qed.

(** X17: the comparison of two strings that hold bytes, neither of them
    empty, binds the constant boolean of the lexicographic comparison of
    their bytes that the operator stands for.  With two empty strings [<]
    and [>] bind the constant false and [<=] and [>=] bind nil; with one
    empty string each of the four operators binds nil. *)
Theorem X17_string_comparison (fuel : nat) (op : Comparison) (x y : Array)
    (xs ys : list Z) :
  holdsBytes fuel x xs -> holdsBytes fuel y ys ->
  Z.of_nat (List.length xs) < 2 ^ 64 -> Z.of_nat (List.length ys) < 2 ^ 64 ->
  let compared :=
    executeBinOpInstrStringCompare fuel op (Some (ArrayBinding x))
      (Some (ArrayBinding y)) in
  (xs <> [] -> ys <> [] ->
   compared
   = Ok (Binds (Some (ExprBinding
                        (Constant (NewBoolConstantExpr (ordered op xs ys))))))) /\
  (xs = [] -> ys = [] ->
   compared
   = Ok (Binds match op with
               | LSS | GTR =>
                   Some (ExprBinding (Constant (NewBoolConstantExpr false)))
               | LEQ | GEQ => None
               end)) /\
  ((xs = [] /\ ys <> []) \/ (xs <> [] /\ ys = []) ->
   compared = Ok (Binds None)).
Proof.
  intros Hx Hy Hlx Hly compared.
  assert (Hsx : ArraySize x = Z.of_nat (List.length xs)) by apply Hx.
  assert (Hsy : ArraySize y = Z.of_nat (List.length ys)) by apply Hy.
  split; [| split].
  - intros Hxs Hys. apply (compare_concrete fuel x y xs ys); assumption.
  - intros -> ->. subst compared.
    rewrite compare_empty by (rewrite ?Hsx, ?Hsy; cbn; lia).
    rewrite Hsx, Hsy. destruct op; reflexivity.
  - intros Hempty. subst compared.
    rewrite compare_empty
      by (rewrite ?Hsx, ?Hsy; try lia;
          destruct Hempty as [[-> _] | [_ ->]]; cbn; lia).
    rewrite Hsx, Hsy.
    destruct Hempty as [[-> Hne] | [Hne ->]].
    + destruct ys; [contradiction |]. destruct op; reflexivity.
    + destruct xs; [contradiction |]. destruct op; reflexivity.
Qed.

Lemma X17_string_comparison_witness :
  let x := mkArray 0 2
             (Update (Const 1 64) (Const 98 8)
                (Update (Const 0 64) (Const 97 8) NoUpdate)) in
  let y := mkArray 0 1 (Update (Const 0 64) (Const 98 8) NoUpdate) in
  let e := mkArray 0 0 NoUpdate in
  executeBinOpInstrStringCompare 1 LSS (Some (ArrayBinding x))
    (Some (ArrayBinding y))
  = Ok (Binds (Some (ExprBinding (Const 1 1)))) /\
  executeBinOpInstrStringCompare 1 GEQ (Some (ArrayBinding x))
    (Some (ArrayBinding y))
  = Ok (Binds (Some (ExprBinding (Const 0 1)))) /\
  executeBinOpInstrStringCompare 1 LSS (Some (ArrayBinding e))
    (Some (ArrayBinding e))
  = Ok (Binds (Some (ExprBinding (Const 0 1)))) /\
  executeBinOpInstrStringCompare 1 LSS (Some (ArrayBinding e))
    (Some (ArrayBinding y))
  = Ok (Binds None).
Proof.
  intros x y e.
  assert (Hx : holdsBytes 1 x [97; 98]) by holds_bytes.
  assert (Hy : holdsBytes 1 y [98]) by holds_bytes.
  assert (He : holdsBytes 1 e []) by holds_bytes.
  split; [| split; [| split]].
  - apply (proj1 (X17_string_comparison 1 LSS x y [97; 98] [98] Hx Hy
                    ltac:(cbn; lia) ltac:(cbn; lia)));
      discriminate.
  - apply (proj1 (X17_string_comparison 1 GEQ x y [97; 98] [98] Hx Hy
                    ltac:(cbn; lia) ltac:(cbn; lia)));
      discriminate.
  - apply (proj1 (proj2 (X17_string_comparison 1 LSS e e [] [] He He
                           ltac:(cbn; lia) ltac:(cbn; lia))));
      reflexivity.
  - apply (proj2 (proj2 (X17_string_comparison 1 LSS e y [] [98] He Hy
                           ltac:(cbn; lia) ltac:(cbn; lia)))).
    left. split; [reflexivity | discriminate].
Defined.

(** ** Pointer-width elements of an array *)

Section IntAt.

Variables (fuel : nat) (s : ExecutionState) (array : Array) (n : Z).

Hypothesis pointer : PointerWidth (executor s) = 8 * n /\ 1 <= n <= 8.
Hypothesis size : ArraySize array < 2 ^ 64.

Lemma selectIntAt_offset (a : Array) (i : Z) :
  0 <= i -> i * n < 2 ^ 64 ->
  State.selectIntAt (S fuel) a i s
  = Select (S fuel) a (Const ((i * n) mod 2 ^ 32) 64) (8 * n)
      (IsLittleEndian (executor s)).
Proof.
  intros Hi Hin. destruct pointer as [Hpw Hn].
  unfold State.selectIntAt. rewrite Hpw.
  replace (8 * n / 8) with n by (rewrite Z.mul_comm, Z.div_mul; lia).
  unfold uint64. rewrite (uintN_small 64 i) by nia.
  rewrite (uintN_small 64 n) by lia. rewrite (uintN_small 64 (i * n)) by nia.
  unfold NewConstantExpr32. rewrite NewConstantExpr_mod by lia.
  apply Select_offset; [| reflexivity].
  pose proof (Z.mod_pos_bound (i * n) (2 ^ 32) ltac:(lia)) as Hmod.
  apply (newZExtExpr_constant_index (S fuel) (mkConstant ((i * n) mod 2 ^ 32) 32));
    cbn [Value Width]; lia.
Qed.

Lemma storeIntAt_offset (i : Z) (value : Expr) :
  0 <= i -> i * n < 2 ^ 64 ->
  State.storeIntAt (S fuel) array i value s
  = Store (S fuel) array (Const (i * n) 64) value
      (IsLittleEndian (executor s)).
Proof.
  intros Hi Hin. destruct pointer as [Hpw Hn].
  unfold State.storeIntAt. rewrite Hpw. cbv zeta.
  unfold uint64. rewrite (uintN_small 64 (8 * n)) by lia.
  replace (8 * n / 8) with n by (rewrite Z.mul_comm, Z.div_mul; lia).
  rewrite (uintN_small 64 i) by nia. rewrite (uintN_small 64 (i * n)) by nia.
  unfold NewConstantExpr64. rewrite NewConstantExpr_small by lia.
  reflexivity.
Qed.

End IntAt.

(** X18: with pointers of 1 to 8 bytes, [storeIntAt] of a constant of the
    width of a pointer, or of a value of that width that is neither a
    constant nor a concatenation, at an element that lies in the array
    and begins below 2^32 returns an array of the same size from which
    [selectIntAt] reads the value at that element.  [selectIntAt] keeps
    32 bits of the offset: two elements whose offsets agree in them read
    the same bytes. *)
Theorem X18_storeIntAt_selectIntAt (fuel : nat) (s : ExecutionState)
    (array : Array) (n : Z) :
  PointerWidth (executor s) = 8 * n -> 1 <= n <= 8 ->
  ArraySize array < 2 ^ 64 ->
  (forall i value,
     0 <= i -> i * n < 2 ^ 32 -> i * n + n <= ArraySize array ->
     (exists x, 0 <= x < 2 ^ (8 * n) /\ value = Const x (8 * n)) \/
     (isAtom value = true /\ ExprWidth value = 8 * n) ->
     exists array',
       State.storeIntAt (S fuel) array i value s = Ok array' /\
       ArraySize array' = ArraySize array /\
       State.selectIntAt (S fuel) array' i s = Ok (Some value)) /\
  (forall i j,
     0 <= i -> i * n < 2 ^ 64 -> 0 <= j -> j * n < 2 ^ 64 ->
     (i * n) mod 2 ^ 32 = (j * n) mod 2 ^ 32 ->
     State.selectIntAt (S fuel) array i s
     = State.selectIntAt (S fuel) array j s).
Proof.
  intros Hpw Hn Hsize. split.
  - intros i value Hi Hlow Hfit Hvalue.
    assert (Hround : exists array',
               Store (S fuel) array (Const (i * n) 64) value
                 (IsLittleEndian (executor s)) = Ok array' /\
               Select (S fuel) array' (Const (i * n) 64) (8 * n)
                 (IsLittleEndian (executor s)) = Ok (Some value)).
    { destruct Hvalue as [[x [Hx ->]] | [Hatom Hw]].
      - apply constant_round_trip; try lia; nia.
      - apply atom_round_trip; try assumption; try lia; nia. }
    destruct Hround as [array' [Hstore Hselect]].
    exists array'.
    rewrite (storeIntAt_offset fuel s array n (conj Hpw Hn)) by lia.
    rewrite (selectIntAt_offset fuel s n (conj Hpw Hn)) by lia.
    rewrite Z.mod_small by nia.
    split; [exact Hstore |]. split; [| exact Hselect].
    apply (Store_size _ _ _ _ _ _ Hstore).
  - intros i j Hi Hin Hj Hjn Hmod.
    rewrite !(selectIntAt_offset fuel s n (conj Hpw Hn)) by assumption.
    rewrite Hmod. reflexivity.
Qed.

Lemma X18_storeIntAt_selectIntAt_witness :
  let s := mkState (mkExecutor "amd64" 8) [] [] in
  let array := NewArray 64 24 in
  (exists array',
     State.storeIntAt 1 array 2 (Const 258 64) s = Ok array' /\
     ArraySize array' = 24 /\
     State.selectIntAt 1 array' 2 s = Ok (Some (Const 258 64))) /\
  State.selectIntAt 1 array (2 ^ 29 + 2) s = State.selectIntAt 1 array 2 s.
Proof.
  intros s array.
  destruct (X18_storeIntAt_selectIntAt 0 s array 8 eq_refl ltac:(lia)
              ltac:(cbn; lia)) as [Hround Hsame].
  split.
  - apply (Hround 2 (Const 258 64)); try (cbn; lia).
    left. exists 258. split; [cbn; lia | reflexivity].
  - apply Hsame; cbn; lia.
Defined.

(** ** The allocation instruction *)

Lemma zero_NewArray (fuel : nat) (id size : Z) :
  0 <= size < 2 ^ 64 ->
  zero fuel (NewArray id size)
  = (Ok tt, mkArray id size (zeroed (Z.to_nat size))).
Proof.
  intros Hsize. unfold zero, NewArray. cbn [ArrayUpdates ArraySize].
  change 0 with (Z.of_nat 0). change NoUpdate with (zeroed 0).
  rewrite zeroBytes_zeroed by lia. reflexivity.
Qed.

Lemma heapSet_heapSet (key : Z) (value old : Array) (h : Heap) :
  heapSet key value (heapSet key old h) = heapSet key value h.
Proof.
  induction h as [| [k v] rest IH]; cbn [heapSet].
  - rewrite Z.ltb_irrefl, Z.eqb_refl. reflexivity.
  - destruct (Z.ltb_spec key k) as [Hlt | Hge]; cbn [heapSet].
    + rewrite Z.ltb_irrefl, Z.eqb_refl. reflexivity.
    + destruct (Z.eqb_spec key k) as [Heq | Hne]; cbn [heapSet].
      * rewrite Z.ltb_irrefl, Z.eqb_refl. reflexivity.
      * destruct (Z.ltb_spec key k); [lia |].
        destruct (Z.eqb_spec key k); [contradiction |].
        rewrite IH. reflexivity.
Qed.

(** The next address lies at or after the end of every allocation. *)
Lemma nextAddr_after (s : ExecutionState) :
  heapSorted (heap s) -> heapDisjoint (heap s) ->
  0 <= PointerSize (executor s) < 2 ^ 61 ->
  0 <= nextAddr s /\
  forall k v, In (k, v) (heap s) -> k + ArraySize v <= nextAddr s.
Proof.
  intros Hsorted Hdisjoint Hpointer. unfold nextAddr.
  destruct (heapLast (heap s)) as [[kl vl] |] eqn:Hlast.
  - destruct (heapLast_ends _ Hsorted Hdisjoint kl vl Hlast) as [Hinl Hends].
    destruct (heapDisjoint_in _ _ _ Hdisjoint Hinl) as [H0 [H1 H2]].
    unfold uint64. rewrite uintN_small by lia.
    split; [lia | exact Hends].
  - rewrite PointerWidth_bits by exact Hpointer. split; [lia |].
    apply heapLast_nil in Hlast. rewrite Hlast. intros k v [].
Qed.

(** A read of 8 bits is the read of the byte at the offset. *)
Lemma Select_byte (fuel : nat) (a : Array) (j : Z) (byte : Expr)
    (isLittleEndian : bool) :
  0 <= j < 2 ^ 64 ->
  selectByte (S fuel) a (Const j 64) = Ok byte ->
  Select (S fuel) a (Const j 64) 8 isLittleEndian = Ok (Some byte).
Proof.
  intros Hj Hbyte. unfold Select. cbn [assert bind Z.gtb Z.compare].
  rewrite newZExtExpr_same by reflexivity. cbn [bind].
  change (8 =? WidthBool) with false. cbv iota.
  change (8 / 8) with 1. change (Z.to_nat 1) with 1%nat.
  cbn [selectBytes].
  replace (if isLittleEndian then 0 else uint64 (1 - 0 - 1)) with 0
    by (destruct isLittleEndian; reflexivity).
  rewrite index_of_byte by lia. cbn [bind]. rewrite Z.add_0_r, Hbyte.
  reflexivity.
Qed.

(** X19: an allocation instruction that is not on the heap returns and
    leaves the state as it was.  One on the heap, in a state whose
    allocations are disjoint and with room for the type below the end of
    the address space of the pointers, binds the next address and places
    there an array of the bytes of the type that is not symbolic, keeping
    the heap sorted and its allocations disjoint; a load of a byte from
    any address of the new array binds the 8-bit constant 0. *)
Theorem X19_alloc_instruction (fuel fuel' : nat) (sizeofType : Z)
    (s : ExecutionState) :
  heapSorted (heap s) -> heapDisjoint (heap s) ->
  1 <= PointerSize (executor s) <= 8 ->
  0 <= sizeofType ->
  nextAddr s + sizeofType / 8 < 2 ^ PointerWidth (executor s) ->
  executeAllocInstr fuel false sizeofType s = Ok (Returns, s) /\
  exists array s',
    executeAllocInstr fuel true sizeofType s
    = Ok (Binds (Some (ExprBinding
                         (Const (nextAddr s) (PointerWidth (executor s))))),
          s') /\
    executor s' = executor s /\ constraints s' = constraints s /\
    heap s' = heapSet (nextAddr s) array (heap s) /\
    ArrayID array = nextAddr s /\ ArraySize array = sizeofType / 8 /\
    IsSymbolic array = Ok false /\
    heapSorted (heap s') /\ heapDisjoint (heap s') /\
    forall j,
      0 <= j < sizeofType / 8 ->
      executeUnOpMulInstr (S fuel') 8 true
        (Some (ExprBinding
                 (Const (nextAddr s + j) (PointerWidth (executor s))))) s'
      = Ok (Binds (Some (ExprBinding (Const 0 8))), s').
Proof.
  intros Hsorted Hdisjoint Hpointer Hsizeof Hfit.
  split; [reflexivity |].
  pose proof (PointerWidth_bits (executor s) ltac:(lia)) as Hpw.
  assert (Hpw64 : 2 ^ PointerWidth (executor s) <= 2 ^ 64)
    by (apply Z.pow_le_mono_r; lia).
  destruct (nextAddr_after s Hsorted Hdisjoint ltac:(lia)) as [Hnonneg Hends].
  set (size := sizeofType / 8) in *.
  assert (Hsize : 0 <= size) by (subst size; apply Z.div_pos; lia).
  set (array := mkArray (nextAddr s) size (zeroed (Z.to_nat size))).
  set (s' := mkState (executor s) (heapSet (nextAddr s) array (heap s))
               (constraints s)).
  destruct (heapSet_at_end (nextAddr s) array (heap s) Hsorted Hdisjoint Hends
              Hnonneg Hsize ltac:(cbn [array ArraySize]; lia))
    as [Hdisjoint' Hin'].
  assert (Hsorted' : heapSorted (heap s'))
    by (apply heapSet_sorted; exact Hsorted).
  exists array, s'.
  split; [| split; [reflexivity | split; [reflexivity | split; [reflexivity |
          split; [reflexivity | split; [reflexivity | split; [|
          split; [exact Hsorted' | split; [exact Hdisjoint' |]]]]]]]]].
  - unfold executeAllocInstr. cbn [negb]. fold size. unfold Alloc.
    rewrite zero_NewArray by lia. unfold returned. cbn [fst snd bind].
    fold array. unfold assigned. cbn [executor heap constraints ArrayID array].
    rewrite heapSet_heapSet. rewrite NewConstantExpr_small by lia.
    reflexivity.
  - apply IsSymbolic_false. cbn [array ArrayUpdates ArraySize].
    split; [apply constantIndices_zeroed | apply concreteAt_zeroed].
  - intros j Hj.
    set (addr := mkConstant (nextAddr s + j) (PointerWidth (executor s))).
    assert (Hc : contains (heap s') (nextAddr s) array (Value addr)).
    { split; [| cbn [addr Value array ArraySize]; lia].
      apply heapGet_in. apply heapGet_heapSet. }
    unfold executeUnOpMulInstr. fold addr.
    change (Const (nextAddr s + j) (PointerWidth (executor s)))
      with (Constant addr).
    cbv iota.
    rewrite (findAllocContainingAddr_finds addr s' (nextAddr s) array
               Hsorted' Hdisjoint' Hc).
    assert (Hpointer' : 0 < PointerWidth (executor s') <= 64)
      by (cbn [s' executor]; lia).
    assert (Haddr : Width addr = PointerWidth (executor s') /\
                    Value addr < 2 ^ PointerWidth (executor s'))
      by (cbn [addr Width Value s' executor]; split; [reflexivity | lia]).
    rewrite (offset_of_address s' addr (nextAddr s) array Hdisjoint' Hpointer'
               Haddr Hc).
    cbn [bind].
    rewrite (Select_offset (S fuel') array _ _ 8 _
               (zext_of_offset fuel' s' addr (nextAddr s) array Hdisjoint'
                  Hpointer' Hc) eq_refl).
    replace (Value addr - nextAddr s) with j by (cbn [addr Value]; lia).
    rewrite (Select_byte fuel' array j (Const 0 8)); [reflexivity | lia |].
    unfold selectByte.
    cbn [ExprWidth Const Width assert bind Z.eqb Pos.eqb ArrayUpdates array].
    apply (selectUpdate_zeroed fuel' _ j). lia.
Qed.

Lemma X19_alloc_instruction_witness :
  let s := mkState (mkExecutor "amd64" 8) [(64, mkArray 64 16 NoUpdate)] [] in
  exists array s',
    executeAllocInstr 0 true 32 s
    = Ok (Binds (Some (ExprBinding (Const 80 64))), s') /\
    heap s' = [(64, mkArray 64 16 NoUpdate); (80, array)] /\
    ArraySize array = 4 /\
    executeUnOpMulInstr 1 8 true (Some (ExprBinding (Const 83 64))) s'
    = Ok (Binds (Some (ExprBinding (Const 0 8))), s').
Proof.
  intros s.
  assert (Hsorted : heapSorted (heap s))
    by (cbn; split; [intros k' [] | exact I]).
  assert (Hdisjoint : heapDisjoint (heap s))
    by (cbn; repeat split; try lia; intros k' v' []).
  destruct (X19_alloc_instruction 0 0 32 s Hsorted Hdisjoint ltac:(cbn; lia)
              ltac:(lia) ltac:(cbn; lia))
    as [_ [array [s' [H1 [_ [_ [H2 [_ [H3 [_ [_ [_ H4]]]]]]]]]]]].
  exists array, s'.
  split; [exact H1 |]. split; [exact H2 |]. split; [exact H3 |].
  apply (H4 3). cbn. lia.
Defined.

(** ** Identities of the binary constructors *)

Lemma CompareExpr_constant_other (x : Expr) (c : ConstantExpr) :
  IsConstantExpr x = false ->
  (CompareExpr x (Constant c) =? 0) = false.
Proof.
  intros Hx. apply Z.eqb_neq. intros H.
  apply (proj1 CompareExpr_zero) in H. subst x. discriminate Hx.
Qed.

Lemma IsAllOnes_ones (w : Z) :
  0 < w <= 64 -> IsAllOnes (mkConstant (2 ^ w - 1) w) = true.
Proof.
  intros Hw. unfold IsAllOnes. cbn [Value Width].
  rewrite bitmask_ones by lia. apply Z.eqb_refl.
Qed.

Lemma IsAllOnes_zero (w : Z) :
  0 < w <= 64 -> IsAllOnes (mkConstant 0 w) = false.
Proof.
  intros Hw. unfold IsAllOnes. cbn [Value Width].
  rewrite bitmask_ones by lia. apply Z.eqb_neq.
  pose proof (Z.pow_gt_1 2 w ltac:(lia)). lia.
Qed.

Section Identities.

Variables (fuel : nat) (x : Expr) (w : Z).

Hypothesis symbolic : IsConstantExpr x = false.
Hypothesis width : ExprWidth x = w.
Hypothesis standard : 0 < w <= 64.

Ltac by_cases :=
  destruct x; try discriminate symbolic;
  cbn [NewBinaryExpr dispatch];
  unfold newAddExpr, newSubExpr, newMulExpr, newAndExpr, newOrExpr,
    newXorExpr, newEqExpr, otherwise;
  cbn [IsConstantExpr negb andb ExprWidth Const Width Value];
  rewrite ?width.

Lemma fold_xor_zero_left :
  NewBinaryExpr (S fuel) XOR (Const 0 w) x = Ok x.
Proof. by_cases; reflexivity. Qed.

Lemma fold_xor_zero_right :
  NewBinaryExpr (S fuel) XOR x (Const 0 w) = Ok x.
Proof. by_cases; reflexivity. Qed.

Lemma fold_add_zero_left_wide :
  w <> 1 -> NewBinaryExpr (S fuel) ADD (Const 0 w) x = Ok x.
Proof.
  intros Hint.
  by_cases; destruct (Z.eqb_spec w WidthBool); try contradiction; reflexivity.
Qed.

Lemma fold_add_zero_left :
  NewBinaryExpr (S (S fuel)) ADD (Const 0 w) x = Ok x.
Proof.
  destruct (Z.eqb_spec w 1) as [Hbool | Hint].
  - change (NewBinaryExpr (S (S fuel)) ADD (Const 0 w) x)
      with (newAddExpr (NewBinaryExpr (S fuel)) (Const 0 w) x).
    unfold newAddExpr. cbn [IsConstantExpr negb andb ExprWidth Const Width].
    rewrite Hbool. cbn [Z.eqb Pos.eqb].
    rewrite <- Hbool. apply fold_xor_zero_left.
  - by_cases; destruct (Z.eqb_spec w WidthBool); try contradiction;
      reflexivity.
Qed.

Lemma fold_add_zero_right :
  NewBinaryExpr (S (S fuel)) ADD x (Const 0 w) = Ok x.
Proof.
  destruct (Z.eqb_spec w 1) as [Hbool | Hint].
  - pose proof fold_xor_zero_left as Hxor. revert Hxor.
    by_cases; rewrite Hbool; cbn [Z.eqb Pos.eqb]; intros Hxor;
      rewrite <- Hbool; exact Hxor.
  - by_cases; destruct (Z.eqb_spec w WidthBool); try contradiction;
      reflexivity.
Qed.

Lemma fold_sub_zero :
  NewBinaryExpr (S (S fuel)) SUB x (Const 0 w) = Ok x.
Proof.
  change (NewBinaryExpr (S (S fuel)) SUB x (Const 0 w))
    with (newSubExpr (NewBinaryExpr (S fuel)) x (Const 0 w)).
  unfold newSubExpr. unfold Const at 1.
  rewrite CompareExpr_constant_other by exact symbolic.
  rewrite width.
  destruct (Z.eqb_spec w WidthBool) as [Hbool | Hint].
  - pose proof fold_xor_zero_right as Hxor.
    destruct x; try discriminate symbolic; unfold otherwise; exact Hxor.
  - assert (Hk : constant (Sub (NewConstantExpr 0 (ExprWidth (Const 0 w)))
                             (mkConstant 0 w)) = Ok (Const 0 w)).
    { cbn [ExprWidth Const Width]. rewrite NewConstantExpr_small by lia.
      rewrite Sub_closed by lia. reflexivity. }
    pose proof (fold_add_zero_left_wide Hint) as Hadd.
    destruct x; try discriminate symbolic; unfold otherwise;
      cbn [IsConstantExpr negb Const];
      match goal with
      | |- context [constant ?c] =>
          replace (constant c) with (Ok (Const 0 w)) by (symmetry; exact Hk)
      end;
      cbn [bind]; exact Hadd.
Qed.

Lemma fold_mul_one_right :
  NewBinaryExpr (S (S fuel)) MUL x (Const 1 w) = Ok x.
Proof.
  destruct (Z.eqb_spec w 1) as [Hbool | Hint].
  - by_cases; rewrite Hbool; reflexivity.
  - by_cases; destruct (Z.eqb_spec w WidthBool); try contradiction;
      reflexivity.
Qed.

Lemma fold_mul_one_left :
  NewBinaryExpr (S (S fuel)) MUL (Const 1 w) x = Ok x.
Proof.
  destruct (Z.eqb_spec w 1) as [Hbool | Hint].
  - by_cases; rewrite Hbool; reflexivity.
  - by_cases; destruct (Z.eqb_spec w WidthBool); try contradiction;
      reflexivity.
Qed.

Lemma fold_mul_zero_right :
  NewBinaryExpr (S (S fuel)) MUL x (Const 0 w) = Ok (Const 0 w).
Proof.
  destruct (Z.eqb_spec w 1) as [Hbool | Hint].
  - by_cases; rewrite Hbool; reflexivity.
  - by_cases; destruct (Z.eqb_spec w WidthBool); try contradiction;
      reflexivity.
Qed.

Lemma fold_mul_zero_left :
  NewBinaryExpr (S (S fuel)) MUL (Const 0 w) x = Ok (Const 0 w).
Proof.
  destruct (Z.eqb_spec w 1) as [Hbool | Hint].
  - by_cases; rewrite Hbool; reflexivity.
  - by_cases; destruct (Z.eqb_spec w WidthBool); try contradiction;
      reflexivity.
Qed.

Lemma fold_and_zero :
  NewBinaryExpr (S fuel) AND x (Const 0 w) = Ok (Const 0 w) /\
  NewBinaryExpr (S fuel) AND (Const 0 w) x = Ok (Const 0 w).
Proof.
  pose proof (IsAllOnes_zero w standard) as Hones.
  split; by_cases; rewrite Hones; reflexivity.
Qed.

Lemma fold_and_ones :
  NewBinaryExpr (S fuel) AND x (Const (2 ^ w - 1) w) = Ok x /\
  NewBinaryExpr (S fuel) AND (Const (2 ^ w - 1) w) x = Ok x.
Proof.
  pose proof (IsAllOnes_ones w standard) as Hones.
  split; by_cases; rewrite Hones; reflexivity.
Qed.

Lemma fold_or_zero :
  NewBinaryExpr (S fuel) OR x (Const 0 w) = Ok x /\
  NewBinaryExpr (S fuel) OR (Const 0 w) x = Ok x.
Proof.
  pose proof (IsAllOnes_zero w standard) as Hones.
  split; by_cases; rewrite Hones; reflexivity.
Qed.

Lemma fold_or_ones :
  NewBinaryExpr (S fuel) OR x (Const (2 ^ w - 1) w) = Ok (Const (2 ^ w - 1) w) /\
  NewBinaryExpr (S fuel) OR (Const (2 ^ w - 1) w) x = Ok (Const (2 ^ w - 1) w).
Proof.
  pose proof (IsAllOnes_ones w standard) as Hones.
  split; by_cases; rewrite Hones; reflexivity.
Qed.

Lemma fold_eq_self :
  NewBinaryExpr (S fuel) EQ x x = Ok (Const 1 1).
Proof.
  by_cases; rewrite (proj1 CompareExpr_refl); reflexivity.
Qed.

End Identities.

Lemma fold_sub_self (fuel : nat) (x : Expr) :
  0 <= ExprWidth x <= 64 ->
  NewBinaryExpr (S fuel) SUB x x = Ok (Const 0 (ExprWidth x)).
Proof.
  intros Hw. cbn [NewBinaryExpr dispatch]. unfold newSubExpr.
  rewrite (proj1 CompareExpr_refl). cbn [Z.eqb].
  rewrite NewConstantExpr_small by (pose proof (Z.pow_pos_nonneg 2 (ExprWidth x)); lia).
  reflexivity.
Qed.

(** X20: [NewBinaryExpr] simplifies with the neutral and the absorbing
    constants.  For an expression [x] that is not a constant, of a width
    [w] from 1 to 64: the sum, the difference, the disjunction and the
    exclusive disjunction of [x] and 0, the product of [x] and 1 and the
    conjunction of [x] and the constant of [w] ones are [x]; the product
    and the conjunction of [x] and 0 are 0 and the disjunction of [x] and
    the constant of ones is that constant, with the constant on either
    side; the difference of [x] and [x] is 0 and their equality is
    true. *)
Theorem X20_identities (fuel : nat) (x : Expr) (w : Z) :
  IsConstantExpr x = false -> ExprWidth x = w -> 0 < w <= 64 ->
  let build := NewBinaryExpr (S (S fuel)) in
  let zero := Const 0 w in
  let one := Const 1 w in
  let ones := Const (2 ^ w - 1) w in
  (build ADD x zero = Ok x /\ build ADD zero x = Ok x) /\
  (build SUB x zero = Ok x /\ build SUB x x = Ok zero) /\
  (build MUL x one = Ok x /\ build MUL one x = Ok x) /\
  (build MUL x zero = Ok zero /\ build MUL zero x = Ok zero) /\
  (build AND x zero = Ok zero /\ build AND zero x = Ok zero) /\
  (build AND x ones = Ok x /\ build AND ones x = Ok x) /\
  (build OR x zero = Ok x /\ build OR zero x = Ok x) /\
  (build OR x ones = Ok ones /\ build OR ones x = Ok ones) /\
  (build XOR x zero = Ok x /\ build XOR zero x = Ok x) /\
  build EQ x x = Ok (Const 1 1).
Proof.
  intros Hx Hw Hstandard build zero one ones.
  subst build zero one ones.
  repeat match goal with |- _ /\ _ => split end.
  - apply fold_add_zero_right; assumption.
  - apply fold_add_zero_left; assumption.
  - apply fold_sub_zero; assumption.
  - rewrite <- Hw. apply fold_sub_self. lia.
  - apply fold_mul_one_right; assumption.
  - apply fold_mul_one_left; assumption.
  - apply fold_mul_zero_right; assumption.
  - apply fold_mul_zero_left; assumption.
  - apply (fold_and_zero (S fuel) x w); assumption.
  - apply (fold_and_zero (S fuel) x w); assumption.
  - apply (fold_and_ones (S fuel) x w); assumption.
  - apply (fold_and_ones (S fuel) x w); assumption.
  - apply (fold_or_zero (S fuel) x w); assumption.
  - apply (fold_or_zero (S fuel) x w); assumption.
  - apply (fold_or_ones (S fuel) x w); assumption.
  - apply (fold_or_ones (S fuel) x w); assumption.
  - apply (fold_xor_zero_right (S fuel) x w); assumption.
  - apply (fold_xor_zero_left (S fuel) x w); assumption.
  - apply (fold_eq_self (S fuel) x w); assumption.
Qed.

Lemma X20_identities_witness :
  let x := SelectExpr (NewArray 0 2) (Const 0 64) in
  NewBinaryExpr 2 ADD x (Const 0 8) = Ok x /\
  NewBinaryExpr 2 SUB x x = Ok (Const 0 8) /\
  NewBinaryExpr 2 MUL (Const 0 8) x = Ok (Const 0 8) /\
  NewBinaryExpr 2 AND x (Const 255 8) = Ok x /\
  NewBinaryExpr 2 EQ x x = Ok (Const 1 1).
Proof.
  intros x.
  destruct (X20_identities 0 x 8 eq_refl eq_refl ltac:(lia))
    as [[H1 _] [[_ H2] [_ [[_ H3] [_ [[H4 _] [_ [_ [_ H5]]]]]]]]].
  repeat split; assumption.
Defined.

(** ** The symbolic arrays of an expression *)

Lemma Visit_select (v : arrayExprVisitor) (a : Array) (index index' : Expr) :
  arrayExprVisitor.Visit v (SelectExpr a index)
  = arrayExprVisitor.Visit v (SelectExpr a index').
Proof. reflexivity. Qed.

Lemma Visit_descends (v v' : arrayExprVisitor) (expr : Expr) (descend : bool) :
  arrayExprVisitor.Visit v expr = Ok (descend, v') -> descend = true.
Proof.
  destruct expr; cbn [arrayExprVisitor.Visit];
    try (intros H; injection H as <- _; reflexivity).
  destruct (IsSymbolic a) as [[|] | |]; cbn [bind]; try discriminate;
    [destruct (arrayOf _ _) |];
    intros H; injection H as <- _; reflexivity.
Qed.

Lemma visitArrays_app (l1 l2 : list Array) :
  forall v,
    visitArrays v (l1 ++ l2) = (v' <- visitArrays v l1 ;; visitArrays v' l2).
Proof.
  induction l1 as [| a l1 IH]; intros v; [reflexivity |].
  cbn [app visitArrays].
  destruct (arrayExprVisitor.Visit v _) as [visited | |]; cbn [bind];
    [apply IH | reflexivity | reflexivity].
Qed.

Section WalkEquations.

Variable Visitor : Type.
Variable Visit : Visitor -> Expr -> result (bool * Visitor).

Lemma WalkExpr_equation (v : Visitor) (expr : Expr) :
  WalkExpr Visitor Visit v expr =
  (visited <- Visit v expr ;;
   if negb (fst visited) then Ok (snd visited)
   else
     match expr with
     | BinaryExpr _ lhs rhs =>
         v <- WalkExpr Visitor Visit (snd visited) lhs ;;
         WalkExpr Visitor Visit v rhs
     | CastExpr src _ _ => WalkExpr Visitor Visit (snd visited) src
     | ConcatExpr msb lsb =>
         v <- WalkExpr Visitor Visit (snd visited) msb ;;
         WalkExpr Visitor Visit v lsb
     | Constant _ => Ok (snd visited)
     | ExtractExpr e _ _ => WalkExpr Visitor Visit (snd visited) e
     | NotExpr e => WalkExpr Visitor Visit (snd visited) e
     | NotOptimizedExpr src => WalkExpr Visitor Visit (snd visited) src
     | SelectExpr a index =>
         v <- WalkExpr Visitor Visit (snd visited) index ;;
         walkArray Visitor Visit v a
     end).
Proof.
  destruct expr; cbn [WalkExpr];
    destruct (Visit v _) as [[descend v'] | |]; reflexivity.
Qed.

Lemma walkArray_equation (v : Visitor) (a : Array) :
  walkArray Visitor Visit v a = walkUpdates Visitor Visit v (ArrayUpdates a).
Proof. destruct a. reflexivity. Qed.

Lemma walkUpdates_equation (v : Visitor) (index value : Expr)
    (next : ArrayUpdate) :
  walkUpdates Visitor Visit v (Update index value next) =
  (v <- WalkExpr Visitor Visit v index ;;
   v <- WalkExpr Visitor Visit v value ;;
   walkUpdates Visitor Visit v next).
Proof. reflexivity. Qed.

End WalkEquations.

Lemma walk_visits :
  (forall expr v,
     WalkExpr arrayExprVisitor arrayExprVisitor.Visit v expr
     = visitArrays v (selects expr)) /\
  (forall a v,
     walkArray arrayExprVisitor arrayExprVisitor.Visit v a
     = visitArrays v (selectsOfArray a)) /\
  (forall upd v,
     walkUpdates arrayExprVisitor arrayExprVisitor.Visit v upd
     = visitArrays v (selectsOfUpdates upd)).
Proof.
  apply Expr_Array_ind; intros;
    rewrite ?WalkExpr_equation, ?walkArray_equation, ?walkUpdates_equation;
    cbn [selects selectsOfArray selectsOfUpdates ArrayUpdates visitArrays];
    rewrite ?visitArrays_app;
    try (cbn [arrayExprVisitor.Visit bind negb fst snd];
         repeat match goal with
                | H : forall v, _ = _ |- _ => rewrite H; clear H
                end;
         reflexivity).
  - (* a select: the visit, the index, the updates of the array *)
    rewrite (Visit_select v a Index (Const 0 64)).
    destruct (arrayExprVisitor.Visit v (SelectExpr a (Const 0 64)))
      as [[descend v'] | |] eqn:Hvisit; cbn [bind fst snd]; try reflexivity.
    rewrite (Visit_descends _ _ _ _ Hvisit). cbn [negb].
    rewrite H0, visitArrays_app.
    destruct (visitArrays v' (selects Index)); cbn [bind];
      [apply H | reflexivity | reflexivity].
  - (* a concatenation *)
    cbn [arrayExprVisitor.Visit bind negb fst snd]. rewrite H.
    destruct (visitArrays v (selects MSB)); cbn [bind];
      [apply H0 | reflexivity | reflexivity].
  - (* a binary expression *)
    cbn [arrayExprVisitor.Visit bind negb fst snd]. rewrite H.
    destruct (visitArrays v (selects LHS)); cbn [bind];
      [apply H0 | reflexivity | reflexivity].
  - (* an update *)
    rewrite H.
    destruct (visitArrays v (selects Index)); cbn [bind]; try reflexivity.
    rewrite H0, visitArrays_app.
    match goal with
    | |- context [bind (visitArrays ?a ?l) _] => destruct (visitArrays a l)
    end; cbn [bind]; [apply H1 | reflexivity | reflexivity].
Qed.

Lemma walkAll_visits (exprs : list Expr) :
  forall v, walkAll v exprs = visitArrays v (flat_map selects exprs).
Proof.
  induction exprs as [| expr exprs IH]; intros v; [reflexivity |].
  cbn [walkAll flat_map]. rewrite visitArrays_app, (proj1 walk_visits).
  destruct (visitArrays v (selects expr)); cbn [bind];
    [apply IH | reflexivity | reflexivity].
Qed.

Lemma arrayOf_None (id : Z) (mp : ArrayMap) :
  arrayOf id mp = None -> ~ In id (map fst mp).
Proof.
  induction mp as [| [k v] rest IH]; cbn [arrayOf map fst In]; [tauto |].
  destruct (Z.eqb_spec id k) as [Heq | Hne]; [discriminate |].
  intros H [Hk | Hin]; [congruence | exact (IH H Hin)].
Qed.

Lemma arrayOf_Some (id : Z) (mp : ArrayMap) (a : Array) :
  arrayOf id mp = Some a -> In id (map fst mp).
Proof.
  induction mp as [| [k v] rest IH]; cbn [arrayOf map fst In]; [discriminate |].
  destruct (Z.eqb_spec id k) as [Heq | Hne]; [left; congruence |].
  intros H. right. exact (IH H).
Qed.

Lemma visitArrays_visited (arrays : list Array) :
  forall v v',
    visitArrays v arrays = Ok v' ->
    wellKeyed (arrayExprVisitor.m v) ->
    wellKeyed (arrayExprVisitor.m v') /\
    (forall id a, In (id, a) (arrayExprVisitor.m v') ->
                  In (id, a) (arrayExprVisitor.m v) \/ In a arrays) /\
    (forall id, In id (map fst (arrayExprVisitor.m v)) ->
                In id (map fst (arrayExprVisitor.m v'))) /\
    (forall a, In a arrays -> IsSymbolic a = Ok true ->
               In (ArrayID a) (map fst (arrayExprVisitor.m v'))).
Proof.
  induction arrays as [| a arrays IH]; intros v v' Hvisit Hkeyed.
  - injection Hvisit as <-.
    split; [exact Hkeyed |]. split; [auto |]. split; [auto |].
    intros a [].
  - cbn [visitArrays arrayExprVisitor.Visit] in Hvisit.
    destruct (IsSymbolic a) as [symbolic | |] eqn:Hsym; try discriminate.
    cbn [bind] in Hvisit.
    assert (Hstep : exists v1,
               visitArrays v1 arrays = Ok v' /\
               wellKeyed (arrayExprVisitor.m v1) /\
               (forall id b, In (id, b) (arrayExprVisitor.m v1) ->
                             In (id, b) (arrayExprVisitor.m v) \/ b = a) /\
               (forall id, In id (map fst (arrayExprVisitor.m v)) ->
                           In id (map fst (arrayExprVisitor.m v1))) /\
               (symbolic = true ->
                In (ArrayID a) (map fst (arrayExprVisitor.m v1)))).
    { destruct symbolic.
      - destruct (arrayOf (ArrayID a) (arrayExprVisitor.m v)) as [old |] eqn:Hold;
          cbn [bind snd] in Hvisit.
        + exists v. split; [exact Hvisit |]. split; [exact Hkeyed |].
          split; [auto |]. split; [auto |].
          intros _. apply (arrayOf_Some _ _ _ Hold).
        + eexists. split; [exact Hvisit |]. cbn [arrayExprVisitor.m].
          split; [| split; [| split]].
          * destruct Hkeyed as [Hnodup Hall]. split.
            -- cbn [map fst]. constructor;
                 [apply arrayOf_None; exact Hold | exact Hnodup].
            -- intros id b [Heq | Hin]; [| apply Hall; exact Hin].
               injection Heq as <- <-. split; [reflexivity | exact Hsym].
          * intros id b [Heq | Hin]; [right | left; exact Hin].
            injection Heq as _ <-. reflexivity.
          * intros id Hin. right. exact Hin.
          * intros _. left. reflexivity.
      - cbn [bind snd] in Hvisit. exists v.
        split; [exact Hvisit |]. split; [exact Hkeyed |].
        split; [auto |]. split; [auto | discriminate]. }
    destruct Hstep as [v1 [Hrest [Hkeyed1 [Hfrom1 [Hkeep1 Hadded]]]]].
    destruct (IH v1 v' Hrest Hkeyed1) as [Hkeyed' [Hfrom [Hkeep Hall]]].
    split; [exact Hkeyed' |]. split; [| split].
    + intros id b Hin. destruct (Hfrom id b Hin) as [Hin1 | Hin1].
      * destruct (Hfrom1 id b Hin1) as [Hold | ->];
          [left; exact Hold | right; left; reflexivity].
      * right. right. exact Hin1.
    + intros id Hin. apply Hkeep, Hkeep1. exact Hin.
    + intros b [<- | Hin] Hb.
      * apply Hkeep, Hadded. congruence.
      * apply Hall; assumption.
Qed.

Lemma visitArrays_returns (arrays : list Array) :
  (forall a, In a arrays -> exists b, IsSymbolic a = Ok b) ->
  forall v, exists v', visitArrays v arrays = Ok v'.
Proof.
  induction arrays as [| a arrays IH]; intros Hall v; [exists v; reflexivity |].
  cbn [visitArrays arrayExprVisitor.Visit].
  destruct (Hall a (or_introl eq_refl)) as [b ->]. cbn [bind].
  assert (Hrest : forall a', In a' arrays -> exists b, IsSymbolic a' = Ok b)
    by (intros a' Hin; apply Hall; right; exact Hin).
  destruct b; [destruct (arrayOf _ _) |]; cbn [bind snd]; apply (IH Hrest).
Qed.

(** The order of the sort on arrays of different ids. *)
Lemma CompareArray_ids (a b : Array) :
  ArrayID a <> ArrayID b ->
  (CompareArray a b =? -1) = (ArrayID a <? ArrayID b).
Proof.
  destruct a as [ida sa ua], b as [idb sb ub]. cbn [ArrayID CompareArray].
  intros Hne. unfold compareZ.
  destruct (Z.ltb_spec ida idb); [reflexivity |].
  destruct (Z.gtb_spec ida idb); [reflexivity | lia].
Qed.

Lemma insertArray_in (x : Array) (sorted : list Array) (a : Array) :
  In a (insertArray x sorted) <-> a = x \/ In a sorted.
Proof.
  induction sorted as [| y rest IH]; cbn [insertArray In].
  - split; [intros [H | []]; left; congruence | intros [H | []]; left; congruence].
  - destruct (CompareArray x y =? -1); cbn [In].
    + split; [intros [H | H]; [left; congruence | right; exact H]
             | intros [H | H]; [left; congruence | right; exact H]].
    + rewrite IH. split.
      * intros [H | [H | H]]; [right; left; exact H | left; exact H
                              | right; right; exact H].
      * intros [H | [H | H]]; [right; left; exact H | left; exact H
                              | right; right; exact H].
Qed.

Lemma insertArray_increasing (x : Array) (sorted : list Array) :
  increasingIDs sorted ->
  (forall b, In b sorted -> ArrayID b <> ArrayID x) ->
  increasingIDs (insertArray x sorted).
Proof.
  induction sorted as [| y rest IH]; intros Hsorted Hnew;
    cbn [insertArray increasingIDs].
  - split; [intros b [] | exact I].
  - destruct Hsorted as [Hy Hrest].
    assert (Hxy : ArrayID x <> ArrayID y)
      by (intros Heq; apply (Hnew y (or_introl eq_refl)); congruence).
    rewrite (CompareArray_ids x y Hxy).
    destruct (Z.ltb_spec (ArrayID x) (ArrayID y)) as [Hlt | Hge];
      cbn [increasingIDs].
    + split; [| split; assumption].
      intros b [<- | Hin]; [exact Hlt | specialize (Hy b Hin); lia].
    + split.
      * intros b Hin. apply insertArray_in in Hin.
        destruct Hin as [-> | Hin]; [lia | apply Hy; exact Hin].
      * apply IH; [exact Hrest |]. intros b Hin. apply Hnew. right. exact Hin.
Qed.

Lemma sorted_arrays (arrays : list Array) :
  NoDup (map ArrayID arrays) ->
  increasingIDs (fold_right insertArray [] arrays) /\
  forall a, In a (fold_right insertArray [] arrays) <-> In a arrays.
Proof.
  induction arrays as [| x arrays IH]; intros Hnodup.
  - split; [exact I | reflexivity].
  - cbn [map] in Hnodup. apply NoDup_cons_iff in Hnodup.
    destruct Hnodup as [Hx Hnodup]. destruct (IH Hnodup) as [Hsorted Hin].
    cbn [fold_right]. split.
    + apply insertArray_increasing; [exact Hsorted |].
      intros b Hb Heq. apply Hx. rewrite <- Heq. apply in_map.
      apply Hin. exact Hb.
    + intros a. rewrite insertArray_in, Hin. cbn [In]. split.
      * intros [H | H]; [left; congruence | right; exact H].
      * intros [H | H]; [left; congruence | right; exact H].
Qed.

Lemma wellKeyed_ids (mp : ArrayMap) :
  wellKeyed mp -> map ArrayID (map snd mp) = map fst mp.
Proof.
  intros [_ Hall]. induction mp as [| [k v] rest IH]; [reflexivity |].
  cbn [map fst snd]. rewrite IH.
  - rewrite (proj1 (Hall k v (or_introl eq_refl))). reflexivity.
  - intros id a Hin. apply Hall. right. exact Hin.
Qed.

(** X21: [FindArrays] returns when [IsSymbolic] returns on the arrays of
    the selects of the expressions.  The arrays it returns are in the
    order of their ids, which are different; each of them is the array of
    a select of the expressions and is symbolic; and each symbolic array
    of a select has its id among them. *)
Theorem X21_FindArrays (exprs : list Expr) :
  let selected := flat_map selects exprs in
  ((forall a, In a selected -> exists b, IsSymbolic a = Ok b) ->
   exists arrays, FindArrays exprs = Ok arrays) /\
  forall arrays,
    FindArrays exprs = Ok arrays ->
    increasingIDs arrays /\
    (forall a, In a arrays -> In a selected /\ IsSymbolic a = Ok true) /\
    (forall a, In a selected -> IsSymbolic a = Ok true ->
               exists a', In a' arrays /\ ArrayID a' = ArrayID a).
Proof.
  intros selected. unfold FindArrays. rewrite walkAll_visits. fold selected.
  split.
  - intros Hall.
    destruct (visitArrays_returns selected Hall newArrayExprVisitor)
      as [v' ->].
    cbn [bind]. eexists. reflexivity.
  - intros arrays Hfind.
    destruct (visitArrays newArrayExprVisitor selected) as [v' | |] eqn:Hvisit;
      try discriminate.
    cbn [bind] in Hfind. injection Hfind as <-.
    assert (Hempty : wellKeyed (arrayExprVisitor.m newArrayExprVisitor)).
    { split; [constructor | intros id a []]. }
    destruct (visitArrays_visited selected _ _ Hvisit Hempty)
      as [Hkeyed [Hfrom [_ Hall]]].
    assert (Hnodup : NoDup (map ArrayID (map snd (arrayExprVisitor.m v'))))
      by (rewrite (wellKeyed_ids _ Hkeyed); apply Hkeyed).
    destruct (sorted_arrays _ Hnodup) as [Hsorted Hin].
    split; [exact Hsorted |]. split.
    + intros a Ha. apply Hin in Ha. apply in_map_iff in Ha.
      destruct Ha as [[id a'] [Heq Hentry]]. cbn [snd] in Heq. subst a'.
      split; [| apply (proj2 Hkeyed id a Hentry)].
      destruct (Hfrom id a Hentry) as [[] | Hsel]. exact Hsel.
    + intros a Ha Hsym. specialize (Hall a Ha Hsym).
      apply in_map_iff in Hall. destruct Hall as [[id a'] [Heq Hentry]].
      cbn [fst] in Heq. subst id. exists a'. split.
      * apply Hin. apply in_map_iff. exists (ArrayID a, a').
        split; [reflexivity | exact Hentry].
      * apply (proj2 Hkeyed _ _ Hentry).
Qed.

Lemma X21_FindArrays_witness :
  let a := NewArray 7 2 in
  let b := NewArray 3 1 in
  let expr := BinaryExpr ADD (SelectExpr a (Const 0 64))
                (SelectExpr b (SelectExpr a (Const 1 64))) in
  (exists arrays, FindArrays [expr] = Ok arrays) /\
  increasingIDs [b; a] /\
  (forall c, In c [b; a] ->
             In c (flat_map selects [expr]) /\ IsSymbolic c = Ok true).
Proof.
  intros a b expr.
  destruct (X21_FindArrays [expr]) as [Hreturns Hfound].
  split.
  - apply Hreturns. intros c Hc. cbn in Hc.
    destruct Hc as [<- | [<- | [<- | []]]]; eexists; reflexivity.
  - destruct (Hfound [b; a] eq_refl) as [Hsorted [Hin _]].
    split; assumption.
Defined.

(** ** Arrays through the heap *)

Lemma copyBytes_loop (fuel : nat) (addr base : ConstantExpr) (value : Array) :
  forall (k : nat) (i : Z) (newArray : Array),
    State.copyBytes fuel addr base value k i newArray
    = loop k i
        (fun i newArray =>
           offset <- newSubExpr (NewBinaryExpr fuel)
                       (Constant addr) (Constant base) ;;
           index <- newAddExpr (NewBinaryExpr fuel) offset
                      (Constant (NewConstantExpr64 i)) ;;
           byte <- selectByte fuel value (Constant (NewConstantExpr64 i)) ;;
           returned (storeByte fuel index byte newArray))
        newArray.
Proof.
  induction k as [| k IH]; intros i newArray; [reflexivity |].
  cbn [State.copyBytes loop].
  destruct (newSubExpr _ _ _) as [offset | |]; cbn [bind]; try reflexivity.
  destruct (newAddExpr _ _ _) as [index | |]; cbn [bind]; try reflexivity.
  destruct (selectByte _ _ _) as [byte | |]; cbn [bind]; try reflexivity.
  destruct (returned _) as [newArray' | |]; cbn [bind]; try reflexivity.
  apply IH.
Qed.

Lemma offset_64 (fuel : nat) (s : ExecutionState) (addr : ConstantExpr)
    (k : Z) (v : Array) :
  heapDisjoint (heap s) -> PointerWidth (executor s) = 64 ->
  Width addr = 64 -> Value addr < 2 ^ 64 ->
  contains (heap s) k v (Value addr) ->
  newSubExpr (NewBinaryExpr (S fuel)) (Constant addr)
    (Constant (NewConstantExpr k (PointerWidth (executor s))))
  = Ok (Const (Value addr - k) 64).
Proof.
  intros Hdisjoint Hpw Hw Hv Hc.
  assert (Hpointer : 0 < PointerWidth (executor s) <= 64)
    by (rewrite Hpw; lia).
  assert (Haddress : Width addr = PointerWidth (executor s) /\
                     Value addr < 2 ^ PointerWidth (executor s))
    by (rewrite Hpw; split; assumption).
  rewrite (offset_of_address s addr k v Hdisjoint Hpointer Haddress Hc).
  rewrite Hpw. reflexivity.
Qed.

Section ArrayStoreLoad.

Variables (fuel : nat) (s : ExecutionState) (addr : ConstantExpr).
Variables (k : Z) (v value : Array) (bs : list Z).

Let n := Z.of_nat (List.length bs).

Hypothesis sorted : heapSorted (heap s).
Hypothesis disjoint : heapDisjoint (heap s).
Hypothesis pointer : PointerWidth (executor s) = 64.
Hypothesis address : Width addr = 64 /\ Value addr < 2 ^ 64.
Hypothesis allocated : contains (heap s) k v (Value addr).
Hypothesis fits : Value addr + n <= k + ArraySize v.
Hypothesis holds : holdsBytes (S fuel) value bs.

Lemma copy_stores (fuel' : nat) :
  exists a',
    State.Copy (S fuel) addr value s
    = (Ok tt, mkState (executor s) (heapSet k a' (heap s)) (constraints s)) /\
    ArraySize a' = ArraySize v /\
    forall j, 0 <= j < n ->
      selectByte (S fuel') a' (Const (Value addr - k + j) 64)
      = Ok (Const (nth (Z.to_nat j) bs 0) 8).
Proof.
  destruct allocated as [Hin Hrange].
  destruct (heapDisjoint_in _ _ _ disjoint Hin) as [Hk [Hsize Hend]].
  destruct holds as [Hvsize Hread].
  unfold State.Copy.
  rewrite (findAllocContainingAddr_finds addr s k v sorted disjoint allocated).
  rewrite copyBytes_loop, Clone_same, Hvsize. fold n.
  destruct v as [id size rest]. cbn [ArraySize] in *.
  destruct (loop_stored (S fuel) fuel' (Value addr - k) n
              (fun j => Const (nth (Z.to_nat j) bs 0) 8)
              (fun i newArray =>
                 offset <- newSubExpr (NewBinaryExpr (S fuel)) (Constant addr)
                             (Constant
                                (NewConstantExpr k (PointerWidth (executor s)))) ;;
                 index <- newAddExpr (NewBinaryExpr (S fuel)) offset
                            (Constant (NewConstantExpr64 i)) ;;
                 byte <- selectByte (S fuel) value
                           (Constant (NewConstantExpr64 i)) ;;
                 returned (storeByte (S fuel) index byte newArray))
              id size rest)
    as [a' [Hloop [_ [Hsize' [_ Hsel]]]]]; try (subst n; lia).
  - intros j array Hj.
    rewrite (offset_64 fuel s addr k (mkArray id size rest) disjoint pointer
               (proj1 address) (proj2 address) allocated).
    cbn [bind].
    change (newAddExpr (NewBinaryExpr (S fuel)) (Const (Value addr - k) 64)
              (Constant (NewConstantExpr64 j)))
      with (NewBinaryExpr (S (S fuel)) ADD (Const (Value addr - k) 64)
              (Constant (NewConstantExpr64 j))).
    rewrite index_of_byte by (subst n; lia). cbn [bind].
    unfold NewConstantExpr64. rewrite NewConstantExpr_small by (subst n; lia).
    change (Constant (mkConstant j 64)) with (Const j 64).
    destruct (Hread (Z.to_nat j) ltac:(subst n; lia)) as [_ Hbyte].
    rewrite Z2Nat.id in Hbyte by lia. rewrite Hbyte. reflexivity.
  - reflexivity.
  - exists a'. rewrite Hloop.
    rewrite NewConstantExpr_small by (rewrite pointer; lia).
    split; [reflexivity | split; [exact Hsize' | exact Hsel]].
Qed.

End ArrayStoreLoad.

Lemma load_array (fuel fuel' : nat) (s : ExecutionState) (addr : ConstantExpr)
    (k : Z) (a : Array) (bs : list Z) :
  heapSorted (heap s) -> heapDisjoint (heap s) ->
  PointerWidth (executor s) = 64 ->
  Width addr = 64 -> Value addr < 2 ^ 64 ->
  contains (heap s) k a (Value addr) ->
  Value addr + Z.of_nat (List.length bs) <= k + ArraySize a ->
  (forall j : nat,
     (j < List.length bs)%nat ->
     0 <= nth j bs 0 < 256 /\
     selectByte (S fuel) a (Const (Value addr - k + Z.of_nat j) 64)
     = Ok (Const (nth j bs 0) 8)) ->
  Z.of_nat (List.length bs) < 2 ^ 64 ->
  exists dst,
    executeUnOpMulInstr (S fuel) (8 * Z.of_nat (List.length bs)) false
      (Some (ExprBinding (Constant addr))) s
    = Ok (Binds (Some (ArrayBinding dst)),
          mkState (executor s) (heapSet (nextAddr s) dst (heap s))
            (constraints s)) /\
    ArrayID dst = nextAddr s /\
    holdsBytes (S fuel') dst bs.
Proof.
  intros Hsorted Hdisjoint Hpw Hw Hv Hc Hfits Hread Hlen.
  set (n := Z.of_nat (List.length bs)) in *.
  destruct (heapDisjoint_in _ _ _ Hdisjoint (proj1 Hc)) as [Hk [Hsize Hend]].
  unfold executeUnOpMulInstr.
  rewrite (findAllocContainingAddr_finds addr s k a Hsorted Hdisjoint Hc).
  rewrite (offset_64 fuel s addr k a Hdisjoint Hpw Hw Hv Hc).
  cbn [bind]. unfold Alloc.
  replace (8 * n / 8) with n by (rewrite Z.mul_comm, Z.div_mul; lia).
  unfold NewArray. cbn [ArraySize executor].
  destruct (loop_stored (S fuel) fuel' 0 n
              (fun j => Const (nth (Z.to_nat j) bs 0) 8)
              (fun i dst =>
                 arrayIndex <-
                   newAddExpr (NewBinaryExpr (S fuel))
                     (Const (Value addr - k) 64)
                     (Constant (NewConstantExpr i (PointerWidth (executor s)))) ;;
                 byte <- selectByte (S fuel) a arrayIndex ;;
                 returned
                   (storeByte (S fuel) (Constant (NewConstantExpr64 i)) byte dst))
              (nextAddr s) n NoUpdate)
    as [dst [Hloop [Hid [Hsize' [_ Hsel]]]]]; try (subst n; lia).
  - intros j array Hj. rewrite Hpw.
    change (newAddExpr (NewBinaryExpr (S fuel)) (Const (Value addr - k) 64)
              (Constant (NewConstantExpr j 64)))
      with (NewBinaryExpr (S (S fuel)) ADD (Const (Value addr - k) 64)
              (Constant (NewConstantExpr64 j))).
    destruct Hc as [_ Hrange].
    rewrite index_of_byte by lia. cbn [bind].
    destruct (Hread (Z.to_nat j) ltac:(subst n; lia)) as [_ Hbyte].
    rewrite Z2Nat.id in Hbyte by lia. rewrite Hbyte. cbn [bind].
    unfold NewConstantExpr64. rewrite NewConstantExpr_small by lia.
    reflexivity.
  - reflexivity.
  - exists dst. rewrite Hloop. cbn [bind]. unfold assigned.
    cbn [executor heap constraints]. rewrite Hid, heapSet_heapSet.
    split; [reflexivity | split; [reflexivity |]].
    split; [rewrite Hsize'; reflexivity |].
    intros j Hj. split; [apply (Hread j Hj) |].
    specialize (Hsel (Z.of_nat j) ltac:(subst n; lia)).
    cbn beta in Hsel. rewrite Nat2Z.id in Hsel. exact Hsel.
Qed.

(** X22: an array through the heap.  With pointers of 8 bytes, in a state
    whose allocations are disjoint, a store instruction of an array that
    holds bytes to an address inside an allocation in which they fit
    replaces that allocation by an array of the same size; and, with room
    for a new allocation, a load of that many bytes from the address as an
    array allocates an array at the next address that holds the same
    bytes.  With pointers of 4 bytes the store of an array that is not
    empty to an address that is not the base of its allocation panics, and
    so does the load of one byte or more as an array from any allocated
    address. *)
Theorem X22_array_store_load (fuel : nat) (s : ExecutionState)
    (addr : ConstantExpr) (k : Z) (v value : Array) (bs : list Z) :
  heapSorted (heap s) -> heapDisjoint (heap s) ->
  Width addr = PointerWidth (executor s) ->
  Value addr < 2 ^ PointerWidth (executor s) ->
  contains (heap s) k v (Value addr) ->
  holdsBytes (S fuel) value bs -> bs <> [] ->
  Value addr + Z.of_nat (List.length bs) <= k + ArraySize v ->
  let address := Some (ExprBinding (Constant addr)) in
  (PointerSize (executor s) = 8 ->
   exists s',
     executeStoreInstr (S fuel) address (Some (ArrayBinding value)) s
     = Ok (Returns, s') /\
     executor s' = executor s /\ constraints s' = constraints s /\
     heapSorted (heap s') /\ heapDisjoint (heap s') /\
     (exists v', In (k, v') (heap s') /\ ArraySize v' = ArraySize v) /\
     (forall k0 v0, k0 <> k -> In (k0, v0) (heap s') <-> In (k0, v0) (heap s)) /\
     exists dst,
       executeUnOpMulInstr (S fuel) (8 * Z.of_nat (List.length bs)) false
         address s'
       = Ok (Binds (Some (ArrayBinding dst)),
             mkState (executor s') (heapSet (nextAddr s') dst (heap s'))
               (constraints s')) /\
       ArrayID dst = nextAddr s' /\
       holdsBytes (S fuel) dst bs) /\
  (PointerSize (executor s) = 4 ->
   (Value addr <> k ->
    executeStoreInstr (S fuel) address (Some (ArrayBinding value)) s
    = Panic "assert: add: width mismatch") /\
   (forall width,
      8 <= width < 2 ^ 64 ->
      executeUnOpMulInstr (S fuel) width false address s
      = Panic "assert: selectByte: invalid array index width")).
Proof.
  intros Hsorted Hdisjoint Hw Hv Hc Hholds Hbs Hfits address.
  destruct (heapDisjoint_in _ _ _ Hdisjoint (proj1 Hc)) as [Hk [Hsize Hend]].
  assert (Hn : 0 < Z.of_nat (List.length bs))
    by (destruct bs; [contradiction | cbn [List.length]; lia]).
  split.
  - intros Hps.
    assert (Hpw : PointerWidth (executor s) = 64)
      by (unfold PointerWidth; rewrite Hps; reflexivity).
    rewrite Hpw in Hw, Hv.
    destruct (copy_stores fuel s addr k v value bs Hsorted Hdisjoint Hpw
                (conj Hw Hv) Hc Hfits Hholds fuel)
      as [a' [Hcopy [Hsize' Hread]]].
    set (s' := mkState (executor s) (heapSet k a' (heap s)) (constraints s)).
    destruct (heapSet_replace k a' v (heap s) Hsorted Hdisjoint (proj1 Hc)
                Hsize') as [Hdisjoint' [Hin' [Hfrom Hto]]].
    assert (Hsorted' : heapSorted (heap s'))
      by (apply heapSet_sorted; exact Hsorted).
    exists s'.
    split; [| split; [reflexivity | split; [reflexivity |
            split; [exact Hsorted' | split; [exact Hdisjoint' |
            split; [exists a'; split; assumption | split]]]]]].
    + subst address. unfold executeStoreInstr. cbn [EvalAsConstantExpr].
      rewrite Hcopy. reflexivity.
    + intros k0 v0 Hk0. split.
      * intros H. destruct (Hfrom _ _ H) as [Heq | [H' _]]; [| exact H'].
        injection Heq as Heq _. contradiction.
      * intros H. apply Hto; assumption.
    + apply (load_array fuel fuel s' addr k a' bs Hsorted' Hdisjoint' Hpw Hw Hv).
      * split; [exact Hin' | rewrite Hsize'; apply Hc].
      * rewrite Hsize'. exact Hfits.
      * intros j Hj. split; [apply (proj2 Hholds j Hj) |].
        specialize (Hread (Z.of_nat j) ltac:(lia)).
        rewrite Nat2Z.id in Hread. exact Hread.
      * destruct Hc as [_ Hrange]. lia.
  - intros Hps.
    assert (Hpw : PointerWidth (executor s) = 32)
      by (unfold PointerWidth; rewrite Hps; reflexivity).
    rewrite Hpw in Hv.
    assert (Hoffset : forall rec,
               newSubExpr rec (Constant addr)
                 (Constant (NewConstantExpr k (PointerWidth (executor s))))
               = Ok (Const (Value addr - k) 32)).
    { intros rec.
      assert (Hpointer : 0 < PointerWidth (executor s) <= 64)
        by (rewrite Hpw; lia).
      assert (Haddress : Width addr = PointerWidth (executor s) /\
                         Value addr < 2 ^ PointerWidth (executor s))
        by (rewrite Hpw; split; [rewrite <- Hpw; exact Hw | exact Hv]).
      rewrite (offset_of_address s addr k v Hdisjoint Hpointer Haddress Hc).
      rewrite Hpw. reflexivity. }
    split.
    + intros Hne. subst address. unfold executeStoreInstr.
      cbn [EvalAsConstantExpr]. unfold State.Copy.
      rewrite (findAllocContainingAddr_finds addr s k v Hsorted Hdisjoint Hc).
      destruct Hholds as [Hvsize _]. rewrite Hvsize.
      destruct (Z.to_nat (Z.of_nat (List.length bs))) as [| m] eqn:Hm; [lia |].
      cbn [State.copyBytes]. rewrite Hoffset. cbn [bind].
      unfold newAddExpr, otherwise.
      cbn [IsConstantExpr negb andb ExprWidth Const Width Value Z.eqb Pos.eqb].
      destruct (Z.eqb_spec (Value addr - k) 0) as [Hzero | _]; [lia |].
      reflexivity.
    + intros width Hwidth. subst address. unfold executeUnOpMulInstr.
      rewrite (findAllocContainingAddr_finds addr s k v Hsorted Hdisjoint Hc).
      rewrite Hoffset. cbn [bind]. unfold Alloc, NewArray. cbn [ArraySize].
      assert (Hbytes : 1 <= width / 8)
        by (apply Z.div_le_lower_bound; lia).
      destruct (Z.to_nat (width / 8)) as [| m] eqn:Hm; [lia |].
      cbn [loop executor]. rewrite Hpw.
      unfold newAddExpr, otherwise.
      cbn [IsConstantExpr negb andb ExprWidth Const Width Value Z.eqb Pos.eqb].
      destruct (Value addr - k =? 0); reflexivity.
Qed.

Lemma X22_array_store_load_witness :
  let v := mkArray 64 16 NoUpdate in
  let value := mkArray 0 2
                 (Update (Const 1 64) (Const 98 8)
                    (Update (Const 0 64) (Const 97 8) NoUpdate)) in
  let s := mkState (mkExecutor "amd64" 8) [(64, v)] [] in
  let s32 := mkState (mkExecutor "386" 4) [(64, v)] [] in
  (exists s' dst s'',
     executeStoreInstr 1 (Some (ExprBinding (Const 70 64)))
       (Some (ArrayBinding value)) s = Ok (Returns, s') /\
     executeUnOpMulInstr 1 16 false (Some (ExprBinding (Const 70 64))) s'
     = Ok (Binds (Some (ArrayBinding dst)), s'') /\
     holdsBytes 1 dst [97; 98]) /\
  executeStoreInstr 1 (Some (ExprBinding (Const 70 32)))
    (Some (ArrayBinding value)) s32
  = Panic "assert: add: width mismatch" /\
  executeUnOpMulInstr 1 16 false (Some (ExprBinding (Const 70 32))) s32
  = Panic "assert: selectByte: invalid array index width".
Proof.
  intros v value s s32.
  assert (Hvalue : holdsBytes 1 value [97; 98]) by holds_bytes.
  assert (Hsorted : heapSorted [(64, v)])
    by (cbn; split; [intros k' [] | exact I]).
  assert (Hdisjoint : heapDisjoint [(64, v)])
    by (cbn; repeat split; try lia; intros k' v' []).
  split; [| split].
  - destruct (X22_array_store_load 0 s (mkConstant 70 64) 64 v value [97; 98]
                Hsorted Hdisjoint eq_refl ltac:(cbn; lia)
                ltac:(split; [left; reflexivity | cbn; lia]) Hvalue
                ltac:(discriminate) ltac:(cbn; lia))
      as [H64 _].
    destruct (H64 eq_refl) as [s' [Hstore [_ [_ [_ [_ [_ [_ [dst [Hload [_ Hdst]]]]]]]]]]].
    exists s', dst. eexists. split; [exact Hstore |].
    split; [exact Hload | exact Hdst].
  - destruct (X22_array_store_load 0 s32 (mkConstant 70 32) 64 v value [97; 98]
                Hsorted Hdisjoint eq_refl ltac:(cbn; lia)
                ltac:(split; [left; reflexivity | cbn; lia]) Hvalue
                ltac:(discriminate) ltac:(cbn; lia))
      as [_ H32].
    apply (proj1 (H32 eq_refl)). cbn. lia.
  - destruct (X22_array_store_load 0 s32 (mkConstant 70 32) 64 v value [97; 98]
                Hsorted Hdisjoint eq_refl ltac:(cbn; lia)
                ltac:(split; [left; reflexivity | cbn; lia]) Hvalue
                ltac:(discriminate) ltac:(cbn; lia))
      as [_ H32].
    apply (proj2 (H32 eq_refl) 16). cbn. lia.
Defined.

(** ** Symbolic integers *)

Lemma IsSymbolic_NewArray (id size : Z) :
  0 < size -> IsSymbolic (NewArray id size) = Ok true.
Proof.
  intros Hsize. unfold IsSymbolic, NewArray.
  cbn [ArrayUpdates ArraySize markConcrete bind].
  destruct (Z.to_nat size) as [| m] eqn:Hm; [lia | reflexivity].
Qed.

Section SelectWhole.

Variables (fuel : nat) (id n : Z) (isLittleEndian : bool).

Hypothesis bytes : 1 <= n.
Hypothesis bits : 8 * n < 2 ^ 64.

Let array := NewArray id n.
Let index := byteIndex 0 isLittleEndian n.

Lemma selectBytes_whole :
  forall (k m : nat) (acc : option Expr),
    Z.of_nat m + Z.of_nat k = n ->
    acc = (if (m =? 0)%nat then None
           else Some (selectedBytes array index (m - 1))) ->
    selectBytes (S fuel) array (Const 0 64) isLittleEndian n k (Z.of_nat m) acc
    = Ok (if (m + k =? 0)%nat then None
          else Some (selectedBytes array index (m + k - 1))).
Proof.
  induction k as [| k IH]; intros m acc Hmk ->.
  - rewrite Nat.add_0_r. reflexivity.
  - cbn [selectBytes].
    rewrite (index_of_iteration fuel 0 n isLittleEndian) by lia.
    cbn [bind]. fold index.
    unfold selectByte at 1.
    cbn [ExprWidth Const Width assert bind Z.eqb Pos.eqb array NewArray
         ArrayUpdates selectUpdate].
    unfold NewSelectExpr.
    fold (Const (index (Z.of_nat m)) 64). fold (NewArray id n). fold array.
    replace (Z.of_nat m + 1) with (Z.of_nat (S m)) by lia.
    replace (m + S k)%nat with (S m + k)%nat by lia.
    destruct m as [| m].
    + change (Z.of_nat 0 =? 0) with true. cbn [bind].
      apply (IH 1%nat); [lia | reflexivity].
    + replace (Z.of_nat (S m) =? 0) with false
        by (symmetry; apply Z.eqb_neq; lia).
      cbn [Nat.eqb Nat.sub]. rewrite Nat.sub_0_r.
      unfold NewConcatExpr, newConcatExpr, otherwise.
      destruct m; cbn [selectedBytes bind];
        (apply (IH (S (S _))); [lia |]);
        cbn [Nat.eqb Nat.sub]; reflexivity.
Qed.

Lemma selectedBytes_width (m : nat) :
  Z.of_nat m < n -> ExprWidth (selectedBytes array index m) = 8 * (Z.of_nat m + 1).
Proof.
  induction m as [| m IH]; intros Hm; [reflexivity |].
  cbn [selectedBytes ExprWidth]. rewrite IH by lia.
  unfold uint64. rewrite uintN_small by lia. lia.
Qed.

Lemma selectedBytes_selects (m : nat) :
  selects (selectedBytes array index m) = repeat array (S m).
Proof.
  induction m as [| m IH]; [reflexivity |].
  cbn [selectedBytes selects]. rewrite IH. reflexivity.
Qed.

Lemma visitArrays_again (m : nat) :
  visitArrays (arrayExprVisitor.mk [(id, array)]) (repeat array m)
  = Ok (arrayExprVisitor.mk [(id, array)]).
Proof.
  pose proof (IsSymbolic_NewArray id n ltac:(lia)) as Hsym.
  fold array in Hsym.
  induction m as [| m IH]; [reflexivity |].
  cbn [repeat visitArrays arrayExprVisitor.Visit]. rewrite Hsym.
  change (ArrayID array) with id.
  cbn [bind arrayExprVisitor.m arrayOf].
  rewrite Z.eqb_refl. cbn [bind snd]. exact IH.
Qed.

Lemma FindArrays_whole (m : nat) :
  FindArrays [selectedBytes array index m] = Ok [array].
Proof.
  unfold FindArrays. rewrite walkAll_visits. cbn [flat_map].
  rewrite app_nil_r, selectedBytes_selects.
  pose proof (IsSymbolic_NewArray id n ltac:(lia)) as Hsym.
  fold array in Hsym.
  cbn [repeat visitArrays arrayExprVisitor.Visit]. rewrite Hsym.
  change (ArrayID array) with id.
  cbn [bind newArrayExprVisitor arrayExprVisitor.m arrayOf snd].
  rewrite visitArrays_again. reflexivity.
Qed.

End SelectWhole.

Lemma execInt_selects (fuel : nat) (n : Z) (s : ExecutionState) :
  1 <= n -> 8 * n < 2 ^ 64 ->
  let array := NewArray (nextAddr s) n in
  execInt (S fuel) (8 * n) s
  = Ok (Binds (Some (ExprBinding
                       (selectedBytes array
                          (byteIndex 0 (IsLittleEndian (executor s)) n)
                          (Z.to_nat (n - 1))))),
        mkState (executor s) (heapSet (nextAddr s) array (heap s))
          (constraints s)).
Proof.
  intros Hn Hbits array.
  unfold execInt, Alloc.
  replace (8 * n / 8) with n by (rewrite Z.mul_comm, Z.div_mul; lia).
  cbn [executor]. fold array. unfold Select.
  replace (8 * n >? 0) with true by (symmetry; apply Z.gtb_lt; lia).
  cbn [assert bind].
  rewrite (newZExtExpr_constant_index (S fuel) (NewConstantExpr 0 32))
    by (cbn; lia).
  cbn [bind NewConstantExpr Value Z.land].
  replace (8 * n =? WidthBool) with false
    by (symmetry; apply Z.eqb_neq; lia).
  replace (8 * n / 8) with n by (rewrite Z.mul_comm, Z.div_mul; lia).
  pose proof (selectBytes_whole fuel (nextAddr s) n
                (IsLittleEndian (executor s)) Hbits (Z.to_nat n) 0 None
                ltac:(lia) eq_refl) as Hsel.
  change (Z.of_nat 0) with 0 in Hsel. fold array in Hsel. rewrite Hsel.
  replace (0 + Z.to_nat n =? 0)%nat with false
    by (symmetry; apply Nat.eqb_neq; lia).
  cbn [bind option_map].
  replace (0 + Z.to_nat n - 1)%nat with (Z.to_nat (n - 1)) by lia.
  reflexivity.
Qed.

(** X23: [execInt] for a type of [n] bytes, 1 or more, allocates an array
    of [n] bytes at the next address and binds the concatenation of the
    selects of its bytes, the byte at index [n - 1] first on a
    little-endian executor and the byte at index 0 first otherwise.  The
    expression has [8 * n] bits, the array is symbolic, and [FindArrays]
    of the expression returns this array alone. *)
Theorem X23_execInt (fuel : nat) (n : Z) (s : ExecutionState) :
  1 <= n -> 8 * n < 2 ^ 64 ->
  let array := NewArray (nextAddr s) n in
  let e := selectedBytes array (byteIndex 0 (IsLittleEndian (executor s)) n)
             (Z.to_nat (n - 1)) in
  execInt (S fuel) (8 * n) s
  = Ok (Binds (Some (ExprBinding e)),
        mkState (executor s) (heapSet (nextAddr s) array (heap s))
          (constraints s)) /\
  ExprWidth e = 8 * n /\
  IsSymbolic array = Ok true /\
  FindArrays [e] = Ok [array].
Proof.
  intros Hn Hbits array e.
  split; [| split; [| split]].
  - apply execInt_selects; assumption.
  - subst e array. rewrite selectedBytes_width by lia. lia.
  - apply IsSymbolic_NewArray. lia.
  - apply (FindArrays_whole (nextAddr s) n (IsLittleEndian (executor s))); lia.
Qed.

Lemma X23_execInt_witness :
  let s := mkState (mkExecutor "amd64" 8) [] [] in
  let array := NewArray 64 2 in
  let e := ConcatExpr (SelectExpr array (Const 1 64))
             (SelectExpr array (Const 0 64)) in
  execInt 1 16 s
  = Ok (Binds (Some (ExprBinding e)), mkState (executor s) [(64, array)] []) /\
  ExprWidth e = 16 /\
  FindArrays [e] = Ok [array].
Proof.
  intros s array e.
  destruct (X23_execInt 0 2 s ltac:(lia) ltac:(cbn; lia)) as [H1 [H2 [_ H3]]].
  split; [exact H1 | split; [exact H2 | exact H3]].
Defined.

(** ** The value of a symbolic integer *)

Lemma integerOf_range (byte : Z -> Z) (m : nat) :
  (forall j, 0 <= j <= Z.of_nat m -> 0 <= byte j < 256) ->
  0 <= integerOf byte m < 2 ^ (8 * (Z.of_nat m + 1)).
Proof.
  induction m as [| m IH]; intros Hbytes.
  - cbn [integerOf]. specialize (Hbytes 0 ltac:(lia)).
    change (2 ^ (8 * (Z.of_nat 0 + 1))) with 256. lia.
  - cbn [integerOf].
    specialize (IH ltac:(intros j Hj; apply Hbytes; lia)).
    specialize (Hbytes (Z.of_nat (S m)) ltac:(lia)).
    replace (8 * (Z.of_nat (S m) + 1)) with (8 * Z.of_nat (S m) + 8) by lia.
    rewrite Z.pow_add_r by lia. change (2 ^ 8) with 256.
    replace (8 * (Z.of_nat m + 1)) with (8 * Z.of_nat (S m)) in IH by lia.
    pose proof (Z.pow_pos_nonneg 2 (8 * Z.of_nat (S m)) ltac:(lia) ltac:(lia)).
    nia.
Qed.

(** The concatenation of a byte and a constant of [s] bits below it. *)
Lemma Concat_byte (b d s : Z) :
  0 <= b < 256 -> 0 < s -> s + 8 <= 64 -> 0 <= d < 2 ^ s ->
  Concat (mkConstant b 8) (mkConstant d s)
  = mkConstant (b * 2 ^ s + d) (s + 8).
Proof.
  intros Hb Hs Hfit Hd. unfold Concat. cbn [Value Width].
  unfold uint64. rewrite (uintN_small 64 (8 + s)) by lia.
  replace (8 + s) with (s + 8) by lia.
  pose proof (Z.pow_pos_nonneg 2 s ltac:(lia) ltac:(lia)) as Hpow.
  pose proof (concat_value (b * 2 ^ s + d) s ltac:(lia) Hfit) as Hconcat.
  rewrite Z.div_add_l in Hconcat by lia.
  rewrite (Z.div_small d) in Hconcat by lia.
  rewrite Z.add_0_r in Hconcat.
  rewrite (Z.mod_small b) in Hconcat by (change (2 ^ 8) with 256; lia).
  rewrite Z.add_comm, Z.mod_add in Hconcat by lia.
  rewrite (Z.mod_small d) in Hconcat by lia.
  rewrite Hconcat. f_equal.
  rewrite Z.add_comm. apply Z.mod_small.
  rewrite Z.pow_add_r by lia. change (2 ^ 8) with 256. nia.
Qed.

Section EvaluateWhole.

Variables (fuel : nat) (ee : ExprEvaluator) (id n : Z) (isLittleEndian : bool).
Variable initial : list Byte.byte.

Hypothesis bytes : 1 <= n <= 8.
Hypothesis bound : bytesOf id (ExprEvaluator.m ee) = Some initial.
Hypothesis enough : n <= Z.of_nat (List.length initial).

Let array := NewArray id n.
Let index := byteIndex 0 isLittleEndian n.
Let byte := fun j : Z => byteValue (nth (Z.to_nat (index j)) initial Byte.x00).

Lemma index_within (j : Z) : 0 <= j < n -> 0 <= index j < n.
Proof.
  intros Hj. subst index. unfold byteIndex. destruct isLittleEndian; lia.
Qed.

Lemma Evaluate_byte (j : Z) :
  0 <= j < n ->
  Evaluate fuel ee (SelectExpr array (Const (index j) 64))
  = Ok (inl (mkConstant (byte j) 8)).
Proof.
  intros Hj. pose proof (index_within j Hj) as Hi.
  cbn [Evaluate Const propagate bind array NewArray evaluateSelect
       evaluateUpdates].
  unfold initialByte. rewrite bound. cbn [Value].
  rewrite int64_small by lia.
  destruct (Z.geb_spec (index j) (Z.of_nat (List.length initial))); [lia |].
  rewrite (nth_error_nth' initial Byte.x00) by lia.
  rewrite NewConstantExpr_small
    by (pose proof (byteValue_range (nth (Z.to_nat (index j)) initial Byte.x00));
        unfold byteValue in *; change (2 ^ 8) with 256; lia).
  reflexivity.
Qed.

Lemma Evaluate_selectedBytes (m : nat) :
  Z.of_nat m < n ->
  Evaluate fuel ee (selectedBytes array index m)
  = Ok (inl (mkConstant (integerOf byte m) (8 * (Z.of_nat m + 1)))).
Proof.
  induction m as [| m IH]; intros Hm.
  - cbn [selectedBytes integerOf]. apply Evaluate_byte. lia.
  - cbn [selectedBytes integerOf].
    change (Evaluate fuel ee (ConcatExpr ?msb ?lsb))
      with (propagate (Evaluate fuel ee msb) (fun msb' =>
            propagate (Evaluate fuel ee lsb) (fun lsb' =>
            asConstant (NewConcatExpr fuel (Constant msb') (Constant lsb'))))).
    rewrite Evaluate_byte by lia. rewrite IH by lia.
    cbn [propagate bind]. unfold NewConcatExpr, newConcatExpr, otherwise.
    cbn [asConstant bind].
    rewrite Concat_byte.
    + replace (8 * Z.of_nat (S m)) with (8 * (Z.of_nat m + 1)) by lia.
      replace (8 * (Z.of_nat (S m) + 1)) with (8 * (Z.of_nat m + 1) + 8) by lia.
      reflexivity.
    + apply byteValue_range.
    + lia.
    + lia.
    + apply integerOf_range. intros j Hj. apply byteValue_range.
Qed.

End EvaluateWhole.

(** X24: the value of a symbolic integer.  The expression that [execInt]
    binds for a type of 1 to 8 bytes evaluates, with an evaluator that
    binds enough bytes to the id of the new array, to the constant of the
    width of the type whose bytes, the least significant one first, are
    the bound bytes at the indices 0, 1, ... on a little-endian executor
    and at the indices [n - 1], [n - 2], ... otherwise; with an evaluator
    that does not bind the id the evaluation returns the error that the
    array is not bound. *)
Theorem X24_symbolic_int_value (fuel fuel' : nat) (n : Z) (s : ExecutionState)
    (ee : ExprEvaluator) :
  1 <= n <= 8 ->
  exists e s',
    execInt (S fuel) (8 * n) s = Ok (Binds (Some (ExprBinding e)), s') /\
    (forall initial,
       bytesOf (nextAddr s) (ExprEvaluator.m ee) = Some initial ->
       n <= Z.of_nat (List.length initial) ->
       Evaluate fuel' ee e
       = Ok (inl (mkConstant
                    (integerOf
                       (fun j =>
                          byteValue
                            (nth (Z.to_nat
                                    (byteIndex 0 (IsLittleEndian (executor s))
                                       n j))
                               initial Byte.x00))
                       (Z.to_nat (n - 1)))
                    (8 * n)))) /\
    (bytesOf (nextAddr s) (ExprEvaluator.m ee) = None ->
     Evaluate fuel' ee e = Ok (inr (ArrayNotBound (nextAddr s)))).
Proof.
  intros Hn. eexists. eexists.
  split; [apply execInt_selects; lia |]. split.
  - intros initial Hbound Henough.
    rewrite (Evaluate_selectedBytes fuel' ee (nextAddr s) n
               (IsLittleEndian (executor s)) initial Hn Hbound Henough)
      by lia.
    do 3 f_equal. lia.
  - intros Hnone.
    destruct (Z.to_nat (n - 1)) as [| m];
      cbn [selectedBytes Evaluate NewArray Const propagate bind evaluateSelect
           evaluateUpdates];
      unfold initialByte; rewrite Hnone; reflexivity.
Qed.

Lemma X24_symbolic_int_value_witness :
  let s := mkState (mkExecutor "amd64" 8) [] [] in
  let ee := ExprEvaluator.mk [(64, [Byte.x02; Byte.x01])] in
  exists e s',
    execInt 1 16 s = Ok (Binds (Some (ExprBinding e)), s') /\
    Evaluate 0 ee e = Ok (inl (mkConstant 258 16)).
Proof.
  intros s ee.
  destruct (X24_symbolic_int_value 0 0 2 s ee ltac:(lia))
    as [e [s' [Hexec [Hvalue _]]]].
  exists e, s'. split; [exact Hexec |].
  apply (Hvalue [Byte.x02; Byte.x01] eq_refl). cbn. lia.
Defined.
